(** * Branch-and-cut callback of the VNF placement solver

    A shallow embedding of [src/solver/callback.cpp] (class [Callback]) and
    the properties of its cut pool, separation routines, lazy constraints
    and matheuristic, together with the placement formulation of
    [src/solver/model.cpp], against which the solutions posted by the
    matheuristic are checked, and the reading of a parameter in
    [src/instance/input.cpp].

    Modelling conventions.
    - [IloNum] / [double] values are rationals ([Q]).  The embedding of the
      class computes with them exactly, and a division by zero, which IEEE
      arithmetic turns into an infinity or a NaN, yields 0 (divisions occur
      in heuristicRule and in the greedy availability separation only).
      The lazy constraints, where the comparison of a product of doubles
      with the required availability decides whether a candidate is
      rejected, are embedded a second time in double arithmetic
      ([Module Double]): every operation returns the rounding [rnd] of its
      exact result, [binary64] being the rounding to the nearest double,
      ties to even.  Operations round one by one (no fused multiply-add, no
      extended precision).  With exact rounding the second embedding is the
      first one.
    - [int] counters are unbounded integers ([Z]): signed overflow is
      undefined in C++ and the counters only count submitted cuts.
    - The solution buffers [xSol], [ySol] and [remainingCapacity] are
      pre-sized vectors indexed by demand, section, node and vnf identifiers;
      they are total functions here, updated pointwise.
    - [class Data] (instance/data.hpp) and the helpers of tools/others.hpp are
      not part of the sources at hand: their methods are the fields of the
      records [Data] and [Libc] below, and std::sort is the class [StdSort].
    - What the callback hands to CPLEX through the [Context] (user cuts,
      rejections, heuristic solutions) is appended to a log in the state.
    - The two [while] loops whose termination depends on the data (repair in
      Phase II, greedy availability separation) run for a bounded number of
      iterations, given as [fuel].

    The file has three parts: the embedding of the source, the vocabulary of
    the statements, and the properties with their proofs. *)

From Stdlib Require Import QArith Qabs Qround Qpower Lqa ZArith List Lia Bool Arith.
From Stdlib Require Import Permutation Sorted.
From Stdlib Require String Ascii.
Import ListNotations.
Import String.StringSyntax.
Delimit Scope string_scope with string.

Local Open Scope Q_scope.

(** ** Tolerances (callback.hpp) *)

Definition EPS : Q := 1 # 10000.
Definition EPSILON : Q := 1 # 1000000.

(** ** Input parameters (instance/input.hpp) *)

Inductive Approximation_Type :=
| APPROXIMATION_TYPE_RESTRICTION
| APPROXIMATION_TYPE_NONE
| APPROXIMATION_TYPE_RELAXATION.

Record Input := {
  getNodeCover : bool;            (* NODE_COVER_ON *)
  getChainCover : bool;           (* CHAIN_COVER_ON *)
  getVnfLowerBoundCuts : bool;    (* VNF_LOWER_BOUND_CUTS_ON *)
  getSectionFailureCuts : bool;   (* SECTION_FAILURE_CUTS_ON *)
  getAvailabilityUsercuts : bool; (* AVAILABILITY_USERCUTS_ON *)
  getHeuristic : bool;            (* HEURISTIC_ON *)
  getApproximationType : Approximation_Type
}.

(** ** The instance data, as the callback reads it

    [nodes] lists the node identifiers in the order in which
    [NodeIt n(data.getGraph())] visits them. *)

Record Data := {
  getInput : Input;
  nodes : list nat;
  getNbVnfs : nat;
  getNbDemands : nat;
  getNbVNFs : nat -> nat;              (* getDemand(k).getNbVNFs() *)
  getVNF_i : nat -> nat -> nat;        (* getDemand(k).getVNF_i(i) *)
  getBandwidth : nat -> Q;             (* getDemand(k).getBandwidth() *)
  getAvailability : nat -> Q;          (* getDemand(k).getAvailability() *)
  getConsumption : nat -> Q;           (* getVnf(f).getConsumption() *)
  getCapacity : nat -> Q;              (* getNode(v).getCapacity() *)
  nodeAvailability : nat -> Q;         (* getNode(v).getAvailability() *)
  getPlacementCost : nat -> nat -> Q;
  getAvailNodeRank : list nat;
  getNodeRankPosition : nat -> nat;
  getMinNbNodes : Q -> Q -> Z;
  getVnfLB : Q -> nat -> Z;
  getVnfLB_U : (nat -> bool) -> nat -> Q -> Q;
  getFailureProb : list nat -> Q;
  getChainAvailability : list Q -> Q;
  getVnfId : nat -> nat;               (* getVnf(i).getId() *)
  getSortedIndexes_Asc : list Q -> list nat
}.

Definition getNbNodes (d : Data) : nat := length (nodes d).

(** ** The C library: rand/srand and log

    The hidden state of the generator is encoded as an integer: [srand]
    maps a seed to a generator state and [rand] returns the next draw
    together with the next state. *)

Record Libc := {
  srand : Z -> Z;
  rand : Z -> Z * Z;
  RAND_MAX : Z;
  log : Q -> Q
}.

(** ** Variables, expressions and ranges of the solver *)

Inductive Var :=
| x_var (k i v : nat)
| y_var (v f : nat).

Definition IloExpr := list (Q * Var).

Inductive CutName :=
| Section_Fail (k i : nat)
| VNF_LowerBound (k : nat)
| NodeCover (k i v : nat)
| ChainCoverCut (k nb_sections : nat)
| GenCoverCut (k nb_sections limit_node : nat)
| heurAvailabilityCut
| Unnamed.

(** [IloRange(env, lb, expr, ub, name)]; [None] stands for [IloInfinity]. *)
Record IloRange := {
  getLB : Q;
  getExpr : IloExpr;
  getUB : option Q;
  getName : CutName
}.

(** ** Pointwise updates of the buffers *)

Definition upd1 {A} (m : nat -> A) (a : nat) (x : A) : nat -> A :=
  fun a' => if Nat.eqb a' a then x else m a'.

Definition upd2 {A} (m : nat -> nat -> A) (a b : nat) (x : A) : nat -> nat -> A :=
  upd1 m a (upd1 (m a) b x).

Definition upd3 {A} (m : nat -> nat -> nat -> A) (a b c : nat) (x : A)
  : nat -> nat -> nat -> A :=
  upd1 m a (upd2 (m a) b c x).

(** ** Cut pool: node-cover cuts *)

(** The vector [c] of addAvailabilityCoverConstraints: sized and
    zero-initialised by [resize], then written at every ranked node. *)
Definition cover_c (d : Data) (k : nat) : nat -> Z :=
  fold_left
    (fun c v => upd1 c v (getMinNbNodes d (getAvailability d k) (nodeAvailability d v)))
    (getAvailNodeRank d) (fun _ => 0%Z).

Definition cover_coeff (d : Data) (c : nat -> Z) (v node_id : nat) : Z :=
  if Nat.ltb (getNodeRankPosition d node_id) (getNodeRankPosition d v)
  then Z.max (c v - c node_id + 1) 1
  else 1%Z.

Definition nodeCoverCut (d : Data) (c : nat -> Z) (k i v : nat) : IloRange :=
  {| getLB := inject_Z (c v);
     getExpr := map (fun node_id => (inject_Z (cover_coeff d c v node_id), x_var k i node_id))
                    (nodes d);
     getUB := None;
     getName := NodeCover k i v |}.

Definition addAvailabilityCoverConstraints (d : Data) (pool : list IloRange)
  : list IloRange :=
  fold_left (fun pool k =>
    let c := cover_c d k in
    fold_left (fun pool i =>
      fold_left (fun pool v =>
        let pos := getNodeRankPosition d v in
        if Nat.ltb 0 pos then
          if Z.ltb (c (nth (pos - 1) (getAvailNodeRank d) 0%nat)) (c v)
          then pool ++ [nodeCoverCut d c k i v]
          else pool
        else pool)
      (nodes d) pool)
    (seq 0 (getNbVNFs d k)) pool)
  (seq 0 (getNbDemands d)) pool.

(** ** Cut pool: vnf lower bound and section failure cuts *)

Definition addVnfLowerBoundConstraints (d : Data) (pool : list IloRange)
  : list IloRange :=
  fold_left (fun pool k =>
    let REQUIRED_AVAIL := getAvailability d k in
    let NB_SECTIONS := getNbVNFs d k in
    let RHS := getVnfLB d REQUIRED_AVAIL NB_SECTIONS in
    if Z.ltb (Z.of_nat NB_SECTIONS * getVnfLB d REQUIRED_AVAIL 1) RHS then
      pool ++ [ {| getLB := inject_Z RHS;
                   getExpr := flat_map (fun i => map (fun v => (1, x_var k i v)) (nodes d))
                                       (seq 0 (getNbVNFs d k));
                   getUB := None;
                   getName := VNF_LowerBound k |} ]
    else pool)
  (seq 0 (getNbDemands d)) pool.

Definition addSectionFailureConstraints (L : Libc) (d : Data) (pool : list IloRange)
  : list IloRange :=
  fold_left (fun pool k =>
    fold_left (fun pool i =>
      let REQ_AVAIL := getAvailability d k in
      let RHS := - log L (1 - REQ_AVAIL) in
      pool ++ [ {| getLB := RHS;
                   getExpr := map (fun v => (- log L (1 - nodeAvailability d v), x_var k i v))
                                  (nodes d);
                   getUB := None;
                   getName := Section_Fail k i |} ])
    (seq 0 (getNbVNFs d k)) pool)
  (seq 0 (getNbDemands d)) pool.

Definition setCutPool (L : Libc) (d : Data) (pool : list IloRange) : list IloRange :=
  let pool := if getNodeCover (getInput d)
              then addAvailabilityCoverConstraints d pool else pool in
  let pool := if getVnfLowerBoundCuts (getInput d)
              then addVnfLowerBoundConstraints d pool else pool in
  if getSectionFailureCuts (getInput d)
  then addSectionFailureConstraints L d pool else pool.

(** ** The context handed over by the solver at each invocation *)

Inductive ContextId :=
| ThreadUp | ThreadDown | LocalProgress | GlobalProgress
| Candidate | Relaxation | Branching.

Record Context := {
  getId : ContextId;
  isCandidatePoint : bool;
  getCandidatePoint : Var -> Q;
  getRelaxationPoint : Var -> Q;
  getRelaxationObjective : Q;
  getIncumbentObjective : Q;
  time_at_entry : Q;   (* first reading of Info::Time in invoke *)
  time_at_exit : Q     (* second reading *)
}.

Definition getRelaxationValue (ctx : Context) (e : IloExpr) : Q :=
  fold_left (fun acc t => acc + fst t * getRelaxationPoint ctx (snd t)) e 0.

(** What the callback submits through the context. *)
Inductive HostAction :=
| addUserCut (cut : IloRange)
| rejectCandidate (cut : IloRange)
| postHeuristicSolution (vars : list Var) (vals : list Q) (objVal : Q).

(** ** The callback object, the generator state of rand and the log *)

Record State := {
  cutPool : list IloRange;
  xSol : nat -> nat -> nat -> Q;
  ySol : nat -> nat -> Q;
  objSol : Q;
  remainingCapacity : nat -> Q;
  nb_cuts_avail_heuristic : Z;
  nbLazyConstraints : Z;
  nbCuts : Z;
  timeAll : Q;
  rng : Z;                   (* state of the generator behind rand() *)
  host : list HostAction     (* submissions, oldest first *)
}.

Definition set_xSol (f : nat -> nat -> nat -> Q) (s : State) : State :=
  {| cutPool := cutPool s; xSol := f; ySol := ySol s; objSol := objSol s;
     remainingCapacity := remainingCapacity s;
     nb_cuts_avail_heuristic := nb_cuts_avail_heuristic s;
     nbLazyConstraints := nbLazyConstraints s; nbCuts := nbCuts s;
     timeAll := timeAll s; rng := rng s; host := host s |}.

Definition set_ySol (f : nat -> nat -> Q) (s : State) : State :=
  {| cutPool := cutPool s; xSol := xSol s; ySol := f; objSol := objSol s;
     remainingCapacity := remainingCapacity s;
     nb_cuts_avail_heuristic := nb_cuts_avail_heuristic s;
     nbLazyConstraints := nbLazyConstraints s; nbCuts := nbCuts s;
     timeAll := timeAll s; rng := rng s; host := host s |}.

Definition set_objSol (o : Q) (s : State) : State :=
  {| cutPool := cutPool s; xSol := xSol s; ySol := ySol s; objSol := o;
     remainingCapacity := remainingCapacity s;
     nb_cuts_avail_heuristic := nb_cuts_avail_heuristic s;
     nbLazyConstraints := nbLazyConstraints s; nbCuts := nbCuts s;
     timeAll := timeAll s; rng := rng s; host := host s |}.

Definition set_remainingCapacity (r : nat -> Q) (s : State) : State :=
  {| cutPool := cutPool s; xSol := xSol s; ySol := ySol s; objSol := objSol s;
     remainingCapacity := r;
     nb_cuts_avail_heuristic := nb_cuts_avail_heuristic s;
     nbLazyConstraints := nbLazyConstraints s; nbCuts := nbCuts s;
     timeAll := timeAll s; rng := rng s; host := host s |}.

Definition set_rng (g : Z) (s : State) : State :=
  {| cutPool := cutPool s; xSol := xSol s; ySol := ySol s; objSol := objSol s;
     remainingCapacity := remainingCapacity s;
     nb_cuts_avail_heuristic := nb_cuts_avail_heuristic s;
     nbLazyConstraints := nbLazyConstraints s; nbCuts := nbCuts s;
     timeAll := timeAll s; rng := g; host := host s |}.

(** [context.addUserCut], [context.rejectCandidate],
    [context.postHeuristicSolution]. *)
Definition submit (a : HostAction) (s : State) : State :=
  {| cutPool := cutPool s; xSol := xSol s; ySol := ySol s; objSol := objSol s;
     remainingCapacity := remainingCapacity s;
     nb_cuts_avail_heuristic := nb_cuts_avail_heuristic s;
     nbLazyConstraints := nbLazyConstraints s; nbCuts := nbCuts s;
     timeAll := timeAll s; rng := rng s; host := host s ++ [a] |}.

(** *** Thread protected methods *)

Definition incrementLazyConstraints (s : State) : State :=
  {| cutPool := cutPool s; xSol := xSol s; ySol := ySol s; objSol := objSol s;
     remainingCapacity := remainingCapacity s;
     nb_cuts_avail_heuristic := nb_cuts_avail_heuristic s;
     nbLazyConstraints := (nbLazyConstraints s + 1)%Z; nbCuts := nbCuts s;
     timeAll := timeAll s; rng := rng s; host := host s |}.

Definition incrementAvailabilityCutsHeuristic (s : State) : State :=
  {| cutPool := cutPool s; xSol := xSol s; ySol := ySol s; objSol := objSol s;
     remainingCapacity := remainingCapacity s;
     nb_cuts_avail_heuristic := (nb_cuts_avail_heuristic s + 1)%Z;
     nbLazyConstraints := nbLazyConstraints s; nbCuts := nbCuts s;
     timeAll := timeAll s; rng := rng s; host := host s |}.

Definition incrementUsercuts (s : State) : State :=
  {| cutPool := cutPool s; xSol := xSol s; ySol := ySol s; objSol := objSol s;
     remainingCapacity := remainingCapacity s;
     nb_cuts_avail_heuristic := nb_cuts_avail_heuristic s;
     nbLazyConstraints := nbLazyConstraints s; nbCuts := (nbCuts s + 1)%Z;
     timeAll := timeAll s; rng := rng s; host := host s |}.

Definition incrementTime (time : Q) (s : State) : State :=
  {| cutPool := cutPool s; xSol := xSol s; ySol := ySol s; objSol := objSol s;
     remainingCapacity := remainingCapacity s;
     nb_cuts_avail_heuristic := nb_cuts_avail_heuristic s;
     nbLazyConstraints := nbLazyConstraints s; nbCuts := nbCuts s;
     timeAll := timeAll s + time; rng := rng s; host := host s |}.

Definition getNbUserCuts (s : State) : Z := nbCuts s.

(** ** Outcomes: normal return, a thrown [IloCplex::Exception], an access
    at index [-1] (undefined behaviour of the source), or a loop that did not
    finish within the iterations allotted to it *)

Inductive Exception :=
| Unexpected_context_id
| Unbounded_solution_within_callback
| Integer_solution_outside_candidate_context
| Fractional_solution_outside_relaxation_context.

Inductive Result (A : Type) :=
| Ok (a : A)
| Throw (e : Exception)
| Undefined
| OutOfFuel.
Arguments Ok {A} a.
Arguments Throw {A} e.
Arguments Undefined {A}.
Arguments OutOfFuel {A}.

Definition bind {A B} (r : Result A) (f : A -> Result B) : Result B :=
  match r with
  | Ok a => f a
  | Throw e => Throw e
  | Undefined => Undefined
  | OutOfFuel => OutOfFuel
  end.

Notation "x <- r ;; k" := (bind r (fun x => k))
  (at level 61, r at next level, right associativity).

(** Strict comparison of two doubles. *)
Definition Qltb (a b : Q) : bool := negb (Qle_bool b a).

(** ** Reading the solution from the context *)

Definition fill_x (d : Data) (point : Var -> Q) (xs : nat -> nat -> nat -> Q)
  : nat -> nat -> nat -> Q :=
  fold_left (fun xs k =>
    fold_left (fun xs i =>
      fold_left (fun xs v => upd3 xs k i v (point (x_var k i v))) (nodes d) xs)
    (seq 0 (getNbVNFs d k)) xs)
  (seq 0 (getNbDemands d)) xs.

Definition getIntegerSolution (d : Data) (ctx : Context) (s : State) : Result State :=
  match getId ctx with
  | Candidate =>
      if isCandidatePoint ctx
      then Ok (set_xSol (fill_x d (getCandidatePoint ctx) (xSol s)) s)
      else Throw Unbounded_solution_within_callback
  | _ => Throw Integer_solution_outside_candidate_context
  end.

Definition getFractionalSolution (d : Data) (ctx : Context) (s : State) : Result State :=
  match getId ctx with
  | Relaxation => Ok (set_xSol (fill_x d (getRelaxationPoint ctx) (xSol s)) s)
  | _ => Throw Fractional_solution_outside_relaxation_context
  end.

(** ** Checking the pool *)

Definition violated (ctx : Context) (cut : IloRange) : bool :=
  let LHS := getRelaxationValue ctx (getExpr cut) in
  Qltb LHS (getLB cut - EPS)
  || match getUB cut with
     | Some ub => Qltb (ub + EPS) LHS
     | None => false
     end.

Definition checkCutPool (ctx : Context) (s : State) : bool * State :=
  fold_left (fun acc cut =>
    let '(found_violated_cut, s) := acc in
    if violated ctx cut
    then (true, incrementUsercuts (submit (addUserCut cut) s))
    else (found_violated_cut, s))
  (cutPool s) (false, s).

(** ** Dynamic separation: chain cover *)

(** Sum of a vector of doubles, left to right, from [0.0]. *)
Definition Qsum (l : list Q) : Q := fold_left Qplus l 0.

Definition chainCover_demand (d : Data) (k : nat) (s : State) : State :=
  let sum_over_nodes :=
    map (fun i => Qsum (map (fun v => xSol s k i v) (nodes d)))
        (seq 0 (getNbVNFs d k)) in
  let sorted_sections := getSortedIndexes_Asc d sum_over_nodes in
  let fix loop (l : list nat) : State :=
    match l with
    | [] => s
    | nb_sections :: l' =>
        let lhs := Qsum (map (fun i => nth (nth i sorted_sections 0%nat) sum_over_nodes 0)
                             (seq 0 nb_sections)) in
        let rhs := inject_Z (getVnfLB d (getAvailability d k) nb_sections) in
        if Qltb lhs (rhs - EPS) then
          let expr := flat_map (fun i =>
                        let section := nth i sorted_sections 0%nat in
                        map (fun v => (1, x_var k section v)) (nodes d))
                      (seq 0 nb_sections) in
          let cut := {| getLB := rhs; getExpr := expr; getUB := None;
                        getName := ChainCoverCut k nb_sections |} in
          incrementUsercuts (submit (addUserCut cut) s)   (* break *)
        else loop l'
    end in
  loop (seq 1 (getNbVNFs d k)).

Definition chainCoverSeparation (d : Data) (s : State) : State :=
  fold_left (fun s k => chainCover_demand d k s) (seq 0 (getNbDemands d)) s.

(** ** Dynamic separation: generalized cover *)

(** First element of a loop over [l] at which the body returns. *)
Fixpoint first_return {A B} (body : A -> option B) (l : list A) : option B :=
  match l with
  | [] => None
  | a :: l' =>
      match body a with
      | Some b => Some b
      | None => first_return body l'
      end
  end.

(** The vector [set_U] for the probe node [limit_node]. *)
Definition set_U (d : Data) (limit_node : nat) : nat -> bool :=
  fold_left (fun U v =>
    if Nat.leb (getNodeRankPosition d limit_node) (getNodeRankPosition d v)
    then upd1 U v true else U)
  (nodes d) (fun _ => false).

Definition gen_sum_over_nodes (d : Data) (xs : nat -> nat -> nat -> Q)
    (k : nat) (U : nat -> bool) (rhs : Q) : list Q :=
  map (fun i =>
         fold_left (fun acc v =>
           if U v then acc + xs k i v else acc + rhs * xs k i v) (nodes d) 0)
      (seq 0 (getNbVNFs d k)).

Definition gen_lhs (d : Data) (xs : nat -> nat -> nat -> Q)
    (k : nat) (U : nat -> bool) (rhs : Q) (nb_sections : nat) : Q :=
  let sum_over_nodes := gen_sum_over_nodes d xs k U rhs in
  let sorted_sections := getSortedIndexes_Asc d sum_over_nodes in
  Qsum (map (fun i => nth (nth i sorted_sections 0%nat) sum_over_nodes 0)
            (seq 0 nb_sections)).

Definition gen_cut (d : Data) (xs : nat -> nat -> nat -> Q)
    (k limit_node nb_sections : nat) : IloRange :=
  let U := set_U d limit_node in
  let rhs := getVnfLB_U d U nb_sections (getAvailability d k) in
  let sorted_sections :=
    getSortedIndexes_Asc d (gen_sum_over_nodes d xs k U rhs) in
  {| getLB := rhs;
     getExpr := flat_map (fun i =>
                  let section := nth i sorted_sections 0%nat in
                  map (fun v => if U v then (1, x_var k section v)
                                else (rhs, x_var k section v)) (nodes d))
                (seq 0 nb_sections);
     getUB := None;
     getName := GenCoverCut k nb_sections limit_node |}.

(** The test of the innermost loop body: a non-negative bound that the
    left-hand side misses by more than [EPS]. *)
Definition gen_violated (d : Data) (xs : nat -> nat -> nat -> Q)
    (k limit_node nb_sections : nat) : bool :=
  let U := set_U d limit_node in
  let rhs := getVnfLB_U d U nb_sections (getAvailability d k) in
  Qle_bool 0 rhs && Qltb (gen_lhs d xs k U rhs nb_sections) (rhs - EPS).

(** The three nested loops; [Some cut] when the function returns from
    inside the loops, [None] when they run to completion. *)
Definition gen_search (d : Data) (xs : nat -> nat -> nat -> Q) : option IloRange :=
  first_return (fun k =>
    first_return (fun limit_node =>
      first_return (fun nb_sections =>
        if gen_violated d xs k limit_node nb_sections
        then Some (gen_cut d xs k limit_node nb_sections)
        else None)
      (seq 1 (getNbVNFs d k)))
    (nodes d))
  (seq 0 (getNbDemands d)).

Definition generalizedCoverSeparation (d : Data) (s : State) : State :=
  match gen_search d (xSol s) with
  | Some cut => incrementUsercuts (submit (addUserCut cut) s)   (* return *)
  | None => s
  end.

(** ** Dynamic separation: greedy availability cover *)

(** The auxiliary structures of heuristicSeparationOfAvailibilityConstraints. *)
Record HeurSep := {
  coeff : nat -> nat -> Z;
  sectionNodes : nat -> list nat;
  sectionAvailability : nat -> Q
}.

Definition place (i v : nat) (h : HeurSep) : HeurSep :=
  {| coeff := upd2 (coeff h) i v 0%Z;
     sectionNodes := upd1 (sectionNodes h) i (sectionNodes h i ++ [v]);
     sectionAvailability := sectionAvailability h |}.

Definition set_sectionAvailability (i : nat) (a : Q) (h : HeurSep) : HeurSep :=
  {| coeff := coeff h;
     sectionNodes := sectionNodes h;
     sectionAvailability := upd1 (sectionAvailability h) i a |}.

(** When no node beats the initial [bestValue] the source pushes and indexes
    at [selectedNode = -1]. *)
Definition initiate_section (d : Data) (k : nat) (xs : nat -> nat -> nat -> Q)
    (i : nat) (h : HeurSep) : Result HeurSep :=
  let h := fold_left (fun h v =>
             if Qle_bool (1 - EPS) (xs k i v) then place i v h else h)
           (nodes d) h in
  h <- match sectionNodes h i with
       | [] =>
           let best :=
             fold_left (fun (acc : option nat * Q) v =>
               let '(selectedNode, bestValue) := acc in
               if Qltb bestValue (xs k i v / nodeAvailability d v)
               then (Some v, xs k i v / nodeAvailability d v)
               else acc)
             (nodes d) (None, - (1)) in
           match fst best with
           | Some selectedNode => Ok (place i selectedNode h)
           | None => Undefined
           end
       | _ => Ok h
       end ;;
  Ok (set_sectionAvailability i (1 - getFailureProb d (sectionNodes h i)) h).

Fixpoint initiate_sections (d : Data) (k : nat) (xs : nat -> nat -> nat -> Q)
    (l : list nat) (h : HeurSep) : Result HeurSep :=
  match l with
  | [] => Ok h
  | i :: l' => h' <- initiate_section d k xs i h ;; initiate_sections d k xs l' h'
  end.

Definition initiateHeuristic (d : Data) (k : nat) (xs : nat -> nat -> nat -> Q)
  : Result HeurSep :=
  let coeff0 :=
    fold_left (fun c i => fold_left (fun c v => upd2 c i v 1%Z) (nodes d) c)
              (seq 0 (getNbVNFs d k)) (fun _ _ => 0%Z) in
  initiate_sections d k xs (seq 0 (getNbVNFs d k))
    {| coeff := coeff0; sectionNodes := fun _ => []; sectionAvailability := fun _ => 0 |}.

Definition computeDeltaAvailability (d : Data) (k : nat) (CHAIN_AVAIL : Q)
    (deltaAvail : nat -> nat -> Q) (sectionAvail : nat -> Q) (coeff : nat -> nat -> Z)
  : nat -> nat -> Q :=
  fold_left (fun deltaAvail i =>
    fold_left (fun deltaAvail v =>
      if Z.eqb (coeff i v) 0 then upd2 deltaAvail i v 10
      else
        let newSectionAvail :=
          1 - ((1 - sectionAvail i) * (1 - nodeAvailability d v)) in
        let newChainAvail := (CHAIN_AVAIL / sectionAvail i) * newSectionAvail in
        upd2 deltaAvail i v (newChainAvail - CHAIN_AVAIL))
    (seq 0 (getNbNodes d)) deltaAvail)
  (seq 0 (getNbVNFs d k)) deltaAvail.

(** One search for the next (section, node) to include. *)
Definition heur_next (d : Data) (k : nat) (xs : nat -> nat -> nat -> Q)
    (REQUIRED_AVAIL chainAvailability : Q) (deltaAvailability : nat -> nat -> Q)
  : option (nat * nat) :=
  fst (fold_left (fun acc i =>
    fold_left (fun (acc : option (nat * nat) * Q) v =>
      let '(next, bestRatio) := acc in
      if Qltb (chainAvailability + deltaAvailability i v) REQUIRED_AVAIL
         && Qltb bestRatio (xs k i v / deltaAvailability i v)
      then (Some (i, v), xs k i v / deltaAvailability i v)
      else acc)
    (nodes d) acc)
  (seq 0 (getNbVNFs d k)) (None, - (1))).

(** The loop [while (!STOP)], at most [fuel] iterations. *)
Fixpoint heur_while (d : Data) (k : nat) (xs : nat -> nat -> nat -> Q)
    (REQUIRED_AVAIL : Q) (fuel : nat)
    (chainAvailability : Q) (deltaAvailability : nat -> nat -> Q) (h : HeurSep)
  : Result HeurSep :=
  match fuel with
  | O => OutOfFuel
  | S fuel' =>
      let deltaAvailability :=
        computeDeltaAvailability d k REQUIRED_AVAIL deltaAvailability
                                 (sectionAvailability h) (coeff h) in
      match heur_next d k xs REQUIRED_AVAIL chainAvailability deltaAvailability with
      | Some (nextSection, nextNode) =>
          let chainAvailability :=
            chainAvailability + deltaAvailability nextSection nextNode in
          let h := set_sectionAvailability nextSection
                     (1 - ((1 - sectionAvailability h nextSection)
                           * (1 - nodeAvailability d nextNode))) h in
          heur_while d k xs REQUIRED_AVAIL fuel' chainAvailability deltaAvailability
                     (place nextSection nextNode h)
      | None => Ok h
      end
  end.

Definition heurSeparation_demand (d : Data) (fuel : nat) (k : nat) (s : State)
  : Result State :=
  h <- initiateHeuristic d k (xSol s) ;;
  let chainAvailability :=
    getChainAvailability d (map (sectionAvailability h) (seq 0 (getNbVNFs d k))) in
  let REQUIRED_AVAIL := getAvailability d k in
  if Qltb chainAvailability REQUIRED_AVAIL then
    h <- heur_while d k (xSol s) REQUIRED_AVAIL fuel chainAvailability (fun _ _ => 0) h ;;
    let lhs :=
      fold_left (fun lhs i =>
        fold_left (fun lhs v => lhs + inject_Z (coeff h i v) * xSol s k i v) (nodes d) lhs)
      (seq 0 (getNbVNFs d k)) 0 in
    if Qltb lhs (1 - EPS) then
      let expr :=
        flat_map (fun i =>
          flat_map (fun v => if Z.eqb (coeff h i v) 1 then [(1, x_var k i v)] else [])
                   (nodes d))
        (seq 0 (getNbVNFs d k)) in
      let cut := {| getLB := 1; getExpr := expr; getUB := None;
                    getName := heurAvailabilityCut |} in
      Ok (incrementUsercuts
            (incrementAvailabilityCutsHeuristic (submit (addUserCut cut) s)))
    else Ok s
  else Ok s.

Fixpoint for_each {A} (body : A -> State -> Result State) (l : list A) (s : State)
  : Result State :=
  match l with
  | [] => Ok s
  | a :: l' => s' <- body a s ;; for_each body l' s'
  end.

Definition heuristicSeparationOfAvailibilityConstraints (d : Data) (fuel : nat)
    (s : State) : Result State :=
  for_each (heurSeparation_demand d fuel) (seq 0 (getNbDemands d)) s.

(** ** Separation on a fractional solution *)

Definition addUserCuts (d : Data) (fuel : nat) (ctx : Context) (s : State)
  : Result State :=
  s <- getFractionalSolution d ctx s ;;
  let '(found, s) := checkCutPool ctx s in
  if found then Ok s
  else
    let s := if getChainCover (getInput d)
             then chainCoverSeparation d (generalizedCoverSeparation d s)
             else s in
    if getAvailabilityUsercuts (getInput d)
    then heuristicSeparationOfAvailibilityConstraints d fuel s
    else Ok s.

(** ** Matheuristic *)

(** [((double) rand() / (RAND_MAX))]: one draw, advancing the generator. *)
Definition draw (L : Libc) (s : State) : Q * State :=
  let '(r, g) := rand L (rng s) in
  (inject_Z r / inject_Z (RAND_MAX L), set_rng g s).

Definition heuristicRule (L : Libc) (d : Data) (ctx : Context) (s : State)
  : bool * State :=
  match getApproximationType (getInput d) with
  | APPROXIMATION_TYPE_NONE =>
      let OBJ := getRelaxationObjective ctx in
      let UB := getIncumbentObjective ctx in
      let LIMIT := (UB - OBJ) / UB in
      let '(RND, s) := draw L s in
      (Qle_bool RND LIMIT, s)
  | _ => (false, s)
  end.

(** Capacity asked by section [i] of demand [k]. *)
Definition req_capacity (d : Data) (k i : nat) : Q :=
  getBandwidth d k * getConsumption d (getVNF_i d k i).

Definition phaseI_place (L : Libc) (d : Data) (ctx : Context) (v f : nat) (s : State)
  : State :=
  let '(RND, s) := draw L s in
  if Qle_bool RND (getRelaxationPoint ctx (y_var v f)) then
    set_objSol (objSol s + getPlacementCost d v f) (set_ySol (upd2 (ySol s) v f 1) s)
  else set_ySol (upd2 (ySol s) v f 0) s.

Definition phaseI_assign (L : Libc) (d : Data) (ctx : Context) (v k i : nat) (s : State)
  : State :=
  let f := getVNF_i d k i in
  let req_capacity := getBandwidth d k * getConsumption d f in
  if Qeq_bool (ySol s v f) 1 && Qle_bool req_capacity (remainingCapacity s v) then
    let '(RND, s) := draw L s in
    if Qle_bool RND (getRelaxationPoint ctx (x_var k i v)) then
      set_remainingCapacity
        (upd1 (remainingCapacity s) v (remainingCapacity s v - req_capacity))
        (set_xSol (upd3 (xSol s) k i v 1) s)
    else set_xSol (upd3 (xSol s) k i v 0) s
  else set_xSol (upd3 (xSol s) k i v 0) s.

Definition phaseI_node (L : Libc) (d : Data) (ctx : Context) (s : State) (v : nat)
  : State :=
  let s := set_remainingCapacity (upd1 (remainingCapacity s) v (getCapacity d v)) s in
  fold_left (fun s k =>
    fold_left (fun s i => phaseI_assign L d ctx v k i s) (seq 0 (getNbVNFs d k)) s)
  (seq 0 (getNbDemands d)) s.

Definition runHeuristic_Phase_I (L : Libc) (d : Data) (ctx : Context) (s : State)
  : State :=
  let s := set_objSol 0 s in
  let s := fold_left (fun s v =>
             fold_left (fun s f => phaseI_place L d ctx v f s) (seq 0 (getNbVnfs d)) s)
           (nodes d) s in
  fold_left (phaseI_node L d ctx) (nodes d) s.

(** [getSolutionAvail_k]: the availability of demand [k] in [xSol] and the
    least available section ([None] for [-1]). *)
Definition section_fail_sol (d : Data) (xs : nat -> nat -> nat -> Q) (k i : nat) : Q :=
  fold_left (fun section_fail v =>
    if Qeq_bool (xs k i v) 1
    then section_fail * (1 - nodeAvailability d v)
    else section_fail)
  (nodes d) 1.

Definition getSolutionAvail_k (d : Data) (xs : nat -> nat -> nat -> Q) (k : nat)
  : Q * option nat :=
  let '(availability, _, leastAvailableSection) :=
    fold_left (fun (acc : Q * Q * option nat) i =>
      let '(availability, minSectionAvail, least) := acc in
      let section_avail := 1 - section_fail_sol d xs k i in
      let '(minSectionAvail, least) :=
        if Qltb section_avail minSectionAvail
        then (section_avail, Some i) else (minSectionAvail, least) in
      (availability * section_avail, minSectionAvail, least))
    (seq 0 (getNbVNFs d k)) (1, 1, None) in
  (availability, leastAvailableSection).

(** [getNodeToInstall]; [minValue = None] is the initial [IloInfinity] and
    the result [None] is [-1]. *)
Definition getNodeToInstall (d : Data) (s : State) (f k : nat) : option nat :=
  let REQ_CAPACITY := getBandwidth d k * getConsumption d f in
  let '(selectedNode, _, _) :=
    fold_left (fun (acc : option nat * option Q * Q) v =>
      let '(selectedNode, minValue, maxRemainingCapacity) := acc in
      if Qle_bool REQ_CAPACITY (remainingCapacity s v) then
        let ADDITIONAL_COST := getPlacementCost d v f * (1 - ySol s v f) in
        let select := (Some v, Some ADDITIONAL_COST, remainingCapacity s v) in
        match minValue with
        | None => select
        | Some minValue' =>
            if Qle_bool ADDITIONAL_COST (minValue' + EPSILON) then
              if Qle_bool ADDITIONAL_COST (minValue' - EPSILON) then select
              else if Qle_bool (maxRemainingCapacity + EPSILON) (remainingCapacity s v)
                   then select else acc
            else acc
        end
      else acc)
    (nodes d) (None, None, 0) in
  selectedNode.

(** One iteration of the repair loop for demand [k], at section [i]. *)
Definition phaseII_install (d : Data) (k i v : nat) (s : State) : State :=
  let f := getVNF_i d k i in
  let s := set_xSol (upd3 (xSol s) k i v 1) s in
  let s := set_remainingCapacity
             (upd1 (remainingCapacity s) v
                   (remainingCapacity s v - getBandwidth d k * getConsumption d f)) s in
  if Qeq_bool (ySol s v f) 0 then
    set_objSol (objSol s + getPlacementCost d v f) (set_ySol (upd2 (ySol s) v f 1) s)
  else s.

(** The loop [while (getSolutionAvail_k(k, i) < REQ_AVAIL)], at most [fuel]
    iterations; the boolean is [false] when the function returns [false]. *)
Fixpoint phaseII_while (d : Data) (k : nat) (fuel : nat) (s : State)
  : Result (bool * State) :=
  match fuel with
  | O => OutOfFuel
  | S fuel' =>
      let '(avail, least) := getSolutionAvail_k d (xSol s) k in
      if Qltb avail (getAvailability d k) then
        match least with
        | None => Undefined
        | Some i =>
            match getNodeToInstall d s (getVNF_i d k i) k with
            | None => Ok (false, s)
            | Some v => phaseII_while d k fuel' (phaseII_install d k i v s)
            end
        end
      else Ok (true, s)
  end.

Fixpoint phaseII_demands (d : Data) (fuel : nat) (l : list nat) (s : State)
  : Result (bool * State) :=
  match l with
  | [] => Ok (true, s)
  | k :: l' =>
      r <- phaseII_while d k fuel s ;;
      if fst r then phaseII_demands d fuel l' (snd r) else Ok (false, snd r)
  end.

Definition runHeuristic_Phase_II (d : Data) (fuel : nat) (s : State)
  : Result (bool * State) :=
  phaseII_demands d fuel (seq 0 (getNbDemands d)) s.

Definition insertHeuristicSolution (d : Data) (s : State) : State :=
  let y_pairs := flat_map (fun v => map (fun f => (v, f)) (seq 0 (getNbVnfs d))) (nodes d) in
  let x_triples :=
    flat_map (fun k =>
      flat_map (fun i => map (fun v => (k, i, v)) (nodes d)) (seq 0 (getNbVNFs d k)))
    (seq 0 (getNbDemands d)) in
  let vars := map (fun p => y_var (fst p) (snd p)) y_pairs
              ++ map (fun t => x_var (fst (fst t)) (snd (fst t)) (snd t)) x_triples in
  let vals := map (fun p => ySol s (fst p) (snd p)) y_pairs
              ++ map (fun t => xSol s (fst (fst t)) (snd (fst t)) (snd t)) x_triples in
  let objVal :=
    fold_left (fun objVal v =>
      fold_left (fun objVal i =>
        let f := getVnfId d i in
        objVal + getPlacementCost d v f * ySol s v f)
      (seq 0 (getNbVnfs d)) objVal)
    (nodes d) 0 in
  submit (postHeuristicSolution vars vals objVal) s.

Definition runHeuristic (L : Libc) (d : Data) (fuel : nat) (ctx : Context) (s : State)
  : Result State :=
  if negb (getHeuristic (getInput d)) then Ok s
  else
    let '(go, s) := heuristicRule L d ctx s in
    if negb go then Ok s
    else
      let s := runHeuristic_Phase_I L d ctx s in
      r <- runHeuristic_Phase_II d fuel s ;;
      let '(isFeasible, s) := r in
      if isFeasible && Qltb (objSol s) (getIncumbentObjective ctx)
      then Ok (insertHeuristicSolution d s)
      else Ok s.

(** ** Lazy constraints on an integer candidate *)

Record MapAvailability := {
  section : nat;
  availability : Q
}.

Definition compareAvailability (a b : MapAvailability) : bool :=
  Qltb (availability a) (availability b).

(** [std::sort(first, last, compareAvailability)]: any rearrangement of the
    records in which no later record compares below an earlier one; the order
    among records of equal availability is left to the implementation. *)
Class StdSort := {
  std_sort : list MapAvailability -> list MapAvailability;
  std_sort_perm : forall l, Permutation (std_sort l) l;
  std_sort_sorted : forall l,
    StronglySorted (fun a b => compareAvailability b a = false) (std_sort l)
}.

Definition getAvailabilityOfSection (d : Data) (xs : nat -> nat -> nat -> Q) (k i : nat)
  : Q :=
  let failure_prob :=
    fold_left (fun failure_prob v =>
      if Qle_bool (1 - EPS) (xs k i v)
      then failure_prob * (1 - nodeAvailability d v)
      else failure_prob)
    (nodes d) 1 in
  1 - failure_prob.

Definition getAvailabilitiesOfSections (d : Data) (xs : nat -> nat -> nat -> Q) (k : nat)
  : list MapAvailability :=
  map (fun i => {| section := i; availability := getAvailabilityOfSection d xs k i |})
      (seq 0 (getNbVNFs d k)).

Definition rec0 : MapAvailability := {| section := 0; availability := 0 |}.

(** [sectionAvailability[s].availability = a]. *)
Fixpoint set_availability (recs : list MapAvailability) (s : nat) (a : Q)
  : list MapAvailability :=
  match recs, s with
  | [], _ => []
  | r :: recs', O => {| section := section r; availability := a |} :: recs'
  | r :: recs', S s' => r :: set_availability recs' s' a
  end.

(** The inner loop of [lift] over [j]: the availability of the first
    [nbSections] sorted sections if node [v] were added to the [s]-th one,
    and the availability that section would get. *)
Definition lift_future (d : Data) (recs : list MapAvailability) (nbSections s v : nat)
  : Q * Q :=
  fold_left (fun (acc : Q * Q) j =>
    let '(futureAvailability, futureAvailabilityOfSection) := acc in
    if Nat.eqb s j then
      let newFailureRate :=
        (1 - availability (nth j recs rec0)) * (1 - nodeAvailability d v) in
      let futureAvailabilityOfSection := 1 - newFailureRate in
      (futureAvailability * futureAvailabilityOfSection, futureAvailabilityOfSection)
    else
      (futureAvailability * availability (nth j recs rec0), futureAvailabilityOfSection))
  (seq 0 nbSections) (1, availability (nth s recs rec0)).

(** [lift] works on the matrix [xSol[k]] of one demand and on the sorted
    records, both passed by reference. *)
Definition lift_node (d : Data) (availabilityRequired : Q) (nbSections s : nat)
    (acc : (nat -> nat -> Q) * list MapAvailability) (v : nat)
  : (nat -> nat -> Q) * list MapAvailability :=
  let '(xs, recs) := acc in
  let i := section (nth s recs rec0) in
  if Qltb (xs i v) (1 - EPS) then
    let '(futureAvailability, futureAvailabilityOfSection) :=
      lift_future d recs nbSections s v in
    if Qltb futureAvailability availabilityRequired
    then (upd2 xs i v 1, set_availability recs s futureAvailabilityOfSection)
    else (xs, recs)
  else (xs, recs).

Definition lift (d : Data) (xs : nat -> nat -> Q) (availabilityRequired : Q)
    (recs : list MapAvailability) (nbSections : nat)
  : (nat -> nat -> Q) * list MapAvailability :=
  fold_left (fun acc s =>
    fold_left (lift_node d availabilityRequired nbSections s) (nodes d) acc)
  (seq 0 nbSections) (xs, recs).

(** The loop that accumulates the sorted availabilities:
    [while ((chainAvailability >= REQUIRED_AVAIL) && (index < NbVNFs))];
    [todo] is [NbVNFs - index].  It returns [chainAvailability] and
    [nbSelectedSections] (which equals [index]). *)
Fixpoint select_sections (REQUIRED_AVAIL : Q) (recs : list MapAvailability)
    (todo : nat) (chainAvailability : Q) (index : nat) : Q * nat :=
  match todo with
  | O => (chainAvailability, index)
  | S todo' =>
      if Qle_bool REQUIRED_AVAIL chainAvailability
      then select_sections REQUIRED_AVAIL recs todo'
             (chainAvailability * availability (nth index recs rec0)) (S index)
      else (chainAvailability, index)
  end.

(** The inequality built after lifting, over the first [nbSelectedSections]
    sorted sections. *)
Definition nogood_expr (d : Data) (k : nat) (xs : nat -> nat -> Q)
    (recs : list MapAvailability) (nbSelectedSections : nat) : IloExpr :=
  flat_map (fun s =>
    let i := section (nth s recs rec0) in
    flat_map (fun v => if Qltb (xs i v) (1 - EPS) then [(1, x_var k i v)] else [])
             (nodes d))
  (seq 0 nbSelectedSections).

Definition lazy_demand `{StdSort} (d : Data) (s : State) (k : nat) : State :=
  let sectionAvailability := std_sort (getAvailabilitiesOfSections d (xSol s) k) in
  let REQUIRED_AVAIL := getAvailability d k in
  let '(chainAvailability, nbSelectedSections) :=
    select_sections REQUIRED_AVAIL sectionAvailability (getNbVNFs d k) 1 0 in
  if Qltb chainAvailability REQUIRED_AVAIL then
    let '(xs_k, sectionAvailability) :=
      lift d (xSol s k) REQUIRED_AVAIL sectionAvailability nbSelectedSections in
    let s := set_xSol (upd1 (xSol s) k xs_k) s in
    let cut := {| getLB := 1;
                  getExpr := nogood_expr d k xs_k sectionAvailability nbSelectedSections;
                  getUB := None;
                  getName := Unnamed |} in
    incrementLazyConstraints (submit (rejectCandidate cut) s)
  else s.

Definition addLazyConstraints `{StdSort} (d : Data) (ctx : Context) (s : State)
  : Result State :=
  s <- getIntegerSolution d ctx s ;;
  Ok (fold_left (lazy_demand d) (seq 0 (getNbDemands d)) s).

(** ** The dispatcher *)

Definition invoke `{StdSort} (L : Libc) (d : Data) (fuel : nat) (ctx : Context)
    (s : State) : Result State :=
  let time_start := time_at_entry ctx in
  s <- match getId ctx with
       | Relaxation =>
           let current_number_of_cuts := getNbUserCuts s in
           s <- addUserCuts d fuel ctx s ;;
           if Z.eqb current_number_of_cuts (getNbUserCuts s)
           then runHeuristic L d fuel ctx s
           else Ok s
       | Candidate =>
           if isCandidatePoint ctx then addLazyConstraints d ctx s else Ok s
       | _ => Throw Unexpected_context_id
       end ;;
  let time_spent := time_at_exit ctx - time_start in
  Ok (incrementTime time_spent s).

(** ** The constructor

    [rng_before] is the state in which the process generator happens to be
    when the callback is built; [srand(SEED)] replaces it. *)

Definition SEED : Z := 20102019.

Definition Callback (L : Libc) (d : Data) (rng_before : Z) : State :=
  {| cutPool := setCutPool L d [];
     xSol := fun _ _ _ => 0;
     ySol := fun _ _ => 0;
     objSol := 0;
     remainingCapacity := fun _ => 0;
     nb_cuts_avail_heuristic := 0;
     nbLazyConstraints := 0;
     nbCuts := 0;
     timeAll := 0;
     rng := srand L SEED;
     host := [] |}.

(** A run of the search: the solver builds the callback once and then
    invokes it on each event in turn; an exception ends the run. *)
Fixpoint run_events `{StdSort} (L : Libc) (d : Data) (fuel : nat)
    (events : list Context) (s : State) : Result State :=
  match events with
  | [] => Ok s
  | ctx :: events' => s' <- invoke L d fuel ctx s ;; run_events L d fuel events' s'
  end.

Definition run `{StdSort} (L : Libc) (d : Data) (fuel : nat) (rng_before : Z)
    (events : list Context) : Result State :=
  run_events L d fuel events (Callback L d rng_before).

(** ** Integrality of an assignment *)

(** [isIntegerAssignment]: [false] as soon as an entry of demand [k] lies in
    [EPS, 1 - EPS]. *)
Definition isIntegerAssignment (d : Data) (xs : nat -> nat -> nat -> Q) (k : nat)
  : bool :=
  match
    first_return (fun i =>
      first_return (fun v =>
        if Qle_bool EPS (xs k i v) && Qle_bool (xs k i v) (1 - EPS)
        then Some false else None)
      (nodes d))
    (seq 0 (getNbVNFs d k))
  with
  | Some b => b
  | None => true
  end.

(** * The formulation (solver/model.cpp)

    The model adds to CPLEX the ranges built here.  The parameters of Input
    that only the model reads, the one-argument [Data::getMinNbNodes] and the
    ranges of the families that touch routing, delay and approximation
    variables are taken as given. *)

(** Names of the ranges of the model. *)
Inductive ModelName :=
| Original_VNF_Placement (f v : nat)
| VNF_Placement (k i v : nat)
| VNF_Assignment (k i : nat)
| Node_Capacity (v : nat)
| Strong_Node_Capacity (v f : nat).

(** [IloRange(env, lb, expr, ub, name)] as the model builds it: either bound
    may be infinite ([None]). *)
Record ModelRange := {
  lower : option Q;
  body : IloExpr;
  upper : option Q;
  label : ModelName
}.

Record Formulation := {
  getDisaggregatedVnfPlacement : option bool; (* Some false: OFF, Some true: ON *)
  getStrongNodeCapacity : bool;               (* STRONG_NODE_CAPACITY_ON *)
  getRoutingActivation : bool;                (* ROUTING_ON *)
  getMinNbNodes1 : Q -> Z;                    (* data.getMinNbNodes(avail) *)
  routingConstraints : list ModelRange;       (* delay, linking and routing *)
  approxConstraints : list ModelRange         (* chain and section approximation *)
}.

(** ** Objective *)

Definition setObjective (d : Data) : IloExpr :=
  flat_map (fun v =>
    map (fun i =>
      let f := getVnfId d i in
      (getPlacementCost d v f, y_var v f))
    (seq 0 (getNbVnfs d)))
  (nodes d).

(** ** Placement related constraints *)

Definition setOriginalVnfPlacementConstraints (d : Data) : list ModelRange :=
  flat_map (fun f =>
    map (fun v =>
      let exp :=
        flat_map (fun k =>
          flat_map (fun i =>
            if Nat.eqb (getVNF_i d k i) f then [(1, x_var k i v)] else [])
          (seq 0 (getNbVNFs d k)))
        (seq 0 (getNbDemands d)) in
      let bigM :=
        fold_left (fun bigM k => (bigM + Z.of_nat (getNbVNFs d k))%Z)
                  (seq 0 (getNbDemands d)) 0%Z in
      {| lower := None;
         body := exp ++ [(- inject_Z bigM, y_var v f)];
         upper := Some 0;
         label := Original_VNF_Placement f v |})
    (nodes d))
  (seq 0 (getNbVnfs d)).

Definition setVnfPlacementConstraints (d : Data) : list ModelRange :=
  flat_map (fun k =>
    flat_map (fun i =>
      let f := getVNF_i d k i in
      map (fun v =>
        {| lower := None;
           body := [(1, x_var k i v); (- (1), y_var v f)];
           upper := Some 0;
           label := VNF_Placement k i v |})
      (nodes d))
    (seq 0 (getNbVNFs d k)))
  (seq 0 (getNbDemands d)).

(** [None]: the program exits on a bound below 1. *)
Definition setVnfAssignmentConstraints (d : Data) (F : Formulation)
  : option (list ModelRange) :=
  fold_left (fun acc p =>
    match acc with
    | None => None
    | Some constraints =>
        let '(k, i) := p in
        let exp := map (fun v => (1, x_var k i v)) (nodes d) in
        let rhs := getMinNbNodes1 F (getAvailability d k) in
        if Z.leb 1 rhs
        then Some (constraints ++ [{| lower := Some (inject_Z rhs); body := exp;
                                      upper := None; label := VNF_Assignment k i |}])
        else None
    end)
  (flat_map (fun k => map (fun i => (k, i)) (seq 0 (getNbVNFs d k)))
            (seq 0 (getNbDemands d)))
  (Some []).

Definition setNodeCapacityConstraints (d : Data) : list ModelRange :=
  map (fun v =>
    let capacity := getCapacity d v in
    let exp :=
      flat_map (fun k =>
        map (fun i =>
          let vnf := getVNF_i d k i in
          let coeff := getBandwidth d k * getConsumption d vnf in
          (coeff, x_var k i v))
        (seq 0 (getNbVNFs d k)))
      (seq 0 (getNbDemands d)) in
    {| lower := Some 0; body := exp; upper := Some capacity; label := Node_Capacity v |})
  (nodes d).

Definition setStrongNodeCapacityConstraints (d : Data) : list ModelRange :=
  flat_map (fun v =>
    let capacity := getCapacity d v in
    map (fun f =>
      let exp :=
        flat_map (fun k =>
          flat_map (fun i =>
            let vnf := getVNF_i d k i in
            if Nat.eqb vnf f
            then [(getBandwidth d k * getConsumption d vnf, x_var k i v)]
            else [])
          (seq 0 (getNbVNFs d k)))
        (seq 0 (getNbDemands d)) in
      {| lower := None;
         body := exp ++ [(- capacity, y_var v f)];
         upper := Some 0;
         label := Strong_Node_Capacity v f |})
    (seq 0 (getNbVnfs d)))
  (nodes d).

(** ** All the constraints; [None] when the program exits. *)
Definition setConstraints (d : Data) (F : Formulation) : option (list ModelRange) :=
  match setVnfAssignmentConstraints d F with
  | None => None
  | Some constraints =>
      let constraints := constraints ++ setNodeCapacityConstraints d in
      match getDisaggregatedVnfPlacement F with
      | None => None
      | Some disaggregated =>
          let constraints :=
            constraints ++ (if disaggregated
                            then setVnfPlacementConstraints d
                            else setOriginalVnfPlacementConstraints d) in
          let constraints :=
            if getRoutingActivation F
            then constraints ++ routingConstraints F else constraints in
          let constraints :=
            match getApproximationType (getInput d) with
            | APPROXIMATION_TYPE_NONE => constraints
            | _ => constraints ++ approxConstraints F
            end in
          let constraints :=
            if getStrongNodeCapacity F
            then constraints ++ setStrongNodeCapacityConstraints d else constraints in
          Some constraints
      end
  end.

(** * Reading the parameters (instance/input.cpp) *)

(** [s.substr(n)]: the characters of [s] from position [n] on. *)
Definition substr (s : String.string) (n : nat) : String.string :=
  String.substring n (String.length s - n) s.

(** [Input::getParameterValue].  The parameters file is the list of its
    lines, [None] when it cannot be opened; the result is [None] when the
    program exits.  [String.index 0] is [std::string::find]. *)
Definition getParameterValue (param_file : option (list String.string))
    (pattern : String.string) : option String.string :=
  match param_file with
  | Some lines =>
      Some
        match
          first_return (fun line =>
            match String.index 0 pattern line with
            | Some pos => Some (substr line (pos + String.length pattern))
            | None => None
            end)
          lines
        with
        | Some value => value
        | None => String.EmptyString
        end
  | None => None
  end.

(** ** The availability reported for the final solution (model.cpp) *)

(** [Model::getServiceAvail]: the availability of the chain of [demand] under
    the values [getValue] that [cplex.getValue] returns for the final
    solution. *)
Definition getServiceAvail (d : Data) (getValue : Var -> Q) (demand : nat) : Q :=
  fold_left (fun result i =>
    let unavail :=
      fold_left (fun unavail v =>
        if Qltb (1 - EPS) (getValue (x_var demand i v))
        then unavail * (1 - nodeAvailability d v)
        else unavail)
      (nodes d) 1 in
    let avail := 1 - unavail in
    result * avail)
  (seq 0 (getNbVNFs d demand)) 1.

(** [Model::getNbAvailViolation]: the counter is bounded by the number of
    demands, so it does not wrap. *)
Definition getNbAvailViolation (d : Data) (getValue : Var -> Q) : Z :=
  fold_left (fun nbViolations k =>
    if Qltb (getServiceAvail d getValue k + (1 # 1000000000000)) (getAvailability d k)
    then (nbViolations + 1)%Z
    else nbViolations)
  (seq 0 (getNbDemands d)) 0%Z.

(** [Model::getMaxAvailViolation]. *)
Definition getMaxAvailViolation (d : Data) (getValue : Var -> Q) : Q :=
  fold_left (fun maxViolation k =>
    let violation := getAvailability d k - getServiceAvail d getValue k in
    if Qltb (maxViolation + (1 # 1000000000000)) violation
    then violation
    else maxViolation)
  (seq 0 (getNbDemands d)) 0.

(** ** Double arithmetic *)

(** The integer nearest to [y], ties to the even one. *)
Definition half_even (y : Q) : Z :=
  let f := Qfloor y in
  match Qcompare (y - inject_Z f) (1 # 2) with
  | Lt => f
  | Gt => (f + 1)%Z
  | Eq => if Z.even f then f else (f + 1)%Z
  end.

(** The binary exponent of [x > 0]: the [e] with [2 ^ e <= x < 2 ^ (e + 1)]. *)
Definition exponent (x : Q) : Z :=
  let e0 := (Z.log2 (Qnum x) - Z.log2 (Zpos (Qden x)))%Z in
  if Qle_bool (2 ^ e0) x then e0 else (e0 - 1)%Z.

(** Rounding to the nearest [double] (IEEE 754 binary64: 53 significant
    bits, least exponent -1022 with gradual underflow, ties to even).
    Overflow is left out: nothing computed below exceeds 1 in magnitude. *)
Definition binary64 (x : Q) : Q :=
  if Qeq_bool x 0 then 0
  else
    let a := Qabs x in
    let q := (Z.max (exponent a) (-1022) - 52)%Z in
    let m := half_even (a / 2 ^ q) in
    Qred ((if Qle_bool 0 x then 1 else - (1)) * (inject_Z m * 2 ^ q)).

(** ** The lazy constraints in double arithmetic

    The same code as above, with the rounding of each arithmetic operation
    written out: [rnd] maps the exact result of an operation on doubles to
    the double that the operation returns.  The comparisons are exact. *)

Module Double.

Definition mul (rnd : Q -> Q) (x y : Q) : Q := rnd (x * y).
Definition sub (rnd : Q -> Q) (x y : Q) : Q := rnd (x - y).

(** [1 - EPS], the macro [EPS] being the double nearest to 1e-4. *)
Definition one_minus_EPS (rnd : Q -> Q) : Q := sub rnd 1 (rnd EPS).

Definition getAvailabilityOfSection (rnd : Q -> Q) (d : Data)
    (xs : nat -> nat -> nat -> Q) (k i : nat) : Q :=
  let failure_prob :=
    fold_left (fun failure_prob v =>
      if Qle_bool (one_minus_EPS rnd) (xs k i v)
      then mul rnd failure_prob (sub rnd 1 (nodeAvailability d v))
      else failure_prob)
    (nodes d) 1 in
  sub rnd 1 failure_prob.

Definition getAvailabilitiesOfSections (rnd : Q -> Q) (d : Data)
    (xs : nat -> nat -> nat -> Q) (k : nat) : list MapAvailability :=
  map (fun i => {| section := i;
                   availability := getAvailabilityOfSection rnd d xs k i |})
      (seq 0 (getNbVNFs d k)).

Definition lift_future (rnd : Q -> Q) (d : Data) (recs : list MapAvailability)
    (nbSections s v : nat) : Q * Q :=
  fold_left (fun (acc : Q * Q) j =>
    let '(futureAvailability, futureAvailabilityOfSection) := acc in
    if Nat.eqb s j then
      let newFailureRate :=
        mul rnd (sub rnd 1 (availability (nth j recs rec0)))
                (sub rnd 1 (nodeAvailability d v)) in
      let futureAvailabilityOfSection := sub rnd 1 newFailureRate in
      (mul rnd futureAvailability futureAvailabilityOfSection,
       futureAvailabilityOfSection)
    else
      (mul rnd futureAvailability (availability (nth j recs rec0)),
       futureAvailabilityOfSection))
  (seq 0 nbSections) (1, availability (nth s recs rec0)).

Definition lift_node (rnd : Q -> Q) (d : Data) (availabilityRequired : Q)
    (nbSections s : nat) (acc : (nat -> nat -> Q) * list MapAvailability) (v : nat)
  : (nat -> nat -> Q) * list MapAvailability :=
  let '(xs, recs) := acc in
  let i := section (nth s recs rec0) in
  if Qltb (xs i v) (one_minus_EPS rnd) then
    let '(futureAvailability, futureAvailabilityOfSection) :=
      lift_future rnd d recs nbSections s v in
    if Qltb futureAvailability availabilityRequired
    then (upd2 xs i v 1, set_availability recs s futureAvailabilityOfSection)
    else (xs, recs)
  else (xs, recs).

Definition lift (rnd : Q -> Q) (d : Data) (xs : nat -> nat -> Q)
    (availabilityRequired : Q) (recs : list MapAvailability) (nbSections : nat)
  : (nat -> nat -> Q) * list MapAvailability :=
  fold_left (fun acc s =>
    fold_left (lift_node rnd d availabilityRequired nbSections s) (nodes d) acc)
  (seq 0 nbSections) (xs, recs).

Fixpoint select_sections (rnd : Q -> Q) (REQUIRED_AVAIL : Q)
    (recs : list MapAvailability) (todo : nat) (chainAvailability : Q) (index : nat)
  : Q * nat :=
  match todo with
  | O => (chainAvailability, index)
  | S todo' =>
      if Qle_bool REQUIRED_AVAIL chainAvailability
      then select_sections rnd REQUIRED_AVAIL recs todo'
             (mul rnd chainAvailability (availability (nth index recs rec0))) (S index)
      else (chainAvailability, index)
  end.

Definition nogood_expr (rnd : Q -> Q) (d : Data) (k : nat) (xs : nat -> nat -> Q)
    (recs : list MapAvailability) (nbSelectedSections : nat) : IloExpr :=
  flat_map (fun s =>
    let i := section (nth s recs rec0) in
    flat_map (fun v =>
                if Qltb (xs i v) (one_minus_EPS rnd) then [(1, x_var k i v)] else [])
             (nodes d))
  (seq 0 nbSelectedSections).

Definition lazy_demand `{StdSort} (rnd : Q -> Q) (d : Data) (s : State) (k : nat)
  : State :=
  let sectionAvailability :=
    std_sort (getAvailabilitiesOfSections rnd d (xSol s) k) in
  let REQUIRED_AVAIL := getAvailability d k in
  let '(chainAvailability, nbSelectedSections) :=
    select_sections rnd REQUIRED_AVAIL sectionAvailability (getNbVNFs d k) 1 0 in
  if Qltb chainAvailability REQUIRED_AVAIL then
    let '(xs_k, sectionAvailability) :=
      lift rnd d (xSol s k) REQUIRED_AVAIL sectionAvailability nbSelectedSections in
    let s := set_xSol (upd1 (xSol s) k xs_k) s in
    let cut := {| getLB := 1;
                  getExpr := nogood_expr rnd d k xs_k sectionAvailability
                                         nbSelectedSections;
                  getUB := None;
                  getName := Unnamed |} in
    incrementLazyConstraints (submit (rejectCandidate cut) s)
  else s.

Definition addLazyConstraints `{StdSort} (rnd : Q -> Q) (d : Data) (ctx : Context)
    (s : State) : Result State :=
  s <- getIntegerSolution d ctx s ;;
  Ok (fold_left (lazy_demand rnd d) (seq 0 (getNbDemands d)) s).

Definition add (rnd : Q -> Q) (x y : Q) : Q := rnd (x + y).

(** [Model::getServiceAvail], [Model::getNbAvailViolation] and
    [Model::getMaxAvailViolation]; the literal [1e-12] is the double nearest
    to it. *)
Definition getServiceAvail (rnd : Q -> Q) (d : Data) (getValue : Var -> Q)
    (demand : nat) : Q :=
  fold_left (fun result i =>
    let unavail :=
      fold_left (fun unavail v =>
        if Qltb (one_minus_EPS rnd) (getValue (x_var demand i v))
        then mul rnd unavail (sub rnd 1 (nodeAvailability d v))
        else unavail)
      (nodes d) 1 in
    let avail := sub rnd 1 unavail in
    mul rnd result avail)
  (seq 0 (getNbVNFs d demand)) 1.

Definition getNbAvailViolation (rnd : Q -> Q) (d : Data) (getValue : Var -> Q) : Z :=
  fold_left (fun nbViolations k =>
    if Qltb (add rnd (getServiceAvail rnd d getValue k) (rnd (1 # 1000000000000)))
            (getAvailability d k)
    then (nbViolations + 1)%Z
    else nbViolations)
  (seq 0 (getNbDemands d)) 0%Z.

Definition getMaxAvailViolation (rnd : Q -> Q) (d : Data) (getValue : Var -> Q) : Q :=
  fold_left (fun maxViolation k =>
    let violation := sub rnd (getAvailability d k) (getServiceAvail rnd d getValue k) in
    if Qltb (add rnd maxViolation (rnd (1 # 1000000000000))) violation
    then violation
    else maxViolation)
  (seq 0 (getNbDemands d)) 0.

End Double.

(** * Vocabulary of the properties

    Sample instances, the predicates the statements are written with and
    the quantities they speak about. *)

(** ** An implementation of std::sort: insertion sort *)

Fixpoint insert_record (r : MapAvailability) (l : list MapAvailability)
  : list MapAvailability :=
  match l with
  | [] => [r]
  | r' :: l' =>
      if compareAvailability r' r then r' :: insert_record r l' else r :: l
  end.

Definition insertion_sort (l : list MapAvailability) : list MapAvailability :=
  fold_right insert_record [] l.

(** ** A sample instance

    Three nodes [0], [1], [2] of capacity 10 and availability 0.90, 0.80 and
    0.93, one vnf of consumption 1, one demand of bandwidth 1 with two
    sections and required availability [req]. *)

(** Modelled from the spec: [Data::getMinNbNodes] of instance/data.hpp, "the
    minimum node count needed at availability >= a(v) to reach k's SLA", that
    is the least [n >= 1] with [1 - (1 - a)^n >= req] (searched up to 64). *)
Definition minNbNodes_model (req a : Q) : Z :=
  let fix search (todo : nat) (n : Z) (fail : Q) : Z :=
    match todo with
    | O => n
    | S todo' =>
        if Qle_bool req (1 - fail) then n
        else search todo' (n + 1)%Z (fail * (1 - a))
    end in
  search 64%nat 1%Z (1 - a).

Definition sample_input : Input :=
  {| getNodeCover := true; getChainCover := true; getVnfLowerBoundCuts := true;
     getSectionFailureCuts := false; getAvailabilityUsercuts := false;
     getHeuristic := true; getApproximationType := APPROXIMATION_TYPE_NONE |}.

Definition sample_avail (v : nat) : Q :=
  match v with
  | 0%nat => 9 # 10
  | 1%nat => 8 # 10
  | _ => 93 # 100
  end.

Definition sample (req : Q) : Data :=
  {| getInput := sample_input;
     nodes := [0; 1; 2]%nat;
     getNbVnfs := 1;
     getNbDemands := 1;
     getNbVNFs := fun _ => 2%nat;
     getVNF_i := fun _ _ => 0%nat;
     getBandwidth := fun _ => 1;
     getAvailability := fun _ => req;
     getConsumption := fun _ => 1;
     getCapacity := fun _ => 10;
     nodeAvailability := sample_avail;
     getPlacementCost := fun _ _ => 1;
     getAvailNodeRank := [2; 0; 1]%nat;
     getNodeRankPosition := fun v => match v with
                                     | 0%nat => 1%nat
                                     | 1%nat => 2%nat
                                     | _ => 0%nat
                                     end;
     getMinNbNodes := minNbNodes_model;
     getVnfLB := fun r nb => (Z.of_nat nb * minNbNodes_model r (93 # 100))%Z;
     getVnfLB_U := fun _ nb r => inject_Z (Z.of_nat nb * minNbNodes_model r (93 # 100));
     getFailureProb := fun l => fold_left (fun p v => p * (1 - sample_avail v)) l 1;
     getChainAvailability := fun l => fold_left Qmult l 1;
     getVnfId := fun i => i;
     getSortedIndexes_Asc := fun l => seq 0 (length l) |}.

(** A generator for the sample runs: a linear congruential one. *)
Definition sample_libc : Libc :=
  {| srand := fun seed => seed;
     rand := fun g => let g' := ((1103515245 * g + 12345) mod 2147483648)%Z in (g', g');
     RAND_MAX := 2147483647;
     log := fun q => q |}.

(** ** Node-cover cuts *)

(** The rank data are consistent: every node sits in the rank vector at its
    own rank position. *)
Definition rank_wf (d : Data) : Prop :=
  forall v, In v (nodes d) ->
    nth_error (getAvailNodeRank d) (getNodeRankPosition d v) = Some v.

(** [c(u)] for demand [k]: the minimum number of nodes of availability
    [a(u)] needed to reach the required availability of [k]. *)
Definition c_min (d : Data) (k u : nat) : Z :=
  getMinNbNodes d (getAvailability d k) (nodeAvailability d u).

(** The node ranked immediately before [v]. *)
Definition rank_pred (d : Data) (v : nat) : nat :=
  nth (getNodeRankPosition d v - 1) (getAvailNodeRank d) 0%nat.

Definition cover_emitted (d : Data) (k v : nat) : bool :=
  Nat.ltb 0 (getNodeRankPosition d v)
  && Z.ltb (cover_c d k (rank_pred d v)) (cover_c d k v).

(** The reading of "coefficients are non-decreasing as rank worsens": in any
    cut of the pool, a better ranked node never has the larger coefficient. *)
Definition coefficients_nondecreasing_as_rank_worsens (d : Data) : Prop :=
  forall cut, In cut (addAvailabilityCoverConstraints d []) ->
  forall k i u w cu cw,
    In (cu, x_var k i u) (getExpr cut) ->
    In (cw, x_var k i w) (getExpr cut) ->
    (getNodeRankPosition d u < getNodeRankPosition d w)%nat ->
    cu <= cw.

(** A worse ranked node never needs fewer nodes than a better ranked one. *)
Definition cover_monotone (d : Data) : Prop :=
  forall k u w, (k < getNbDemands d)%nat -> In u (nodes d) -> In w (nodes d) ->
    (getNodeRankPosition d u <= getNodeRankPosition d w)%nat ->
    (c_min d k u <= c_min d k w)%Z.

(** ** User cuts *)

(** Submitting a list of user cuts, counting each. *)
Definition add_cuts (cuts : list IloRange) (s : State) : State :=
  fold_left (fun s cut => incrementUsercuts (submit (addUserCut cut) s)) cuts s.

(** ** Generalized cover separation *)

(** The combinations (demand, probe node, prefix length) in the order in
    which the three nested loops visit them. *)
Definition gen_combos (d : Data) : list (nat * nat * nat) :=
  flat_map (fun k =>
    flat_map (fun limit_node =>
      map (fun nb_sections => (k, limit_node, nb_sections)) (seq 1 (getNbVNFs d k)))
    (nodes d))
  (seq 0 (getNbDemands d)).

Definition gen_violated_at (d : Data) (xs : nat -> nat -> nat -> Q)
    (t : nat * nat * nat) : bool :=
  gen_violated d xs (fst (fst t)) (snd (fst t)) (snd t).

Definition gen_cut_at (d : Data) (xs : nat -> nat -> nat -> Q)
    (t : nat * nat * nat) : IloRange :=
  gen_cut d xs (fst (fst t)) (snd (fst t)) (snd t).

(** ** Events and the dispatcher *)

(** The reading of the defensive rule: an event of unknown kind, or a
    candidate event that carries no bounded candidate point, makes the
    dispatcher throw. *)
Definition dispatcher_aborts_on_defect `{StdSort} (L : Libc) (d : Data) (fuel : nat)
    (ctx : Context) (s : State) : Prop :=
  (getId ctx <> Relaxation /\ getId ctx <> Candidate)
  \/ (getId ctx = Candidate /\ isCandidatePoint ctx = false) ->
  exists e, invoke L d fuel ctx s = Throw e.

(** A candidate event with an unbounded ray instead of a candidate point. *)
Definition unbounded_candidate : Context :=
  {| getId := Candidate;
     isCandidatePoint := false;
     getCandidatePoint := fun _ => 0;
     getRelaxationPoint := fun _ => 0;
     getRelaxationObjective := 0;
     getIncumbentObjective := 0;
     time_at_entry := 1;
     time_at_exit := 2 |}.

(** An event of a kind the callback was not registered for. *)
Definition thread_up_event : Context :=
  {| getId := ThreadUp;
     isCandidatePoint := false;
     getCandidatePoint := fun _ => 0;
     getRelaxationPoint := fun _ => 0;
     getRelaxationObjective := 0;
     getIncumbentObjective := 0;
     time_at_entry := 1;
     time_at_exit := 2 |}.

(** [s'] is [s] after the user cuts [cuts] were submitted and counted. *)
Definition cuts_added (s s' : State) (cuts : list IloRange) : Prop :=
  host s' = host s ++ map addUserCut cuts
  /\ nbCuts s' = (nbCuts s + Z.of_nat (length cuts))%Z.

(** A relaxation event at which every variable is at 0. *)
Definition zero_relaxation : Context :=
  {| getId := Relaxation;
     isCandidatePoint := false;
     getCandidatePoint := fun _ => 0;
     getRelaxationPoint := fun _ => 0;
     getRelaxationObjective := 1;
     getIncumbentObjective := 2;
     time_at_entry := 1;
     time_at_exit := 2 |}.

(** ** The generator *)

Definition next_rng (L : Libc) (g : Z) : Z := snd (rand L g).

(** From [s] to [s'] the generator made some number of draws and was not
    reseeded. *)
Definition rng_advanced (L : Libc) (s s' : State) : Prop :=
  exists n, rng s' = Nat.iter n (next_rng L) (rng s).

(** A relaxation event at which every variable is at 1: no cut of the sample
    pool is violated and the matheuristic is launched. *)
Definition ones_relaxation : Context :=
  {| getId := Relaxation;
     isCandidatePoint := false;
     getCandidatePoint := fun _ => 0;
     getRelaxationPoint := fun _ => 1;
     getRelaxationObjective := 1;
     getIncumbentObjective := 100;
     time_at_entry := 1;
     time_at_exit := 2 |}.

(** ** Capacities *)

(** The (demand, section) pairs, in loop order. *)
Definition demand_sections (d : Data) : list (nat * nat) :=
  flat_map (fun k => map (fun i => (k, i)) (seq 0 (getNbVNFs d k)))
           (seq 0 (getNbDemands d)).

Fixpoint sumQ (l : list Q) : Q :=
  match l with
  | [] => 0
  | x :: l' => x + sumQ l'
  end.

(** What section [p] of a demand takes on node [v] in the solution [xs]. *)
Definition load_term (d : Data) (xs : nat -> nat -> nat -> Q) (v : nat)
    (p : nat * nat) : Q :=
  if Qeq_bool (xs (fst p) (snd p) v) 1 then req_capacity d (fst p) (snd p) else 0.

(** The sum of bandwidth x consumption over the (demand, section) pairs
    assigned to node [v]. *)
Definition load (d : Data) (xs : nat -> nat -> nat -> Q) (v : nat) : Q :=
  sumQ (map (load_term d xs v) (demand_sections d)).

Definition capacity_inv_at (d : Data) (s : State) (v : nat) : Prop :=
  0 <= remainingCapacity s v
  /\ load d (xSol s) v + remainingCapacity s v <= getCapacity d v.

Definition capacity_inv (d : Data) (s : State) : Prop :=
  forall v, In v (nodes d) -> capacity_inv_at d s v.

(** ** Availability of an assignment *)

Fixpoint prodQ (l : list Q) : Q :=
  match l with
  | [] => 1
  | x :: l' => x * prodQ l'
  end.

(** A section is processed on node [v] when its variable is at 1 (within the
    tolerance used by getAvailabilityOfSection). *)
Definition assigned (x : Q) : bool := Qle_bool (1 - EPS) x.

(** Probability that all the nodes chosen by [asg] fail. *)
Definition section_failure (d : Data) (asg : nat -> bool) : Q :=
  prodQ (map (fun v => if asg v then 1 - nodeAvailability d v else 1) (nodes d)).

Definition section_availability (d : Data) (asg : nat -> bool) : Q :=
  1 - section_failure d asg.

(** True availability of the chain of demand [k] when section [i] is
    processed on the nodes [v] with [asg i v]. *)
Definition chain_availability (d : Data) (k : nat) (asg : nat -> nat -> bool) : Q :=
  prodQ (map (fun i => section_availability d (asg i)) (seq 0 (getNbVNFs d k))).

(** The data are in range: distinct node identifiers, availabilities in
    [0, 1]. *)
Definition availability_wf (d : Data) : Prop :=
  NoDup (nodes d)
  /\ forall v, In v (nodes d) -> 0 <= nodeAvailability d v <= 1.

(** ** Lifting and nogoods *)

(** The product of the first [nb] sorted availabilities. *)
Definition prefix_prod (recs : list MapAvailability) (nb : nat) : Q :=
  prodQ (map (fun j => availability (nth j recs rec0)) (seq 0 nb)).

(** The choice of nodes that a matrix of one demand stands for. *)
Definition row_asg (xs : nat -> nat -> Q) : nat -> nat -> bool :=
  fun i v => assigned (xs i v).

(** What lifting maintains: the sections of the records, the agreement of
    each recorded availability with the matrix, and a product of the first
    [nb] availabilities that is still below the requirement. *)
Definition lift_inv (d : Data) (req : Q) (nb : nat) (sections : list nat)
    (acc : (nat -> nat -> Q) * list MapAvailability) : Prop :=
  map section (snd acc) = sections
  /\ (forall j, (j < length sections)%nat ->
        availability (nth j (snd acc) rec0)
        == section_availability d (row_asg (fst acc) (nth j sections 0%nat)))
  /\ prefix_prod (snd acc) nb < req.

(** Entries are only ever raised to 1, and only entries that did not count
    as assigned. *)
Definition raised (xs xs' : nat -> nat -> Q) : Prop :=
  forall i v, xs' i v = xs i v \/ (xs' i v = 1 /\ assigned (xs i v) = false).

(** The sorted records of demand [k], the outcome of the selection loop and
    the outcome of lifting, for the solution [xs]. *)
Definition demand_records `{StdSort} (d : Data) (xs : nat -> nat -> nat -> Q) (k : nat)
  : list MapAvailability :=
  std_sort (getAvailabilitiesOfSections d xs k).

Definition demand_selection `{StdSort} (d : Data) (xs : nat -> nat -> nat -> Q) (k : nat)
  : Q * nat :=
  select_sections (getAvailability d k) (demand_records d xs k) (getNbVNFs d k) 1 0.

Definition demand_lifted `{StdSort} (d : Data) (xs : nat -> nat -> nat -> Q) (k : nat)
  : (nat -> nat -> Q) * list MapAvailability :=
  lift d (xs k) (getAvailability d k) (demand_records d xs k)
       (snd (demand_selection d xs k)).

(** The nogood of demand [k]. *)
Definition nogood `{StdSort} (d : Data) (xs : nat -> nat -> nat -> Q) (k : nat)
  : IloRange :=
  {| getLB := 1;
     getExpr := nogood_expr d k (fst (demand_lifted d xs k)) (snd (demand_lifted d xs k))
                            (snd (demand_selection d xs k));
     getUB := None;
     getName := Unnamed |}.

(** Value of a linear expression at a point. *)
Definition eval_expr (val : Var -> Q) (e : IloExpr) : Q :=
  sumQ (map (fun t => fst t * val (snd t)) e).

(** The 0/1 point of an assignment. *)
Definition val_of (S : nat -> nat -> nat -> bool) (x : Var) : Q :=
  match x with
  | x_var k i v => if S k i v then 1 else 0
  | y_var _ _ => 0
  end.

(** The rejection that demand [k] adds, if any. *)
Definition emitted `{StdSort} (d : Data) (xs : nat -> nat -> nat -> Q) (k : nat)
  : list IloRange :=
  if Qltb (fst (demand_selection d xs k)) (getAvailability d k)
  then [nogood d xs k] else [].

(** The matrix of demand [k] once the demand has been checked. *)
Definition checked_row `{StdSort} (d : Data) (xs : nat -> nat -> nat -> Q) (k : nat)
  : nat -> nat -> Q :=
  if Qltb (fst (demand_selection d xs k)) (getAvailability d k)
  then fst (demand_lifted d xs k) else xs k.

(** ** Candidates *)

(** A candidate of the sample instance: section 0 on node 1 alone, section 1
    on all three nodes. *)
Definition sample_candidate : Context :=
  {| getId := Candidate;
     isCandidatePoint := true;
     getCandidatePoint := fun x =>
       match x with
       | x_var 0 0 1 => 1
       | x_var 0 1 _ => 1
       | _ => 0
       end;
     getRelaxationPoint := fun _ => 0;
     getRelaxationObjective := 0;
     getIncumbentObjective := 0;
     time_at_entry := 1;
     time_at_exit := 2 |}.

(** The nodes on which the candidate processes the sections of demand [k]. *)
Definition candidate_asg (ctx : Context) (k : nat) : nat -> nat -> bool :=
  fun i v => Qeq_bool (getCandidatePoint ctx (x_var k i v)) 1.

Definition binary_candidate (d : Data) (ctx : Context) (k : nat) : Prop :=
  forall i v, (i < getNbVNFs d k)%nat -> In v (nodes d) ->
    getCandidatePoint ctx (x_var k i v) == 0 \/ getCandidatePoint ctx (x_var k i v) == 1.

(** ** Further vocabulary: snapshots and rejections *)

(** [s'] is [s] with the in-range entries of [xSol] overwritten by [point]
    and nothing else changed. *)
Definition snapshot_of (d : Data) (point : Var -> Q) (s s' : State) : Prop :=
  (forall k i v, (k < getNbDemands d)%nat -> (i < getNbVNFs d k)%nat -> In v (nodes d) ->
     xSol s' k i v = point (x_var k i v))
  /\ (forall k i v,
        ~ ((k < getNbDemands d)%nat /\ (i < getNbVNFs d k)%nat /\ In v (nodes d)) ->
        xSol s' k i v = xSol s k i v)
  /\ cutPool s' = cutPool s /\ ySol s' = ySol s /\ objSol s' = objSol s
  /\ remainingCapacity s' = remainingCapacity s
  /\ nb_cuts_avail_heuristic s' = nb_cuts_avail_heuristic s
  /\ nbLazyConstraints s' = nbLazyConstraints s /\ nbCuts s' = nbCuts s
  /\ timeAll s' = timeAll s /\ rng s' = rng s /\ host s' = host s.

(** The demands whose chain, as the lazy constraint engine reads it from
    [xs], is below the required availability. *)
Definition violated_demands (d : Data) (xs : nat -> nat -> nat -> Q) : list nat :=
  filter (fun k => Qltb (chain_availability d k (row_asg (xs k))) (getAvailability d k))
         (seq 0 (getNbDemands d)).

(** ** Further vocabulary: the log and the counters *)

Definition is_user_cut (a : HostAction) : bool :=
  match a with addUserCut _ => true | _ => false end.

Definition is_rejection (a : HostAction) : bool :=
  match a with rejectCandidate _ => true | _ => false end.

Definition is_posting (a : HostAction) : bool :=
  match a with postHeuristicSolution _ _ _ => true | _ => false end.

(** Number of the submissions of a kind, as a counter value. *)
Definition count_kind (p : HostAction -> bool) (l : list HostAction) : Z :=
  Z.of_nat (length (filter p l)).

(** From [s] to [s'] the pool is untouched, the log grew by submissions of
    the kind [P] only, and the counters of user cuts and of lazy constraints
    grew by the number of user cuts and of rejections submitted; the counter
    of greedy availability cuts grew by no more than the user cuts. *)
Definition accounted (P : HostAction -> bool) (s s' : State) : Prop :=
  exists added,
    cutPool s' = cutPool s
    /\ host s' = host s ++ added
    /\ Forall (fun a => P a = true) added
    /\ nbCuts s' = (nbCuts s + count_kind is_user_cut added)%Z
    /\ nbLazyConstraints s' = (nbLazyConstraints s + count_kind is_rejection added)%Z
    /\ (0 <= nb_cuts_avail_heuristic s' - nb_cuts_avail_heuristic s
        <= count_kind is_user_cut added)%Z.

(** ** Further vocabulary: the pool and the chain cover separation *)

(** The vnf lower bound cut of demand [k]. *)
Definition vnfLowerBoundCut (d : Data) (k : nat) : IloRange :=
  {| getLB := inject_Z (getVnfLB d (getAvailability d k) (getNbVNFs d k));
     getExpr := flat_map (fun i => map (fun v => (1, x_var k i v)) (nodes d))
                         (seq 0 (getNbVNFs d k));
     getUB := None;
     getName := VNF_LowerBound k |}.

(** The section failure cut of section [i] of demand [k]. *)
Definition sectionFailureCut (L : Libc) (d : Data) (k i : nat) : IloRange :=
  {| getLB := - log L (1 - getAvailability d k);
     getExpr := map (fun v => (- log L (1 - nodeAvailability d v), x_var k i v)) (nodes d);
     getUB := None;
     getName := Section_Fail k i |}.

(** The test and the cut of chainCoverSeparation for the first [nb_sections]
    sections of demand [k] in the order of getSortedIndexes_Asc. *)
Definition chain_sums (d : Data) (xs : nat -> nat -> nat -> Q) (k : nat) : list Q :=
  map (fun i => Qsum (map (fun v => xs k i v) (nodes d))) (seq 0 (getNbVNFs d k)).

Definition chain_violated (d : Data) (xs : nat -> nat -> nat -> Q) (k nb_sections : nat)
  : bool :=
  let sum_over_nodes := chain_sums d xs k in
  let sorted_sections := getSortedIndexes_Asc d sum_over_nodes in
  Qltb (Qsum (map (fun i => nth (nth i sorted_sections 0%nat) sum_over_nodes 0)
                  (seq 0 nb_sections)))
       (inject_Z (getVnfLB d (getAvailability d k) nb_sections) - EPS).

Definition chain_cut (d : Data) (xs : nat -> nat -> nat -> Q) (k nb_sections : nat)
  : IloRange :=
  let sorted_sections := getSortedIndexes_Asc d (chain_sums d xs k) in
  {| getLB := inject_Z (getVnfLB d (getAvailability d k) nb_sections);
     getExpr := flat_map (fun i => map (fun v => (1, x_var k (nth i sorted_sections 0%nat) v))
                                       (nodes d))
                         (seq 0 nb_sections);
     getUB := None;
     getName := ChainCoverCut k nb_sections |}.

(** ** Cuts that separate the relaxation point *)

(** [xs] holds the relaxation point of [ctx] at every in-range entry. *)
Definition reads_relaxation (d : Data) (ctx : Context) (xs : nat -> nat -> nat -> Q)
  : Prop :=
  forall k i v, (k < getNbDemands d)%nat -> (i < getNbVNFs d k)%nat -> In v (nodes d) ->
    xs k i v = getRelaxationPoint ctx (x_var k i v).

(** getSortedIndexes_Asc returns positions of its argument. *)
Definition sorted_indexes_in_range (d : Data) : Prop :=
  forall (l : list Q) i, (i < length l)%nat ->
    (nth i (getSortedIndexes_Asc d l) 0 < length l)%nat.

(** From [s] to [s'] the log grew by user cuts that all satisfy [P], and the
    solution buffer was left alone. *)
Definition submitted_with (P : IloRange -> Prop) (s s' : State) : Prop :=
  exists cuts, host s' = host s ++ map addUserCut cuts
               /\ Forall P cuts /\ xSol s' = xSol s.

(** The coefficients of the greedy separation stay in {0, 1}. *)
Definition binary_coeff (h : HeurSep) : Prop :=
  forall i v, coeff h i v = 0%Z \/ coeff h i v = 1%Z.

(** ** Choice of a node in the repair phase *)

(** Node [v] has room for vnf [f] of demand [k]; what installing [f] there
    adds to the cost. *)
Definition fits (d : Data) (s : State) (f k v : nat) : Prop :=
  getBandwidth d k * getConsumption d f <= remainingCapacity s v.

Definition additional_cost (d : Data) (s : State) (f v : nat) : Q :=
  getPlacementCost d v f * (1 - ySol s v f).

(** What the loop of getNodeToInstall maintains over the nodes [visited]. *)
Definition install_inv (d : Data) (s : State) (f k : nat) (visited : list nat)
    (acc : option nat * option Q * Q) : Prop :=
  match fst (fst acc) with
  | None => snd (fst acc) = None /\ forall u, In u visited -> ~ fits d s f k u
  | Some u => In u visited /\ fits d s f k u
              /\ snd (fst acc) = Some (additional_cost d s f u)
  end.

(** A state of the sample instance in which vnf 0 is already placed on
    node 1 and every node has its whole capacity left. *)
Definition sample_repair_state (r : Q) : State :=
  set_ySol (upd2 (fun _ _ => 0) 1 0 1)
    (set_remainingCapacity (fun _ => 10) (Callback sample_libc (sample r) 0)).

(** ** Availability of the heuristic solution *)

(** The nodes on which the heuristic solution [xs] processes the sections of
    demand [k]: the entries that compare equal to 1. *)
Definition sol_asg (xs : nat -> nat -> nat -> Q) (k : nat) : nat -> nat -> bool :=
  fun i v => Qeq_bool (xs k i v) 1.

(** Availability of section [i] of demand [k] in [xs]. *)
Definition sol_section_avail (d : Data) (xs : nat -> nat -> nat -> Q) (k i : nat) : Q :=
  section_availability d (sol_asg xs k i).

(** Section [i] is the first of the least available sections of demand [k],
    and is not fully available. *)
Definition least_available (d : Data) (xs : nat -> nat -> nat -> Q) (k n i : nat)
  : Prop :=
  (i < n)%nat
  /\ sol_section_avail d xs k i < 1
  /\ (forall j, (j < n)%nat -> sol_section_avail d xs k i <= sol_section_avail d xs k j)
  /\ (forall j, (j < i)%nat -> sol_section_avail d xs k i < sol_section_avail d xs k j).

(** ** Termination of the repair phase *)

(** The remaining capacity of all the nodes together. *)
Definition total_remaining (d : Data) (s : State) : Q :=
  sumQ (map (remainingCapacity s) (nodes d)).

(** ** Integer feasibility of the heuristic solution *)

(** The vnfs of the chains are vnfs of the instance. *)
Definition vnf_ids_in_range (d : Data) : Prop :=
  forall k i, (k < getNbDemands d)%nat -> (i < getNbVNFs d k)%nat ->
    (getVNF_i d k i < getNbVnfs d)%nat.

Definition y_binary (d : Data) (s : State) : Prop :=
  forall v f, In v (nodes d) -> (f < getNbVnfs d)%nat ->
    ySol s v f = 0 \/ ySol s v f = 1.

(** The entry of section [i] of demand [k] on node [v] is 0, or it is 1 and
    the vnf of the section is placed on [v]. *)
Definition x_linked_at (d : Data) (s : State) (k i v : nat) : Prop :=
  xSol s k i v = 0 \/ (xSol s k i v = 1 /\ ySol s v (getVNF_i d k i) = 1).

Definition x_linked (d : Data) (s : State) : Prop :=
  forall k i v, (k < getNbDemands d)%nat -> (i < getNbVNFs d k)%nat -> In v (nodes d) ->
    x_linked_at d s k i v.

(** The solution held in [s] is a feasible point of the integer program:
    binary, every assignment on a node where the vnf is placed, the load of
    every node within its capacity and every chain at least as available as
    required. *)
Definition integer_feasible (d : Data) (s : State) : Prop :=
  y_binary d s
  /\ x_linked d s
  /\ (forall v, In v (nodes d) -> load d (xSol s) v <= getCapacity d v)
  /\ (forall k, (k < getNbDemands d)%nat ->
        getAvailability d k <= chain_availability d k (sol_asg (xSol s) k)).

(** ** Objective of the heuristic solution *)

(** The (node, vnf) pairs, in loop order, and the placement cost of the
    solution held in [s]. *)
Definition placements (d : Data) : list (nat * nat) :=
  flat_map (fun v => map (fun f => (v, f)) (seq 0 (getNbVnfs d))) (nodes d).

Definition placement_cost (d : Data) (ys : nat -> nat -> Q) : Q :=
  sumQ (map (fun p => getPlacementCost d (fst p) (snd p) * ys (fst p) (snd p))
            (placements d)).

(** ** Validity of the node-cover cuts *)

(** A better rank means at least the availability. *)
Definition rank_by_availability (d : Data) : Prop :=
  forall u w, In u (nodes d) -> In w (nodes d) ->
    (getNodeRankPosition d u <= getNodeRankPosition d w)%nat ->
    nodeAvailability d w <= nodeAvailability d u.

(** [q] to the power [n]. *)
Definition Qpow (q : Q) (n : nat) : Q := prodQ (repeat q n).

(** getMinNbNodes is a lower bound: [n] nodes as available as node [u] reach
    the requirement of demand [k] only if [n] is at least the number that
    getMinNbNodes returns for [u]. *)
Definition minNbNodes_sound (d : Data) (k : nat) : Prop :=
  forall u n, In u (nodes d) ->
    getAvailability d k <= 1 - Qpow (1 - nodeAvailability d u) n ->
    (getMinNbNodes d (getAvailability d k) (nodeAvailability d u) <= Z.of_nat n)%Z.

(** The assignment [S] gives every demand its required availability. *)
Definition meets_requirements (d : Data) (S : nat -> nat -> nat -> bool) : Prop :=
  forall k, (k < getNbDemands d)%nat ->
    getAvailability d k <= chain_availability d k (S k).

(** ** The greedy availability separation *)

(** What the greedy separation relies on: distinct node ids that index the
    vectors, availabilities in (0, 1], requirements in [0, 1], and
    getFailureProb and getChainAvailability the products that their names
    announce. *)
Definition greedy_wf (d : Data) : Prop :=
  NoDup (nodes d)
  /\ (forall v, In v (nodes d) -> (v < getNbNodes d)%nat)
  /\ (forall v, In v (nodes d) -> 0 < nodeAvailability d v <= 1)
  /\ (forall k, (k < getNbDemands d)%nat -> 0 <= getAvailability d k <= 1)
  /\ (forall l, getFailureProb d l == prodQ (map (fun v => 1 - nodeAvailability d v) l))
  /\ (forall l, getChainAvailability d l == prodQ l).

(** Joint failure probability of the nodes of [l]. *)
Definition fail_of (d : Data) (l : list nat) : Q :=
  prodQ (map (fun v => 1 - nodeAvailability d v) l).

(** The placed nodes are nodes of the graph, every coefficient is 0 or 1, and
    a coefficient at 0 marks a placed node. *)
Definition placement_wf (d : Data) (k : nat) (h : HeurSep) : Prop :=
  (forall i v, In v (sectionNodes h i) -> In v (nodes d))
  /\ (forall i v, (i < getNbVNFs d k)%nat -> In v (nodes d) ->
        coeff h i v = 0%Z -> In v (sectionNodes h i))
  /\ binary_coeff h.

(** The availability recorded for the sections in [P] is that of their
    placed nodes. *)
Definition tracked_on (d : Data) (k : nat) (P : nat -> Prop) (h : HeurSep) : Prop :=
  placement_wf d k h
  /\ forall i, P i ->
       sectionAvailability h i == 1 - fail_of d (sectionNodes h i)
       /\ 0 < sectionAvailability h i <= 1.

Definition tracked (d : Data) (k : nat) (h : HeurSep) : Prop :=
  tracked_on d k (fun i => (i < getNbVNFs d k)%nat) h.

(** Availability of the chain under the recorded section availabilities. *)
Definition tracked_chain (d : Data) (k : nat) (h : HeurSep) : Q :=
  prodQ (map (sectionAvailability h) (seq 0 (getNbVNFs d k))).

(** Number of coefficients of the demand that are still at 1. *)
Definition sumZ (l : list Z) : Z := fold_right Z.add 0%Z l.

Definition open_entries (d : Data) (k : nat) (h : HeurSep) : Z :=
  sumZ (map (fun i => sumZ (map (coeff h i) (nodes d))) (seq 0 (getNbVNFs d k))).

(** The greedy availability cut for the coefficients of [h]. *)
Definition greedy_cut (d : Data) (k : nat) (h : HeurSep) : IloRange :=
  {| getLB := 1;
     getExpr := flat_map (fun i =>
                  flat_map (fun v => if Z.eqb (coeff h i v) 1 then [(1, x_var k i v)] else [])
                           (nodes d))
                (seq 0 (getNbVNFs d k));
     getUB := None;
     getName := heurAvailabilityCut |}.

(** A cut that every assignment meeting the requirements satisfies. *)
Definition valid_cut (d : Data) (cut : IloRange) : Prop :=
  forall S, meets_requirements d S -> getLB cut <= eval_expr (val_of S) (getExpr cut).

(** ** The formulation and the posted solution *)

Definition Var_eqb (a b : Var) : bool :=
  match a, b with
  | x_var k i v, x_var k' i' v' => Nat.eqb k k' && Nat.eqb i i' && Nat.eqb v v'
  | y_var v f, y_var v' f' => Nat.eqb v v' && Nat.eqb f f'
  | _, _ => false
  end.

(** The point that [postHeuristicSolution(vars, vals, ...)] describes: the
    value listed for a variable, 0 for a variable that is not listed. *)
Fixpoint point_of (vars : list Var) (vals : list Q) (x : Var) : Q :=
  match vars, vals with
  | a :: vars', q :: vals' => if Var_eqb x a then q else point_of vars' vals' x
  | _, _ => 0
  end.

(** The point [val] is within the bounds of the range [c]. *)
Definition satisfies (val : Var -> Q) (c : ModelRange) : Prop :=
  match lower c with
  | Some lb => lb <= eval_expr val (body c)
  | None => True
  end
  /\ match upper c with
     | Some ub => eval_expr val (body c) <= ub
     | None => True
     end.

(** [val] gives the variables of the instance the values held in [s]. *)
Definition reads_state (d : Data) (s : State) (val : Var -> Q) : Prop :=
  (forall v f, In v (nodes d) -> (f < getNbVnfs d)%nat -> val (y_var v f) = ySol s v f)
  /\ (forall k i v, (k < getNbDemands d)%nat -> (i < getNbVNFs d k)%nat -> In v (nodes d) ->
        val (x_var k i v) = xSol s k i v).

(** The one-argument getMinNbNodes is a lower bound on the number of nodes
    that a section needs to reach the requirement of its demand. *)
Definition minNbNodes1_sound (d : Data) (F : Formulation) : Prop :=
  forall k asg, (k < getNbDemands d)%nat ->
    getAvailability d k <= section_availability d asg ->
    inject_Z (getMinNbNodes1 F (getAvailability d k))
    <= sumQ (map (fun v => if asg v : bool then 1 else 0) (nodes d)).

(** A formulation for the sample instance: aggregated placement, strong
    capacity constraints, no routing, one node per section at least. *)
Definition sample_formulation : Formulation :=
  {| getDisaggregatedVnfPlacement := Some false;
     getStrongNodeCapacity := true;
     getRoutingActivation := false;
     getMinNbNodes1 := fun _ => 1%Z;
     routingConstraints := [];
     approxConstraints := [] |}.

(** ** A parameters file *)

Definition sample_parameters : list String.string :=
  ["nodeFile=nodes.csv"; "lazy=1"; "heuristic=0"]%string.

(** ** Further vocabulary: the reported availability *)

(** By how much the final solution [value] misses the requirement of demand
    [k]. *)
Definition availability_gap (d : Data) (value : Var -> Q) (k : nat) : Q :=
  getAvailability d k - getServiceAvail d value k.

(** The tolerance of the two reports. *)
Definition report_tolerance : Q := 1 # 1000000000000.

(** Every variable of the assignment matrix is at 0 or at 1 in the
    candidate. *)
Definition binary_point (d : Data) (ctx : Context) : Prop :=
  forall k, (k < getNbDemands d)%nat -> binary_candidate d ctx k.

(** ** Further vocabulary: instances for the double arithmetic *)

(** An instance with one demand of [nb_sections] sections over the nodes
    [0 .. nb_nodes - 1]; only the availabilities matter. *)
Definition chain_instance (avail : nat -> Q) (nb_nodes nb_sections : nat) (req : Q)
  : Data :=
  {| getInput := sample_input;
     nodes := seq 0 nb_nodes;
     getNbVnfs := 1;
     getNbDemands := 1;
     getNbVNFs := fun _ => nb_sections;
     getVNF_i := fun _ _ => 0%nat;
     getBandwidth := fun _ => 1;
     getAvailability := fun _ => req;
     getConsumption := fun _ => 1;
     getCapacity := fun _ => 10;
     nodeAvailability := avail;
     getPlacementCost := fun _ _ => 1;
     getAvailNodeRank := seq 0 nb_nodes;
     getNodeRankPosition := fun v => v;
     getMinNbNodes := fun _ _ => 1%Z;
     getVnfLB := fun _ _ => 0%Z;
     getVnfLB_U := fun _ _ _ => 0;
     getFailureProb := fun l => fold_left (fun p v => p * (1 - avail v)) l 1;
     getChainAvailability := fun l => fold_left Qmult l 1;
     getVnfId := fun i => i;
     getSortedIndexes_Asc := fun l => seq 0 (length l) |}.

(** Three sections, section [i] processed on node [i] alone; the doubles
    nearest to 0.523, 0.54 and 0.609, and the double nearest to their
    decimal product as the requirement. *)
Definition diagonal_instance : Data :=
  chain_instance (fun v => match v with
                           | 0%nat => binary64 (523 # 1000)
                           | 1%nat => binary64 (54 # 100)
                           | _ => binary64 (609 # 1000)
                           end)
                 3 3 (binary64 (17199378 # 100000000)).

Definition candidate_of (asg : nat -> nat -> nat -> bool) : Context :=
  {| getId := Candidate;
     isCandidatePoint := true;
     getCandidatePoint := fun x =>
       match x with
       | x_var k i v => if asg k i v then 1 else 0
       | y_var _ _ => 0
       end;
     getRelaxationPoint := fun _ => 0;
     getRelaxationObjective := 0;
     getIncumbentObjective := 0;
     time_at_entry := 1;
     time_at_exit := 2 |}.

Definition diagonal_candidate : Context := candidate_of (fun _ i v => Nat.eqb i v).

(** One section processed on two nodes, the doubles nearest to 0.81 and
    0.83, and the double nearest to 0.9677 as the requirement. *)
Definition pair_instance : Data :=
  chain_instance (fun v => match v with
                           | 0%nat => binary64 (81 # 100)
                           | _ => binary64 (83 # 100)
                           end)
                 2 1 (binary64 (9677 # 10000)).

Definition full_candidate : Context := candidate_of (fun _ _ _ => true).

(** ** Further vocabulary: rounding *)

(** The unit roundoff of doubles, 2^-53. *)
Definition unit_roundoff : Q := 1 # 9007199254740992.

(** What the statements below ask of the rounding of a result in [0, 1]:
    the rounded result is in [0, 1] and within the unit roundoff of the
    exact one. *)
Definition rounding_wf (rnd : Q -> Q) : Prop :=
  forall x, 0 <= x <= 1 ->
    0 <= rnd x <= 1 /\ - unit_roundoff <= rnd x - x <= unit_roundoff.

(** ** Further vocabulary: the lazy constraints in double arithmetic *)

(** [n] unit roundoffs. *)
Definition roundoffs (n : nat) : Q := inject_Z (Z.of_nat n) * unit_roundoff.

(** The entry [x] counts as assigned under the test [x >= 1 - EPS] as the
    doubles evaluate it. *)
Definition double_assigned (rnd : Q -> Q) (x : Q) : bool :=
  Qle_bool (Double.one_minus_EPS rnd) x.

Definition double_row_asg (rnd : Q -> Q) (xs : nat -> nat -> Q) : nat -> nat -> bool :=
  fun i v => double_assigned rnd (xs i v).

(** How many nodes of the graph section [i] has in [xs]. *)
Definition nb_assigned (rnd : Q -> Q) (d : Data) (xs : nat -> nat -> Q) (i : nat) : nat :=
  length (filter (double_row_asg rnd xs i) (nodes d)).

(** The running product of the first [nb] recorded availabilities, as the
    selection loop and the inner loop of lift accumulate it. *)
Definition running_product (rnd : Q -> Q) (recs : list MapAvailability) (nb : nat) : Q :=
  fold_left (fun chain j => Double.mul rnd chain (availability (nth j recs rec0)))
            (seq 0 nb) 1.

(** The sorted records of demand [k], the outcome of the selection loop, the
    outcome of lifting and the nogood, in double arithmetic. *)
Definition double_records `{StdSort} (rnd : Q -> Q) (d : Data)
    (xs : nat -> nat -> nat -> Q) (k : nat) : list MapAvailability :=
  std_sort (Double.getAvailabilitiesOfSections rnd d xs k).

Definition double_selection `{StdSort} (rnd : Q -> Q) (d : Data)
    (xs : nat -> nat -> nat -> Q) (k : nat) : Q * nat :=
  Double.select_sections rnd (getAvailability d k) (double_records rnd d xs k)
                         (getNbVNFs d k) 1 0.

Definition double_lifted `{StdSort} (rnd : Q -> Q) (d : Data)
    (xs : nat -> nat -> nat -> Q) (k : nat)
  : (nat -> nat -> Q) * list MapAvailability :=
  Double.lift rnd d (xs k) (getAvailability d k) (double_records rnd d xs k)
              (snd (double_selection rnd d xs k)).

Definition double_nogood `{StdSort} (rnd : Q -> Q) (d : Data)
    (xs : nat -> nat -> nat -> Q) (k : nat) : IloRange :=
  {| getLB := 1;
     getExpr := Double.nogood_expr rnd d k (fst (double_lifted rnd d xs k))
                  (snd (double_lifted rnd d xs k))
                  (snd (double_selection rnd d xs k));
     getUB := None;
     getName := Unnamed |}.

(** Demand [k] is rejected: the selection loop ends below the requirement. *)
Definition double_violated `{StdSort} (rnd : Q -> Q) (d : Data)
    (xs : nat -> nat -> nat -> Q) (k : nat) : bool :=
  Qltb (fst (double_selection rnd d xs k)) (getAvailability d k).

Definition double_violated_demands `{StdSort} (rnd : Q -> Q) (d : Data)
    (xs : nat -> nat -> nat -> Q) : list nat :=
  filter (double_violated rnd d xs) (seq 0 (getNbDemands d)).

(** The matrix of demand [k] once the demand has been checked. *)
Definition double_checked_row `{StdSort} (rnd : Q -> Q) (d : Data)
    (xs : nat -> nat -> nat -> Q) (k : nat) : nat -> nat -> Q :=
  if double_violated rnd d xs k then fst (double_lifted rnd d xs k) else xs k.

(** A bound on the rounding error of the chain availability of demand [k]:
    per section one subtraction and one product for each node, four more
    operations for each node that lifting adds, one subtraction and one
    product of the chain. *)
Definition rounding_error (d : Data) (k : nat) : Q :=
  roundoffs (getNbVNFs d k * (4 * length (nodes d) + 2)).

(** What lifting maintains in double arithmetic: the sections of the
    records, recorded availabilities in [0, 1] and close to the true
    availability of the section in the matrix, and a running product of the
    first [nb] of them that is still below the requirement. *)
Definition double_lift_inv (rnd : Q -> Q) (d : Data) (req : Q) (nb : nat)
    (sections : list nat) (acc : (nat -> nat -> Q) * list MapAvailability) : Prop :=
  map section (snd acc) = sections
  /\ (forall j, (j < length sections)%nat ->
        let i := nth j sections 0%nat in
        let a := availability (nth j (snd acc) rec0) in
        let t := section_availability d (double_row_asg rnd (fst acc) i) in
        0 <= a <= 1
        /\ - roundoffs (4 * nb_assigned rnd d (fst acc) i + 1) <= a - t
           <= roundoffs (4 * nb_assigned rnd d (fst acc) i + 1))
  /\ running_product rnd (snd acc) nb < req.

(** Entries are only ever raised to 1, and only entries that did not count
    as assigned. *)
Definition double_raised (rnd : Q -> Q) (xs xs' : nat -> nat -> Q) : Prop :=
  forall i v, xs' i v = xs i v \/ (xs' i v = 1 /\ double_assigned rnd (xs i v) = false).

(** The rejection that demand [k] adds in double arithmetic, if any. *)
Definition double_emitted `{StdSort} (rnd : Q -> Q) (d : Data)
    (xs : nat -> nat -> nat -> Q) (k : nat) : list IloRange :=
  if double_violated rnd d xs k then [double_nogood rnd d xs k] else [].

(** The nogood over the selected prefix and all the nodes that the candidate
    leaves unassigned there, without lifting. *)
Definition double_unlifted_nogood `{StdSort} (rnd : Q -> Q) (d : Data)
    (xs : nat -> nat -> nat -> Q) (k : nat) : IloRange :=
  {| getLB := 1;
     getExpr := Double.nogood_expr rnd d k (xs k) (double_records rnd d xs k)
                                   (snd (double_selection rnd d xs k));
     getUB := None;
     getName := Unnamed |}.

(** The reading under which every candidate whose true chain availability is
    below the requirement is rejected, with a nogood that ranges over all
    the unassigned nodes of the prefix. *)
Definition rejects_below_requirement `{StdSort} (rnd : Q -> Q) (d : Data)
    (ctx : Context) (s : State) (k : nat) : Prop :=
  getId ctx = Candidate -> isCandidatePoint ctx = true ->
  (k < getNbDemands d)%nat -> binary_candidate d ctx k ->
  chain_availability d k (candidate_asg ctx k) < getAvailability d k ->
  exists s',
    Double.addLazyConstraints rnd d ctx s = Ok s'
    /\ In (rejectCandidate
             (double_unlifted_nogood rnd d (fill_x d (getCandidatePoint ctx) (xSol s)) k))
          (host s').

(** The reading under which no submitted nogood cuts off an assignment that
    truly meets the requirement of the demand. *)
Definition nogoods_keep_feasible `{StdSort} (rnd : Q -> Q) (d : Data)
    (ctx : Context) (s : State) : Prop :=
  forall s' cut,
    Double.addLazyConstraints rnd d ctx s = Ok s' ->
    In (rejectCandidate cut) (host s') ->
    exists k, (k < getNbDemands d)%nat
      /\ forall S : nat -> nat -> nat -> bool,
           getAvailability d k <= chain_availability d k (S k) ->
           1 <= eval_expr (val_of S) (getExpr cut).

(** The sample instance as the program holds it: two sections over three
    nodes, the doubles nearest to 0.9, 0.8 and 0.93. *)
Definition double_sample (req : Q) : Data :=
  chain_instance (fun v => binary64 (sample_avail v)) 3 2 (binary64 req).

(** ** Further vocabulary: the reports in double arithmetic *)

(** What the statements on the reports ask of the rounding of a result of
    magnitude below 2: it is within the unit roundoff of the exact result
    and not negative when the exact result is not. *)
Definition rounding_wide (rnd : Q -> Q) : Prop :=
  forall x, - (2) < x < 2 ->
    - unit_roundoff <= rnd x - x <= unit_roundoff /\ (0 <= x -> 0 <= rnd x).

(** By how much demand [k] misses its requirement, given the availability
    that getServiceAvail returns. *)
Definition double_gap (rnd : Q -> Q) (d : Data) (value : Var -> Q) (k : nat) : Q :=
  getAvailability d k - Double.getServiceAvail rnd d value k.

(** The requirements are availabilities. *)
Definition requirements_wf (d : Data) : Prop :=
  forall k, (k < getNbDemands d)%nat -> 0 <= getAvailability d k <= 1.

(** One section on one node of availability 0.125, and the double nearest
    to 0.125000000001 as the requirement. *)
Definition eighth_instance : Data :=
  chain_instance (fun _ => 1 # 8) 1 1 (binary64 (125000000001 # 1000000000000)).

(** * Properties *)

(** ** Comparisons *)

Lemma Qltb_lt (a b : Q) : Qltb a b = true <-> a < b.
Proof.
  unfold Qltb. rewrite negb_true_iff.
  split; intro H.
  - apply Qnot_le_lt. intro Hle. apply Qle_bool_iff in Hle. congruence.
  - destruct (Qle_bool b a) eqn:E; [|reflexivity].
    apply Qle_bool_iff in E. exfalso. apply (Qlt_not_le _ _ H E).
Qed.

Lemma Qltb_ge (a b : Q) : Qltb a b = false <-> b <= a.
Proof.
  unfold Qltb. rewrite negb_false_iff. apply Qle_bool_iff.
Qed.

(** ** An implementation of std::sort: insertion sort *)

Lemma insert_record_perm r l : Permutation (insert_record r l) (r :: l).
Proof.
  induction l as [|r' l IH]; simpl; [reflexivity|].
  destruct (compareAvailability r' r); [|reflexivity].
  rewrite IH. apply perm_swap.
Qed.

Lemma insertion_sort_perm l : Permutation (insertion_sort l) l.
Proof.
  induction l as [|r l IH]; simpl; [reflexivity|].
  rewrite insert_record_perm. now constructor.
Qed.

Lemma insert_record_sorted r l :
  StronglySorted (fun a b => compareAvailability b a = false) l ->
  StronglySorted (fun a b => compareAvailability b a = false) (insert_record r l).
Proof.
  induction 1 as [|r' l Hs IH Hall]; simpl.
  - repeat constructor.
  - destruct (compareAvailability r' r) eqn:E.
    + constructor; [assumption|].
      rewrite insert_record_perm. constructor; [|assumption].
      unfold compareAvailability in *. apply Qltb_lt in E. apply Qltb_ge.
      apply Qlt_le_weak, E.
    + constructor; [constructor; assumption|].
      constructor; [assumption|].
      unfold compareAvailability in *. apply Qltb_ge in E.
      eapply Forall_impl; [|exact Hall]. intros a Ha. simpl in Ha.
      apply Qltb_ge in Ha. apply Qltb_ge. eapply Qle_trans; eassumption.
Qed.

Lemma insertion_sort_sorted l :
  StronglySorted (fun a b => compareAvailability b a = false) (insertion_sort l).
Proof.
  induction l as [|r l IH]; simpl; [constructor|].
  now apply insert_record_sorted.
Qed.

#[local] Instance InsertionSort : StdSort :=
  {| std_sort := insertion_sort;
     std_sort_perm := insertion_sort_perm;
     std_sort_sorted := insertion_sort_sorted |}.

(** ** Generic facts on loops and buffers *)

Lemma fold_left_app_flat_map {A B} (g : list B -> A -> list B) (f : A -> list B) :
  (forall p a, g p a = p ++ f a) ->
  forall l p, fold_left g l p = p ++ flat_map f l.
Proof.
  intros Hg. induction l as [|a l IH]; intros p; simpl.
  - now rewrite app_nil_r.
  - rewrite IH, Hg, <- app_assoc. reflexivity.
Qed.

Lemma upd1_same {A} (m : nat -> A) a x : upd1 m a x a = x.
Proof. unfold upd1. now rewrite Nat.eqb_refl. Qed.

Lemma upd1_other {A} (m : nat -> A) a a' x : a' <> a -> upd1 m a x a' = m a'.
Proof. unfold upd1. intros H. apply Nat.eqb_neq in H. now rewrite H. Qed.

Lemma fold_upd1_spec {A} (g : nat -> A) (l : list nat) (c0 : nat -> A) (v : nat) :
  fold_left (fun c u => upd1 c u (g u)) l c0 v = if in_dec Nat.eq_dec v l then g v else c0 v.
Proof.
  revert c0. induction l as [|u l IH]; intros c0; simpl; [reflexivity|].
  rewrite IH.
  destruct (in_dec Nat.eq_dec v l) as [Hin|Hnin].
  - destruct (Nat.eq_dec u v); reflexivity.
  - destruct (Nat.eq_dec u v) as [->|Hne].
    + apply upd1_same.
    + apply upd1_other. congruence.
Qed.

(** ** Node-cover cuts of the pool *)

Lemma addAvailabilityCoverConstraints_eq d pool :
  addAvailabilityCoverConstraints d pool =
  pool ++ flat_map (fun k =>
            flat_map (fun i =>
              flat_map (fun v =>
                if cover_emitted d k v then [nodeCoverCut d (cover_c d k) k i v] else [])
              (nodes d))
            (seq 0 (getNbVNFs d k)))
          (seq 0 (getNbDemands d)).
Proof.
  unfold addAvailabilityCoverConstraints.
  apply fold_left_app_flat_map. intros p k.
  apply fold_left_app_flat_map. intros p' i.
  apply fold_left_app_flat_map. intros p'' v.
  unfold cover_emitted, rank_pred.
  destruct (Nat.ltb 0 (getNodeRankPosition d v)); simpl.
  - destruct (Z.ltb _ _); [reflexivity | now rewrite app_nil_r].
  - now rewrite app_nil_r.
Qed.

Lemma in_node_cover_pool d cut :
  In cut (addAvailabilityCoverConstraints d []) <->
  exists k i v,
    (k < getNbDemands d)%nat /\ (i < getNbVNFs d k)%nat /\ In v (nodes d) /\
    cover_emitted d k v = true /\ cut = nodeCoverCut d (cover_c d k) k i v.
Proof.
  rewrite addAvailabilityCoverConstraints_eq. simpl.
  rewrite in_flat_map. split.
  - intros (k & Hk & H). apply in_flat_map in H. destruct H as (i & Hi & H).
    apply in_flat_map in H. destruct H as (v & Hv & H).
    apply in_seq in Hk. apply in_seq in Hi.
    destruct (cover_emitted d k v) eqn:E; simpl in H; [|contradiction].
    destruct H as [H|[]]. exists k, i, v. repeat split; auto; lia.
  - intros (k & i & v & Hk & Hi & Hv & E & ->).
    exists k. split; [apply in_seq; lia|].
    apply in_flat_map. exists i. split; [apply in_seq; lia|].
    apply in_flat_map. exists v. split; [assumption|].
    rewrite E. now left.
Qed.

Lemma cover_c_ranked d k u :
  In u (getAvailNodeRank d) -> cover_c d k u = c_min d k u.
Proof.
  intros Hin. unfold cover_c.
  rewrite (fold_upd1_spec (fun v => getMinNbNodes d (getAvailability d k) (nodeAvailability d v))).
  destruct (in_dec Nat.eq_dec u (getAvailNodeRank d)); [reflexivity|contradiction].
Qed.

Lemma rank_wf_in d v : rank_wf d -> In v (nodes d) -> In v (getAvailNodeRank d).
Proof. intros Hwf Hv. eapply nth_error_In, Hwf, Hv. Qed.

Lemma rank_wf_pred_in d v :
  rank_wf d -> In v (nodes d) -> In (rank_pred d v) (getAvailNodeRank d).
Proof.
  intros Hwf Hv. unfold rank_pred. apply nth_In.
  assert (getNodeRankPosition d v < length (getAvailNodeRank d))%nat.
  { apply nth_error_Some. rewrite (Hwf v Hv). discriminate. }
  lia.
Qed.

(** C4.  For a demand [k], a section [i] and a node [v] of rank position
    greater than 0, the pool built by addAvailabilityCoverConstraints holds a
    cut named NodeCover(k,i,v) exactly when [c(v)] exceeds [c] of the node at
    the preceding rank position; that cut has lower bound [c(v)], no upper
    bound, coefficient [max(c(v) - c(j) + 1, 1)] on [x[k,i,j]] for the nodes
    [j] ranked strictly above [v] and coefficient 1 on every other node. *)
Theorem node_cover_cut_emitted_iff (d : Data) (k i v : nat) :
  rank_wf d ->
  (k < getNbDemands d)%nat -> (i < getNbVNFs d k)%nat -> In v (nodes d) ->
  (0 < getNodeRankPosition d v)%nat ->
  ((exists cut, In cut (addAvailabilityCoverConstraints d [])
                /\ getName cut = NodeCover k i v)
   <-> (c_min d k (rank_pred d v) < c_min d k v)%Z)
  /\ (forall cut, In cut (addAvailabilityCoverConstraints d []) ->
        getName cut = NodeCover k i v ->
        getLB cut = inject_Z (c_min d k v)
        /\ getUB cut = None
        /\ getExpr cut =
           map (fun j =>
                  (inject_Z (if Nat.ltb (getNodeRankPosition d j) (getNodeRankPosition d v)
                             then Z.max (c_min d k v - c_min d k j + 1) 1
                             else 1%Z),
                   x_var k i j))
               (nodes d)).
Proof.
  intros Hwf Hk Hi Hv Hpos.
  assert (Hcv : cover_c d k v = c_min d k v)
    by (apply cover_c_ranked, rank_wf_in; assumption).
  assert (Hcp : cover_c d k (rank_pred d v) = c_min d k (rank_pred d v))
    by (apply cover_c_ranked, rank_wf_pred_in; assumption).
  assert (Hem : cover_emitted d k v = true
                <-> (c_min d k (rank_pred d v) < c_min d k v)%Z).
  { unfold cover_emitted. rewrite Hcv, Hcp, andb_true_iff, Nat.ltb_lt, Z.ltb_lt.
    tauto. }
  split.
  - split.
    + intros (cut & Hin & Hname).
      apply in_node_cover_pool in Hin.
      destruct Hin as (k' & i' & v' & _ & _ & _ & E & ->).
      simpl in Hname. injection Hname as -> -> ->. now apply Hem.
    + intros Hlt. exists (nodeCoverCut d (cover_c d k) k i v). split; [|reflexivity].
      apply in_node_cover_pool. exists k, i, v. repeat split; auto. now apply Hem.
  - intros cut Hin Hname.
    apply in_node_cover_pool in Hin.
    destruct Hin as (k' & i' & v' & _ & _ & _ & _ & ->).
    simpl in Hname. injection Hname as -> -> ->.
    simpl. rewrite Hcv. repeat split.
    apply map_ext_in. intros j Hj. unfold cover_coeff.
    rewrite Hcv, (cover_c_ranked d k j) by (apply rank_wf_in; assumption).
    reflexivity.
Qed.

Lemma sample_rank_wf req : rank_wf (sample req).
Proof.
  intros v Hv. simpl in Hv.
  destruct Hv as [<-|[<-|[<-|[]]]]; reflexivity.
Defined.

Lemma node_cover_cut_emitted_iff_witness :
  rank_wf (sample (97 # 100))
  /\ exists cut, In cut (addAvailabilityCoverConstraints (sample (97 # 100)) [])
                 /\ getName cut = NodeCover 0 0 1.
Proof.
  split; [apply sample_rank_wf|].
  apply (proj1 (node_cover_cut_emitted_iff (sample (97 # 100)) 0 0 1
                  (sample_rank_wf _) (le_n 1) (le_S _ _ (le_n 1))
                  (or_intror (or_introl eq_refl)) (le_S _ _ (le_n 1)))).
  reflexivity.
Defined.

(** *** Order of the coefficients inside one cut *)

(** On the sample instance with required availability 0.97 the cut
    NodeCover(0,0,1) is [2 x[0,0,0] + x[0,0,1] + 2 x[0,0,2] >= 3]: node 0 is
    ranked better than node 1 and has the larger coefficient. *)
Lemma coefficients_nondecreasing_counterexample :
  ~ coefficients_nondecreasing_as_rank_worsens (sample (97 # 100)).
Proof.
  intros H.
  specialize (H (nodeCoverCut (sample (97 # 100)) (cover_c (sample (97 # 100)) 0) 0 0 1)).
  assert (Hin : In (nodeCoverCut (sample (97 # 100)) (cover_c (sample (97 # 100)) 0) 0 0 1)
                   (addAvailabilityCoverConstraints (sample (97 # 100)) []))
    by (vm_compute; left; reflexivity).
  specialize (H Hin 0%nat 0%nat 0%nat 1%nat (inject_Z 2) (inject_Z 1)).
  assert (Hle : inject_Z 2 <= inject_Z 1).
  { apply H.
    - vm_compute. left. reflexivity.
    - vm_compute. right. left. reflexivity.
    - vm_compute. lia. }
  revert Hle. vm_compute. intros Hle. apply Hle. reflexivity.
Qed.

Lemma in_node_cover_expr d c k i v cu k' i' u :
  In (cu, x_var k' i' u) (getExpr (nodeCoverCut d c k i v)) ->
  In u (nodes d) /\ cu = inject_Z (cover_coeff d c v u).
Proof.
  simpl. intros H. apply in_map_iff in H. destruct H as (j & Heq & Hj).
  injection Heq as <- _ _ <-. auto.
Qed.

(** C5.  Inside any node-cover cut of the pool the coefficients are
    non-increasing as the rank worsens: when [u] is ranked strictly better
    than [w], the coefficient of [x[k,i,w]] is at most that of [x[k,i,u]]. *)
Theorem node_cover_coefficients_nonincreasing (d : Data) :
  rank_wf d -> cover_monotone d ->
  forall cut, In cut (addAvailabilityCoverConstraints d []) ->
  forall k i u w cu cw,
    In (cu, x_var k i u) (getExpr cut) ->
    In (cw, x_var k i w) (getExpr cut) ->
    (getNodeRankPosition d u < getNodeRankPosition d w)%nat ->
    cw <= cu.
Proof.
  intros Hwf Hmon cut Hin k i u w cu cw Hu Hw Hpos.
  apply in_node_cover_pool in Hin.
  destruct Hin as (k0 & i0 & v & Hk0 & _ & Hv & _ & ->).
  apply in_node_cover_expr in Hu. destruct Hu as [Hu ->].
  apply in_node_cover_expr in Hw. destruct Hw as [Hw ->].
  rewrite <- Zle_Qle. unfold cover_coeff.
  rewrite !cover_c_ranked by (apply rank_wf_in; assumption).
  destruct (Nat.ltb (getNodeRankPosition d w) (getNodeRankPosition d v)) eqn:Ew.
  - apply Nat.ltb_lt in Ew.
    assert (Eu : Nat.ltb (getNodeRankPosition d u) (getNodeRankPosition d v) = true)
      by (apply Nat.ltb_lt; lia).
    rewrite Eu.
    assert (c_min d k0 u <= c_min d k0 w)%Z by (apply Hmon; auto; lia).
    lia.
  - destruct (Nat.ltb (getNodeRankPosition d u) (getNodeRankPosition d v)); lia.
Qed.

(** Every cut of the pool shows the descent: the node ranked immediately
    before [v] has a coefficient of at least 2 and [v] itself has 1. *)
Lemma node_cover_cut_descent d cut k i v :
  rank_wf d ->
  In cut (addAvailabilityCoverConstraints d []) ->
  getName cut = NodeCover k i v ->
  In (rank_pred d v) (nodes d) ->
  (getNodeRankPosition d (rank_pred d v) < getNodeRankPosition d v)%nat ->
  exists cu cw,
    In (cu, x_var k i (rank_pred d v)) (getExpr cut)
    /\ In (cw, x_var k i v) (getExpr cut)
    /\ cw == 1 /\ 2 <= cu.
Proof.
  intros Hwf Hin Hname Hp Hpos.
  apply in_node_cover_pool in Hin.
  destruct Hin as (k' & i' & v' & _ & _ & Hv & Hem & ->).
  simpl in Hname. injection Hname as -> -> ->.
  unfold cover_emitted in Hem. apply andb_true_iff in Hem. destruct Hem as [_ Hlt].
  apply Z.ltb_lt in Hlt.
  exists (inject_Z (cover_coeff d (cover_c d k) v (rank_pred d v))),
         (inject_Z (cover_coeff d (cover_c d k) v v)).
  split; [simpl; apply in_map_iff; exists (rank_pred d v); auto|].
  split; [simpl; apply in_map_iff; exists v; auto|].
  unfold cover_coeff.
  apply Nat.ltb_lt in Hpos. rewrite Hpos, Nat.ltb_irrefl.
  split; [reflexivity|].
  change 2 with (inject_Z 2). rewrite <- Zle_Qle. lia.
Qed.

Lemma sample_cover_monotone : cover_monotone (sample (97 # 100)).
Proof.
  intros k u w _ Hu Hw. simpl in Hu, Hw.
  destruct Hu as [<-|[<-|[<-|[]]]]; destruct Hw as [<-|[<-|[<-|[]]]];
    simpl; intros H; try (exfalso; lia); vm_compute; discriminate.
Defined.

Lemma node_cover_coefficients_nonincreasing_witness :
  inject_Z 1 <= inject_Z 2.
Proof.
  apply (node_cover_coefficients_nonincreasing (sample (97 # 100))
           (sample_rank_wf _) sample_cover_monotone
           (nodeCoverCut (sample (97 # 100)) (cover_c (sample (97 # 100)) 0) 0 0 1)
           (or_introl eq_refl) 0%nat 0%nat 0%nat 1%nat).
  - left. reflexivity.
  - right. left. reflexivity.
  - vm_compute. lia.
Defined.

(** ** Checking the pool twice *)

Lemma add_cuts_app cs cs' s : add_cuts (cs ++ cs') s = add_cuts cs' (add_cuts cs s).
Proof. apply fold_left_app. Qed.

Lemma add_cuts_host cs s : host (add_cuts cs s) = host s ++ map addUserCut cs.
Proof.
  revert s. induction cs as [|c cs IH]; intros s; simpl.
  - now rewrite app_nil_r.
  - unfold add_cuts in *. rewrite IH. simpl. now rewrite <- app_assoc.
Qed.

Lemma add_cuts_nbCuts cs s :
  nbCuts (add_cuts cs s) = (nbCuts s + Z.of_nat (length cs))%Z.
Proof.
  revert s. induction cs as [|c cs IH]; intros s.
  - simpl. lia.
  - unfold add_cuts in *. cbn [fold_left]. rewrite IH. cbn [length nbCuts incrementUsercuts submit]. lia.
Qed.

Lemma add_cuts_cutPool cs s : cutPool (add_cuts cs s) = cutPool s.
Proof.
  revert s. induction cs as [|c cs IH]; intros s; [reflexivity|].
  unfold add_cuts in *. cbn [fold_left]. now rewrite IH.
Qed.

Lemma checkCutPool_fold ctx l found s :
  fold_left (fun acc cut =>
    let '(found_violated_cut, s) := acc in
    if violated ctx cut
    then (true, incrementUsercuts (submit (addUserCut cut) s))
    else (found_violated_cut, s)) l (found, s)
  = (found || existsb (violated ctx) l, add_cuts (filter (violated ctx) l) s).
Proof.
  revert found s. induction l as [|c l IH]; intros found s; simpl.
  - now rewrite orb_false_r.
  - destruct (violated ctx c); rewrite IH; simpl.
    + now rewrite orb_true_r.
    + reflexivity.
Qed.

Lemma checkCutPool_eq ctx s :
  checkCutPool ctx s
  = (existsb (violated ctx) (cutPool s),
     add_cuts (filter (violated ctx) (cutPool s)) s).
Proof. unfold checkCutPool. now rewrite checkCutPool_fold. Qed.

(** The second check submits the violated cuts again: the log grows by the
    same cuts and the counter counts them a second time. *)
Lemma checkCutPool_twice_log ctx s :
  let s1 := snd (checkCutPool ctx s) in
  let s2 := snd (checkCutPool ctx s1) in
  let added := filter (violated ctx) (cutPool s) in
  host s1 = host s ++ map addUserCut added
  /\ host s2 = host s1 ++ map addUserCut added
  /\ nbCuts s2 = (nbCuts s1 + Z.of_nat (length added))%Z.
Proof.
  cbn zeta. rewrite !checkCutPool_eq. cbn [snd].
  rewrite !add_cuts_cutPool, !add_cuts_host, !add_cuts_nbCuts. auto.
Qed.

(** C8.  Checking the pool a second time on the same relaxation values
    submits no cut that the first check had not submitted: the set of cuts
    handed to the solver after two consecutive checks is the set handed over
    after one, and both checks return the same answer. *)
Theorem checkCutPool_idempotent_on_submitted_set (ctx : Context) (s : State) :
  let s1 := snd (checkCutPool ctx s) in
  let s2 := snd (checkCutPool ctx s1) in
  (forall a, In a (host s2) <-> In a (host s1))
  /\ fst (checkCutPool ctx s1) = fst (checkCutPool ctx s).
Proof.
  cbn zeta. destruct (checkCutPool_twice_log ctx s) as (H1 & H2 & _).
  cbn zeta in H1, H2. split.
  - intros a. rewrite H2, H1, !in_app_iff. tauto.
  - rewrite !checkCutPool_eq. cbn [fst snd]. now rewrite add_cuts_cutPool.
Qed.

(** ** Generalized cover separation stops at the first violation *)

Lemma first_return_ext {A B} (f g : A -> option B) l :
  (forall a, f a = g a) -> first_return f l = first_return g l.
Proof.
  intros H. induction l as [|a l IH]; simpl; [reflexivity|].
  now rewrite H, IH.
Qed.

Lemma first_return_map {A B C} (body : B -> option C) (g : A -> B) l :
  first_return body (map g l) = first_return (fun a => body (g a)) l.
Proof.
  induction l as [|a l IH]; simpl; [reflexivity|]. now rewrite IH.
Qed.

Lemma first_return_app {A B} (body : A -> option B) l l' :
  first_return body (l ++ l') =
  match first_return body l with
  | Some b => Some b
  | None => first_return body l'
  end.
Proof.
  induction l as [|a l IH]; simpl; [reflexivity|].
  destruct (body a); [reflexivity|apply IH].
Qed.

Lemma first_return_flat_map {A B C} (body : B -> option C) (f : A -> list B) l :
  first_return body (flat_map f l) = first_return (fun a => first_return body (f a)) l.
Proof.
  induction l as [|a l IH]; simpl; [reflexivity|].
  rewrite first_return_app, IH. reflexivity.
Qed.

Lemma first_return_Some {A B} (body : A -> option B) l b :
  first_return body l = Some b ->
  exists pre a post,
    l = pre ++ a :: post /\ (forall a', In a' pre -> body a' = None) /\ body a = Some b.
Proof.
  induction l as [|a l IH]; simpl; [discriminate|].
  destruct (body a) eqn:E.
  - intros [= ->]. exists [], a, l. repeat split; auto. intros a' [].
  - intros H. destruct (IH H) as (pre & a0 & post & -> & Hpre & Ha0).
    exists (a :: pre), a0, post. repeat split; auto.
    intros a' [<-|Hin]; auto.
Qed.

Lemma first_return_None {A B} (body : A -> option B) l :
  first_return body l = None -> forall a, In a l -> body a = None.
Proof.
  induction l as [|a l IH]; simpl; [intros _ a []|].
  destruct (body a) eqn:E; [discriminate|].
  intros H a' [<-|Hin]; auto.
Qed.

Lemma gen_search_combos d xs :
  gen_search d xs =
  first_return (fun t => if gen_violated_at d xs t then Some (gen_cut_at d xs t) else None)
               (gen_combos d).
Proof.
  unfold gen_search, gen_combos.
  rewrite first_return_flat_map. apply first_return_ext. intros k.
  rewrite first_return_flat_map. apply first_return_ext. intros limit_node.
  rewrite first_return_map. reflexivity.
Qed.

Lemma set_U_spec d limit_node v :
  set_U d limit_node v = true <->
  In v (nodes d) /\ (getNodeRankPosition d limit_node <= getNodeRankPosition d v)%nat.
Proof.
  unfold set_U.
  assert (G : forall l U0,
             fold_left (fun U v =>
               if Nat.leb (getNodeRankPosition d limit_node) (getNodeRankPosition d v)
               then upd1 U v true else U) l U0 v = true <->
             U0 v = true \/
             (In v l /\ (getNodeRankPosition d limit_node <= getNodeRankPosition d v)%nat)).
  { induction l as [|u l IH]; intros U0; simpl; [tauto|].
    rewrite IH.
    destruct (Nat.leb (getNodeRankPosition d limit_node) (getNodeRankPosition d u)) eqn:E.
    - apply Nat.leb_le in E. destruct (Nat.eq_dec v u) as [->|Hne].
      + rewrite upd1_same. tauto.
      + rewrite upd1_other by assumption. intuition congruence.
    - apply Nat.leb_gt in E. split; [tauto|].
      intros [H|[[->|H] H']]; auto. lia. }
  rewrite G. intuition discriminate.
Qed.

Lemma gen_violated_iff d xs k limit_node nb_sections :
  gen_violated d xs k limit_node nb_sections = true <->
  let rhs := getVnfLB_U d (set_U d limit_node) nb_sections (getAvailability d k) in
  0 <= rhs /\ gen_lhs d xs k (set_U d limit_node) rhs nb_sections < rhs - (1 # 10000).
Proof.
  unfold gen_violated. cbn zeta.
  rewrite andb_true_iff, Qle_bool_iff, Qltb_lt. reflexivity.
Qed.


(** ** The dispatcher and defensive checks *)

Lemma dispatcher_unbounded_candidate_counterexample :
  ~ dispatcher_aborts_on_defect sample_libc (sample (97 # 100)) 0
      unbounded_candidate (Callback sample_libc (sample (97 # 100)) 0).
Proof.
  intros H. destruct H as [e He].
  - right. split; reflexivity.
  - unfold invoke in He. simpl in He. discriminate.
Qed.

(** C6.  An event that is neither a relaxation nor a candidate
    makes the dispatcher throw "Unexpected context id".  On a candidate
    event without a candidate point the dispatcher does not call the lazy
    constraint separation: it returns normally, with only the time spent
    added; getIntegerSolution and addLazyConstraints throw "Unbounded
    solution within callback" when they are called on such an event. *)
Theorem dispatcher_defensive_checks `{StdSort} (L : Libc) (d : Data) (fuel : nat)
    (ctx : Context) (s : State) :
  (getId ctx <> Relaxation -> getId ctx <> Candidate ->
     invoke L d fuel ctx s = Throw Unexpected_context_id)
  /\ (getId ctx = Candidate -> isCandidatePoint ctx = false ->
        invoke L d fuel ctx s
        = Ok (incrementTime (time_at_exit ctx - time_at_entry ctx) s)
        /\ getIntegerSolution d ctx s = Throw Unbounded_solution_within_callback
        /\ addLazyConstraints d ctx s = Throw Unbounded_solution_within_callback).
Proof.
  split.
  - intros Hr Hc. unfold invoke.
    destruct (getId ctx); try reflexivity; contradiction.
  - intros Hc Hu. unfold invoke, addLazyConstraints, getIntegerSolution.
    rewrite Hc, Hu. simpl. auto.
Qed.

Lemma dispatcher_defensive_checks_witness :
  invoke sample_libc (sample (97 # 100)) 0 thread_up_event
         (Callback sample_libc (sample (97 # 100)) 0)
  = Throw Unexpected_context_id
  /\ invoke sample_libc (sample (97 # 100)) 0 unbounded_candidate
         (Callback sample_libc (sample (97 # 100)) 0)
     = Ok (incrementTime (2 - 1) (Callback sample_libc (sample (97 # 100)) 0)).
Proof.
  split.
  - apply (proj1 (dispatcher_defensive_checks sample_libc (sample (97 # 100)) 0
                    thread_up_event (Callback sample_libc (sample (97 # 100)) 0)));
      discriminate.
  - exact (proj1 (proj2 (dispatcher_defensive_checks sample_libc (sample (97 # 100)) 0
                           unbounded_candidate
                           (Callback sample_libc (sample (97 # 100)) 0))
                        eq_refl eq_refl)).
Defined.

(** ** User cuts and the matheuristic on a relaxation event *)

Lemma cuts_added_refl s : cuts_added s s [].
Proof. split; simpl; [now rewrite app_nil_r | lia]. Qed.

Lemma cuts_added_trans s1 s2 s3 c c' :
  cuts_added s1 s2 c -> cuts_added s2 s3 c' -> cuts_added s1 s3 (c ++ c').
Proof.
  intros [H1 H2] [H3 H4]. split.
  - rewrite H3, H1, map_app, app_assoc. reflexivity.
  - rewrite H4, H2, length_app. lia.
Qed.

Lemma cuts_added_one s cut :
  cuts_added s (incrementUsercuts (submit (addUserCut cut) s)) [cut].
Proof. split; reflexivity. Qed.

Lemma add_cuts_added cs s : cuts_added s (add_cuts cs s) cs.
Proof. split; [apply add_cuts_host | apply add_cuts_nbCuts]. Qed.

Lemma generalizedCoverSeparation_added d s :
  exists cuts, cuts_added s (generalizedCoverSeparation d s) cuts.
Proof.
  unfold generalizedCoverSeparation. destruct (gen_search d (xSol s)) as [cut|].
  - exists [cut]. apply cuts_added_one.
  - exists []. apply cuts_added_refl.
Qed.

Lemma chainCover_demand_added d k s :
  exists cuts, cuts_added s (chainCover_demand d k s) cuts.
Proof.
  unfold chainCover_demand.
  generalize (seq 1 (getNbVNFs d k)). intros l.
  induction l as [|nb l IH]; cbn zeta.
  - exists []. apply cuts_added_refl.
  - destruct (Qltb _ _).
    + eexists [_]. apply cuts_added_one.
    + exact IH.
Qed.

Lemma chainCoverSeparation_added d s :
  exists cuts, cuts_added s (chainCoverSeparation d s) cuts.
Proof.
  unfold chainCoverSeparation. generalize (seq 0 (getNbDemands d)). intros l.
  revert s. induction l as [|k l IH]; intros s; simpl.
  - exists []. apply cuts_added_refl.
  - destruct (chainCover_demand_added d k s) as [c Hc].
    destruct (IH (chainCover_demand d k s)) as [c' Hc'].
    exists (c ++ c'). eapply cuts_added_trans; eassumption.
Qed.

Lemma heurSeparation_demand_added d fuel k s s' :
  heurSeparation_demand d fuel k s = Ok s' -> exists cuts, cuts_added s s' cuts.
Proof.
  unfold heurSeparation_demand.
  destruct (initiateHeuristic d k (xSol s)) as [h| | |]; simpl; try discriminate.
  destruct (Qltb _ _).
  - destruct (heur_while _ _ _ _ _ _ _ _) as [h'| | |]; simpl; try discriminate.
    destruct (Qltb _ _); intros [= <-].
    + eexists [_]. split; reflexivity.
    + exists []. apply cuts_added_refl.
  - intros [= <-]. exists []. apply cuts_added_refl.
Qed.

Lemma for_each_added (body : nat -> State -> Result State) :
  (forall a s s', body a s = Ok s' -> exists cuts, cuts_added s s' cuts) ->
  forall l s s', for_each body l s = Ok s' -> exists cuts, cuts_added s s' cuts.
Proof.
  intros Hb. induction l as [|a l IH]; intros s s'; simpl.
  - intros [= <-]. exists []. apply cuts_added_refl.
  - destruct (body a s) as [s1| | |] eqn:E; simpl; try discriminate.
    intros H. destruct (Hb _ _ _ E) as [c Hc]. destruct (IH _ _ H) as [c' Hc'].
    exists (c ++ c'). eapply cuts_added_trans; eassumption.
Qed.

Lemma addUserCuts_added d fuel ctx s s1 :
  addUserCuts d fuel ctx s = Ok s1 -> exists cuts, cuts_added s s1 cuts.
Proof.
  unfold addUserCuts, getFractionalSolution.
  destruct (getId ctx); simpl; try discriminate.
  rewrite checkCutPool_eq.
  set (s0 := set_xSol _ s).
  assert (H0 : cuts_added s s0 [])
    by (split; simpl; [now rewrite app_nil_r | lia]).
  destruct (existsb _ _).
  - intros [= <-]. eexists. eapply cuts_added_trans; [exact H0|apply add_cuts_added].
  - set (sa := add_cuts _ s0).
    assert (Ha : cuts_added s sa (filter (violated ctx) (cutPool s0)))
      by (apply (cuts_added_trans _ _ _ _ _ H0), add_cuts_added).
    assert (Hb : exists c, cuts_added s
               (if getChainCover (getInput d)
                then chainCoverSeparation d (generalizedCoverSeparation d sa) else sa) c).
    { destruct (getChainCover (getInput d)); [|eauto].
      destruct (generalizedCoverSeparation_added d sa) as [c1 H1].
      destruct (chainCoverSeparation_added d (generalizedCoverSeparation d sa)) as [c2 H2].
      eexists. eapply cuts_added_trans; [exact Ha|].
      eapply cuts_added_trans; eassumption. }
    destruct Hb as [c Hc].
    destruct (getAvailabilityUsercuts (getInput d)).
    + intros H. apply for_each_added in H.
      * destruct H as [c' Hc']. eexists. eapply cuts_added_trans; eassumption.
      * intros a x x'. apply heurSeparation_demand_added.
    + intros [= <-]. eauto.
Qed.

Lemma addUserCuts_Ok_relaxation d fuel ctx s s1 :
  addUserCuts d fuel ctx s = Ok s1 -> getId ctx = Relaxation.
Proof.
  unfold addUserCuts, getFractionalSolution.
  destruct (getId ctx); simpl; try discriminate. reflexivity.
Qed.

(** C9.  On a relaxation event, let [cuts] be the user cuts that addUserCuts
    submitted (pool check and dynamic separation together).  The counter of
    user cuts is unchanged exactly when [cuts] is empty; in that case the
    dispatcher goes on with runHeuristic, and otherwise it returns the state
    left by addUserCuts with only the time added: runHeuristic is not run. *)
Theorem heuristic_only_when_no_cut_added `{StdSort} (L : Libc) (d : Data) (fuel : nat)
    (ctx : Context) (s s1 : State) :
  addUserCuts d fuel ctx s = Ok s1 ->
  exists cuts,
    cuts_added s s1 cuts
    /\ (getNbUserCuts s1 = getNbUserCuts s <-> cuts = [])
    /\ (cuts = [] ->
        invoke L d fuel ctx s
        = (s2 <- runHeuristic L d fuel ctx s1 ;;
           Ok (incrementTime (time_at_exit ctx - time_at_entry ctx) s2)))
    /\ (cuts <> [] ->
        invoke L d fuel ctx s
        = Ok (incrementTime (time_at_exit ctx - time_at_entry ctx) s1)).
Proof.
  intros Hadd.
  pose proof (addUserCuts_Ok_relaxation _ _ _ _ _ Hadd) as Hid.
  destruct (addUserCuts_added _ _ _ _ _ Hadd) as [cuts Hc].
  exists cuts. split; [assumption|].
  destruct Hc as [_ Hn]. unfold getNbUserCuts.
  assert (Hiff : nbCuts s1 = nbCuts s <-> cuts = []).
  { rewrite Hn. destruct cuts; simpl; split; intros; try reflexivity; try lia; discriminate. }
  split; [exact Hiff|].
  unfold invoke. rewrite Hid, Hadd. cbn [bind]. unfold getNbUserCuts.
  split; intros Hcuts.
  - apply Hiff in Hcuts. rewrite Hcuts, Z.eqb_refl. reflexivity.
  - assert (Hne : nbCuts s <> nbCuts s1) by (intros E; apply Hcuts, Hiff; auto).
    apply Z.eqb_neq in Hne. rewrite Hne. reflexivity.
Qed.

Lemma heuristic_only_when_no_cut_added_witness :
  exists s1 cuts,
    addUserCuts (sample (97 # 100)) 0 zero_relaxation
                (Callback sample_libc (sample (97 # 100)) 0) = Ok s1
    /\ cuts_added (Callback sample_libc (sample (97 # 100)) 0) s1 cuts.
Proof.
  destruct (addUserCuts (sample (97 # 100)) 0 zero_relaxation
                        (Callback sample_libc (sample (97 # 100)) 0))
    as [s1|e| |] eqn:E.
  - destruct (heuristic_only_when_no_cut_added sample_libc _ 0 _ _ _ E)
      as (cuts & Hc & _).
    exists s1, cuts. split; [reflexivity|exact Hc].
  - vm_compute in E. discriminate.
  - vm_compute in E. discriminate.
  - vm_compute in E. discriminate.
Defined.

(** ** The generator of the matheuristic *)

Lemma rng_advanced_refl L s : rng_advanced L s s.
Proof. now exists 0%nat. Qed.

Lemma rng_advanced_same L s s' : rng s' = rng s -> rng_advanced L s s'.
Proof. intros E. now exists 0%nat. Qed.

Lemma rng_advanced_trans L s1 s2 s3 :
  rng_advanced L s1 s2 -> rng_advanced L s2 s3 -> rng_advanced L s1 s3.
Proof.
  intros [n Hn] [m Hm]. exists (m + n)%nat.
  rewrite Hm, Hn, Nat.iter_add. reflexivity.
Qed.

Lemma rng_advanced_fold {A} L (f : State -> A -> State) :
  (forall s a, rng_advanced L s (f s a)) ->
  forall l s, rng_advanced L s (fold_left f l s).
Proof.
  intros Hf. induction l as [|a l IH]; intros s; simpl.
  - apply rng_advanced_refl.
  - eapply rng_advanced_trans; [apply Hf|apply IH].
Qed.

Lemma rng_advanced_draw L s : rng_advanced L s (snd (draw L s)).
Proof.
  unfold draw. exists 1%nat. simpl. unfold next_rng.
  destruct (rand L (rng s)); reflexivity.
Qed.

Lemma rng_add_cuts cs s : rng (add_cuts cs s) = rng s.
Proof.
  revert s. induction cs as [|c cs IH]; intros s; [reflexivity|].
  unfold add_cuts in *. cbn [fold_left]. now rewrite IH.
Qed.

Lemma rng_chainCover_demand d k s : rng (chainCover_demand d k s) = rng s.
Proof.
  unfold chainCover_demand. generalize (seq 1 (getNbVNFs d k)). intros l.
  induction l as [|nb l IH]; cbn zeta; [reflexivity|].
  destruct (Qltb _ _); [reflexivity|exact IH].
Qed.

Lemma rng_chainCoverSeparation d s : rng (chainCoverSeparation d s) = rng s.
Proof.
  unfold chainCoverSeparation. generalize (seq 0 (getNbDemands d)). intros l.
  revert s. induction l as [|k l IH]; intros s; simpl; [reflexivity|].
  now rewrite IH, rng_chainCover_demand.
Qed.

Lemma rng_generalizedCoverSeparation d s : rng (generalizedCoverSeparation d s) = rng s.
Proof.
  unfold generalizedCoverSeparation. destruct (gen_search _ _); reflexivity.
Qed.

Lemma rng_heurSeparation_demand d fuel k s s' :
  heurSeparation_demand d fuel k s = Ok s' -> rng s' = rng s.
Proof.
  unfold heurSeparation_demand.
  destruct (initiateHeuristic d k (xSol s)) as [h| | |]; simpl; try discriminate.
  destruct (Qltb _ _).
  - destruct (heur_while _ _ _ _ _ _ _ _) as [h'| | |]; simpl; try discriminate.
    destruct (Qltb _ _); intros [= <-]; reflexivity.
  - intros [= <-]. reflexivity.
Qed.

Lemma rng_for_each (body : nat -> State -> Result State) :
  (forall a s s', body a s = Ok s' -> rng s' = rng s) ->
  forall l s s', for_each body l s = Ok s' -> rng s' = rng s.
Proof.
  intros Hb. induction l as [|a l IH]; intros s s'; simpl.
  - now intros [= <-].
  - destruct (body a s) as [s1| | |] eqn:E; simpl; try discriminate.
    intros H. rewrite (IH _ _ H). eapply Hb, E.
Qed.

Lemma rng_addUserCuts d fuel ctx s s1 :
  addUserCuts d fuel ctx s = Ok s1 -> rng s1 = rng s.
Proof.
  unfold addUserCuts, getFractionalSolution.
  destruct (getId ctx); simpl; try discriminate.
  rewrite checkCutPool_eq.
  destruct (existsb _ _).
  - intros [= <-]. now rewrite rng_add_cuts.
  - destruct (getAvailabilityUsercuts (getInput d)).
    + intros H. apply rng_for_each in H.
      * rewrite H. destruct (getChainCover (getInput d)).
        -- now rewrite rng_chainCoverSeparation, rng_generalizedCoverSeparation, rng_add_cuts.
        -- now rewrite rng_add_cuts.
      * intros a x x'. apply rng_heurSeparation_demand.
    + intros [= <-]. destruct (getChainCover (getInput d)).
      * now rewrite rng_chainCoverSeparation, rng_generalizedCoverSeparation, rng_add_cuts.
      * now rewrite rng_add_cuts.
Qed.

Lemma rng_advanced_heuristicRule L d ctx s :
  rng_advanced L s (snd (heuristicRule L d ctx s)).
Proof.
  unfold heuristicRule.
  destruct (getApproximationType (getInput d)); try apply rng_advanced_refl.
  pose proof (rng_advanced_draw L s) as H.
  destruct (draw L s) as [RND s']. exact H.
Qed.

Lemma rng_advanced_phaseI_place L d ctx v f s :
  rng_advanced L s (phaseI_place L d ctx v f s).
Proof.
  unfold phaseI_place. pose proof (rng_advanced_draw L s) as H.
  destruct (draw L s) as [RND s']. cbn [snd] in H.
  destruct (Qle_bool _ _); exact H.
Qed.

Lemma rng_advanced_phaseI_assign L d ctx v k i s :
  rng_advanced L s (phaseI_assign L d ctx v k i s).
Proof.
  unfold phaseI_assign.
  destruct (_ && _); [|now apply rng_advanced_same].
  pose proof (rng_advanced_draw L s) as H.
  destruct (draw L s) as [RND s']. cbn [snd] in H.
  destruct (Qle_bool _ _); exact H.
Qed.

Lemma rng_advanced_Phase_I L d ctx s :
  rng_advanced L s (runHeuristic_Phase_I L d ctx s).
Proof.
  unfold runHeuristic_Phase_I.
  eapply rng_advanced_trans; [|apply rng_advanced_fold].
  - eapply rng_advanced_trans; [|apply rng_advanced_fold].
    + apply rng_advanced_same. reflexivity.
    + intros s' v. apply rng_advanced_fold. intros s'' f.
      apply rng_advanced_phaseI_place.
  - intros s' v. unfold phaseI_node.
    eapply rng_advanced_trans; [|apply rng_advanced_fold].
    + apply rng_advanced_same. reflexivity.
    + intros s'' k. apply rng_advanced_fold. intros s3 i.
      apply rng_advanced_phaseI_assign.
Qed.

Lemma rng_phaseII_install d k i v s : rng (phaseII_install d k i v s) = rng s.
Proof. unfold phaseII_install. destruct (Qeq_bool _ _); reflexivity. Qed.

Lemma rng_phaseII_while d k fuel s r :
  phaseII_while d k fuel s = Ok r -> rng (snd r) = rng s.
Proof.
  revert s. induction fuel as [|fuel IH]; intros s; simpl; [discriminate|].
  destruct (getSolutionAvail_k d (xSol s) k) as [avail least].
  destruct (Qltb _ _).
  - destruct least as [i|]; [|discriminate].
    destruct (getNodeToInstall _ _ _ _) as [v|].
    + intros H. rewrite (IH _ H). apply rng_phaseII_install.
    + now intros [= <-].
  - now intros [= <-].
Qed.

Lemma rng_phaseII_demands d fuel l s r :
  phaseII_demands d fuel l s = Ok r -> rng (snd r) = rng s.
Proof.
  revert s. induction l as [|k l IH]; intros s; simpl.
  - now intros [= <-].
  - destruct (phaseII_while d k fuel s) as [r1| | |] eqn:E; simpl; try discriminate.
    apply rng_phaseII_while in E.
    destruct (fst r1).
    + intros H. now rewrite (IH _ H).
    + now intros [= <-].
Qed.

Lemma rng_advanced_runHeuristic L d fuel ctx s s' :
  runHeuristic L d fuel ctx s = Ok s' -> rng_advanced L s s'.
Proof.
  unfold runHeuristic.
  destruct (negb (getHeuristic (getInput d))).
  { intros [= <-]. apply rng_advanced_refl. }
  pose proof (rng_advanced_heuristicRule L d ctx s) as Hrule.
  destruct (heuristicRule L d ctx s) as [go s1]. cbn [snd] in Hrule.
  destruct (negb go).
  { now intros [= <-]. }
  pose proof (rng_advanced_Phase_I L d ctx s1) as HI.
  destruct (runHeuristic_Phase_II d fuel (runHeuristic_Phase_I L d ctx s1))
    as [r| | |] eqn:E; simpl; try discriminate.
  apply rng_phaseII_demands in E.
  destruct r as [isFeasible s2]. cbn [snd] in E.
  assert (H2 : rng_advanced L s s2).
  { eapply rng_advanced_trans; [exact Hrule|].
    eapply rng_advanced_trans; [exact HI|]. now apply rng_advanced_same. }
  destruct (_ && _); intros [= <-]; [|exact H2].
  eapply rng_advanced_trans; [exact H2|]. now apply rng_advanced_same.
Qed.

Lemma rng_lazy_demand `{StdSort} d s k : rng (lazy_demand d s k) = rng s.
Proof.
  unfold lazy_demand.
  destruct (select_sections _ _ _ _ _) as [chain nb].
  destruct (Qltb _ _); [|reflexivity].
  destruct (lift _ _ _ _ _) as [xs recs]. reflexivity.
Qed.

Lemma rng_addLazyConstraints `{StdSort} d ctx s s' :
  addLazyConstraints d ctx s = Ok s' -> rng s' = rng s.
Proof.
  unfold addLazyConstraints, getIntegerSolution.
  destruct (getId ctx); simpl; try discriminate.
  destruct (isCandidatePoint ctx); simpl; [|discriminate].
  intros [= <-].
  generalize (seq 0 (getNbDemands d)). intros l.
  set (s0 := set_xSol _ s). assert (E : rng s0 = rng s) by reflexivity.
  rewrite <- E. clearbody s0. clear E. revert s0.
  induction l as [|k l IH]; intros s0; simpl; [reflexivity|].
  now rewrite IH, rng_lazy_demand.
Qed.

Lemma rng_advanced_invoke `{StdSort} L d fuel ctx s s' :
  invoke L d fuel ctx s = Ok s' -> rng_advanced L s s'.
Proof.
  unfold invoke. destruct (getId ctx); simpl; try discriminate.
  - destruct (isCandidatePoint ctx).
    + destruct (addLazyConstraints d ctx s) as [s1| | |] eqn:E; simpl; try discriminate.
      intros [= <-]. apply rng_advanced_same. simpl.
      eapply rng_addLazyConstraints, E.
    + simpl. intros [= <-]. now apply rng_advanced_same.
  - destruct (addUserCuts d fuel ctx s) as [s1| | |] eqn:E; simpl; try discriminate.
    apply rng_addUserCuts in E.
    destruct (Z.eqb _ _).
    + destruct (runHeuristic L d fuel ctx s1) as [s2| | |] eqn:E2; simpl; try discriminate.
      intros [= <-]. apply rng_advanced_runHeuristic in E2.
      eapply rng_advanced_trans; [apply rng_advanced_same, E|].
      eapply rng_advanced_trans; [exact E2|]. now apply rng_advanced_same.
    + simpl. intros [= <-]. now apply rng_advanced_same.
Qed.

Lemma rng_advanced_run_events `{StdSort} L d fuel events s s' :
  run_events L d fuel events s = Ok s' -> rng_advanced L s s'.
Proof.
  revert s. induction events as [|ctx events IH]; intros s; simpl.
  - intros [= <-]. apply rng_advanced_refl.
  - destruct (invoke L d fuel ctx s) as [s1| | |] eqn:E; simpl; try discriminate.
    intros H'. eapply rng_advanced_trans; [eapply rng_advanced_invoke, E|].
    apply IH, H'.
Qed.

(** C10.  The constructor seeds the generator with the constant 20102019,
    whatever the instance data, its parameters and the state of the generator
    before, and nothing reseeds it afterwards: from whatever state of the
    generator a call of the dispatcher starts, the state it leaves is
    reached from that one by draws alone, and so is the state after any
    sequence of events.  After any run the generator is therefore in the
    state reached from the seed 20102019 by the draws made so far, and two
    runs on the same data and the same events end in the same state (same
    draws, same trigger decisions, same posted heuristic solutions). *)
Theorem generator_seeded_once_with_constant `{StdSort} (L : Libc) (d : Data)
    (fuel : nat) (events : list Context) (rng_before rng_before' : Z) :
  rng (Callback L d rng_before) = srand L 20102019
  /\ (forall ctx s s', invoke L d fuel ctx s = Ok s' ->
        exists draws, rng s' = Nat.iter draws (next_rng L) (rng s))
  /\ (forall s s', run_events L d fuel events s = Ok s' ->
        exists draws, rng s' = Nat.iter draws (next_rng L) (rng s))
  /\ run L d fuel rng_before events = run L d fuel rng_before' events
  /\ (forall s', run L d fuel rng_before events = Ok s' ->
        exists draws, rng s' = Nat.iter draws (next_rng L) (srand L 20102019)).
Proof.
  split; [reflexivity|].
  split; [intros ctx s s' Hrun; exact (rng_advanced_invoke L d fuel ctx s s' Hrun)|].
  split; [intros s s' Hrun; exact (rng_advanced_run_events L d fuel events s s' Hrun)|].
  split; [reflexivity|].
  intros s' Hrun. unfold run in Hrun.
  apply rng_advanced_run_events in Hrun. exact Hrun.
Qed.

Lemma generator_seeded_once_with_constant_witness :
  exists s' draws,
    run sample_libc (sample (97 # 100)) 10 0 [ones_relaxation] = Ok s'
    /\ rng s' = Nat.iter draws (next_rng sample_libc) (srand sample_libc 20102019).
Proof.
  destruct (run sample_libc (sample (97 # 100)) 10 0 [ones_relaxation])
    as [s'|e| |] eqn:E.
  - destruct (proj2 (proj2 (proj2 (proj2
                (generator_seeded_once_with_constant sample_libc
                   (sample (97 # 100)) 10 [ones_relaxation] 0 0)))) s' E)
      as [draws Hd].
    exists s', draws. split; [reflexivity|exact Hd].
  - vm_compute in E. discriminate.
  - vm_compute in E. discriminate.
  - vm_compute in E. discriminate.
Defined.

(** ** Capacities in the matheuristic *)

Lemma NoDup_demand_sections d : NoDup (demand_sections d).
Proof.
  unfold demand_sections.
  generalize (seq_NoDup (getNbDemands d) 0).
  generalize (seq 0 (getNbDemands d)). intros l Hl.
  induction Hl as [|k l Hk Hl IH]; simpl; [constructor|].
  apply NoDup_app.
  - apply NoDup_map_NoDup_ForallPairs; [|apply seq_NoDup].
    intros a b _ _ [= ->]. reflexivity.
  - exact IH.
  - intros p Hp Hp'. apply in_map_iff in Hp. destruct Hp as (i & <- & _).
    apply in_flat_map in Hp'. destruct Hp' as (k' & Hk' & Hp').
    apply in_map_iff in Hp'. destruct Hp' as (i' & [= -> _] & _). contradiction.
Qed.

Lemma fold_left_flat_map {A B C} (f : C -> B -> C) (g : A -> list B) l c :
  fold_left f (flat_map g l) c = fold_left (fun c a => fold_left f (g a) c) l c.
Proof.
  revert c. induction l as [|a l IH]; intros c; simpl; [reflexivity|].
  now rewrite fold_left_app, IH.
Qed.

Lemma load_ext d xs xs' v :
  (forall k i, xs' k i v = xs k i v) -> load d xs' v = load d xs v.
Proof.
  intros H. unfold load. f_equal. apply map_ext. intros p.
  unfold load_term. now rewrite H.
Qed.

Lemma upd3_same {A} (m : nat -> nat -> nat -> A) a b c x : upd3 m a b c x a b c = x.
Proof. unfold upd3, upd2. now rewrite !upd1_same. Qed.

Lemma upd3_other {A} (m : nat -> nat -> nat -> A) a b c x a' b' c' :
  (a', b', c') <> (a, b, c) -> upd3 m a b c x a' b' c' = m a' b' c'.
Proof.
  intros H. unfold upd3, upd2, upd1.
  destruct (Nat.eqb a' a) eqn:Ea; [|reflexivity].
  apply Nat.eqb_eq in Ea. subst a'.
  destruct (Nat.eqb b' b) eqn:Eb; [|reflexivity].
  apply Nat.eqb_eq in Eb. subst b'.
  destruct (Nat.eqb c' c) eqn:Ec; [|reflexivity].
  apply Nat.eqb_eq in Ec. subst c'. contradiction.
Qed.

(** *** Phase I *)

Lemma draw_frame L s :
  xSol (snd (draw L s)) = xSol s
  /\ ySol (snd (draw L s)) = ySol s
  /\ remainingCapacity (snd (draw L s)) = remainingCapacity s.
Proof. unfold draw. destruct (rand L (rng s)). simpl. auto. Qed.

(** What one visit of Phase I to (v, k, i) does: [b] tells whether the
    assignment was made. *)
Lemma phaseI_assign_effect L d ctx v k i s :
  exists b : bool,
    xSol (phaseI_assign L d ctx v k i s) = upd3 (xSol s) k i v (if b then 1 else 0)
    /\ remainingCapacity (phaseI_assign L d ctx v k i s)
       = (if b then upd1 (remainingCapacity s) v
                         (remainingCapacity s v - req_capacity d k i)
          else remainingCapacity s)
    /\ (b = true -> req_capacity d k i <= remainingCapacity s v).
Proof.
  unfold phaseI_assign, req_capacity.
  destruct (Qeq_bool _ _ && Qle_bool _ _) eqn:G.
  - apply andb_true_iff in G. destruct G as [_ G]. apply Qle_bool_iff in G.
    destruct (draw_frame L s) as (Hx & _ & Hr).
    destruct (draw L s) as [RND s']. cbn [snd] in Hx, Hr.
    destruct (Qle_bool RND _).
    + exists true. simpl. rewrite Hx, Hr. auto.
    + exists false. simpl. rewrite Hx, Hr. split; [reflexivity|].
      split; [reflexivity|discriminate].
  - exists false. simpl. split; [reflexivity|]. split; [reflexivity|discriminate].
Qed.

Lemma phaseI_sections L d ctx v (P : list (nat * nat)) :
  NoDup P ->
  forall s,
  let s1 := fold_left (fun s p => phaseI_assign L d ctx v (fst p) (snd p) s) P s in
  (forall u, u <> v -> remainingCapacity s1 u = remainingCapacity s u)
  /\ (forall k i u, u <> v -> xSol s1 k i u = xSol s k i u)
  /\ (forall p, ~ In p P -> xSol s1 (fst p) (snd p) v = xSol s (fst p) (snd p) v)
  /\ (0 <= remainingCapacity s v -> 0 <= remainingCapacity s1 v)
  /\ remainingCapacity s1 v + sumQ (map (load_term d (xSol s1) v) P)
     == remainingCapacity s v.
Proof.
  induction 1 as [|p P Hp HP IH]; intros s; cbn zeta.
  - simpl. repeat split; auto. ring.
  - cbn [fold_left map sumQ].
    set (s' := phaseI_assign L d ctx v (fst p) (snd p) s).
    destruct (IH s') as (I1 & I2 & I3 & I4 & I5).
    set (s1 := fold_left _ P s') in *.
    destruct (phaseI_assign_effect L d ctx v (fst p) (snd p) s) as (b & Ex & Er & Eb).
    fold s' in Ex, Er.
    assert (R' : remainingCapacity s' v
                 == remainingCapacity s v - (if b then req_capacity d (fst p) (snd p) else 0)).
    { rewrite Er. destruct b; [rewrite upd1_same; reflexivity | ring]. }
    assert (T : load_term d (xSol s1) v p
                = if b then req_capacity d (fst p) (snd p) else 0).
    { unfold load_term. rewrite (I3 p Hp), Ex, upd3_same. now destruct b. }
    repeat split.
    + intros u Hu. rewrite (I1 u Hu), Er.
      destruct b; [apply upd1_other; assumption | reflexivity].
    + intros k i u Hu. rewrite (I2 k i u Hu), Ex.
      apply upd3_other. congruence.
    + intros q Hq. rewrite I3 by (intros Hin; apply Hq; now right).
      rewrite Ex. apply upd3_other. intros E. apply Hq. left.
      destruct p, q. simpl in E. congruence.
    + intros H0. apply I4. rewrite R'. destruct b.
      * specialize (Eb eq_refl). lra.
      * lra.
    + rewrite T. lra.
Qed.

Lemma fold_left_ext {A B} (f g : A -> B -> A) :
  (forall a b, f a b = g a b) -> forall l a, fold_left f l a = fold_left g l a.
Proof.
  intros H. induction l as [|b l IH]; intros a; simpl; [reflexivity|].
  now rewrite H, IH.
Qed.

Lemma fold_left_map {A B C} (f : A -> C -> A) (g : B -> C) l a :
  fold_left f (map g l) a = fold_left (fun a b => f a (g b)) l a.
Proof.
  revert a. induction l as [|b l IH]; intros a; simpl; [reflexivity|]. apply IH.
Qed.

Lemma phaseI_node_sections L d ctx s v :
  phaseI_node L d ctx s v =
  fold_left (fun s p => phaseI_assign L d ctx v (fst p) (snd p) s) (demand_sections d)
    (set_remainingCapacity (upd1 (remainingCapacity s) v (getCapacity d v)) s).
Proof.
  unfold phaseI_node, demand_sections. rewrite fold_left_flat_map.
  apply fold_left_ext. intros s' k. rewrite fold_left_map. reflexivity.
Qed.

Lemma phaseI_node_inv L d ctx s v u :
  0 <= getCapacity d v ->
  capacity_inv_at d s u \/ u = v ->
  capacity_inv_at d (phaseI_node L d ctx s v) u.
Proof.
  intros Hcap Hu. rewrite phaseI_node_sections.
  set (s0 := set_remainingCapacity _ s).
  destruct (phaseI_sections L d ctx v (demand_sections d) (NoDup_demand_sections d) s0)
    as (I1 & I2 & _ & I4 & I5).
  set (s1 := fold_left _ (demand_sections d) s0) in *.
  destruct (Nat.eq_dec u v) as [->|Hne].
  - assert (R0 : remainingCapacity s0 v = getCapacity d v)
      by (unfold s0; simpl; apply upd1_same).
    split.
    + apply I4. rewrite R0. assumption.
    + unfold load. rewrite R0 in I5. lra.
  - destruct Hu as [[H1 H2]|]; [|contradiction].
    assert (R : remainingCapacity s1 u = remainingCapacity s u).
    { rewrite (I1 u Hne). unfold s0. simpl. now apply upd1_other. }
    assert (Ld : load d (xSol s1) u = load d (xSol s) u).
    { apply load_ext. intros k i. now rewrite (I2 k i u Hne). }
    split; rewrite ?R, ?Ld; assumption.
Qed.

Lemma phaseI_place_frame L d ctx v f s :
  xSol (phaseI_place L d ctx v f s) = xSol s
  /\ remainingCapacity (phaseI_place L d ctx v f s) = remainingCapacity s.
Proof.
  unfold phaseI_place. destruct (draw_frame L s) as (Hx & _ & Hr).
  destruct (draw L s) as [RND s']. cbn [snd] in Hx, Hr.
  destruct (Qle_bool _ _); simpl; auto.
Qed.

Lemma capacity_inv_Phase_I L d ctx s :
  (forall v, In v (nodes d) -> 0 <= getCapacity d v) ->
  capacity_inv d (runHeuristic_Phase_I L d ctx s).
Proof.
  intros Hcap. unfold runHeuristic_Phase_I.
  set (s0 := fold_left _ (nodes d) (set_objSol 0 s)). clearbody s0.
  assert (G : forall l s u, (forall v, In v l -> 0 <= getCapacity d v) ->
              capacity_inv_at d s u \/ In u l ->
              capacity_inv_at d (fold_left (phaseI_node L d ctx) l s) u).
  { induction l as [|v l IH]; intros s' u Hc Hu; simpl.
    - destruct Hu as [Hu|[]]. exact Hu.
    - apply IH; [intros w Hw; apply Hc; now right|].
      destruct (in_dec Nat.eq_dec u l) as [Hin|Hnin]; [now right|].
      left. apply phaseI_node_inv; [apply Hc; now left|].
      destruct Hu as [Hu|[Hu|Hu]]; auto. contradiction. }
  intros u Hu. apply G; auto.
Qed.

(** *** Phase II *)

Lemma getNodeToInstall_fits d s f k v :
  getNodeToInstall d s f k = Some v ->
  In v (nodes d)
  /\ getBandwidth d k * getConsumption d f <= remainingCapacity s v.
Proof.
  unfold getNodeToInstall.
  set (body := fun (acc : option nat * option Q * Q) (v : nat) => _).
  assert (G : forall l acc,
             (forall u, In u l -> In u (nodes d)) ->
             (forall u, fst (fst acc) = Some u ->
                In u (nodes d)
                /\ getBandwidth d k * getConsumption d f <= remainingCapacity s u) ->
             forall u, fst (fst (fold_left body l acc)) = Some u ->
                In u (nodes d)
                /\ getBandwidth d k * getConsumption d f <= remainingCapacity s u).
  { induction l as [|w l IH]; intros acc Hl Hacc; simpl; [exact Hacc|].
    apply IH; [intros u Hu; apply Hl; now right|].
    destruct acc as [[sel mv] mx]. unfold body.
    destruct (Qle_bool _ (remainingCapacity s w)) eqn:E; [|exact Hacc].
    apply Qle_bool_iff in E.
    assert (Hw : forall u, Some w = Some u ->
                   In u (nodes d)
                   /\ getBandwidth d k * getConsumption d f <= remainingCapacity s u).
    { intros u [= <-]. split; [apply Hl; now left|exact E]. }
    destruct mv as [mv|]; [|exact Hw].
    destruct (Qle_bool _ (mv + EPSILON)); [|exact Hacc].
    destruct (Qle_bool _ (mv - EPSILON)); [exact Hw|].
    destruct (Qle_bool _ _); [exact Hw|exact Hacc]. }
  specialize (G (nodes d) (None, None, 0) (fun u H => H)).
  destruct (fold_left body (nodes d) (None, None, 0)) as [[sel mv] mx].
  intros ->. apply G; [|reflexivity]. simpl. discriminate.
Qed.

Lemma phaseII_install_effect d k i v s :
  xSol (phaseII_install d k i v s) = upd3 (xSol s) k i v 1
  /\ remainingCapacity (phaseII_install d k i v s)
     = upd1 (remainingCapacity s) v (remainingCapacity s v - req_capacity d k i).
Proof.
  unfold phaseII_install, req_capacity. destruct (Qeq_bool _ _); simpl; auto.
Qed.

Lemma load_upd_le d xs k i v :
  0 <= req_capacity d k i ->
  load d (upd3 xs k i v 1) v <= load d xs v + req_capacity d k i.
Proof.
  intros Hreq. unfold load.
  generalize (NoDup_demand_sections d). generalize (demand_sections d).
  intros P HP.
  assert (G : sumQ (map (load_term d (upd3 xs k i v 1) v) P)
              <= sumQ (map (load_term d xs v) P) + req_capacity d k i
              /\ (~ In (k, i) P ->
                  sumQ (map (load_term d (upd3 xs k i v 1) v) P)
                  = sumQ (map (load_term d xs v) P))).
  { induction HP as [|p P Hp HP IH]; simpl.
    - split; [lra|reflexivity].
    - destruct IH as [IH1 IH2].
      destruct (Nat.eq_dec (fst p) k) as [Ek|Nk];
        [destruct (Nat.eq_dec (snd p) i) as [Ei|Ni]|].
      + assert (Ep : p = (k, i)) by (destruct p; simpl in *; congruence).
        subst p. split; [|intros H; exfalso; apply H; now left].
        rewrite (IH2 Hp). unfold load_term at 1. cbn [fst snd].
        rewrite upd3_same.
        assert (0 <= load_term d xs v (k, i)).
        { unfold load_term. cbn [fst snd]. destruct (Qeq_bool _ _); [assumption|lra]. }
        change (Qeq_bool 1 1) with true. cbv iota. lra.
      + assert (T : load_term d (upd3 xs k i v 1) v p = load_term d xs v p).
        { unfold load_term. rewrite upd3_other; [reflexivity|congruence]. }
        rewrite T. split; [lra|].
        intros H. rewrite IH2; [reflexivity|]. intros Hin. apply H. now right.
      + assert (T : load_term d (upd3 xs k i v 1) v p = load_term d xs v p).
        { unfold load_term. rewrite upd3_other; [reflexivity|congruence]. }
        rewrite T. split; [lra|].
        intros H. rewrite IH2; [reflexivity|]. intros Hin. apply H. now right. }
  apply G.
Qed.

Lemma phaseII_install_inv d k i v s :
  0 <= req_capacity d k i ->
  req_capacity d k i <= remainingCapacity s v ->
  capacity_inv d s -> capacity_inv d (phaseII_install d k i v s).
Proof.
  intros Hreq Hfit Hinv u Hu.
  destruct (phaseII_install_effect d k i v s) as [Ex Er].
  destruct (Hinv u Hu) as [H1 H2].
  unfold capacity_inv_at. rewrite Ex, Er.
  destruct (Nat.eq_dec u v) as [->|Hne].
  - rewrite upd1_same. pose proof (load_upd_le d (xSol s) k i v Hreq). split; lra.
  - rewrite upd1_other by assumption.
    rewrite (load_ext d (xSol s) (upd3 (xSol s) k i v 1) u).
    + split; assumption.
    + intros k' i'. apply upd3_other. congruence.
Qed.

Lemma phaseII_while_inv d k fuel s r :
  (forall k i, 0 <= req_capacity d k i) ->
  capacity_inv d s -> phaseII_while d k fuel s = Ok r -> capacity_inv d (snd r).
Proof.
  intros Hreq. revert s. induction fuel as [|fuel IH]; intros s Hinv; simpl; [discriminate|].
  destruct (getSolutionAvail_k d (xSol s) k) as [avail least].
  destruct (Qltb _ _).
  - destruct least as [i|]; [|discriminate].
    destruct (getNodeToInstall _ _ _ _) as [v|] eqn:E.
    + apply IH. apply getNodeToInstall_fits in E. destruct E as [_ E].
      apply phaseII_install_inv; auto.
    + now intros [= <-].
  - now intros [= <-].
Qed.

Lemma phaseII_demands_inv d fuel l s r :
  (forall k i, 0 <= req_capacity d k i) ->
  capacity_inv d s -> phaseII_demands d fuel l s = Ok r -> capacity_inv d (snd r).
Proof.
  intros Hreq. revert s. induction l as [|k l IH]; intros s Hinv; simpl.
  - now intros [= <-].
  - destruct (phaseII_while d k fuel s) as [r1| | |] eqn:E; simpl; try discriminate.
    apply phaseII_while_inv in E; auto.
    destruct (fst r1).
    + now apply IH.
    + now intros [= <-].
Qed.


Lemma sample_capacity_nonneg req v :
  In v (nodes (sample req)) -> 0 <= getCapacity (sample req) v.
Proof. intros _. simpl. discriminate. Defined.

Lemma sample_req_nonneg req k i : 0 <= req_capacity (sample req) k i.
Proof. unfold req_capacity. simpl. discriminate. Defined.


(** ** Availability of an assignment *)

Lemma prodQ_app l l' : prodQ (l ++ l') == prodQ l * prodQ l'.
Proof.
  induction l as [|x l IH]; simpl; [ring|]. rewrite IH. ring.
Qed.

Lemma prodQ_perm l l' : Permutation l l' -> prodQ l == prodQ l'.
Proof.
  induction 1; simpl.
  - reflexivity.
  - now rewrite IHPermutation.
  - ring.
  - etransitivity; eassumption.
Qed.

Lemma prodQ_map_eq {A} (f g : A -> Q) l :
  (forall a, In a l -> f a == g a) -> prodQ (map f l) == prodQ (map g l).
Proof.
  induction l as [|a l IH]; intros H; simpl; [reflexivity|].
  rewrite (H a) by now left. rewrite IH; [reflexivity|].
  intros b Hb. apply H. now right.
Qed.

Lemma prodQ_map_bounds {A} (f g : A -> Q) l :
  (forall a, In a l -> 0 <= f a <= g a) ->
  0 <= prodQ (map f l) <= prodQ (map g l).
Proof.
  induction l as [|a l IH]; intros H; simpl; [lra|].
  destruct (H a (or_introl eq_refl)) as [H1 H2].
  destruct IH as [I1 I2]; [intros b Hb; apply H; now right|].
  split; nra.
Qed.

Lemma prodQ_map_unit {A} (f : A -> Q) l :
  (forall a, In a l -> 0 <= f a <= 1) -> 0 <= prodQ (map f l) <= 1.
Proof.
  induction l as [|a l IH]; intros H; simpl; [lra|].
  destruct (H a (or_introl eq_refl)) as [H1 H2].
  destruct IH as [I1 I2]; [intros b Hb; apply H; now right|].
  split; nra.
Qed.

Lemma fold_left_failure d (asg : nat -> bool) l acc :
  fold_left (fun failure_prob v =>
     if asg v then failure_prob * (1 - nodeAvailability d v) else failure_prob) l acc
  == acc * prodQ (map (fun v => if asg v then 1 - nodeAvailability d v else 1) l).
Proof.
  revert acc. induction l as [|v l IH]; intros acc; simpl; [ring|].
  rewrite IH. destruct (asg v); ring.
Qed.

Lemma getAvailabilityOfSection_eq d xs k i :
  getAvailabilityOfSection d xs k i
  == section_availability d (fun v => assigned (xs k i v)).
Proof.
  unfold getAvailabilityOfSection, section_availability, section_failure, assigned.
  rewrite (fold_left_failure d (fun v => Qle_bool (1 - EPS) (xs k i v))). ring.
Qed.

Lemma section_failure_unit d asg :
  availability_wf d -> 0 <= section_failure d asg <= 1.
Proof.
  intros [_ Ha]. unfold section_failure. apply prodQ_map_unit.
  intros v Hv. specialize (Ha v Hv). destruct (asg v); lra.
Qed.

Lemma section_availability_unit d asg :
  availability_wf d -> 0 <= section_availability d asg <= 1.
Proof.
  intros H. pose proof (section_failure_unit d asg H).
  unfold section_availability. lra.
Qed.

(** More nodes, more availability. *)
Lemma section_availability_mono d asg asg' :
  availability_wf d ->
  (forall v, In v (nodes d) -> asg v = true -> asg' v = true) ->
  section_availability d asg <= section_availability d asg'.
Proof.
  intros [_ Ha] Hsub. unfold section_availability, section_failure.
  assert (prodQ (map (fun v => if asg' v then 1 - nodeAvailability d v else 1) (nodes d))
          <= prodQ (map (fun v => if asg v then 1 - nodeAvailability d v else 1) (nodes d))).
  { apply prodQ_map_bounds. intros v Hv. specialize (Ha v Hv). specialize (Hsub v Hv).
    destruct (asg v), (asg' v); try lra; discriminate (Hsub eq_refl). }
  lra.
Qed.

(** Adding one node that was not chosen multiplies the failure probability
    by the failure probability of that node. *)
Lemma section_failure_add d asg v :
  NoDup (nodes d) -> In v (nodes d) -> asg v = false ->
  section_failure d (fun u => if Nat.eqb u v then true else asg u)
  == section_failure d asg * (1 - nodeAvailability d v).
Proof.
  unfold section_failure. generalize (nodes d). intros l Hnd Hin Hv.
  induction Hnd as [|u l Hu Hnd IH]; [destruct Hin|].
  simpl. destruct Hin as [->|Hin].
  - rewrite Nat.eqb_refl, Hv.
    rewrite (prodQ_map_eq
               (fun u => if if Nat.eqb u v then true else asg u
                         then 1 - nodeAvailability d u else 1)
               (fun u => if asg u then 1 - nodeAvailability d u else 1)).
    + ring.
    + intros w Hw. destruct (Nat.eqb_spec w v) as [->|_]; [contradiction|reflexivity].
  - rewrite (IH Hin).
    destruct (Nat.eqb_spec u v) as [->|_]; [contradiction|]. ring.
Qed.

(** ** Lifting *)

Lemma set_availability_sections recs s a :
  map section (set_availability recs s a) = map section recs.
Proof.
  revert s. induction recs as [|r recs IH]; intros s; [reflexivity|].
  destruct s; simpl; [reflexivity|]. now rewrite IH.
Qed.

Lemma set_availability_length recs s a :
  length (set_availability recs s a) = length recs.
Proof.
  rewrite <- (length_map section), set_availability_sections. apply length_map.
Qed.

Lemma set_availability_nth_same recs s a :
  (s < length recs)%nat ->
  nth s (set_availability recs s a) rec0
  = {| section := section (nth s recs rec0); availability := a |}.
Proof.
  revert s. induction recs as [|r recs IH]; intros s Hs; simpl in Hs; [lia|].
  destruct s; simpl; [reflexivity|]. apply IH. lia.
Qed.

Lemma set_availability_nth_other recs s a j :
  j <> s -> nth j (set_availability recs s a) rec0 = nth j recs rec0.
Proof.
  revert s j. induction recs as [|r recs IH]; intros s j Hj; [destruct s, j; reflexivity|].
  destruct s, j; simpl; try reflexivity; try congruence.
  apply IH. congruence.
Qed.

Lemma section_nth_map recs j :
  section (nth j recs rec0) = nth j (map section recs) 0%nat.
Proof. now rewrite <- (map_nth section). Qed.

Lemma lift_future_spec d recs nbSections s v :
  (s < nbSections)%nat ->
  let fs := 1 - (1 - availability (nth s recs rec0)) * (1 - nodeAvailability d v) in
  snd (lift_future d recs nbSections s v) = fs
  /\ fst (lift_future d recs nbSections s v)
     == prodQ (map (fun j => if Nat.eqb s j then fs else availability (nth j recs rec0))
                   (seq 0 nbSections)).
Proof.
  intros Hs fs. unfold lift_future.
  set (body := fun (acc : Q * Q) (j : nat) => _).
  assert (G : forall l acc,
            snd (fold_left body l acc)
            = (if existsb (Nat.eqb s) l then fs else snd acc)
            /\ fst (fold_left body l acc)
               == fst acc * prodQ (map (fun j => if Nat.eqb s j then fs
                                                 else availability (nth j recs rec0)) l)).
  { induction l as [|j l IH]; intros [f0 fs0].
    - simpl. split; [reflexivity|ring].
    - cbn [fold_left]. destruct (IH (body (f0, fs0) j)) as [I1 I2]. rewrite I1, I2.
      cbn [existsb map prodQ]. unfold body.
      destruct (Nat.eqb_spec s j) as [<-|Hne]; cbn [fst snd orb].
      + split; [destruct (existsb _ l); reflexivity|]. fold fs. ring.
      + split; [reflexivity|ring]. }
  destruct (G (seq 0 nbSections) (1, availability (nth s recs rec0))) as [G1 G2].
  split.
  - rewrite G1.
    assert (E : existsb (Nat.eqb s) (seq 0 nbSections) = true).
    { apply existsb_exists. exists s. split; [apply in_seq; lia|apply Nat.eqb_refl]. }
    now rewrite E.
  - rewrite G2. simpl. ring.
Qed.

Lemma prefix_prod_set_availability recs nb s a :
  (s < length recs)%nat ->
  prefix_prod (set_availability recs s a) nb
  == prodQ (map (fun j => if Nat.eqb s j then a else availability (nth j recs rec0))
                (seq 0 nb)).
Proof.
  intros Hs. unfold prefix_prod. apply prodQ_map_eq. intros j _.
  destruct (Nat.eqb_spec s j) as [<-|Hne].
  - now rewrite set_availability_nth_same.
  - rewrite set_availability_nth_other by congruence. reflexivity.
Qed.

Lemma raised_refl xs : raised xs xs.
Proof. intros i v. now left. Qed.

Lemma raised_trans xs xs' xs'' : raised xs xs' -> raised xs' xs'' -> raised xs xs''.
Proof.
  intros H1 H2 i v. destruct (H2 i v) as [E2|[E2 A2]]; destruct (H1 i v) as [E1|[E1 A1]].
  - left. congruence.
  - right. split; congruence.
  - right. split; congruence.
  - rewrite E1 in A2. discriminate A2.
Qed.

Lemma upd2_same {A} (m : nat -> nat -> A) a b x : upd2 m a b x a b = x.
Proof. unfold upd2. now rewrite !upd1_same. Qed.

Lemma upd2_other {A} (m : nat -> nat -> A) a b x a' b' :
  (a', b') <> (a, b) -> upd2 m a b x a' b' = m a' b'.
Proof.
  intros H. unfold upd2, upd1.
  destruct (Nat.eqb a' a) eqn:Ea; [|reflexivity].
  apply Nat.eqb_eq in Ea. subst a'.
  destruct (Nat.eqb b' b) eqn:Eb; [|reflexivity].
  apply Nat.eqb_eq in Eb. subst b'. contradiction.
Qed.

Lemma section_availability_ext d asg asg' :
  (forall v, In v (nodes d) -> asg v = asg' v) ->
  section_availability d asg == section_availability d asg'.
Proof.
  intros H. unfold section_availability, section_failure.
  rewrite (prodQ_map_eq
             (fun v => if asg v then 1 - nodeAvailability d v else 1)
             (fun v => if asg' v then 1 - nodeAvailability d v else 1)).
  - reflexivity.
  - intros v Hv. now rewrite (H v Hv).
Qed.

Lemma assigned_one : assigned 1 = true.
Proof. reflexivity. Qed.

Lemma Qltb_not_assigned x : Qltb x (1 - EPS) = true -> assigned x = false.
Proof. unfold Qltb, assigned. now rewrite negb_true_iff. Qed.

Lemma lift_node_inv d req nb sections acc s v :
  availability_wf d -> NoDup sections ->
  (nb <= length sections)%nat -> (s < nb)%nat -> In v (nodes d) ->
  lift_inv d req nb sections acc ->
  lift_inv d req nb sections (lift_node d req nb s acc v)
  /\ raised (fst acc) (fst (lift_node d req nb s acc v)).
Proof.
  intros Hwf Hnd Hnb Hs Hv Hinv. destruct acc as [xs recs].
  destruct Hinv as (I1 & I2 & I3). cbn [fst snd] in *.
  assert (Hlen : length recs = length sections) by (rewrite <- I1; symmetry; apply length_map).
  unfold lift_node.
  destruct (Qltb (xs (section (nth s recs rec0)) v) (1 - EPS)) eqn:Eun;
    [|split; [repeat split; assumption|apply raised_refl]].
  destruct (lift_future_spec d recs nb s v Hs) as [F2 F1].
  destruct (lift_future d recs nb s v) as [fut fs]. cbn [fst snd] in F1, F2.
  subst fs.
  destruct (Qltb fut req) eqn:Efut;
    [|split; [repeat split; assumption|apply raised_refl]].
  apply Qltb_lt in Efut. apply Qltb_not_assigned in Eun.
  assert (Ei : section (nth s recs rec0) = nth s sections 0%nat)
    by (rewrite section_nth_map, I1; reflexivity).
  rewrite Ei in *. set (i := nth s sections 0%nat) in *.
  split; [split; [|split]|]; cbn [fst snd].
  - rewrite set_availability_sections. exact I1.
  - intros j Hj. destruct (Nat.eq_dec j s) as [->|Hne].
    + rewrite set_availability_nth_same by lia. cbn [availability]. fold i.
      rewrite (section_availability_ext d (row_asg (upd2 xs i v 1) i)
                 (fun u => if Nat.eqb u v then true else row_asg xs i u)).
      * unfold section_availability.
        rewrite section_failure_add; [|apply Hwf|assumption|exact Eun].
        rewrite (I2 s) by lia. fold i. unfold section_availability. ring.
      * intros u _. unfold row_asg.
        destruct (Nat.eqb_spec u v) as [->|Hne].
        -- now rewrite upd2_same.
        -- rewrite upd2_other; [reflexivity|congruence].
    + rewrite set_availability_nth_other by assumption.
      rewrite (I2 j Hj). apply section_availability_ext. intros u _.
      unfold row_asg. rewrite upd2_other; [reflexivity|].
      intros [= E _]. apply Hne.
      apply (proj1 (NoDup_nth sections 0%nat) Hnd j s); [lia|lia|exact E].
  - rewrite prefix_prod_set_availability by lia.
    rewrite <- F1. exact Efut.
  - intros i' u. destruct (Nat.eq_dec i' i) as [->|Hi]; [destruct (Nat.eq_dec u v) as [->|Hu]|].
    + right. rewrite upd2_same. auto.
    + left. apply upd2_other. congruence.
    + left. apply upd2_other. congruence.
Qed.

Lemma lift_fold_inv d req nb sections :
  availability_wf d -> NoDup sections -> (nb <= length sections)%nat ->
  forall ls acc,
    (forall s, In s ls -> (s < nb)%nat) ->
    lift_inv d req nb sections acc ->
    lift_inv d req nb sections
      (fold_left (fun acc s => fold_left (lift_node d req nb s) (nodes d) acc) ls acc)
    /\ raised (fst acc)
         (fst (fold_left (fun acc s => fold_left (lift_node d req nb s) (nodes d) acc)
                         ls acc)).
Proof.
  intros Hwf Hnd Hnb.
  induction ls as [|s ls IH]; intros acc Hls Hinv; simpl.
  - split; [assumption|apply raised_refl].
  - assert (G : forall lv acc, (forall v, In v lv -> In v (nodes d)) ->
                 lift_inv d req nb sections acc ->
                 lift_inv d req nb sections (fold_left (lift_node d req nb s) lv acc)
                 /\ raised (fst acc) (fst (fold_left (lift_node d req nb s) lv acc))).
    { induction lv as [|v lv IHv]; intros acc' Hlv Hacc; simpl.
      - split; [assumption|apply raised_refl].
      - destruct (lift_node_inv d req nb sections acc' s v) as [H1 H2]; auto.
        { apply Hls. now left. } { apply Hlv. now left. }
        destruct (IHv (lift_node d req nb s acc' v)) as [H3 H4]; auto.
        { intros u Hu. apply Hlv. now right. }
        split; [assumption|]. eapply raised_trans; eassumption. }
    destruct (G (nodes d) acc (fun v H => H) Hinv) as [H1 H2].
    destruct (IH _ (fun s' H => Hls s' (or_intror H)) H1) as [H3 H4].
    split; [assumption|]. eapply raised_trans; eassumption.
Qed.

Lemma lift_inv_raised d req nb sections xs recs :
  availability_wf d -> NoDup sections -> (nb <= length sections)%nat ->
  lift_inv d req nb sections (xs, recs) ->
  lift_inv d req nb sections (lift d xs req recs nb)
  /\ raised xs (fst (lift d xs req recs nb)).
Proof.
  intros Hwf Hnd Hnb Hinv.
  apply (lift_fold_inv d req nb sections Hwf Hnd Hnb (seq 0 nb) (xs, recs)); [|assumption].
  intros s Hs. apply in_seq in Hs. lia.
Qed.

(** ** Selecting the violated prefix *)

Lemma prefix_prod_S recs n :
  prefix_prod recs (S n) == prefix_prod recs n * availability (nth n recs rec0).
Proof.
  unfold prefix_prod. rewrite seq_S, map_app, prodQ_app. simpl. ring.
Qed.

Lemma select_sections_spec req recs :
  forall todo chain index,
    chain == prefix_prod recs index ->
    (forall m, (m < index)%nat -> req <= prefix_prod recs m) ->
    let r := select_sections req recs todo chain index in
    (index <= snd r <= index + todo)%nat
    /\ fst r == prefix_prod recs (snd r)
    /\ (forall m, (m < snd r)%nat -> req <= prefix_prod recs m)
    /\ (fst r < req \/ snd r = (index + todo)%nat).
Proof.
  induction todo as [|todo IH]; intros chain index Hc Hm; cbn zeta; simpl.
  - repeat split; auto; try lia.
  - destruct (Qle_bool req chain) eqn:E.
    + apply Qle_bool_iff in E.
      destruct (IH (chain * availability (nth index recs rec0)) (S index)) as (I1 & I2 & I3 & I4).
      * rewrite prefix_prod_S, Hc. reflexivity.
      * intros m Hlt. destruct (Nat.eq_dec m index) as [->|Hne].
        -- rewrite <- Hc. exact E.
        -- apply Hm. lia.
      * repeat split; auto; try lia. destruct I4 as [I4|I4]; [now left|right; lia].
    + simpl. repeat split; auto; try lia. left.
      apply Qltb_lt. unfold Qltb. now rewrite E.
Qed.

Lemma map_nth_seq {A B} (f : A -> B) (dflt : A) (l : list A) :
  map (fun j => f (nth j l dflt)) (seq 0 (length l)) = map f l.
Proof.
  induction l as [|a l IH]; [reflexivity|].
  simpl length. rewrite <- cons_seq, <- seq_shift. simpl. rewrite map_map.
  simpl. now rewrite IH.
Qed.

Lemma sections_of_getAvailabilitiesOfSections d xs k :
  map section (getAvailabilitiesOfSections d xs k) = seq 0 (getNbVNFs d k).
Proof.
  unfold getAvailabilitiesOfSections. rewrite map_map. simpl. apply map_id.
Qed.

Section SortedRecords.
Context `{StdSort}.
Variables (d : Data) (xs : nat -> nat -> nat -> Q) (k : nat).

Let recs := std_sort (getAvailabilitiesOfSections d xs k).
Let sections := map section recs.

Lemma sorted_sections_perm : Permutation sections (seq 0 (getNbVNFs d k)).
Proof.
  unfold sections, recs.
  rewrite <- (sections_of_getAvailabilitiesOfSections d xs k).
  apply Permutation_map, std_sort_perm.
Qed.

Lemma sorted_sections_NoDup : NoDup sections.
Proof.
  eapply Permutation_NoDup; [symmetry; apply sorted_sections_perm|apply seq_NoDup].
Qed.

Lemma sorted_sections_length : length sections = getNbVNFs d k.
Proof.
  rewrite (Permutation_length sorted_sections_perm). apply length_seq.
Qed.

Lemma sorted_records_agree j :
  (j < length sections)%nat ->
  availability (nth j recs rec0)
  == section_availability d (row_asg (xs k) (nth j sections 0%nat)).
Proof.
  intros Hj. unfold sections in *. rewrite length_map in Hj.
  rewrite <- section_nth_map.
  assert (F : Forall (fun r => availability r
                               == section_availability d (row_asg (xs k) (section r))) recs).
  { unfold recs.
    eapply Permutation_Forall; [symmetry; apply std_sort_perm|].
    unfold getAvailabilitiesOfSections. apply Forall_forall. intros r Hr.
    apply in_map_iff in Hr. destruct Hr as (i & <- & _). simpl.
    apply getAvailabilityOfSection_eq. }
  rewrite Forall_forall in F. apply F. now apply nth_In.
Qed.

(** The availability of the chain under [asg] is the product over the
    sorted sections. *)
Lemma chain_availability_sorted asg :
  chain_availability d k asg
  == prodQ (map (fun j => section_availability d (asg (nth j sections 0%nat)))
                (seq 0 (getNbVNFs d k))).
Proof.
  unfold chain_availability.
  rewrite <- sorted_sections_length at 2.
  rewrite (map_nth_seq (fun i => section_availability d (asg i)) 0%nat sections).
  apply prodQ_perm, Permutation_map. symmetry. apply sorted_sections_perm.
Qed.
End SortedRecords.

(** ** One demand of addLazyConstraints *)

Lemma lazy_demand_cases `{StdSort} d s k :
  (getAvailability d k <= fst (demand_selection d (xSol s) k)
   /\ lazy_demand d s k = s)
  \/ (fst (demand_selection d (xSol s) k) < getAvailability d k
      /\ lazy_demand d s k
         = incrementLazyConstraints
             (submit (rejectCandidate (nogood d (xSol s) k))
                     (set_xSol (upd1 (xSol s) k (fst (demand_lifted d (xSol s) k))) s))).
Proof.
  unfold lazy_demand, nogood, demand_lifted, demand_selection, demand_records.
  destruct (select_sections _ _ _ _ _) as [chain nb]. cbn [fst snd].
  destruct (Qltb chain (getAvailability d k)) eqn:E.
  - right. apply Qltb_lt in E. split; [exact E|].
    destruct (lift _ _ _ _ _) as [xs_k recs']. reflexivity.
  - left. apply Qltb_ge in E. auto.
Qed.

(** The records, the selection and the nogood of demand [k] only depend on
    the matrix of demand [k]. *)
Lemma demand_records_row `{StdSort} d xs xs' k :
  xs k = xs' k -> demand_records d xs k = demand_records d xs' k.
Proof.
  intros E. unfold demand_records, getAvailabilitiesOfSections, getAvailabilityOfSection.
  now rewrite E.
Qed.

Lemma demand_selection_row `{StdSort} d xs xs' k :
  xs k = xs' k -> demand_selection d xs k = demand_selection d xs' k.
Proof.
  intros E. unfold demand_selection. now rewrite (demand_records_row d xs xs' k E).
Qed.

Lemma demand_lifted_row `{StdSort} d xs xs' k :
  xs k = xs' k -> demand_lifted d xs k = demand_lifted d xs' k.
Proof.
  intros E. unfold demand_lifted.
  now rewrite (demand_records_row d xs xs' k E), (demand_selection_row d xs xs' k E), E.
Qed.

Lemma nogood_row `{StdSort} d xs xs' k :
  xs k = xs' k -> nogood d xs k = nogood d xs' k.
Proof.
  intros E. unfold nogood.
  now rewrite (demand_lifted_row d xs xs' k E), (demand_selection_row d xs xs' k E).
Qed.

Section LazyDemand.
Context `{StdSort}.
Variables (d : Data) (xs : nat -> nat -> nat -> Q) (k : nat).

Let recs := demand_records d xs k.
Let sel := demand_selection d xs k.
Let lifted := demand_lifted d xs k.

Lemma select_facts :
  (snd sel <= getNbVNFs d k)%nat
  /\ fst sel == prefix_prod recs (snd sel)
  /\ (forall m, (m < snd sel)%nat -> getAvailability d k <= prefix_prod recs m)
  /\ (fst sel < getAvailability d k \/ snd sel = getNbVNFs d k).
Proof.
  destruct (select_sections_spec (getAvailability d k) recs (getNbVNFs d k) 1 0)
    as (H1 & H2 & H3 & H4).
  - unfold prefix_prod. simpl. reflexivity.
  - intros m Hm. lia.
  - change (select_sections (getAvailability d k) recs (getNbVNFs d k) 1 0)
      with sel in H1, H2, H3, H4.
    simpl in H1, H4. repeat split; auto. lia.
Qed.

(** The whole chain is the product of all the sorted availabilities. *)
Lemma chain_availability_candidate :
  chain_availability d k (row_asg (xs k)) == prefix_prod recs (getNbVNFs d k).
Proof.
  rewrite (chain_availability_sorted d xs k). unfold prefix_prod.
  apply prodQ_map_eq. intros j Hj. apply in_seq in Hj. symmetry.
  apply (sorted_records_agree d xs k).
  rewrite sorted_sections_length. lia.
Qed.

Hypothesis Hwf : availability_wf d.

Lemma sorted_records_unit j :
  (j < getNbVNFs d k)%nat -> 0 <= availability (nth j recs rec0) <= 1.
Proof.
  intros Hj. unfold recs, demand_records.
  rewrite (sorted_records_agree d xs k j)
    by (rewrite sorted_sections_length; exact Hj).
  apply section_availability_unit, Hwf.
Qed.

Lemma prefix_prod_split n m :
  (n <= m)%nat ->
  prefix_prod recs m
  == prefix_prod recs n
     * prodQ (map (fun j => availability (nth j recs rec0)) (seq n (m - n))).
Proof.
  intros Hnm. unfold prefix_prod.
  replace m with (n + (m - n))%nat at 1 by lia.
  rewrite seq_app, map_app, prodQ_app. reflexivity.
Qed.

Lemma prefix_prod_antitone n m :
  (n <= m <= getNbVNFs d k)%nat ->
  0 <= prefix_prod recs m <= prefix_prod recs n.
Proof.
  intros Hnm. rewrite (prefix_prod_split n m) by lia.
  assert (0 <= prefix_prod recs n <= 1).
  { apply prodQ_map_unit. intros j Hj. apply in_seq in Hj.
    apply sorted_records_unit. lia. }
  assert (0 <= prodQ (map (fun j => availability (nth j recs rec0)) (seq n (m - n))) <= 1).
  { apply prodQ_map_unit. intros j Hj. apply in_seq in Hj.
    apply sorted_records_unit. lia. }
  split; nra.
Qed.

(** The loop stops below the requirement exactly when the chain of the
    candidate is below it. *)
Lemma select_violation_iff :
  fst sel < getAvailability d k
  <-> chain_availability d k (row_asg (xs k)) < getAvailability d k.
Proof.
  destruct select_facts as (H1 & H2 & H3 & H4).
  rewrite chain_availability_candidate. split; intros Hlt.
  - destruct (prefix_prod_antitone (snd sel) (getNbVNFs d k)) as [_ Hle]; [lia|].
    rewrite H2 in Hlt. lra.
  - destruct H4 as [H4|H4]; [exact H4|].
    rewrite H2, H4. exact Hlt.
Qed.

(** The invariant of lifting holds when lifting starts. *)
Lemma lift_inv_initial :
  fst sel < getAvailability d k ->
  lift_inv d (getAvailability d k) (snd sel) (map section recs) (xs k, recs).
Proof.
  intros Hlt. destruct select_facts as (H1 & H2 & H3 & H4).
  split; [reflexivity|]. split.
  - intros j Hj. apply (sorted_records_agree d xs k j Hj).
  - cbn [snd]. rewrite <- H2. exact Hlt.
Qed.

Lemma lift_inv_lifted :
  fst sel < getAvailability d k ->
  lift_inv d (getAvailability d k) (snd sel) (map section recs) lifted
  /\ raised (xs k) (fst lifted).
Proof.
  intros Hlt. destruct select_facts as (H1 & _).
  apply lift_inv_raised; auto.
  - apply (sorted_sections_NoDup d xs k).
  - unfold recs, demand_records. rewrite (sorted_sections_length d xs k). exact H1.
  - apply lift_inv_initial, Hlt.
Qed.
End LazyDemand.


(** ** Nogoods and the solutions they keep *)

Lemma in_nogood_expr d k xs recs nb c var :
  In (c, var) (nogood_expr d k xs recs nb) <->
  c = 1 /\ exists j v,
    (j < nb)%nat /\ In v (nodes d)
    /\ var = x_var k (section (nth j recs rec0)) v
    /\ assigned (xs (section (nth j recs rec0)) v) = false.
Proof.
  unfold nogood_expr. rewrite in_flat_map. split.
  - intros (j & Hj & Hin). apply in_seq in Hj.
    apply in_flat_map in Hin. destruct Hin as (v & Hv & Hin).
    destruct (Qltb _ _) eqn:E; [|destruct Hin].
    destruct Hin as [[= <- <-]|[]]. split; [reflexivity|].
    exists j, v. repeat split; auto; try lia. now apply Qltb_not_assigned.
  - intros (-> & j & v & Hj & Hv & -> & Ha).
    exists j. split; [apply in_seq; lia|].
    apply in_flat_map. exists v. split; [assumption|].
    unfold assigned in Ha. unfold Qltb. rewrite Ha. now left.
Qed.

Lemma val_of_bounds S x : 0 <= val_of S x <= 1.
Proof. destruct x as [k i v|v f]; simpl; [destruct (S k i v)|]; lra. Qed.

Lemma eval_expr_unit_coeffs S e :
  (forall t, In t e -> fst t = 1) ->
  0 <= eval_expr (val_of S) e
  /\ (forall t, In t e -> val_of S (snd t) == 1 -> 1 <= eval_expr (val_of S) e).
Proof.
  unfold eval_expr. induction e as [|t e IH]; intros Hc; simpl.
  - split; [lra|intros t []].
  - destruct IH as [I1 I2]; [intros u Hu; apply Hc; now right|].
    rewrite (Hc t (or_introl eq_refl)).
    pose proof (val_of_bounds S (snd t)) as Hb.
    split; [lra|]. intros u [<-|Hu] Hval.
    + lra.
    + specialize (I2 u Hu Hval). lra.
Qed.

(** ** All demands of addLazyConstraints *)

Lemma lazy_demand_effect `{StdSort} d s k :
  xSol (lazy_demand d s k) k = checked_row d (xSol s) k
  /\ (forall k', k' <> k -> xSol (lazy_demand d s k) k' = xSol s k')
  /\ host (lazy_demand d s k) = host s ++ map rejectCandidate (emitted d (xSol s) k)
  /\ nbLazyConstraints (lazy_demand d s k)
     = (nbLazyConstraints s + Z.of_nat (length (emitted d (xSol s) k)))%Z.
Proof.
  unfold checked_row, emitted.
  destruct (lazy_demand_cases d s k) as [[Hge ->]|[Hlt ->]].
  - apply Qltb_ge in Hge. rewrite Hge. simpl. rewrite app_nil_r.
    repeat split; auto. lia.
  - apply Qltb_lt in Hlt. rewrite Hlt. simpl. repeat split.
    + apply upd1_same.
    + intros k' Hk'. now apply upd1_other.
Qed.

Lemma emitted_row `{StdSort} d xs xs' k : xs k = xs' k -> emitted d xs k = emitted d xs' k.
Proof.
  intros E. unfold emitted.
  now rewrite (demand_selection_row d xs xs' k E), (nogood_row d xs xs' k E).
Qed.

Lemma checked_row_row `{StdSort} d xs xs' k :
  xs k = xs' k -> checked_row d xs k = checked_row d xs' k.
Proof.
  intros E. unfold checked_row.
  now rewrite (demand_selection_row d xs xs' k E), (demand_lifted_row d xs xs' k E), E.
Qed.

Lemma flat_map_ext_in {A B} (f g : A -> list B) l :
  (forall a, In a l -> f a = g a) -> flat_map f l = flat_map g l.
Proof.
  induction l as [|a l IH]; intros Hfg; simpl; [reflexivity|].
  rewrite (Hfg a) by now left. rewrite IH; [reflexivity|].
  intros b Hb. apply Hfg. now right.
Qed.

Lemma lazy_fold_effect `{StdSort} d l :
  NoDup l ->
  forall s,
  let s' := fold_left (lazy_demand d) l s in
  (forall k, ~ In k l -> xSol s' k = xSol s k)
  /\ (forall k, In k l -> xSol s' k = checked_row d (xSol s) k)
  /\ host s' = host s ++ map rejectCandidate (flat_map (emitted d (xSol s)) l)
  /\ nbLazyConstraints s'
     = (nbLazyConstraints s + Z.of_nat (length (flat_map (emitted d (xSol s)) l)))%Z.
Proof.
  induction 1 as [|k l Hk Hl IH]; intros s; cbn zeta.
  - simpl. rewrite app_nil_r. repeat split; auto. { intros k []. } lia.
  - cbn [fold_left flat_map].
    destruct (lazy_demand_effect d s k) as (E1 & E2 & E3 & E4).
    destruct (IH (lazy_demand d s k)) as (I1 & I2 & I3 & I4).
    assert (Hext : flat_map (emitted d (xSol (lazy_demand d s k))) l
                   = flat_map (emitted d (xSol s)) l).
    { apply flat_map_ext_in. intros k' Hk'. apply emitted_row, E2. congruence. }
    rewrite Hext in I3, I4.
    split; [|split; [|split]].
    + intros k' Hk'. rewrite I1 by (intros Hin; apply Hk'; now right).
      apply E2. intros ->. apply Hk'. now left.
    + intros k' [<-|Hk'].
      * rewrite (I1 k Hk). exact E1.
      * rewrite (I2 k' Hk'). apply checked_row_row, E2. congruence.
    + rewrite I3, E3, map_app, app_assoc. reflexivity.
    + rewrite I4, E4, length_app. lia.
Qed.

(** *** The candidate read by getIntegerSolution *)

Lemma fill_x_in_range d point xs k i v :
  (k < getNbDemands d)%nat -> (i < getNbVNFs d k)%nat -> In v (nodes d) ->
  fill_x d point xs k i v = point (x_var k i v).
Proof.
  intros Hk Hi Hv.
  set (T := flat_map (fun k => flat_map (fun i => map (fun v => (k, i, v)) (nodes d))
                                        (seq 0 (getNbVNFs d k)))
                     (seq 0 (getNbDemands d))).
  set (step := fun (xs : nat -> nat -> nat -> Q) (t : nat * nat * nat) =>
                 upd3 xs (fst (fst t)) (snd (fst t)) (snd t)
                      (point (x_var (fst (fst t)) (snd (fst t)) (snd t)))).
  assert (E : fill_x d point xs = fold_left step T xs).
  { unfold fill_x, T. rewrite fold_left_flat_map.
    apply fold_left_ext. intros xs' k'. rewrite fold_left_flat_map.
    apply fold_left_ext. intros xs'' i'. rewrite fold_left_map. reflexivity. }
  assert (HT : In (k, i, v) T).
  { unfold T. apply in_flat_map. exists k. split; [apply in_seq; lia|].
    apply in_flat_map. exists i. split; [apply in_seq; lia|].
    apply in_map_iff. exists v. auto. }
  rewrite E. clear E. revert xs HT. generalize T. clear T.
  assert (eq_dec : forall a b : nat * nat * nat, {a = b} + {a <> b})
    by (repeat decide equality).
  induction T as [|t T IH]; intros xs HT; [destruct HT|].
  cbn [fold_left].
  destruct (in_dec eq_dec (k, i, v) T) as [Hin|Hnin]; [now apply IH|].
  destruct HT as [->|HT]; [|contradiction].
  assert (G : forall T xs, ~ In (k, i, v) T -> fold_left step T xs k i v = xs k i v).
  { clear. induction T as [|t T IH]; intros xs Hnin; [reflexivity|].
    cbn [fold_left]. rewrite IH by (intros Hin; apply Hnin; now right).
    unfold step. apply upd3_other. intros E. apply Hnin. left.
    destruct t as [[a b] c]. simpl in E. congruence. }
  rewrite G by assumption. unfold step. cbn [fst snd]. apply upd3_same.
Qed.

Lemma chain_availability_ext d k asg asg' :
  (forall i v, (i < getNbVNFs d k)%nat -> In v (nodes d) -> asg i v = asg' i v) ->
  chain_availability d k asg == chain_availability d k asg'.
Proof.
  intros H. unfold chain_availability. apply prodQ_map_eq.
  intros i Hi. apply in_seq in Hi. apply section_availability_ext.
  intros v Hv. apply H; [lia|assumption].
Qed.

Lemma addLazyConstraints_eq `{StdSort} d ctx s :
  getId ctx = Candidate -> isCandidatePoint ctx = true ->
  addLazyConstraints d ctx s
  = Ok (fold_left (lazy_demand d) (seq 0 (getNbDemands d))
          (set_xSol (fill_x d (getCandidatePoint ctx) (xSol s)) s)).
Proof.
  intros Hid Hcp. unfold addLazyConstraints, getIntegerSolution.
  now rewrite Hid, Hcp.
Qed.

Lemma addLazyConstraints_Ok `{StdSort} d ctx s s' :
  addLazyConstraints d ctx s = Ok s' ->
  getId ctx = Candidate /\ isCandidatePoint ctx = true.
Proof.
  unfold addLazyConstraints, getIntegerSolution.
  destruct (getId ctx); simpl; try discriminate.
  destruct (isCandidatePoint ctx); simpl; [auto|discriminate].
Qed.

Lemma sample_availability_wf req : availability_wf (sample req).
Proof.
  split.
  - simpl. repeat constructor; simpl; intuition discriminate.
  - intros v _. unfold sample, nodeAvailability, sample_avail.
    destruct v as [|[|v]]; split; discriminate.
Defined.

Lemma binary_assigned x : x == 0 \/ x == 1 -> assigned x = Qeq_bool x 1.
Proof.
  intros Hx. unfold assigned.
  destruct (Qle_bool (1 - EPS) x) eqn:E1; destruct (Qeq_bool x 1) eqn:E2; try reflexivity.
  - apply Qle_bool_iff in E1. unfold EPS in E1.
    destruct Hx as [Hx|Hx].
    + rewrite Hx in E1. exfalso. revert E1. apply Qlt_not_le. reflexivity.
    + apply Qeq_bool_iff in Hx. congruence.
  - apply Qeq_bool_iff in E2.
    assert (Hle : 1 - EPS <= x) by (rewrite E2; unfold EPS; discriminate).
    apply Qle_bool_iff in Hle. congruence.
Qed.

Lemma sorted_ascending l :
  StronglySorted (fun a b => compareAvailability b a = false) l ->
  StronglySorted (fun a b => availability a <= availability b) l.
Proof.
  induction 1 as [|a l Hs IH Hall]; constructor; [assumption|].
  eapply Forall_impl; [|exact Hall]. intros b Hb. now apply Qltb_ge in Hb.
Qed.

Lemma sample_candidate_binary : binary_candidate (sample (99 # 100)) sample_candidate 0.
Proof.
  intros i v Hi Hv. simpl in Hi, Hv.
  destruct Hv as [<-|[<-|[<-|[]]]]; destruct i as [|[|i]]; try (exfalso; lia);
    simpl; (left; reflexivity) || (right; reflexivity).
Defined.

(** * The lazy constraints in double arithmetic *)

(** ** Rounding to the nearest double *)

Lemma half_even_close y : - (1 # 2) <= inject_Z (half_even y) - y <= 1 # 2.
Proof.
  unfold half_even.
  pose proof (Qfloor_le y) as Hlo. pose proof (Qlt_floor y) as Hhi.
  rewrite inject_Z_plus in Hhi. change (inject_Z 1) with 1 in Hhi.
  destruct (Qcompare_spec (y - inject_Z (Qfloor y)) (1 # 2)) as [E|E|E].
  - destruct (Z.even (Qfloor y)).
    + lra.
    + rewrite inject_Z_plus. change (inject_Z 1) with 1. lra.
  - lra.
  - rewrite inject_Z_plus. change (inject_Z 1) with 1. lra.
Qed.

Lemma half_even_nonneg y : 0 <= y -> (0 <= half_even y)%Z.
Proof.
  intros Hy. pose proof (Qfloor_resp_le 0 y Hy) as Hf.
  change (Qfloor 0) with 0%Z in Hf.
  unfold half_even. destruct (Qcompare _ _); [destruct (Z.even _)| |]; lia.
Qed.

Lemma half_even_le y N : y <= inject_Z N -> (half_even y <= N)%Z.
Proof.
  intros Hy. pose proof (Qfloor_resp_le y (inject_Z N) Hy) as Hf.
  rewrite Qfloor_Z in Hf.
  destruct (Z.eq_dec (Qfloor y) N) as [E|Hne].
  - pose proof (Qfloor_le y) as Hlo. rewrite E in Hlo.
    unfold half_even. rewrite E.
    destruct (Qcompare_spec (y - inject_Z N) (1 # 2)) as [E'|E'|E']; [lra|lia|lra].
  - unfold half_even. destruct (Qcompare _ _); [destruct (Z.even _)| |]; lia.
Qed.

Lemma exponent_unit a : 0 < a -> a <= 1 -> (exponent a <= 0)%Z.
Proof.
  intros Hpos Hle. unfold exponent.
  assert (Hn : (Qnum a <= Zpos (Qden a))%Z).
  { unfold Qle in Hle. simpl in Hle. lia. }
  pose proof (Z.log2_le_mono _ _ Hn) as Hlog.
  destruct (Qle_bool _ _); lia.
Qed.

Lemma binary64_rounding_wf : rounding_wf binary64.
Proof.
  intros x [H0 H1]. unfold binary64.
  destruct (Qeq_bool x 0) eqn:Ez.
  { apply Qeq_bool_iff in Ez. rewrite Ez. unfold unit_roundoff.
    split; split; discriminate. }
  assert (Hx : 0 < x).
  { apply Qle_lteq in H0. destruct H0 as [H0|H0]; [exact H0|].
    symmetry in H0. apply Qeq_bool_iff in H0. congruence. }
  assert (Ea : Qabs x == x) by (apply Qabs_pos; exact H0).
  assert (Hs : Qle_bool 0 x = true) by (apply Qle_bool_iff; exact H0).
  rewrite Hs.
  assert (He : (exponent (Qabs x) <= 0)%Z)
    by (apply exponent_unit; rewrite Ea; assumption).
  set (q := (Z.max (exponent (Qabs x)) (-1022) - 52)%Z).
  assert (Hq : (q <= -52)%Z) by (unfold q; lia).
  set (p := 2 ^ q).
  assert (Hp : 0 < p) by (apply Qpower_0_lt; reflexivity).
  assert (Hp52 : p <= 1 # 4503599627370496).
  { change (1 # 4503599627370496) with (2 ^ (-52)).
    apply Qpower_le_compat_l; [exact Hq|discriminate]. }
  assert (HN : p * inject_Z (2 ^ (- q)) == 1).
  { rewrite Zpower_Qpower by lia. change (inject_Z 2) with 2. unfold p.
    rewrite <- Qpower_plus by discriminate.
    replace (q + - q)%Z with 0%Z by lia. reflexivity. }
  set (y := Qabs x / p).
  assert (Hy : y * p == x).
  { unfold y. rewrite Ea. field. intros E. rewrite E in Hp. discriminate Hp. }
  pose proof (half_even_close y) as Hc.
  assert (Hm0 : (0 <= half_even y)%Z).
  { apply half_even_nonneg. unfold y. rewrite Ea.
    apply Qle_shift_div_l; [exact Hp|]. lra. }
  assert (HmN : (half_even y <= 2 ^ (- q))%Z).
  { apply half_even_le. apply Qmult_le_r with (z := p); [exact Hp|].
    rewrite Hy. rewrite (Qmult_comm (inject_Z _)), HN. exact H1. }
  set (m := inject_Z (half_even y)) in *.
  assert (Hm0' : 0 <= m).
  { unfold m. change 0 with (inject_Z 0). rewrite <- Zle_Qle. exact Hm0. }
  assert (HmN' : m * p <= 1).
  { rewrite <- HN, (Qmult_comm p). apply Qmult_le_compat_r; [|lra].
    unfold m. rewrite <- Zle_Qle. exact HmN. }
  rewrite Qred_correct. unfold unit_roundoff.
  assert (Hu : (1 # 9007199254740992) == (1 # 2) * (1 # 4503599627370496)) by reflexivity.
  split; [split; nra|].
  rewrite Hu. split; nra.
Qed.

(** ** Rounding errors *)

Lemma unit_roundoff_pos : 0 < unit_roundoff.
Proof. reflexivity. Qed.

Lemma roundoffs_plus n m : roundoffs (n + m) == roundoffs n + roundoffs m.
Proof.
  unfold roundoffs. rewrite Nat2Z.inj_add, inject_Z_plus. ring.
Qed.

Lemma roundoffs_S n : roundoffs (S n) == roundoffs n + unit_roundoff.
Proof.
  replace (S n) with (n + 1)%nat by lia. rewrite roundoffs_plus.
  unfold roundoffs. simpl. ring.
Qed.

Lemma roundoffs_le n m : (n <= m)%nat -> roundoffs n <= roundoffs m.
Proof.
  intros H. unfold roundoffs. apply Qmult_le_compat_r; [|discriminate].
  rewrite <- Zle_Qle. lia.
Qed.

Lemma roundoffs_nonneg n : 0 <= roundoffs n.
Proof.
  unfold roundoffs. apply Qmult_le_0_compat; [|discriminate].
  change 0 with (inject_Z 0). rewrite <- Zle_Qle. lia.
Qed.

Lemma roundoffs_mult n m :
  roundoffs (n * m) == inject_Z (Z.of_nat n) * roundoffs m.
Proof.
  unfold roundoffs. rewrite Nat2Z.inj_mul, inject_Z_mult. ring.
Qed.

Section Rounding.
Variable rnd : Q -> Q.
Hypothesis Hrnd : rounding_wf rnd.

Lemma mul_error x x' y y' e1 e2 :
  0 <= x <= 1 -> 0 <= x' <= 1 -> 0 <= y <= 1 -> 0 <= y' <= 1 ->
  - e1 <= x' - x <= e1 -> - e2 <= y' - y <= e2 ->
  0 <= Double.mul rnd x' y' <= 1
  /\ - (e1 + e2 + unit_roundoff) <= Double.mul rnd x' y' - x * y
     <= e1 + e2 + unit_roundoff.
Proof.
  intros Hx Hx' Hy Hy' H1 H2. unfold Double.mul.
  assert (Hp : 0 <= x' * y' <= 1) by (split; nra).
  destruct (Hrnd _ Hp) as [Hr He]. split; [exact Hr|].
  assert (Hd : - (e1 + e2) <= x' * y' - x * y <= e1 + e2).
  { assert (E : x' * y' - x * y == (x' - x) * y' + x * (y' - y)) by ring.
    rewrite E. split; nra. }
  lra.
Qed.

Lemma sub_error x x' e :
  0 <= x <= 1 -> 0 <= x' <= 1 -> - e <= x' - x <= e ->
  0 <= Double.sub rnd 1 x' <= 1
  /\ - (e + unit_roundoff) <= Double.sub rnd 1 x' - (1 - x) <= e + unit_roundoff.
Proof.
  intros Hx Hx' H1. unfold Double.sub.
  assert (Hp : 0 <= 1 - x' <= 1) by lra.
  destruct (Hrnd _ Hp) as [Hr He]. split; [exact Hr|]. lra.
Qed.

(** The threshold [1 - EPS] of the doubles separates 0 from 1. *)
Lemma one_minus_EPS_range : 1 # 2 <= Double.one_minus_EPS rnd <= 1.
Proof.
  unfold Double.one_minus_EPS.
  assert (HE : 0 <= EPS <= 1) by (unfold EPS; split; discriminate).
  destruct (Hrnd _ HE) as [Hr He].
  destruct (sub_error (rnd EPS) (rnd EPS) 0) as [S1 S2]; try lra.
  pose proof unit_roundoff_pos. unfold EPS, unit_roundoff in *. lra.
Qed.

Lemma double_assigned_one x : x == 1 -> double_assigned rnd x = true.
Proof.
  intros E. unfold double_assigned. apply Qle_bool_iff. rewrite E.
  apply one_minus_EPS_range.
Qed.

Lemma double_assigned_zero x : x == 0 -> double_assigned rnd x = false.
Proof.
  intros E. unfold double_assigned.
  destruct (Qle_bool _ _) eqn:B; [|reflexivity].
  apply Qle_bool_iff in B. rewrite E in B.
  pose proof one_minus_EPS_range. lra.
Qed.

Lemma double_assigned_binary x :
  x == 0 \/ x == 1 -> double_assigned rnd x = Qeq_bool x 1.
Proof.
  intros [E|E].
  - rewrite (double_assigned_zero x E).
    destruct (Qeq_bool x 1) eqn:B; [|reflexivity].
    apply Qeq_bool_iff in B. rewrite E in B. discriminate B.
  - rewrite (double_assigned_one x E). symmetry. now apply Qeq_bool_iff.
Qed.

Lemma Qltb_not_double_assigned x :
  Qltb x (Double.one_minus_EPS rnd) = true <-> double_assigned rnd x = false.
Proof. unfold Qltb, double_assigned. apply negb_true_iff. Qed.

(** *** The availability of a section *)

Lemma double_fold_failure d (asg : nat -> bool) l :
  (forall v, In v l -> 0 <= nodeAvailability d v <= 1) ->
  forall acc' acc e,
    0 <= acc <= 1 -> 0 <= acc' <= 1 -> - e <= acc' - acc <= e ->
    let r := fold_left (fun failure_prob v =>
               if asg v
               then Double.mul rnd failure_prob (Double.sub rnd 1 (nodeAvailability d v))
               else failure_prob) l acc' in
    0 <= r <= 1
    /\ - (e + roundoffs (2 * length (filter asg l)))
       <= r - acc * prodQ (map (fun v => if asg v then 1 - nodeAvailability d v else 1) l)
       <= e + roundoffs (2 * length (filter asg l)).
Proof.
  induction l as [|v l IH]; intros Ha acc' acc e Hacc Hacc' He; cbn zeta.
  - cbn [fold_left map prodQ filter length]. split; [exact Hacc'|].
    assert (E0 : roundoffs (2 * 0) == 0) by reflexivity.
    rewrite E0. lra.
  - cbn [fold_left map prodQ filter].
    assert (Hav : 0 <= nodeAvailability d v <= 1) by (apply Ha; now left).
    assert (Hl : forall u, In u l -> 0 <= nodeAvailability d u <= 1)
      by (intros u Hu; apply Ha; now right).
    destruct (asg v).
    + destruct (sub_error (nodeAvailability d v) (nodeAvailability d v) 0)
        as [S1 S2]; try lra.
      destruct (mul_error acc acc' (1 - nodeAvailability d v)
                  (Double.sub rnd 1 (nodeAvailability d v)) e (0 + unit_roundoff))
        as [M1 M2]; try lra.
      assert (Hprod : 0 <= acc * (1 - nodeAvailability d v) <= 1) by (split; nra).
      destruct (IH Hl _ _ _ Hprod M1 M2) as [I1 I2]. cbn zeta in I1, I2.
      split; [exact I1|].
      cbn [length]. replace (2 * S (length (filter asg l)))%nat
        with (2 * length (filter asg l) + 2)%nat by lia.
      rewrite roundoffs_plus.
      assert (E2 : roundoffs 2 == unit_roundoff + unit_roundoff)
        by (unfold roundoffs; simpl; ring).
      rewrite E2.
      assert (Ea : acc * ((1 - nodeAvailability d v)
                          * prodQ (map (fun v0 => if asg v0 then 1 - nodeAvailability d v0
                                                  else 1) l))
                   == acc * (1 - nodeAvailability d v)
                      * prodQ (map (fun v0 => if asg v0 then 1 - nodeAvailability d v0
                                              else 1) l)) by ring.
      rewrite Ea. lra.
    + destruct (IH Hl _ _ _ Hacc Hacc' He) as [I1 I2]. cbn zeta in I1, I2.
      split; [exact I1|].
      assert (Ea : acc * (1 * prodQ (map (fun v0 => if asg v0 then 1 - nodeAvailability d v0
                                                    else 1) l))
                   == acc * prodQ (map (fun v0 => if asg v0 then 1 - nodeAvailability d v0
                                                  else 1) l)) by ring.
      rewrite Ea. exact I2.
Qed.

Lemma double_section_error d xs k i :
  availability_wf d ->
  let a := Double.getAvailabilityOfSection rnd d xs k i in
  0 <= a <= 1
  /\ - roundoffs (4 * nb_assigned rnd d (xs k) i + 1)
     <= a - section_availability d (double_row_asg rnd (xs k) i)
     <= roundoffs (4 * nb_assigned rnd d (xs k) i + 1).
Proof.
  intros Hwf. cbn zeta. unfold Double.getAvailabilityOfSection.
  destruct (double_fold_failure d (double_row_asg rnd (xs k) i) (nodes d) (proj2 Hwf)
              1 1 0) as [F1 F2]; try lra.
  cbn zeta in F1, F2.
  change (fun v => double_assigned rnd (xs k i v))
    with (double_row_asg rnd (xs k) i) in *.
  set (F := fold_left _ (nodes d) 1) in *.
  pose proof (section_failure_unit d (double_row_asg rnd (xs k) i) Hwf) as Hs.
  unfold section_availability.
  unfold section_failure in *.
  set (P := prodQ _) in *.
  fold (nb_assigned rnd d (xs k) i) in F2.
  destruct (sub_error P F (roundoffs (2 * nb_assigned rnd d (xs k) i)))
    as [S1 S2]; try lra.
  split; [exact S1|].
  assert (Hle : roundoffs (2 * nb_assigned rnd d (xs k) i) + unit_roundoff
                <= roundoffs (4 * nb_assigned rnd d (xs k) i + 1)).
  { rewrite <- roundoffs_S. apply roundoffs_le. lia. }
  lra.
Qed.
End Rounding.

(** ** The sorted records and the selection loop in double arithmetic *)

Lemma chain_availability_perm d k asg sections :
  Permutation sections (seq 0 (getNbVNFs d k)) ->
  chain_availability d k asg
  == prodQ (map (fun j => section_availability d (asg (nth j sections 0%nat)))
                (seq 0 (getNbVNFs d k))).
Proof.
  intros Hp. unfold chain_availability.
  assert (Hlen : length sections = getNbVNFs d k)
    by (rewrite (Permutation_length Hp); apply length_seq).
  rewrite <- Hlen at 2.
  rewrite (map_nth_seq (fun i => section_availability d (asg i)) 0%nat sections).
  apply prodQ_perm, Permutation_map. symmetry. exact Hp.
Qed.

Lemma running_product_S rnd recs n :
  running_product rnd recs (S n)
  = Double.mul rnd (running_product rnd recs n) (availability (nth n recs rec0)).
Proof.
  unfold running_product. rewrite seq_S, fold_left_app. reflexivity.
Qed.

Lemma running_product_error rnd recs (A : nat -> Q) e :
  rounding_wf rnd -> 0 <= e ->
  forall nb,
    (forall j, (j < nb)%nat ->
       0 <= availability (nth j recs rec0) <= 1 /\ 0 <= A j <= 1
       /\ - e <= availability (nth j recs rec0) - A j <= e) ->
    0 <= running_product rnd recs nb <= 1
    /\ 0 <= prodQ (map A (seq 0 nb)) <= 1
    /\ - (inject_Z (Z.of_nat nb) * (e + unit_roundoff))
       <= running_product rnd recs nb - prodQ (map A (seq 0 nb))
       <= inject_Z (Z.of_nat nb) * (e + unit_roundoff).
Proof.
  intros Hrnd He. induction nb as [|nb IH]; intros H.
  - unfold running_product. simpl. change (inject_Z 0) with 0. lra.
  - destruct IH as (I1 & I2 & I3); [intros j Hj; apply H; lia|].
    destruct (H nb (Nat.lt_succ_diag_r nb)) as (H1 & H2 & H3).
    rewrite running_product_S, seq_S, map_app, prodQ_app.
    cbn [map prodQ Nat.add].
    set (P := prodQ (map A (seq 0 nb))) in *.
    destruct (mul_error rnd Hrnd P (running_product rnd recs nb) (A nb)
                (availability (nth nb recs rec0))
                (inject_Z (Z.of_nat nb) * (e + unit_roundoff)) e)
      as [M1 M2]; try assumption.
    split; [exact M1|]. split; [split; nra|].
    rewrite Nat2Z.inj_succ. unfold Z.succ. rewrite inject_Z_plus.
    change (inject_Z 1) with 1.
    assert (E : P * (A nb * 1) == P * A nb) by ring.
    rewrite E. lra.
Qed.

Lemma double_select_spec rnd req recs :
  forall todo chain index,
    chain = running_product rnd recs index ->
    (forall m, (m < index)%nat -> req <= running_product rnd recs m) ->
    let r := Double.select_sections rnd req recs todo chain index in
    (index <= snd r <= index + todo)%nat
    /\ fst r = running_product rnd recs (snd r)
    /\ (forall m, (m < snd r)%nat -> req <= running_product rnd recs m)
    /\ (fst r < req \/ snd r = (index + todo)%nat).
Proof.
  induction todo as [|todo IH]; intros chain index Hc Hm; cbn zeta; simpl.
  - repeat split; auto; try lia.
  - destruct (Qle_bool req chain) eqn:E.
    + apply Qle_bool_iff in E.
      destruct (IH (Double.mul rnd chain (availability (nth index recs rec0))) (S index))
        as (I1 & I2 & I3 & I4).
      * rewrite running_product_S, Hc. reflexivity.
      * intros m Hlt. destruct (Nat.eq_dec m index) as [->|Hne].
        -- rewrite <- Hc. exact E.
        -- apply Hm. lia.
      * repeat split; auto; try lia. destruct I4 as [I4|I4]; [now left|right; lia].
    + simpl. repeat split; auto; try lia. left.
      apply Qltb_lt. unfold Qltb. now rewrite E.
Qed.

Lemma double_sections_of rnd d xs k :
  map section (Double.getAvailabilitiesOfSections rnd d xs k) = seq 0 (getNbVNFs d k).
Proof.
  unfold Double.getAvailabilitiesOfSections. rewrite map_map. simpl. apply map_id.
Qed.

Section DoubleRecords.
Context `{StdSort}.
Variables (rnd : Q -> Q) (d : Data) (xs : nat -> nat -> nat -> Q) (k : nat).

Let recs := double_records rnd d xs k.
Let sections := map section recs.
Let sel := double_selection rnd d xs k.

Lemma double_sections_perm : Permutation sections (seq 0 (getNbVNFs d k)).
Proof.
  unfold sections, recs, double_records.
  rewrite <- (double_sections_of rnd d xs k).
  apply Permutation_map, std_sort_perm.
Qed.

Lemma double_sections_NoDup : NoDup sections.
Proof.
  eapply Permutation_NoDup; [symmetry; apply double_sections_perm|apply seq_NoDup].
Qed.

Lemma double_sections_length : length sections = getNbVNFs d k.
Proof.
  rewrite (Permutation_length double_sections_perm). apply length_seq.
Qed.

Lemma double_records_length : length recs = getNbVNFs d k.
Proof.
  rewrite <- double_sections_length. unfold sections. symmetry. apply length_map.
Qed.

Lemma double_sections_in_range j :
  (j < getNbVNFs d k)%nat -> (nth j sections 0 < getNbVNFs d k)%nat.
Proof.
  intros Hj.
  assert (Hin : In (nth j sections 0%nat) sections)
    by (apply nth_In; rewrite double_sections_length; exact Hj).
  apply (Permutation_in _ double_sections_perm) in Hin. apply in_seq in Hin. lia.
Qed.

(** Each record holds the availability computed for its section. *)
Lemma double_records_value j :
  (j < getNbVNFs d k)%nat ->
  availability (nth j recs rec0)
  = Double.getAvailabilityOfSection rnd d xs k (nth j sections 0%nat).
Proof.
  intros Hj. unfold sections. rewrite <- section_nth_map.
  assert (F : Forall (fun r => availability r
                               = Double.getAvailabilityOfSection rnd d xs k (section r))
                     recs).
  { unfold recs, double_records.
    eapply Permutation_Forall; [symmetry; apply std_sort_perm|].
    unfold Double.getAvailabilitiesOfSections. apply Forall_forall. intros r Hr.
    apply in_map_iff in Hr. destruct Hr as (i & <- & _). reflexivity. }
  rewrite Forall_forall in F. apply F. apply nth_In.
  rewrite double_records_length. exact Hj.
Qed.

Lemma double_records_sorted :
  StronglySorted (fun a b => availability a <= availability b) recs.
Proof. apply sorted_ascending, std_sort_sorted. Qed.

Lemma double_select_facts :
  (snd sel <= getNbVNFs d k)%nat
  /\ fst sel = running_product rnd recs (snd sel)
  /\ (forall m, (m < snd sel)%nat -> getAvailability d k <= running_product rnd recs m)
  /\ (fst sel < getAvailability d k \/ snd sel = getNbVNFs d k).
Proof.
  destruct (double_select_spec rnd (getAvailability d k) recs (getNbVNFs d k) 1 0)
    as (H1 & H2 & H3 & H4).
  - reflexivity.
  - intros m Hm. lia.
  - change (Double.select_sections rnd (getAvailability d k) recs (getNbVNFs d k) 1 0)
      with sel in H1, H2, H3, H4.
    simpl in H1, H4. repeat split; auto. lia.
Qed.

Hypothesis Hrnd : rounding_wf rnd.
Hypothesis Hwf : availability_wf d.

(** The recorded availabilities are within the rounding error of the true
    availabilities of their sections. *)
Lemma double_records_error j :
  (j < getNbVNFs d k)%nat ->
  let i := nth j sections 0%nat in
  let a := availability (nth j recs rec0) in
  0 <= a <= 1
  /\ - roundoffs (4 * nb_assigned rnd d (xs k) i + 1)
     <= a - section_availability d (double_row_asg rnd (xs k) i)
     <= roundoffs (4 * nb_assigned rnd d (xs k) i + 1).
Proof.
  intros Hj. cbn zeta. rewrite (double_records_value j Hj).
  apply (double_section_error rnd Hrnd d xs k _ Hwf).
Qed.
End DoubleRecords.

(** ** Lifting in double arithmetic *)

Lemma double_lift_future_spec rnd d recs nbSections s v :
  (s < nbSections)%nat -> (s < length recs)%nat ->
  let fs := Double.sub rnd 1
              (Double.mul rnd (Double.sub rnd 1 (availability (nth s recs rec0)))
                              (Double.sub rnd 1 (nodeAvailability d v))) in
  snd (Double.lift_future rnd d recs nbSections s v) = fs
  /\ fst (Double.lift_future rnd d recs nbSections s v)
     = running_product rnd (set_availability recs s fs) nbSections.
Proof.
  intros Hs Hlen fs. unfold Double.lift_future, running_product.
  set (body := fun (acc : Q * Q) (j : nat) => _).
  assert (G : forall l acc,
            snd (fold_left body l acc)
            = (if existsb (Nat.eqb s) l then fs else snd acc)
            /\ fst (fold_left body l acc)
               = fold_left (fun chain j =>
                              Double.mul rnd chain
                                (availability (nth j (set_availability recs s fs) rec0)))
                           l (fst acc)).
  { induction l as [|j l IH]; intros [f0 fs0].
    - simpl. split; reflexivity.
    - cbn [fold_left]. destruct (IH (body (f0, fs0) j)) as [I1 I2]. rewrite I1, I2.
      cbn [existsb]. unfold body.
      destruct (Nat.eqb_spec s j) as [<-|Hne]; cbn [fst snd orb].
      + rewrite set_availability_nth_same by exact Hlen. cbn [availability].
        split; [destruct (existsb _ l); reflexivity|reflexivity].
      + rewrite set_availability_nth_other by congruence.
        split; reflexivity. }
  destruct (G (seq 0 nbSections) (1, availability (nth s recs rec0))) as [G1 G2].
  split.
  - rewrite G1.
    assert (E : existsb (Nat.eqb s) (seq 0 nbSections) = true).
    { apply existsb_exists. exists s. split; [apply in_seq; lia|apply Nat.eqb_refl]. }
    now rewrite E.
  - exact G2.
Qed.

Lemma double_raised_refl rnd xs : double_raised rnd xs xs.
Proof. intros i v. now left. Qed.

Lemma double_raised_trans rnd xs xs' xs'' :
  double_raised rnd xs xs' -> double_raised rnd xs' xs'' -> double_raised rnd xs xs''.
Proof.
  intros H1 H2 i v. destruct (H2 i v) as [E2|[E2 A2]]; destruct (H1 i v) as [E1|[E1 A1]].
  - left. congruence.
  - right. split; congruence.
  - right. split; congruence.
  - right. split; [exact E2|exact A1].
Qed.

Lemma filter_length_add {A} (p p' : A -> bool) l v :
  (forall u, In u l -> p u = true -> p' u = true) ->
  In v l -> p v = false -> p' v = true ->
  (length (filter p l) + 1 <= length (filter p' l))%nat.
Proof.
  intros Hsub Hin Hv Hv'.
  induction l as [|u l IH]; [destruct Hin|].
  assert (Hmono : forall l0, (forall u0, In u0 l0 -> p u0 = true -> p' u0 = true) ->
            (length (filter p l0) <= length (filter p' l0))%nat).
  { clear. induction l0 as [|w l0 IH0]; intros Hs; [simpl; lia|].
    simpl. specialize (IH0 (fun u0 H0 => Hs u0 (or_intror H0))).
    pose proof (Hs w (or_introl eq_refl)) as Hw.
    destruct (p w); [rewrite (Hw eq_refl); simpl; lia|].
    destruct (p' w); simpl; lia. }
  simpl. destruct Hin as [->|Hin].
  - rewrite Hv, Hv'. simpl.
    specialize (Hmono l (fun u0 H0 => Hsub u0 (or_intror H0))). lia.
  - specialize (IH (fun u0 H0 => Hsub u0 (or_intror H0)) Hin).
    pose proof (Hsub u (or_introl eq_refl)) as Hu.
    destruct (p u); [rewrite (Hu eq_refl); simpl; lia|].
    destruct (p' u); simpl; lia.
Qed.

Lemma nb_assigned_ext rnd d xs xs' i :
  (forall v, xs' i v = xs i v) -> nb_assigned rnd d xs' i = nb_assigned rnd d xs i.
Proof.
  intros H. unfold nb_assigned. f_equal. apply filter_ext. intros v.
  unfold double_row_asg. now rewrite H.
Qed.

Lemma nb_assigned_bound rnd d xs i : (nb_assigned rnd d xs i <= length (nodes d))%nat.
Proof. unfold nb_assigned. apply filter_length_le. Qed.

Section DoubleLift.
Variable rnd : Q -> Q.
Hypothesis Hrnd : rounding_wf rnd.
Variable d : Data.
Hypothesis Hwf : availability_wf d.

Lemma double_lift_node_inv req nb sections acc s v :
  NoDup sections ->
  (nb <= length sections)%nat -> (s < nb)%nat -> In v (nodes d) ->
  double_lift_inv rnd d req nb sections acc ->
  double_lift_inv rnd d req nb sections (Double.lift_node rnd d req nb s acc v)
  /\ double_raised rnd (fst acc) (fst (Double.lift_node rnd d req nb s acc v)).
Proof.
  intros Hnd Hnb Hs Hv Hinv. destruct acc as [xs recs].
  destruct Hinv as (I1 & I2 & I3). cbn [fst snd] in *.
  assert (Hlen : length recs = length sections)
    by (rewrite <- I1; symmetry; apply length_map).
  unfold Double.lift_node.
  destruct (Qltb (xs (section (nth s recs rec0)) v) (Double.one_minus_EPS rnd)) eqn:Eun;
    [|split; [exact (conj I1 (conj I2 I3))|apply double_raised_refl]].
  destruct (double_lift_future_spec rnd d recs nb s v Hs ltac:(lia)) as [F2 F1].
  destruct (Double.lift_future rnd d recs nb s v) as [fut fs]. cbn [fst snd] in F1, F2.
  destruct (Qltb fut req) eqn:Efut;
    [|split; [exact (conj I1 (conj I2 I3))|apply double_raised_refl]].
  apply Qltb_lt in Efut. apply Qltb_not_double_assigned in Eun.
  assert (Ei : section (nth s recs rec0) = nth s sections 0%nat)
    by (rewrite section_nth_map, I1; reflexivity).
  rewrite Ei in *. set (i := nth s sections 0%nat) in *.
  split; [split; [|split]|]; cbn [fst snd].
  - rewrite set_availability_sections. exact I1.
  - intros j Hj. cbn zeta. destruct (Nat.eq_dec j s) as [->|Hne].
    + rewrite set_availability_nth_same by lia. cbn [availability]. fold i.
      destruct (I2 s ltac:(lia)) as [Ia Ie]. cbn zeta in Ia, Ie. fold i in Ie.
      set (a := availability (nth s recs rec0)) in *.
      set (t := section_availability d (double_row_asg rnd xs i)) in *.
      set (c := nb_assigned rnd d xs i) in *.
      pose proof (section_availability_unit d (double_row_asg rnd xs i) Hwf) as Ht.
      fold t in Ht.
      assert (Hav : 0 <= nodeAvailability d v <= 1) by (apply Hwf; exact Hv).
      (* the true availability of the section with [v] added *)
      assert (Et : section_availability d (double_row_asg rnd (upd2 xs i v 1) i)
                   == 1 - (1 - t) * (1 - nodeAvailability d v)).
      { rewrite (section_availability_ext d (double_row_asg rnd (upd2 xs i v 1) i)
                   (fun u => if Nat.eqb u v then true else double_row_asg rnd xs i u)).
        - unfold section_availability.
          rewrite section_failure_add; [|apply Hwf|assumption|exact Eun].
          unfold t, section_availability. ring.
        - intros u _. unfold double_row_asg.
          destruct (Nat.eqb_spec u v) as [->|Hne].
          + rewrite upd2_same. apply (double_assigned_one rnd Hrnd). reflexivity.
          + rewrite upd2_other; [reflexivity|congruence]. }
      (* one more node is assigned *)
      assert (Hc : (c + 1 <= nb_assigned rnd d (upd2 xs i v 1%Q) i)%nat).
      { unfold c, nb_assigned. apply filter_length_add with (v := v).
        - intros u _ Hu. unfold double_row_asg in *.
          destruct (Nat.eq_dec u v) as [->|Hne].
          + rewrite upd2_same. apply (double_assigned_one rnd Hrnd). reflexivity.
          + rewrite upd2_other; [exact Hu|congruence].
        - exact Hv.
        - exact Eun.
        - unfold double_row_asg. rewrite upd2_same.
          apply (double_assigned_one rnd Hrnd). reflexivity. }
      (* the four rounded operations *)
      destruct (sub_error rnd Hrnd t a (roundoffs (4 * c + 1))) as [P1 P2]; try assumption.
      destruct (sub_error rnd Hrnd (nodeAvailability d v) (nodeAvailability d v) 0)
        as [Q1 Q2]; try lra.
      destruct (mul_error rnd Hrnd (1 - t) (Double.sub rnd 1 a)
                  (1 - nodeAvailability d v) (Double.sub rnd 1 (nodeAvailability d v))
                  (roundoffs (4 * c + 1) + unit_roundoff) (0 + unit_roundoff))
        as [M1 M2]; try lra.
      assert (Hprod : 0 <= (1 - t) * (1 - nodeAvailability d v) <= 1) by (split; nra).
      destruct (sub_error rnd Hrnd _ _ _ Hprod M1 M2) as [S1 S2].
      rewrite <- F2 in S1, S2.
      split; [exact S1|].
      rewrite Et.
      assert (Hle : roundoffs (4 * c + 1) + unit_roundoff + (0 + unit_roundoff)
                    + unit_roundoff + unit_roundoff
                    <= roundoffs (4 * nb_assigned rnd d (upd2 xs i v 1) i + 1)).
      { assert (E5 : roundoffs (4 * c + 1) + unit_roundoff + (0 + unit_roundoff)
                     + unit_roundoff + unit_roundoff == roundoffs (4 * c + 1 + 4)).
        { rewrite (roundoffs_plus (4 * c + 1) 4). unfold roundoffs at 3. simpl. ring. }
        rewrite E5. apply roundoffs_le. lia. }
      lra.
    + rewrite set_availability_nth_other by assumption.
      assert (Hrow : forall u, upd2 xs i v 1 (nth j sections 0%nat) u
                               = xs (nth j sections 0%nat) u).
      { intros u. apply upd2_other. intros [= E _]. apply Hne.
        apply (proj1 (NoDup_nth sections 0%nat) Hnd j s); [lia|lia|exact E]. }
      rewrite (nb_assigned_ext rnd d xs (upd2 xs i v 1) _ Hrow).
      rewrite (section_availability_ext d
                 (double_row_asg rnd (upd2 xs i v 1) (nth j sections 0%nat))
                 (double_row_asg rnd xs (nth j sections 0%nat))).
      * exact (I2 j Hj).
      * intros u _. unfold double_row_asg. now rewrite Hrow.
  - rewrite F2, <- F1. exact Efut.
  - intros i' u. destruct (Nat.eq_dec i' i) as [->|Hi]; [destruct (Nat.eq_dec u v) as [->|Hu]|].
    + right. rewrite upd2_same. auto.
    + left. apply upd2_other. congruence.
    + left. apply upd2_other. congruence.
Qed.

Lemma double_lift_fold_inv req nb sections :
  NoDup sections -> (nb <= length sections)%nat ->
  forall ls acc,
    (forall s, In s ls -> (s < nb)%nat) ->
    double_lift_inv rnd d req nb sections acc ->
    double_lift_inv rnd d req nb sections
      (fold_left (fun acc s => fold_left (Double.lift_node rnd d req nb s) (nodes d) acc)
                 ls acc)
    /\ double_raised rnd (fst acc)
         (fst (fold_left (fun acc s =>
                            fold_left (Double.lift_node rnd d req nb s) (nodes d) acc)
                         ls acc)).
Proof.
  intros Hnd Hnb.
  induction ls as [|s ls IH]; intros acc Hls Hinv; simpl.
  - split; [assumption|apply double_raised_refl].
  - assert (G : forall lv acc, (forall v, In v lv -> In v (nodes d)) ->
                 double_lift_inv rnd d req nb sections acc ->
                 double_lift_inv rnd d req nb sections
                   (fold_left (Double.lift_node rnd d req nb s) lv acc)
                 /\ double_raised rnd (fst acc)
                      (fst (fold_left (Double.lift_node rnd d req nb s) lv acc))).
    { induction lv as [|v lv IHv]; intros acc' Hlv Hacc; simpl.
      - split; [assumption|apply double_raised_refl].
      - destruct (double_lift_node_inv req nb sections acc' s v) as [H1 H2]; auto.
        { apply Hls. now left. } { apply Hlv. now left. }
        destruct (IHv (Double.lift_node rnd d req nb s acc' v)) as [H3 H4]; auto.
        { intros u Hu. apply Hlv. now right. }
        split; [assumption|]. eapply double_raised_trans; eassumption. }
    destruct (G (nodes d) acc (fun v H => H) Hinv) as [H1 H2].
    destruct (IH _ (fun s' H => Hls s' (or_intror H)) H1) as [H3 H4].
    split; [assumption|]. eapply double_raised_trans; eassumption.
Qed.

Lemma double_lift_inv_raised req nb sections xs recs :
  NoDup sections -> (nb <= length sections)%nat ->
  double_lift_inv rnd d req nb sections (xs, recs) ->
  double_lift_inv rnd d req nb sections (Double.lift rnd d xs req recs nb)
  /\ double_raised rnd xs (fst (Double.lift rnd d xs req recs nb)).
Proof.
  intros Hnd Hnb Hinv.
  apply (double_lift_fold_inv req nb sections Hnd Hnb (seq 0 nb) (xs, recs)); [|assumption].
  intros s Hs. apply in_seq in Hs. lia.
Qed.
End DoubleLift.

(** ** One demand of addLazyConstraints in double arithmetic *)

Lemma prodQ_prefix_unit (A : nat -> Q) nb n :
  (nb <= n)%nat -> (forall j, (j < n)%nat -> 0 <= A j <= 1) ->
  0 <= prodQ (map A (seq 0 n)) <= prodQ (map A (seq 0 nb)).
Proof.
  intros Hnb HA.
  replace n with (nb + (n - nb))%nat at 1 2 by lia.
  rewrite seq_app, map_app, prodQ_app.
  assert (H1 : 0 <= prodQ (map A (seq 0 nb)) <= 1).
  { apply prodQ_map_unit. intros j Hj. apply in_seq in Hj. apply HA. lia. }
  assert (H2 : 0 <= prodQ (map A (seq (0 + nb) (n - nb))) <= 1).
  { apply prodQ_map_unit. intros j Hj. apply in_seq in Hj. apply HA. lia. }
  split; nra.
Qed.

Lemma rounding_error_prefix d k nb :
  (nb <= getNbVNFs d k)%nat ->
  inject_Z (Z.of_nat nb) * (roundoffs (4 * length (nodes d) + 1) + unit_roundoff)
  <= rounding_error d k.
Proof.
  intros Hnb. unfold rounding_error.
  rewrite <- roundoffs_S, <- roundoffs_mult. apply roundoffs_le.
  apply Nat.mul_le_mono; lia.
Qed.

(** Under the invariant of lifting, the running product of a prefix is
    within the rounding error of the true availability of that prefix. *)
Lemma double_prefix_error rnd d k req nb0 sections acc nb :
  rounding_wf rnd -> availability_wf d ->
  length sections = getNbVNFs d k -> (nb <= getNbVNFs d k)%nat ->
  double_lift_inv rnd d req nb0 sections acc ->
  let A := fun j => section_availability d
                      (double_row_asg rnd (fst acc) (nth j sections 0%nat)) in
  - rounding_error d k
  <= running_product rnd (snd acc) nb - prodQ (map A (seq 0 nb))
  <= rounding_error d k.
Proof.
  intros Hrnd Hwf Hlen Hnb (I1 & I2 & I3) A.
  destruct (running_product_error rnd (snd acc) A (roundoffs (4 * length (nodes d) + 1))
              Hrnd (roundoffs_nonneg _) nb) as (_ & _ & R).
  - intros j Hj. destruct (I2 j ltac:(lia)) as [Ia Ie]. cbn zeta in Ia, Ie.
    split; [exact Ia|]. split; [apply section_availability_unit, Hwf|].
    assert (Hle : roundoffs (4 * nb_assigned rnd d (fst acc) (nth j sections 0%nat) + 1)
                  <= roundoffs (4 * length (nodes d) + 1)).
    { apply roundoffs_le.
      pose proof (nb_assigned_bound rnd d (fst acc) (nth j sections 0%nat)). lia. }
    unfold A. lra.
  - pose proof (rounding_error_prefix d k nb Hnb). lra.
Qed.

Section DoubleDemand.
Context `{StdSort}.
Variable rnd : Q -> Q.
Hypothesis Hrnd : rounding_wf rnd.
Variable d : Data.
Hypothesis Hwf : availability_wf d.
Variables (xs : nat -> nat -> nat -> Q) (k : nat).

Let recs := double_records rnd d xs k.
Let sections := map section recs.
Let sel := double_selection rnd d xs k.
Let lifted := double_lifted rnd d xs k.

Lemma double_lift_inv_any nb :
  running_product rnd recs nb < getAvailability d k ->
  double_lift_inv rnd d (getAvailability d k) nb sections (xs k, recs).
Proof.
  intros Hlt. split; [reflexivity|]. split; [|exact Hlt].
  intros j Hj. cbn [fst snd].
  apply (double_records_error rnd d xs k Hrnd Hwf j).
  unfold sections, recs in Hj. rewrite (double_sections_length rnd d xs k) in Hj. exact Hj.
Qed.

Lemma double_lift_inv_lifted :
  fst sel < getAvailability d k ->
  double_lift_inv rnd d (getAvailability d k) (snd sel) sections lifted
  /\ double_raised rnd (xs k) (fst lifted).
Proof.
  intros Hlt. destruct (double_select_facts rnd d xs k) as (H1 & H2 & _).
  apply (double_lift_inv_raised rnd Hrnd d Hwf).
  - apply (double_sections_NoDup rnd d xs k).
  - unfold sections, recs. rewrite (double_sections_length rnd d xs k). exact H1.
  - apply double_lift_inv_any. unfold sel in Hlt. rewrite H2 in Hlt. exact Hlt.
Qed.

(** The running product of the candidate and its true chain availability. *)
Lemma double_candidate_error nb :
  (nb <= getNbVNFs d k)%nat ->
  let A := fun j => section_availability d
                      (double_row_asg rnd (xs k) (nth j sections 0%nat)) in
  - rounding_error d k
  <= running_product rnd recs nb - prodQ (map A (seq 0 nb))
  <= rounding_error d k.
Proof.
  intros Hnb A.
  assert (Hinv : double_lift_inv rnd d (running_product rnd recs 0 + 1) 0 sections
                   (xs k, recs)).
  { split; [reflexivity|]. split.
    - intros j Hj. cbn [fst snd].
      apply (double_records_error rnd d xs k Hrnd Hwf j).
      unfold sections, recs in Hj.
      rewrite (double_sections_length rnd d xs k) in Hj. exact Hj.
    - cbn [snd]. lra. }
  exact (double_prefix_error rnd d k _ 0%nat sections (xs k, recs) nb Hrnd Hwf
           (double_sections_length rnd d xs k) Hnb Hinv).
Qed.

Lemma double_chain_candidate :
  chain_availability d k (double_row_asg rnd (xs k))
  == prodQ (map (fun j => section_availability d
                            (double_row_asg rnd (xs k) (nth j sections 0%nat)))
                (seq 0 (getNbVNFs d k))).
Proof.
  apply chain_availability_perm, (double_sections_perm rnd d xs k).
Qed.

(** A chain that is below the requirement by more than the rounding error is
    found below it by the selection loop. *)
Lemma double_selection_below :
  chain_availability d k (double_row_asg rnd (xs k)) + rounding_error d k
  < getAvailability d k ->
  fst sel < getAvailability d k.
Proof.
  intros Hlt. destruct (double_select_facts rnd d xs k) as (H1 & H2 & _ & H4).
  destruct H4 as [H4|H4]; [exact H4|].
  unfold sel. rewrite H2, H4.
  change (running_product rnd recs (getNbVNFs d k) < getAvailability d k).
  pose proof (double_candidate_error (getNbVNFs d k) (le_n _)) as He.
  cbn zeta in He. rewrite <- double_chain_candidate in He. lra.
Qed.

(** A chain that exceeds the requirement by the rounding error or more is
    not found below it. *)
Lemma double_selection_above :
  getAvailability d k + rounding_error d k
  <= chain_availability d k (double_row_asg rnd (xs k)) ->
  getAvailability d k <= fst sel.
Proof.
  intros Hge. destruct (double_select_facts rnd d xs k) as (H1 & H2 & _).
  unfold sel. rewrite H2.
  change (getAvailability d k <= running_product rnd recs (snd sel)).
  pose proof (double_candidate_error _ H1) as He. cbn zeta in He.
  change (snd (double_selection rnd d xs k)) with (snd sel) in He.
  rewrite double_chain_candidate in Hge.
  destruct (prodQ_prefix_unit
              (fun j => section_availability d
                          (double_row_asg rnd (xs k) (nth j sections 0%nat)))
              _ (getNbVNFs d k) H1) as [_ Hpre].
  { intros j _. apply section_availability_unit, Hwf. }
  unfold sel, recs, sections in *. lra.
Qed.

(** If, on the first [nb] sorted sections, [asg] chooses only nodes that the
    lifted matrix holds as assigned, the chain under [asg] exceeds the
    requirement by less than the rounding error. *)
Lemma double_chain_below nb acc asg :
  (nb <= getNbVNFs d k)%nat ->
  double_lift_inv rnd d (getAvailability d k) nb sections acc ->
  (forall j v, (j < nb)%nat -> In v (nodes d) ->
     asg (nth j sections 0%nat) v = true ->
     double_assigned rnd (fst acc (nth j sections 0%nat) v) = true) ->
  chain_availability d k asg < getAvailability d k + rounding_error d k.
Proof.
  intros Hnb Hinv Hsub.
  pose proof (double_prefix_error rnd d k _ nb sections acc nb Hrnd Hwf
                (double_sections_length rnd d xs k) Hnb Hinv) as He.
  cbn zeta in He. destruct Hinv as (_ & _ & I3).
  rewrite (chain_availability_perm d k asg sections (double_sections_perm rnd d xs k)).
  destruct (prodQ_prefix_unit
              (fun j => section_availability d (asg (nth j sections 0%nat)))
              nb (getNbVNFs d k) Hnb) as [_ Hpre].
  { intros j _. apply section_availability_unit, Hwf. }
  assert (Hfirst : 0 <= prodQ (map (fun j => section_availability d
                                               (asg (nth j sections 0%nat))) (seq 0 nb))
                   <= prodQ (map (fun j => section_availability d
                                    (double_row_asg rnd (fst acc) (nth j sections 0%nat)))
                                 (seq 0 nb))).
  { apply prodQ_map_bounds. intros j Hj. apply in_seq in Hj. split.
    - apply section_availability_unit, Hwf.
    - apply section_availability_mono; [exact Hwf|].
      intros v Hv. unfold double_row_asg. apply Hsub; [lia|assumption]. }
  lra.
Qed.
End DoubleDemand.

(** ** Nogoods in double arithmetic *)

Lemma double_in_nogood_expr rnd d k xs recs nb c var :
  In (c, var) (Double.nogood_expr rnd d k xs recs nb) <->
  c = 1 /\ exists j v,
    (j < nb)%nat /\ In v (nodes d)
    /\ var = x_var k (section (nth j recs rec0)) v
    /\ double_assigned rnd (xs (section (nth j recs rec0)) v) = false.
Proof.
  unfold Double.nogood_expr. rewrite in_flat_map. split.
  - intros (j & Hj & Hin). apply in_seq in Hj.
    apply in_flat_map in Hin. destruct Hin as (v & Hv & Hin).
    destruct (Qltb _ _) eqn:E; [|destruct Hin].
    destruct Hin as [[= <- <-]|[]]. split; [reflexivity|].
    exists j, v. repeat split; auto; try lia. now apply Qltb_not_double_assigned.
  - intros (-> & j & v & Hj & Hv & -> & Ha).
    exists j. split; [apply in_seq; lia|].
    apply in_flat_map. exists v. split; [assumption|].
    apply Qltb_not_double_assigned in Ha. rewrite Ha. now left.
Qed.

(** The nogood of a rejected demand: the running product of the lifted
    records is still below the requirement, the true chain availability of
    the lifted matrix exceeds the requirement by less than the rounding
    error, and the nogood is satisfied by every assignment under which the
    demand exceeds its requirement by the rounding error or more. *)
Lemma double_nogood_sound `{StdSort} rnd d xs k :
  rounding_wf rnd -> availability_wf d ->
  fst (double_selection rnd d xs k) < getAvailability d k ->
  running_product rnd (snd (double_lifted rnd d xs k)) (snd (double_selection rnd d xs k))
  < getAvailability d k
  /\ chain_availability d k (double_row_asg rnd (fst (double_lifted rnd d xs k)))
     < getAvailability d k + rounding_error d k
  /\ forall S,
       getAvailability d k + rounding_error d k <= chain_availability d k (S k) ->
       1 <= eval_expr (val_of S) (getExpr (double_nogood rnd d xs k)).
Proof.
  intros Hrnd Hwf Hlt.
  destruct (double_lift_inv_lifted rnd Hrnd d Hwf xs k Hlt) as [Hinv _].
  destruct (double_select_facts rnd d xs k) as (Hnb & _).
  pose proof Hinv as (I1 & _ & I3).
  assert (Hsec : forall j, section (nth j (snd (double_lifted rnd d xs k)) rec0)
                           = nth j (map section (double_records rnd d xs k)) 0%nat)
    by (intros j; rewrite section_nth_map, I1; reflexivity).
  split; [exact I3|]. split.
  - apply (double_chain_below rnd Hrnd d Hwf xs k _ _ _ Hnb Hinv). auto.
  - intros S Hfeas.
    set (sec := fun j => nth j (map section (double_records rnd d xs k)) 0%nat).
    set (lifted := fst (double_lifted rnd d xs k)).
    destruct (existsb (fun j =>
                existsb (fun v => S k (sec j) v
                                  && negb (double_assigned rnd (lifted (sec j) v)))
                        (nodes d))
              (seq 0 (snd (double_selection rnd d xs k)))) eqn:E.
    + apply existsb_exists in E. destruct E as (j & Hj & E). apply in_seq in Hj.
      apply existsb_exists in E. destruct E as (v & Hv & E).
      apply andb_true_iff in E. destruct E as [ES EA]. apply negb_true_iff in EA.
      destruct (eval_expr_unit_coeffs S (getExpr (double_nogood rnd d xs k))) as [_ G].
      * intros [c var] Hin. apply double_in_nogood_expr in Hin. apply Hin.
      * apply (G (1, x_var k (sec j) v)).
        -- apply double_in_nogood_expr. split; [reflexivity|].
           exists j, v. rewrite Hsec. fold (sec j). repeat split; auto. lia.
        -- simpl. rewrite ES. reflexivity.
    + exfalso.
      assert (Hsub : forall j v, (j < snd (double_selection rnd d xs k))%nat ->
                In v (nodes d) -> S k (sec j) v = true ->
                double_assigned rnd (lifted (sec j) v) = true).
      { intros j v Hj Hv HS.
        destruct (double_assigned rnd (lifted (sec j) v)) eqn:EA; [reflexivity|].
        assert (Ex : existsb (fun j =>
                  existsb (fun v => S k (sec j) v
                                    && negb (double_assigned rnd (lifted (sec j) v)))
                          (nodes d))
                (seq 0 (snd (double_selection rnd d xs k))) = true).
        { apply existsb_exists. exists j. split; [apply in_seq; lia|].
          apply existsb_exists. exists v. split; [assumption|].
          rewrite HS, EA. reflexivity. }
        congruence. }
      apply (Qlt_not_le _ _
               (double_chain_below rnd Hrnd d Hwf xs k _ _ (S k) Hnb Hinv Hsub) Hfeas).
Qed.

(** ** All demands of addLazyConstraints in double arithmetic *)

Lemma double_lazy_demand_eq `{StdSort} rnd d s k :
  Double.lazy_demand rnd d s k
  = if double_violated rnd d (xSol s) k
    then incrementLazyConstraints
           (submit (rejectCandidate (double_nogood rnd d (xSol s) k))
                   (set_xSol (upd1 (xSol s) k (fst (double_lifted rnd d (xSol s) k))) s))
    else s.
Proof.
  unfold Double.lazy_demand, double_violated, double_nogood, double_lifted,
    double_selection, double_records.
  destruct (Double.select_sections _ _ _ _ _ _) as [chain nb]. cbn [fst snd].
  destruct (Qltb chain (getAvailability d k)); [|reflexivity].
  destruct (Double.lift _ _ _ _ _ _) as [xs_k recs']. reflexivity.
Qed.

Lemma double_selection_row `{StdSort} rnd d xs xs' k :
  xs k = xs' k -> double_selection rnd d xs k = double_selection rnd d xs' k.
Proof.
  intros E. unfold double_selection, double_records,
    Double.getAvailabilitiesOfSections, Double.getAvailabilityOfSection.
  now rewrite E.
Qed.

Lemma double_lifted_row `{StdSort} rnd d xs xs' k :
  xs k = xs' k -> double_lifted rnd d xs k = double_lifted rnd d xs' k.
Proof.
  intros E. unfold double_lifted. rewrite (double_selection_row rnd d xs xs' k E).
  unfold double_records, Double.getAvailabilitiesOfSections,
    Double.getAvailabilityOfSection.
  now rewrite E.
Qed.

Lemma double_violated_row `{StdSort} rnd d xs xs' k :
  xs k = xs' k -> double_violated rnd d xs k = double_violated rnd d xs' k.
Proof.
  intros E. unfold double_violated. now rewrite (double_selection_row rnd d xs xs' k E).
Qed.

Lemma double_nogood_row `{StdSort} rnd d xs xs' k :
  xs k = xs' k -> double_nogood rnd d xs k = double_nogood rnd d xs' k.
Proof.
  intros E. unfold double_nogood.
  now rewrite (double_lifted_row rnd d xs xs' k E),
    (double_selection_row rnd d xs xs' k E).
Qed.

Lemma double_emitted_row `{StdSort} rnd d xs xs' k :
  xs k = xs' k -> double_emitted rnd d xs k = double_emitted rnd d xs' k.
Proof.
  intros E. unfold double_emitted.
  now rewrite (double_violated_row rnd d xs xs' k E), (double_nogood_row rnd d xs xs' k E).
Qed.

Lemma double_checked_row_row `{StdSort} rnd d xs xs' k :
  xs k = xs' k -> double_checked_row rnd d xs k = double_checked_row rnd d xs' k.
Proof.
  intros E. unfold double_checked_row.
  now rewrite (double_violated_row rnd d xs xs' k E),
    (double_lifted_row rnd d xs xs' k E), E.
Qed.

Lemma double_lazy_demand_effect `{StdSort} rnd d s k :
  xSol (Double.lazy_demand rnd d s k) k = double_checked_row rnd d (xSol s) k
  /\ (forall k', k' <> k -> xSol (Double.lazy_demand rnd d s k) k' = xSol s k')
  /\ host (Double.lazy_demand rnd d s k)
     = host s ++ map rejectCandidate (double_emitted rnd d (xSol s) k)
  /\ nbLazyConstraints (Double.lazy_demand rnd d s k)
     = (nbLazyConstraints s + Z.of_nat (length (double_emitted rnd d (xSol s) k)))%Z
  /\ nbCuts (Double.lazy_demand rnd d s k) = nbCuts s.
Proof.
  rewrite double_lazy_demand_eq. unfold double_checked_row, double_emitted.
  destruct (double_violated rnd d (xSol s) k); simpl.
  - repeat split.
    + apply upd1_same.
    + intros k' Hk'. now apply upd1_other.
  - rewrite app_nil_r. repeat split; auto. lia.
Qed.

Lemma double_lazy_fold_effect `{StdSort} rnd d l :
  NoDup l ->
  forall s,
  let s' := fold_left (Double.lazy_demand rnd d) l s in
  (forall k, ~ In k l -> xSol s' k = xSol s k)
  /\ (forall k, In k l -> xSol s' k = double_checked_row rnd d (xSol s) k)
  /\ host s' = host s ++ map rejectCandidate (flat_map (double_emitted rnd d (xSol s)) l)
  /\ nbLazyConstraints s'
     = (nbLazyConstraints s
        + Z.of_nat (length (flat_map (double_emitted rnd d (xSol s)) l)))%Z
  /\ nbCuts s' = nbCuts s.
Proof.
  induction 1 as [|k l Hk Hl IH]; intros s; cbn zeta.
  - simpl. rewrite app_nil_r. repeat split; auto. { intros k []. } lia.
  - cbn [fold_left flat_map].
    destruct (double_lazy_demand_effect rnd d s k) as (E1 & E2 & E3 & E4 & E5).
    destruct (IH (Double.lazy_demand rnd d s k)) as (I1 & I2 & I3 & I4 & I5).
    assert (Hext : flat_map (double_emitted rnd d (xSol (Double.lazy_demand rnd d s k))) l
                   = flat_map (double_emitted rnd d (xSol s)) l).
    { apply flat_map_ext_in. intros k' Hk'. apply double_emitted_row, E2. congruence. }
    rewrite Hext in I3, I4.
    split; [|split; [|split; [|split]]].
    + intros k' Hk'. rewrite I1 by (intros Hin; apply Hk'; now right).
      apply E2. intros ->. apply Hk'. now left.
    + intros k' [<-|Hk'].
      * rewrite (I1 k Hk). exact E1.
      * rewrite (I2 k' Hk'). apply double_checked_row_row, E2. congruence.
    + rewrite I3, E3, map_app, app_assoc. reflexivity.
    + rewrite I4, E4, length_app. lia.
    + congruence.
Qed.

Lemma double_emitted_violated `{StdSort} rnd d xs l :
  flat_map (double_emitted rnd d xs) l
  = map (double_nogood rnd d xs) (filter (double_violated rnd d xs) l).
Proof.
  induction l as [|k l IH]; [reflexivity|].
  cbn [flat_map filter]. rewrite IH. unfold double_emitted.
  destruct (double_violated rnd d xs k); reflexivity.
Qed.

Lemma double_addLazyConstraints_eq `{StdSort} rnd d ctx s :
  getId ctx = Candidate -> isCandidatePoint ctx = true ->
  Double.addLazyConstraints rnd d ctx s
  = Ok (fold_left (Double.lazy_demand rnd d) (seq 0 (getNbDemands d))
          (set_xSol (fill_x d (getCandidatePoint ctx) (xSol s)) s)).
Proof.
  intros Hid Hcp. unfold Double.addLazyConstraints, getIntegerSolution.
  now rewrite Hid, Hcp.
Qed.

Lemma double_addLazyConstraints_Ok `{StdSort} rnd d ctx s s' :
  Double.addLazyConstraints rnd d ctx s = Ok s' ->
  getId ctx = Candidate /\ isCandidatePoint ctx = true.
Proof.
  unfold Double.addLazyConstraints, getIntegerSolution.
  destruct (getId ctx); simpl; try discriminate.
  destruct (isCandidatePoint ctx); simpl; [auto|discriminate].
Qed.

(** With exact rounding the double arithmetic is the arithmetic of the
    rationals. *)
Lemma double_select_sections_exact req recs todo chain index :
  Double.select_sections (fun x => x) req recs todo chain index
  = select_sections req recs todo chain index.
Proof.
  revert chain index. induction todo as [|todo IH]; intros chain index; [reflexivity|].
  simpl. destruct (Qle_bool req chain); [|reflexivity]. apply IH.
Qed.

Lemma double_addLazyConstraints_exact `{StdSort} d ctx s :
  Double.addLazyConstraints (fun x => x) d ctx s = addLazyConstraints d ctx s.
Proof.
  unfold Double.addLazyConstraints, addLazyConstraints.
  destruct (getIntegerSolution d ctx s) as [s0| | |]; try reflexivity.
  simpl. f_equal. apply fold_left_ext. intros a k.
  unfold Double.lazy_demand, lazy_demand.
  rewrite double_select_sections_exact. reflexivity.
Qed.

Lemma exact_rounding_wf : rounding_wf (fun x => x).
Proof.
  intros x Hx. split; [exact Hx|].
  assert (E : x - x == 0) by ring. rewrite E. split; discriminate.
Qed.

(** ** Sample instances in double arithmetic *)

Lemma chain_instance_wf avail nb_nodes nb_sections req :
  (forall v, 0 <= avail v <= 1) ->
  availability_wf (chain_instance avail nb_nodes nb_sections req).
Proof.
  intros Ha. split; [apply seq_NoDup|]. intros v _. apply Ha.
Defined.

Lemma double_sample_wf req : availability_wf (double_sample req).
Proof.
  apply chain_instance_wf. intros v.
  apply binary64_rounding_wf.
  unfold sample_avail. destruct v as [|[|v]]; split; discriminate.
Defined.

Lemma sample_candidate_binary_double req :
  binary_candidate (double_sample req) sample_candidate 0.
Proof.
  intros i v Hi Hv. simpl in Hi, Hv.
  destruct Hv as [<-|[<-|[<-|[]]]]; destruct i as [|[|i]]; try (exfalso; lia);
    simpl; (left; reflexivity) || (right; reflexivity).
Defined.

(** ** Rejection of a candidate below its required availability *)

(** On the sample instance with required availability 0.99, section 0 is on
    node 1 alone (availability 0.8).  Lifting marks node 0 (0.98 is still
    below 0.99), so that the submitted nogood is [x[0,0,2] >= 1] and not
    [x[0,0,0] + x[0,0,2] >= 1].  On the instance with one section on two
    nodes of availability 0.81 and 0.83 and the requirement 0.9677, the true
    availability of the chain is below the requirement, by less than 1e-17,
    but the product that the doubles give equals the requirement and the
    candidate is accepted. *)
Lemma rejects_below_requirement_counterexample :
  ~ rejects_below_requirement binary64 (double_sample (99 # 100)) sample_candidate
      (Callback sample_libc (double_sample (99 # 100)) 0) 0
  /\ ~ rejects_below_requirement binary64 pair_instance full_candidate
         (Callback sample_libc pair_instance 0) 0.
Proof.
  split.
  - intros Hc. destruct Hc as (s' & Hrun & Hin).
    + reflexivity.
    + reflexivity.
    + simpl. lia.
    + apply sample_candidate_binary_double.
    + vm_compute. reflexivity.
    + apply (f_equal (fun r => match r with Ok s1 => host s1 | _ => [] end)) in Hrun.
      rewrite <- Hrun in Hin. vm_compute in Hin.
      destruct Hin as [E|[]]. discriminate E.
  - intros Hc. destruct Hc as (s' & Hrun & Hin).
    + reflexivity.
    + reflexivity.
    + simpl. lia.
    + intros i v _ _. simpl. right. reflexivity.
    + vm_compute. reflexivity.
    + apply (f_equal (fun r => match r with Ok s1 => host s1 | _ => [] end)) in Hrun.
      rewrite <- Hrun in Hin. vm_compute in Hin. exact Hin.
Qed.

(** C1.  A 0/1 candidate is rejected for demand [k] whenever the true chain
    availability of [k] is below the required availability by more than the
    rounding error of the chain (sections x (4 x nodes + 2) unit roundoffs),
    and more generally whenever the product of the section availabilities
    that the doubles give is below the requirement: the call returns and has
    submitted a nogood with lower bound 1.  The sections are sorted by
    ascending availability as computed, each within the rounding error of
    the true availability of the section; the nogood ranges over the
    shortest prefix of them whose running product is below the requirement,
    and, in these sections, over the nodes that are neither assigned in the
    candidate nor marked as placed by lifting. *)
Theorem lazy_rejects_violating_candidate `{StdSort} (rnd : Q -> Q) (d : Data)
    (ctx : Context) (s : State) (k : nat) :
  rounding_wf rnd -> availability_wf d ->
  getId ctx = Candidate -> isCandidatePoint ctx = true ->
  (k < getNbDemands d)%nat -> binary_candidate d ctx k ->
  let xs0 := fill_x d (getCandidatePoint ctx) (xSol s) in
  let recs := double_records rnd d xs0 k in
  let nb := snd (double_selection rnd d xs0 k) in
  let lifted := fst (double_lifted rnd d xs0 k) in
  (chain_availability d k (candidate_asg ctx k) + rounding_error d k
   < getAvailability d k
   \/ running_product rnd recs (getNbVNFs d k) < getAvailability d k) ->
  exists s',
    Double.addLazyConstraints rnd d ctx s = Ok s'
    /\ In (rejectCandidate (double_nogood rnd d xs0 k)) (host s')
    /\ getLB (double_nogood rnd d xs0 k) = 1 /\ getUB (double_nogood rnd d xs0 k) = None
    /\ Permutation (map section recs) (seq 0 (getNbVNFs d k))
    /\ StronglySorted (fun a b => availability a <= availability b) recs
    /\ (forall j, (j < getNbVNFs d k)%nat ->
          let i := section (nth j recs rec0) in
          availability (nth j recs rec0) = Double.getAvailabilityOfSection rnd d xs0 k i
          /\ - roundoffs (4 * length (nodes d) + 1)
             <= availability (nth j recs rec0)
                - section_availability d (candidate_asg ctx k i)
             <= roundoffs (4 * length (nodes d) + 1))
    /\ (nb <= getNbVNFs d k)%nat
    /\ running_product rnd recs nb < getAvailability d k
    /\ (forall m, (m < nb)%nat -> getAvailability d k <= running_product rnd recs m)
    /\ (forall c var,
          In (c, var) (getExpr (double_nogood rnd d xs0 k)) <->
          c = 1 /\ exists j v,
            (j < nb)%nat /\ In v (nodes d)
            /\ var = x_var k (section (nth j recs rec0)) v
            /\ double_assigned rnd (lifted (section (nth j recs rec0)) v) = false)
    /\ (forall i v, (i < getNbVNFs d k)%nat -> In v (nodes d) ->
          double_assigned rnd (lifted i v) = false ->
          getCandidatePoint ctx (x_var k i v) == 0).
Proof.
  intros Hrnd Hwf Hid Hcp Hk Hbin xs0 recs nb lifted Hviol.
  set (s0 := set_xSol xs0 s).
  (* the candidate as read *)
  assert (Hread : forall i v, (i < getNbVNFs d k)%nat -> In v (nodes d) ->
                    xs0 k i v = getCandidatePoint ctx (x_var k i v))
    by (intros i v Hi Hv; apply fill_x_in_range; assumption).
  assert (Hasg : forall i v, (i < getNbVNFs d k)%nat -> In v (nodes d) ->
                   double_row_asg rnd (xs0 k) i v = candidate_asg ctx k i v).
  { intros i v Hi Hv. unfold double_row_asg, candidate_asg. rewrite (Hread i v Hi Hv).
    apply (double_assigned_binary rnd Hrnd), Hbin; assumption. }
  destruct (double_select_facts rnd d xs0 k) as (S1 & S2 & S3 & S4).
  fold recs in S2, S3. fold nb in S1, S2, S3, S4.
  assert (Hsel : fst (double_selection rnd d xs0 k) < getAvailability d k).
  { destruct Hviol as [Hviol|Hviol].
    - apply (double_selection_below rnd Hrnd d Hwf xs0 k).
      rewrite (chain_availability_ext d k _ _ Hasg). exact Hviol.
    - destruct S4 as [S4|S4]; [exact S4|]. rewrite S2, S4. exact Hviol. }
  destruct (double_lift_inv_lifted rnd Hrnd d Hwf xs0 k Hsel) as [(I1 & _ & _) Hraised].
  fold recs in I1. fold lifted in Hraised.
  (* the run *)
  exists (fold_left (Double.lazy_demand rnd d) (seq 0 (getNbDemands d)) s0).
  split; [apply double_addLazyConstraints_eq; assumption|].
  destruct (double_lazy_fold_effect rnd d (seq 0 (getNbDemands d)) (seq_NoDup _ _) s0)
    as (_ & _ & F3 & _).
  change (xSol s0) with xs0 in F3.
  split.
  { rewrite F3. apply in_or_app. right. apply in_map.
    apply in_flat_map. exists k. split; [apply in_seq; lia|].
    unfold double_emitted, double_violated. apply Qltb_lt in Hsel. rewrite Hsel. now left. }
  split; [reflexivity|]. split; [reflexivity|].
  split; [apply (double_sections_perm rnd d xs0 k)|].
  split; [apply (double_records_sorted rnd d xs0 k)|].
  split.
  { intros j Hj. cbn zeta.
    assert (Hi : (section (nth j recs rec0) < getNbVNFs d k)%nat).
    { rewrite section_nth_map. apply (double_sections_in_range rnd d xs0 k j Hj). }
    split.
    - rewrite section_nth_map. apply (double_records_value rnd d xs0 k j Hj).
    - destruct (double_records_error rnd d xs0 k Hrnd Hwf j Hj) as [_ He].
      cbn zeta in He. fold recs in He. rewrite <- section_nth_map in He.
      rewrite (section_availability_ext d _ (candidate_asg ctx k (section (nth j recs rec0))))
        in He by (intros v Hv; apply Hasg; assumption).
      assert (Hle : roundoffs (4 * nb_assigned rnd d (xs0 k) (section (nth j recs rec0)) + 1)
                    <= roundoffs (4 * length (nodes d) + 1)).
      { apply roundoffs_le.
        pose proof (nb_assigned_bound rnd d (xs0 k) (section (nth j recs rec0))). lia. }
      lra. }
  split; [exact S1|].
  split; [rewrite <- S2; exact Hsel|].
  split; [exact S3|].
  split.
  { intros c var. unfold double_nogood. cbn [getExpr]. rewrite double_in_nogood_expr.
    fold lifted. fold nb.
    assert (Hsec : forall j, section (nth j (snd (double_lifted rnd d xs0 k)) rec0)
                             = section (nth j recs rec0))
      by (intros j; rewrite !section_nth_map, I1; reflexivity).
    split; intros (Hc & j & v & Hj & Hv & Hvar & Ha); split; auto;
      exists j, v; rewrite ?Hsec in *; auto. }
  intros i v Hi Hv Ha.
  destruct (Hraised i v) as [Heq|[H1 _]].
  - rewrite Heq, (Hread i v Hi Hv) in Ha.
    destruct (Hbin i v Hi Hv) as [H0|H1]; [exact H0|].
    rewrite (double_assigned_one rnd Hrnd _ H1) in Ha. discriminate Ha.
  - rewrite H1 in Ha. rewrite (double_assigned_one rnd Hrnd 1) in Ha by reflexivity.
    discriminate Ha.
Qed.

Lemma lazy_rejects_violating_candidate_witness :
  exists s',
    Double.addLazyConstraints binary64 (double_sample (99 # 100)) sample_candidate
      (Callback sample_libc (double_sample (99 # 100)) 0) = Ok s'
    /\ In (rejectCandidate
             (double_nogood binary64 (double_sample (99 # 100))
                (fill_x (double_sample (99 # 100)) (getCandidatePoint sample_candidate)
                        (xSol (Callback sample_libc (double_sample (99 # 100)) 0))) 0))
          (host s').
Proof.
  destruct (lazy_rejects_violating_candidate binary64 (double_sample (99 # 100))
              sample_candidate (Callback sample_libc (double_sample (99 # 100)) 0) 0
              binary64_rounding_wf (double_sample_wf _) eq_refl eq_refl (le_n 1)
              (sample_candidate_binary_double _))
    as (s' & Hrun & Hin & _).
  - left. vm_compute. reflexivity.
  - exists s'. split; assumption.
Defined.

(** ** Soundness of the lifted nogoods *)

(** Three sections, each on one node, of availabilities 0.523, 0.54 and
    0.609, and the requirement 0.17199378: the true availability of the
    chain meets the requirement, the product that the doubles give is
    0.17199377999999999, and the candidate is rejected with a nogood that it
    violates. *)
Lemma nogoods_keep_feasible_counterexample :
  ~ nogoods_keep_feasible binary64 diagonal_instance diagonal_candidate
      (Callback sample_libc diagonal_instance 0).
Proof.
  intros Hc.
  destruct (Double.addLazyConstraints binary64 diagonal_instance diagonal_candidate
              (Callback sample_libc diagonal_instance 0)) as [s'| | |] eqn:E;
    try (vm_compute in E; discriminate E).
  pose proof (f_equal (fun r => match r with Ok s1 => host s1 | _ => [] end) E) as Hh.
  cbv beta iota in Hh. remember (host s') as h eqn:Eh in Hh.
  vm_compute in Hh. subst h.
  destruct (Hc s' _ E ltac:(rewrite <- Hh; left; reflexivity)) as (k & Hk & Hsound).
  assert (k = 0%nat) by (simpl in Hk; lia). subst k.
  specialize (Hsound (fun _ i v => Nat.eqb i v)).
  cbn [getExpr] in Hsound.
  assert (Hfeas : getAvailability diagonal_instance 0
                  <= chain_availability diagonal_instance 0 (fun i v => Nat.eqb i v))
    by (vm_compute; discriminate).
  specialize (Hsound Hfeas). vm_compute in Hsound. apply Hsound. reflexivity.
Qed.

(** C2.  Lifting in double arithmetic.  Let [xs0] be the candidate as read by
    getIntegerSolution.  A position that addLazyConstraints marks as placed
    was not assigned in the candidate, and with all the positions marked for
    its demand the running product of the selected sections, as the doubles
    give it, is still strictly below the required availability, so that the
    true chain availability exceeds the requirement by less than the
    rounding error.  Every nogood submitted by the call belongs to a demand
    and is satisfied by every 0/1 assignment under which that demand exceeds
    its required availability by the rounding error or more. *)
Theorem lifted_nogood_sound `{StdSort} (rnd : Q -> Q) (d : Data) (ctx : Context)
    (s s' : State) :
  rounding_wf rnd -> availability_wf d ->
  Double.addLazyConstraints rnd d ctx s = Ok s' ->
  let xs0 := fill_x d (getCandidatePoint ctx) (xSol s) in
  (forall k i v,
     xSol s' k i v <> xs0 k i v ->
     xSol s' k i v = 1
     /\ double_assigned rnd (xs0 k i v) = false
     /\ running_product rnd (snd (double_lifted rnd d xs0 k))
                        (snd (double_selection rnd d xs0 k))
        < getAvailability d k
     /\ chain_availability d k (double_row_asg rnd (xSol s' k))
        < getAvailability d k + rounding_error d k)
  /\ exists cuts,
       host s' = host s ++ map rejectCandidate cuts
       /\ forall cut, In cut cuts ->
            getLB cut = 1 /\ getUB cut = None
            /\ exists k, (k < getNbDemands d)%nat
                 /\ forall S : nat -> nat -> nat -> bool,
                      getAvailability d k + rounding_error d k
                      <= chain_availability d k (S k) ->
                      1 <= eval_expr (val_of S) (getExpr cut).
Proof.
  intros Hrnd Hwf Hrun xs0.
  destruct (double_addLazyConstraints_Ok rnd d ctx s s' Hrun) as [Hid Hcp].
  rewrite (double_addLazyConstraints_eq rnd d ctx s Hid Hcp) in Hrun. injection Hrun as <-.
  set (s0 := set_xSol (fill_x d (getCandidatePoint ctx) (xSol s)) s).
  destruct (double_lazy_fold_effect rnd d (seq 0 (getNbDemands d)) (seq_NoDup _ _) s0)
    as (F1 & F2 & F3 & _).
  change (xSol s0) with xs0 in F1, F2, F3. change (host s0) with (host s) in F3.
  split.
  - intros k i v Hneq.
    destruct (in_dec Nat.eq_dec k (seq 0 (getNbDemands d))) as [Hin|Hnin];
      [|exfalso; apply Hneq; now rewrite (F1 k Hnin)].
    rewrite (F2 k Hin) in *. unfold double_checked_row, double_violated in *.
    destruct (Qltb (fst (double_selection rnd d xs0 k)) (getAvailability d k)) eqn:E;
      [|exfalso; now apply Hneq].
    apply Qltb_lt in E.
    destruct (double_lift_inv_lifted rnd Hrnd d Hwf xs0 k E) as [_ Hraised].
    destruct (Hraised i v) as [Heq|[H1 H0]]; [contradiction|].
    split; [exact H1|]. split; [exact H0|].
    destruct (double_nogood_sound rnd d xs0 k Hrnd Hwf E) as (N1 & N2 & _).
    split; assumption.
  - exists (flat_map (double_emitted rnd d xs0) (seq 0 (getNbDemands d))).
    split; [exact F3|].
    intros cut Hcut. apply in_flat_map in Hcut. destruct Hcut as (k & Hk & Hcut).
    apply in_seq in Hk. unfold double_emitted, double_violated in Hcut.
    destruct (Qltb (fst (double_selection rnd d xs0 k)) (getAvailability d k)) eqn:E;
      [|destruct Hcut].
    destruct Hcut as [<-|[]]. apply Qltb_lt in E.
    split; [reflexivity|]. split; [reflexivity|].
    exists k. split; [lia|].
    intros S HS. apply (double_nogood_sound rnd d xs0 k Hrnd Hwf E). exact HS.
Qed.

Lemma lifted_nogood_sound_witness :
  exists s' cuts,
    Double.addLazyConstraints binary64 (double_sample (99 # 100)) sample_candidate
      (Callback sample_libc (double_sample (99 # 100)) 0) = Ok s'
    /\ host s' = host (Callback sample_libc (double_sample (99 # 100)) 0)
                 ++ map rejectCandidate cuts.
Proof.
  destruct (Double.addLazyConstraints binary64 (double_sample (99 # 100)) sample_candidate
              (Callback sample_libc (double_sample (99 # 100)) 0))
    as [s'|e| |] eqn:E.
  - destruct (proj2 (lifted_nogood_sound binary64 (double_sample (99 # 100))
                       sample_candidate _ s' binary64_rounding_wf (double_sample_wf _) E))
      as (cuts & Hc & _).
    exists s', cuts. split; [reflexivity|exact Hc].
  - vm_compute in E. discriminate.
  - vm_compute in E. discriminate.
  - vm_compute in E. discriminate.
Defined.

(** * Further properties *)

(** ** Reading the snapshot from the context *)

Lemma fill_x_out_of_range d point xs k i v :
  ~ ((k < getNbDemands d)%nat /\ (i < getNbVNFs d k)%nat /\ In v (nodes d)) ->
  fill_x d point xs k i v = xs k i v.
Proof.
  intros Hout.
  set (T := flat_map (fun k => flat_map (fun i => map (fun v => (k, i, v)) (nodes d))
                                        (seq 0 (getNbVNFs d k)))
                     (seq 0 (getNbDemands d))).
  set (step := fun (xs : nat -> nat -> nat -> Q) (t : nat * nat * nat) =>
                 upd3 xs (fst (fst t)) (snd (fst t)) (snd t)
                      (point (x_var (fst (fst t)) (snd (fst t)) (snd t)))).
  assert (E : fill_x d point xs = fold_left step T xs).
  { unfold fill_x, T. rewrite fold_left_flat_map.
    apply fold_left_ext. intros xs' k'. rewrite fold_left_flat_map.
    apply fold_left_ext. intros xs'' i'. rewrite fold_left_map. reflexivity. }
  assert (HT : ~ In (k, i, v) T).
  { unfold T. intros Hin. apply Hout.
    apply in_flat_map in Hin. destruct Hin as (k' & Hk' & Hin).
    apply in_flat_map in Hin. destruct Hin as (i' & Hi' & Hin).
    apply in_map_iff in Hin. destruct Hin as (v' & [= -> -> ->] & Hv').
    apply in_seq in Hk'. apply in_seq in Hi'. repeat split; auto; lia. }
  rewrite E. clear E. revert xs HT. generalize T. clear T.
  induction T as [|t T IH]; intros xs Hnin; [reflexivity|].
  cbn [fold_left]. rewrite IH by (intros Hin; apply Hnin; now right).
  unfold step. apply upd3_other. intros E. apply Hnin. left.
  destruct t as [[a b] c]. simpl in E. congruence.
Qed.

Lemma snapshot_of_fill d point s :
  snapshot_of d point s (set_xSol (fill_x d point (xSol s)) s).
Proof.
  unfold snapshot_of. simpl. repeat split; auto.
  - intros k i v Hk Hi Hv. now apply fill_x_in_range.
  - intros k i v Hout. now apply fill_x_out_of_range.
Qed.

(** X1.  getIntegerSolution (on a candidate point) and getFractionalSolution
    (on a relaxation) overwrite exactly the entries [xSol[k][i][v]] of the
    demands, sections and nodes of the instance with the values of the
    context, and change nothing else: no other entry of the buffer, no
    counter, no submission. *)
Theorem solution_getters_read_snapshot (d : Data) (ctx : Context) (s s' : State) :
  (getIntegerSolution d ctx s = Ok s' -> snapshot_of d (getCandidatePoint ctx) s s')
  /\ (getFractionalSolution d ctx s = Ok s' -> snapshot_of d (getRelaxationPoint ctx) s s').
Proof.
  split.
  - unfold getIntegerSolution. destruct (getId ctx); try discriminate.
    destruct (isCandidatePoint ctx); [|discriminate].
    intros [= <-]. apply snapshot_of_fill.
  - unfold getFractionalSolution. destruct (getId ctx); try discriminate.
    intros [= <-]. apply snapshot_of_fill.
Qed.

Lemma solution_getters_read_snapshot_witness :
  snapshot_of (sample (99 # 100)) (getCandidatePoint sample_candidate)
    (Callback sample_libc (sample (99 # 100)) 0)
    (set_xSol (fill_x (sample (99 # 100)) (getCandidatePoint sample_candidate)
                      (xSol (Callback sample_libc (sample (99 # 100)) 0)))
              (Callback sample_libc (sample (99 # 100)) 0))
  /\ snapshot_of (sample (99 # 100)) (getRelaxationPoint ones_relaxation)
    (Callback sample_libc (sample (99 # 100)) 0)
    (set_xSol (fill_x (sample (99 # 100)) (getRelaxationPoint ones_relaxation)
                      (xSol (Callback sample_libc (sample (99 # 100)) 0)))
              (Callback sample_libc (sample (99 # 100)) 0)).
Proof.
  split.
  - exact (proj1 (solution_getters_read_snapshot (sample (99 # 100)) sample_candidate
                    _ _) eq_refl).
  - exact (proj2 (solution_getters_read_snapshot (sample (99 # 100)) ones_relaxation
                    _ _) eq_refl).
Defined.

(** ** Rejections of addLazyConstraints *)

Lemma Qltb_ext a b r : (a < r <-> b < r) -> Qltb a r = Qltb b r.
Proof.
  intros H. destruct (Qltb a r) eqn:Ea; destruct (Qltb b r) eqn:Eb; try reflexivity.
  - apply Qltb_lt in Ea. apply H in Ea. apply Qltb_lt in Ea. congruence.
  - apply Qltb_lt in Eb. apply H in Eb. apply Qltb_lt in Eb. congruence.
Qed.

Lemma emitted_violated `{StdSort} d xs l :
  availability_wf d ->
  flat_map (emitted d xs) l
  = map (nogood d xs)
        (filter (fun k => Qltb (chain_availability d k (row_asg (xs k)))
                               (getAvailability d k)) l).
Proof.
  intros Hwf. induction l as [|k l IH]; [reflexivity|].
  cbn [flat_map filter]. rewrite IH. unfold emitted.
  rewrite (Qltb_ext _ _ _ (select_violation_iff d xs k Hwf)).
  destruct (Qltb _ _); reflexivity.
Qed.

(** ** The rejections of a candidate *)

Lemma double_violated_iff `{StdSort} rnd d xs k :
  double_violated rnd d xs k = true
  <-> exists m, (m <= getNbVNFs d k)%nat
        /\ running_product rnd (double_records rnd d xs k) m < getAvailability d k.
Proof.
  unfold double_violated.
  destruct (double_select_facts rnd d xs k) as (S1 & S2 & S3 & _).
  rewrite Qltb_lt. split.
  - intros Hlt. exists (snd (double_selection rnd d xs k)). split; [exact S1|].
    rewrite <- S2. exact Hlt.
  - intros (m & Hm & Hlt). rewrite S2.
    destruct (Nat.lt_ge_cases m (snd (double_selection rnd d xs k))) as [Hlt'|Hge].
    + exfalso. apply (Qlt_not_le _ _ Hlt). apply S3. exact Hlt'.
    + destruct (Nat.eq_dec m (snd (double_selection rnd d xs k))) as [<-|Hne];
        [exact Hlt|].
      (* the loop stopped before [m]: it stopped below the requirement *)
      destruct (double_select_facts rnd d xs k) as (_ & _ & _ & [S4|S4]).
      * rewrite <- S2. exact S4.
      * exfalso. lia.
Qed.

(** X2.  addLazyConstraints rejects the candidate once for each demand for
    which the running product of the sorted section availabilities, as the
    doubles give it, drops strictly below the required availability, in
    demand order, and counts each rejection; it submits nothing else and
    leaves the matrices of the other demands as read.  A demand whose true
    chain availability is below the requirement by more than the rounding
    error is among them, and a demand whose true chain availability exceeds
    the requirement by the rounding error or more is not. *)
Theorem lazy_rejections_are_the_violated_demands `{StdSort} (rnd : Q -> Q) (d : Data)
    (ctx : Context) (s s' : State) :
  rounding_wf rnd -> availability_wf d ->
  Double.addLazyConstraints rnd d ctx s = Ok s' ->
  let xs0 := fill_x d (getCandidatePoint ctx) (xSol s) in
  host s' = host s ++ map (fun k => rejectCandidate (double_nogood rnd d xs0 k))
                          (double_violated_demands rnd d xs0)
  /\ nbLazyConstraints s'
     = (nbLazyConstraints s + Z.of_nat (length (double_violated_demands rnd d xs0)))%Z
  /\ nbCuts s' = nbCuts s
  /\ (forall k, ~ In k (double_violated_demands rnd d xs0) -> xSol s' k = xs0 k)
  /\ (forall k, In k (double_violated_demands rnd d xs0) <->
        (k < getNbDemands d)%nat
        /\ exists m, (m <= getNbVNFs d k)%nat
             /\ running_product rnd (double_records rnd d xs0 k) m < getAvailability d k)
  /\ (forall k, (k < getNbDemands d)%nat ->
        chain_availability d k (double_row_asg rnd (xs0 k)) + rounding_error d k
        < getAvailability d k ->
        In k (double_violated_demands rnd d xs0))
  /\ (forall k, (k < getNbDemands d)%nat ->
        getAvailability d k + rounding_error d k
        <= chain_availability d k (double_row_asg rnd (xs0 k)) ->
        ~ In k (double_violated_demands rnd d xs0)).
Proof.
  intros Hrnd Hwf Hrun xs0.
  destruct (double_addLazyConstraints_Ok rnd d ctx s s' Hrun) as [Hid Hcp].
  rewrite (double_addLazyConstraints_eq rnd d ctx s Hid Hcp) in Hrun. injection Hrun as <-.
  set (s0 := set_xSol (fill_x d (getCandidatePoint ctx) (xSol s)) s).
  destruct (double_lazy_fold_effect rnd d (seq 0 (getNbDemands d)) (seq_NoDup _ _) s0)
    as (F1 & F2 & F3 & F4 & F5).
  change (xSol s0) with xs0 in F1, F2, F3, F4.
  rewrite (double_emitted_violated rnd d xs0) in F3, F4.
  fold (double_violated_demands rnd d xs0) in F3, F4.
  rewrite map_map in F3. rewrite length_map in F4.
  split; [exact F3|]. split; [exact F4|]. split; [exact F5|].
  split.
  { intros k Hk.
    destruct (in_dec Nat.eq_dec k (seq 0 (getNbDemands d))) as [Hin|Hnin]; [|now apply F1].
    rewrite (F2 k Hin). unfold double_checked_row.
    destruct (double_violated rnd d xs0 k) eqn:E; [|reflexivity].
    exfalso. apply Hk. unfold double_violated_demands. apply filter_In. now split. }
  split.
  { intros k. unfold double_violated_demands. rewrite filter_In, in_seq.
    rewrite double_violated_iff. split; intros [H1 H2]; (split; [lia|exact H2]). }
  split.
  - intros k Hk Hlt. unfold double_violated_demands. apply filter_In.
    split; [apply in_seq; lia|].
    unfold double_violated. apply Qltb_lt.
    apply (double_selection_below rnd Hrnd d Hwf xs0 k Hlt).
  - intros k Hk Hge Hin. unfold double_violated_demands in Hin.
    apply filter_In in Hin. destruct Hin as [_ Hv].
    unfold double_violated in Hv. apply Qltb_lt in Hv.
    apply (Qlt_not_le _ _ Hv).
    apply (double_selection_above rnd Hrnd d Hwf xs0 k Hge).
Qed.

Lemma lazy_rejections_are_the_violated_demands_witness :
  exists s',
    Double.addLazyConstraints binary64 (double_sample (99 # 100)) sample_candidate
      (Callback sample_libc (double_sample (99 # 100)) 0) = Ok s'
    /\ nbCuts s' = nbCuts (Callback sample_libc (double_sample (99 # 100)) 0).
Proof.
  destruct (Double.addLazyConstraints binary64 (double_sample (99 # 100)) sample_candidate
              (Callback sample_libc (double_sample (99 # 100)) 0))
    as [s'|e| |] eqn:E.
  - exists s'. split; [reflexivity|].
    exact (proj1 (proj2 (proj2
             (lazy_rejections_are_the_violated_demands binary64 (double_sample (99 # 100))
                sample_candidate _ s' binary64_rounding_wf (double_sample_wf _) E)))).
  - vm_compute in E. discriminate.
  - vm_compute in E. discriminate.
  - vm_compute in E. discriminate.
Defined.

Lemma sumQ_zero l : (forall x, In x l -> x == 0) -> sumQ l == 0.
Proof.
  induction l as [|x l IH]; intros H; simpl; [reflexivity|].
  rewrite (H x) by now left. rewrite IH; [ring|].
  intros y Hy. apply H. now right.
Qed.

Lemma sorted_section_in_range `{StdSort} d xs k j :
  (j < getNbVNFs d k)%nat ->
  (section (nth j (demand_records d xs k) rec0) < getNbVNFs d k)%nat.
Proof.
  intros Hj.
  assert (Hin : In (section (nth j (demand_records d xs k) rec0)) (seq 0 (getNbVNFs d k))).
  { eapply Permutation_in; [apply (sorted_sections_perm d xs k)|].
    rewrite section_nth_map. apply nth_In.
    unfold demand_records. rewrite sorted_sections_length. exact Hj. }
  apply in_seq in Hin. lia.
Qed.


Lemma sample_candidate_violated :
  In 0%nat (violated_demands (sample (99 # 100))
              (fill_x (sample (99 # 100)) (getCandidatePoint sample_candidate)
                      (xSol (Callback sample_libc (sample (99 # 100)) 0)))).
Proof. vm_compute. left. reflexivity. Defined.


(** ** The counters and the log *)

Lemma count_kind_app p l l' :
  count_kind p (l ++ l') = (count_kind p l + count_kind p l')%Z.
Proof. unfold count_kind. rewrite filter_app, length_app. lia. Qed.

Lemma count_kind_nonneg p l : (0 <= count_kind p l)%Z.
Proof. unfold count_kind. lia. Qed.

Lemma accounted_same P s s' :
  cutPool s' = cutPool s -> host s' = host s -> nbCuts s' = nbCuts s ->
  nbLazyConstraints s' = nbLazyConstraints s ->
  nb_cuts_avail_heuristic s' = nb_cuts_avail_heuristic s ->
  accounted P s s'.
Proof.
  intros H1 H2 H3 H4 H5. exists []. rewrite app_nil_r.
  repeat split; auto; unfold count_kind; simpl; lia.
Qed.

Lemma accounted_refl P s : accounted P s s.
Proof. now apply accounted_same. Qed.

Lemma accounted_trans P s1 s2 s3 :
  accounted P s1 s2 -> accounted P s2 s3 -> accounted P s1 s3.
Proof.
  intros (a & A1 & A2 & A3 & A4 & A5 & A6) (b & B1 & B2 & B3 & B4 & B5 & B6).
  exists (a ++ b). rewrite !count_kind_app.
  repeat split; try congruence; try lia.
  - rewrite B2, A2, app_assoc. reflexivity.
  - apply Forall_app. auto.
Qed.

Lemma accounted_weaken (P P' : HostAction -> bool) s s' :
  (forall a, P a = true -> P' a = true) -> accounted P s s' -> accounted P' s s'.
Proof.
  intros HP (a & A1 & A2 & A3 & A4). exists a. repeat split; try apply A4; auto.
  eapply Forall_impl; [|exact A3]. auto.
Qed.

Lemma accounted_fold {A} P (f : State -> A -> State) :
  (forall s a, accounted P s (f s a)) ->
  forall l s, accounted P s (fold_left f l s).
Proof.
  intros Hf. induction l as [|a l IH]; intros s; simpl.
  - apply accounted_refl.
  - eapply accounted_trans; [apply Hf|apply IH].
Qed.

Lemma accounted_user_cut s cut :
  accounted is_user_cut s (incrementUsercuts (submit (addUserCut cut) s)).
Proof.
  exists [addUserCut cut]. unfold count_kind. simpl.
  repeat split; auto; lia.
Qed.

Lemma accounted_add_cuts cs s : accounted is_user_cut s (add_cuts cs s).
Proof.
  unfold add_cuts. apply accounted_fold. intros s' cut. apply accounted_user_cut.
Qed.

Lemma accounted_checkCutPool ctx s : accounted is_user_cut s (snd (checkCutPool ctx s)).
Proof. rewrite checkCutPool_eq. apply accounted_add_cuts. Qed.

Lemma accounted_generalizedCoverSeparation d s :
  accounted is_user_cut s (generalizedCoverSeparation d s).
Proof.
  unfold generalizedCoverSeparation. destruct (gen_search d (xSol s)).
  - apply accounted_user_cut.
  - apply accounted_refl.
Qed.

Lemma accounted_chainCover_demand d k s : accounted is_user_cut s (chainCover_demand d k s).
Proof.
  unfold chainCover_demand. generalize (seq 1 (getNbVNFs d k)). intros l.
  induction l as [|nb l IH]; cbn zeta.
  - apply accounted_refl.
  - destruct (Qltb _ _); [apply accounted_user_cut|exact IH].
Qed.

Lemma accounted_chainCoverSeparation d s :
  accounted is_user_cut s (chainCoverSeparation d s).
Proof.
  unfold chainCoverSeparation. apply accounted_fold. intros s' k.
  apply accounted_chainCover_demand.
Qed.

Lemma accounted_heurSeparation_demand d fuel k s s' :
  heurSeparation_demand d fuel k s = Ok s' -> accounted is_user_cut s s'.
Proof.
  unfold heurSeparation_demand.
  destruct (initiateHeuristic d k (xSol s)) as [h| | |]; simpl; try discriminate.
  destruct (Qltb _ _).
  - destruct (heur_while _ _ _ _ _ _ _ _) as [h'| | |]; simpl; try discriminate.
    destruct (Qltb _ _); intros [= <-].
    + eexists [addUserCut _]. unfold count_kind. simpl. repeat split; auto; lia.
    + apply accounted_refl.
  - intros [= <-]. apply accounted_refl.
Qed.

Lemma accounted_for_each P (body : nat -> State -> Result State) :
  (forall a s s', body a s = Ok s' -> accounted P s s') ->
  forall l s s', for_each body l s = Ok s' -> accounted P s s'.
Proof.
  intros Hb. induction l as [|a l IH]; intros s s'; simpl.
  - intros [= <-]. apply accounted_refl.
  - destruct (body a s) as [s1| | |] eqn:E; simpl; try discriminate.
    intros H. eapply accounted_trans; [eapply Hb, E|apply IH, H].
Qed.

Lemma accounted_addUserCuts d fuel ctx s s' :
  addUserCuts d fuel ctx s = Ok s' -> accounted is_user_cut s s'.
Proof.
  unfold addUserCuts, getFractionalSolution.
  destruct (getId ctx); simpl; try discriminate.
  set (s0 := set_xSol _ s).
  assert (H0 : accounted is_user_cut s s0) by (now apply accounted_same).
  pose proof (accounted_checkCutPool ctx s0) as H1.
  destruct (checkCutPool ctx s0) as [found s1]. cbn [snd] in H1.
  assert (H01 : accounted is_user_cut s s1) by exact (accounted_trans _ _ _ _ H0 H1).
  destruct found; [intros [= <-]; exact H01|].
  assert (H2 : accounted is_user_cut s
                 (if getChainCover (getInput d)
                  then chainCoverSeparation d (generalizedCoverSeparation d s1) else s1)).
  { destruct (getChainCover (getInput d)); [|exact H01].
    eapply accounted_trans; [exact H01|].
    eapply accounted_trans;
      [apply accounted_generalizedCoverSeparation|apply accounted_chainCoverSeparation]. }
  destruct (getAvailabilityUsercuts (getInput d)).
  - intros H. eapply accounted_trans; [exact H2|].
    eapply accounted_for_each; [|exact H].
    intros a x x'. apply accounted_heurSeparation_demand.
  - intros [= <-]. exact H2.
Qed.

Lemma accounted_draw P L s : accounted P s (snd (draw L s)).
Proof. unfold draw. destruct (rand L (rng s)). now apply accounted_same. Qed.

Lemma accounted_heuristicRule P L d ctx s : accounted P s (snd (heuristicRule L d ctx s)).
Proof.
  unfold heuristicRule.
  destruct (getApproximationType (getInput d)); try apply accounted_refl.
  pose proof (accounted_draw P L s) as H.
  destruct (draw L s) as [RND s']. exact H.
Qed.

Lemma accounted_phaseI_place P L d ctx v f s : accounted P s (phaseI_place L d ctx v f s).
Proof.
  unfold phaseI_place. pose proof (accounted_draw P L s) as H.
  destruct (draw L s) as [RND s']. cbn [snd] in H.
  destruct (Qle_bool _ _); (eapply accounted_trans; [exact H|now apply accounted_same]).
Qed.

Lemma accounted_phaseI_assign P L d ctx v k i s :
  accounted P s (phaseI_assign L d ctx v k i s).
Proof.
  unfold phaseI_assign.
  destruct (_ && _); [|now apply accounted_same].
  pose proof (accounted_draw P L s) as H.
  destruct (draw L s) as [RND s']. cbn [snd] in H.
  destruct (Qle_bool _ _); (eapply accounted_trans; [exact H|now apply accounted_same]).
Qed.

Lemma accounted_Phase_I P L d ctx s : accounted P s (runHeuristic_Phase_I L d ctx s).
Proof.
  unfold runHeuristic_Phase_I.
  eapply accounted_trans; [|apply accounted_fold].
  - eapply accounted_trans; [|apply accounted_fold].
    + now apply accounted_same.
    + intros s' v. apply accounted_fold. intros s'' f. apply accounted_phaseI_place.
  - intros s' v. unfold phaseI_node.
    eapply accounted_trans; [|apply accounted_fold].
    + now apply accounted_same.
    + intros s'' k. apply accounted_fold. intros s3 i. apply accounted_phaseI_assign.
Qed.

Lemma accounted_phaseII_install P d k i v s : accounted P s (phaseII_install d k i v s).
Proof. unfold phaseII_install. destruct (Qeq_bool _ _); now apply accounted_same. Qed.

Lemma accounted_phaseII_while P d k fuel s r :
  phaseII_while d k fuel s = Ok r -> accounted P s (snd r).
Proof.
  revert s. induction fuel as [|fuel IH]; intros s; simpl; [discriminate|].
  destruct (getSolutionAvail_k d (xSol s) k) as [avail least].
  destruct (Qltb _ _).
  - destruct least as [i|]; [|discriminate].
    destruct (getNodeToInstall _ _ _ _) as [v|].
    + intros H. eapply accounted_trans; [apply accounted_phaseII_install|apply IH, H].
    + intros [= <-]. apply accounted_refl.
  - intros [= <-]. apply accounted_refl.
Qed.

Lemma accounted_phaseII_demands P d fuel l s r :
  phaseII_demands d fuel l s = Ok r -> accounted P s (snd r).
Proof.
  revert s. induction l as [|k l IH]; intros s; simpl.
  - intros [= <-]. apply accounted_refl.
  - destruct (phaseII_while d k fuel s) as [r1| | |] eqn:E; simpl; try discriminate.
    apply (accounted_phaseII_while P) in E.
    destruct (fst r1).
    + intros H. eapply accounted_trans; [exact E|apply IH, H].
    + intros [= <-]. exact E.
Qed.

Lemma accounted_insertHeuristicSolution d s :
  accounted is_posting s (insertHeuristicSolution d s).
Proof.
  unfold insertHeuristicSolution. eexists [postHeuristicSolution _ _ _].
  unfold count_kind. simpl. repeat split; auto; lia.
Qed.

Lemma accounted_runHeuristic L d fuel ctx s s' :
  runHeuristic L d fuel ctx s = Ok s' -> accounted is_posting s s'.
Proof.
  unfold runHeuristic.
  destruct (negb (getHeuristic (getInput d))).
  { intros [= <-]. apply accounted_refl. }
  pose proof (accounted_heuristicRule is_posting L d ctx s) as Hrule.
  destruct (heuristicRule L d ctx s) as [go s1]. cbn [snd] in Hrule.
  destruct (negb go).
  { now intros [= <-]. }
  pose proof (accounted_Phase_I is_posting L d ctx s1) as HI.
  destruct (runHeuristic_Phase_II d fuel (runHeuristic_Phase_I L d ctx s1))
    as [r| | |] eqn:E; simpl; try discriminate.
  apply (accounted_phaseII_demands is_posting) in E.
  destruct r as [isFeasible s2]. cbn [snd] in E.
  assert (H2 : accounted is_posting s s2).
  { eapply accounted_trans; [exact Hrule|].
    eapply accounted_trans; [exact HI|exact E]. }
  destruct (_ && _); intros [= <-]; [|exact H2].
  eapply accounted_trans; [exact H2|apply accounted_insertHeuristicSolution].
Qed.

Lemma accounted_lazy_demand `{StdSort} d s k : accounted is_rejection s (lazy_demand d s k).
Proof.
  destruct (lazy_demand_cases d s k) as [[_ ->]|[_ ->]].
  - apply accounted_refl.
  - eexists [rejectCandidate _]. unfold count_kind. simpl. repeat split; auto; lia.
Qed.

Lemma accounted_addLazyConstraints `{StdSort} d ctx s s' :
  addLazyConstraints d ctx s = Ok s' -> accounted is_rejection s s'.
Proof.
  intros Hrun.
  destruct (addLazyConstraints_Ok d ctx s s' Hrun) as [Hid Hcp].
  rewrite (addLazyConstraints_eq d ctx s Hid Hcp) in Hrun. injection Hrun as <-.
  eapply accounted_trans; [|apply accounted_fold; intros; apply accounted_lazy_demand].
  now apply accounted_same.
Qed.

(** What one invocation submits, by kind of event. *)
Lemma accounted_invoke `{StdSort} L d fuel ctx s s' :
  invoke L d fuel ctx s = Ok s' ->
  (getId ctx = Relaxation /\ accounted (fun a => negb (is_rejection a)) s s')
  \/ (getId ctx = Candidate /\ accounted is_rejection s s').
Proof.
  unfold invoke. destruct (getId ctx); simpl; try discriminate.
  - intros Hinv. right. split; [reflexivity|]. revert Hinv.
    destruct (isCandidatePoint ctx).
    + destruct (addLazyConstraints d ctx s) as [s1| | |] eqn:E; simpl; try discriminate.
      intros [= <-]. apply accounted_addLazyConstraints in E.
      eapply accounted_trans; [exact E|now apply accounted_same].
    + simpl. intros [= <-]. now apply accounted_same.
  - intros Hinv. left. split; [reflexivity|]. revert Hinv.
    destruct (addUserCuts d fuel ctx s) as [s1| | |] eqn:E; simpl; try discriminate.
    apply accounted_addUserCuts in E.
    apply (accounted_weaken _ (fun a => negb (is_rejection a))) in E;
      [|intros [c|c|vars vals o]; simpl; congruence].
    destruct (Z.eqb _ _).
    + destruct (runHeuristic L d fuel ctx s1) as [s2| | |] eqn:E2; simpl; try discriminate.
      intros [= <-]. apply accounted_runHeuristic in E2.
      apply (accounted_weaken _ (fun a => negb (is_rejection a))) in E2;
        [|intros [c|c|vars vals o]; simpl; congruence].
      eapply accounted_trans; [exact E|].
      eapply accounted_trans; [exact E2|now apply accounted_same].
    + simpl. intros [= <-].
      eapply accounted_trans; [exact E|now apply accounted_same].
Qed.

Lemma count_kind_none (P p : HostAction -> bool) l :
  (forall a, P a = true -> p a = false) ->
  Forall (fun a => P a = true) l -> count_kind p l = 0%Z.
Proof.
  intros HP Hall. unfold count_kind.
  induction Hall as [|a l Ha Hall IH]; [reflexivity|].
  simpl. rewrite (HP a Ha). exact IH.
Qed.

(** X4.  What one invocation hands to the solver depends on the kind of the
    event.  On a relaxation event it submits user cuts and heuristic
    solutions but never a rejection, and the counter of lazy constraints
    stays; on a candidate event it submits rejections only, and the counters
    of user cuts stay.  The pool is the same after the invocation. *)
Theorem invoke_submissions_by_event `{StdSort} (L : Libc) (d : Data) (fuel : nat)
    (ctx : Context) (s s' : State) :
  invoke L d fuel ctx s = Ok s' ->
  exists added,
    host s' = host s ++ added
    /\ cutPool s' = cutPool s
    /\ (getId ctx = Relaxation ->
        Forall (fun a => is_rejection a = false) added
        /\ nbLazyConstraints s' = nbLazyConstraints s)
    /\ (getId ctx = Candidate ->
        Forall (fun a => is_rejection a = true) added
        /\ nbCuts s' = nbCuts s
        /\ nb_cuts_avail_heuristic s' = nb_cuts_avail_heuristic s).
Proof.
  intros Hinv.
  destruct (accounted_invoke L d fuel ctx s s' Hinv)
    as [[Hid (added & A1 & A2 & A3 & A4 & A5 & A6)]
       |[Hid (added & A1 & A2 & A3 & A4 & A5 & A6)]];
    exists added; (split; [exact A2|]); (split; [exact A1|]).
  - split; intros Hid'; [|rewrite Hid in Hid'; discriminate]. split.
    + eapply Forall_impl; [|exact A3]. intros a Ha. now apply negb_true_iff in Ha.
    + rewrite A5, (count_kind_none (fun a => negb (is_rejection a)) is_rejection added); auto.
      * lia.
      * intros a Ha. now apply negb_true_iff in Ha.
  - split; intros Hid'; [rewrite Hid in Hid'; discriminate|].
    assert (E0 : count_kind is_user_cut added = 0%Z).
    { apply (count_kind_none is_rejection); auto. intros [c|c|vars vals o]; simpl; congruence. }
    rewrite E0 in A4, A6. repeat split; auto; lia.
Qed.

Lemma invoke_submissions_by_event_witness :
  exists s' added,
    invoke sample_libc (sample (99 # 100)) 10 sample_candidate
           (Callback sample_libc (sample (99 # 100)) 0) = Ok s'
    /\ host s' = host (Callback sample_libc (sample (99 # 100)) 0) ++ added.
Proof.
  destruct (invoke sample_libc (sample (99 # 100)) 10 sample_candidate
                   (Callback sample_libc (sample (99 # 100)) 0))
    as [s'|e| |] eqn:E.
  - destruct (invoke_submissions_by_event sample_libc (sample (99 # 100)) 10
                sample_candidate _ s' E) as (added & Ha & _).
    exists s', added. split; [reflexivity|exact Ha].
  - vm_compute in E. discriminate.
  - vm_compute in E. discriminate.
  - vm_compute in E. discriminate.
Defined.

Lemma accounted_run_events `{StdSort} L d fuel events s s' :
  run_events L d fuel events s = Ok s' -> accounted (fun _ => true) s s'.
Proof.
  revert s. induction events as [|ctx events IH]; intros s; simpl.
  - intros [= <-]. apply accounted_refl.
  - destruct (invoke L d fuel ctx s) as [s1| | |] eqn:E; simpl; try discriminate.
    intros Hrest. eapply accounted_trans; [|apply IH, Hrest].
    destruct (accounted_invoke L d fuel ctx s s1 E) as [[_ A]|[_ A]];
      eapply accounted_weaken; try exact A; auto.
Qed.

(** X5.  After any run of events that returns, the counters agree with what
    was submitted: nbCuts is the number of user cuts handed to the solver,
    nbLazyConstraints the number of rejections, the counter of greedy
    availability cuts lies between 0 and nbCuts, and the pool is still the
    one built by the constructor. *)
Theorem counters_agree_with_log `{StdSort} (L : Libc) (d : Data) (fuel : nat)
    (rng_before : Z) (events : list Context) (s' : State) :
  run L d fuel rng_before events = Ok s' ->
  nbCuts s' = count_kind is_user_cut (host s')
  /\ nbLazyConstraints s' = count_kind is_rejection (host s')
  /\ (0 <= nb_cuts_avail_heuristic s' <= nbCuts s')%Z
  /\ cutPool s' = setCutPool L d [].
Proof.
  intros Hrun. unfold run in Hrun. apply accounted_run_events in Hrun.
  destruct Hrun as (added & A1 & A2 & _ & A4 & A5 & A6).
  simpl in A1, A2, A4, A5, A6. rewrite A2.
  repeat split; auto; lia.
Qed.

Lemma counters_agree_with_log_witness :
  exists s',
    run sample_libc (sample (97 # 100)) 10 0 [zero_relaxation; ones_relaxation] = Ok s'
    /\ nbCuts s' = count_kind is_user_cut (host s').
Proof.
  destruct (run sample_libc (sample (97 # 100)) 10 0 [zero_relaxation; ones_relaxation])
    as [s'|e| |] eqn:E.
  - exists s'. split; [reflexivity|].
    exact (proj1 (counters_agree_with_log sample_libc (sample (97 # 100)) 10 0 _ s' E)).
  - vm_compute in E. discriminate.
  - vm_compute in E. discriminate.
  - vm_compute in E. discriminate.
Defined.

(** ** The families of the pool *)

Lemma addVnfLowerBoundConstraints_eq d pool :
  addVnfLowerBoundConstraints d pool =
  pool ++ flat_map (fun k =>
            if Z.ltb (Z.of_nat (getNbVNFs d k) * getVnfLB d (getAvailability d k) 1)
                     (getVnfLB d (getAvailability d k) (getNbVNFs d k))
            then [vnfLowerBoundCut d k] else [])
          (seq 0 (getNbDemands d)).
Proof.
  unfold addVnfLowerBoundConstraints. apply fold_left_app_flat_map. intros p k.
  cbn zeta. destruct (Z.ltb _ _); [reflexivity|now rewrite app_nil_r].
Qed.

Lemma addSectionFailureConstraints_eq L d pool :
  addSectionFailureConstraints L d pool =
  pool ++ flat_map (fun k => map (sectionFailureCut L d k) (seq 0 (getNbVNFs d k)))
                   (seq 0 (getNbDemands d)).
Proof.
  unfold addSectionFailureConstraints. apply fold_left_app_flat_map. intros p k.
  rewrite (fold_left_app_flat_map _ (fun i => [sectionFailureCut L d k i]))
    by (intros; reflexivity).
  apply (f_equal (app p)). generalize (seq 0 (getNbVNFs d k)). intros l.
  induction l as [|i l IH]; simpl; [reflexivity|now rewrite IH].
Qed.

Lemma in_setCutPool L d cut :
  In cut (setCutPool L d []) <->
  (getNodeCover (getInput d) = true
   /\ exists k i v, (k < getNbDemands d)%nat /\ (i < getNbVNFs d k)%nat /\ In v (nodes d)
        /\ cover_emitted d k v = true /\ cut = nodeCoverCut d (cover_c d k) k i v)
  \/ (getVnfLowerBoundCuts (getInput d) = true
      /\ exists k, (k < getNbDemands d)%nat
           /\ (Z.of_nat (getNbVNFs d k) * getVnfLB d (getAvailability d k) 1
               < getVnfLB d (getAvailability d k) (getNbVNFs d k))%Z
           /\ cut = vnfLowerBoundCut d k)
  \/ (getSectionFailureCuts (getInput d) = true
      /\ exists k i, (k < getNbDemands d)%nat /\ (i < getNbVNFs d k)%nat
           /\ cut = sectionFailureCut L d k i).
Proof.
  unfold setCutPool.
  assert (H3 : forall pool,
            In cut (if getSectionFailureCuts (getInput d)
                    then addSectionFailureConstraints L d pool else pool) <->
            In cut pool
            \/ (getSectionFailureCuts (getInput d) = true
                /\ exists k i, (k < getNbDemands d)%nat /\ (i < getNbVNFs d k)%nat
                     /\ cut = sectionFailureCut L d k i)).
  { intros pool. destruct (getSectionFailureCuts (getInput d)).
    - rewrite addSectionFailureConstraints_eq, in_app_iff, in_flat_map.
      split; (intros [Hp|Hs]; [now left|right]).
      + destruct Hs as (k & Hk & Hi). apply in_map_iff in Hi. destruct Hi as (i & <- & Hi).
        apply in_seq in Hk. apply in_seq in Hi. split; [reflexivity|].
        exists k, i. repeat split; lia.
      + destruct Hs as (_ & k & i & Hk & Hi & ->). exists k. split; [apply in_seq; lia|].
        apply in_map. apply in_seq. lia.
    - split; [now left|]. intros [Hp|[Hf _]]; [assumption|discriminate]. }
  assert (H2 : forall pool,
            In cut (if getVnfLowerBoundCuts (getInput d)
                    then addVnfLowerBoundConstraints d pool else pool) <->
            In cut pool
            \/ (getVnfLowerBoundCuts (getInput d) = true
                /\ exists k, (k < getNbDemands d)%nat
                     /\ (Z.of_nat (getNbVNFs d k) * getVnfLB d (getAvailability d k) 1
                         < getVnfLB d (getAvailability d k) (getNbVNFs d k))%Z
                     /\ cut = vnfLowerBoundCut d k)).
  { intros pool. destruct (getVnfLowerBoundCuts (getInput d)).
    - rewrite addVnfLowerBoundConstraints_eq, in_app_iff, in_flat_map.
      split; (intros [Hp|Hs]; [now left|right]).
      + destruct Hs as (k & Hk & Hin). apply in_seq in Hk.
        destruct (Z.ltb _ _) eqn:E; [|destruct Hin].
        destruct Hin as [<-|[]]. apply Z.ltb_lt in E. split; [reflexivity|].
        exists k. repeat split; auto; lia.
      + destruct Hs as (_ & k & Hk & Hlt & ->). exists k. split; [apply in_seq; lia|].
        apply Z.ltb_lt in Hlt. rewrite Hlt. now left.
    - split; [now left|]. intros [Hp|[Hf _]]; [assumption|discriminate]. }
  rewrite H3, H2.
  destruct (getNodeCover (getInput d)).
  - rewrite in_node_cover_pool. intuition.
  - simpl. intuition discriminate.
Qed.

Lemma pool_cut_no_upper_bound L d cut : In cut (setCutPool L d []) -> getUB cut = None.
Proof.
  intros Hin. apply in_setCutPool in Hin.
  destruct Hin as [(_ & k & i & v & _ & _ & _ & _ & ->)
                  |[(_ & k & _ & _ & ->)|(_ & k & i & _ & _ & ->)]]; reflexivity.
Qed.

(** X6.  The pool built by setCutPool holds the cuts of a family only when
    the parameter of the family is on: a cut of the pool is a node-cover cut
    of some demand, section and node, a vnf lower bound cut of some demand
    or a section failure cut of some demand and section, with the
    corresponding parameter set.  No cut of the pool has an upper bound, and
    with the three parameters off the pool is empty. *)
Theorem pool_families_follow_parameters (L : Libc) (d : Data) :
  (forall cut, In cut (setCutPool L d []) ->
     getUB cut = None
     /\ ((getNodeCover (getInput d) = true
          /\ exists k i v, (k < getNbDemands d)%nat /\ (i < getNbVNFs d k)%nat
               /\ In v (nodes d) /\ getName cut = NodeCover k i v)
         \/ (getVnfLowerBoundCuts (getInput d) = true
             /\ exists k, (k < getNbDemands d)%nat /\ getName cut = VNF_LowerBound k)
         \/ (getSectionFailureCuts (getInput d) = true
             /\ exists k i, (k < getNbDemands d)%nat /\ (i < getNbVNFs d k)%nat
                  /\ getName cut = Section_Fail k i)))
  /\ (getNodeCover (getInput d) = false ->
      getVnfLowerBoundCuts (getInput d) = false ->
      getSectionFailureCuts (getInput d) = false ->
      setCutPool L d [] = []).
Proof.
  split.
  - intros cut Hin. split; [eapply pool_cut_no_upper_bound, Hin|].
    apply in_setCutPool in Hin.
    destruct Hin as [(Hf & k & i & v & Hk & Hi & Hv & _ & ->)
                    |[(Hf & k & Hk & _ & ->)|(Hf & k & i & Hk & Hi & ->)]].
    + left. split; [exact Hf|]. exists k, i, v. auto.
    + right. left. split; [exact Hf|]. exists k. auto.
    + right. right. split; [exact Hf|]. exists k, i. auto.
  - intros H1 H2 H3. unfold setCutPool. now rewrite H1, H2, H3.
Qed.

Lemma pool_families_follow_parameters_witness :
  getUB (nodeCoverCut (sample (97 # 100)) (cover_c (sample (97 # 100)) 0) 0 0 1) = None.
Proof.
  exact (proj1 (proj1 (pool_families_follow_parameters sample_libc (sample (97 # 100)))
                  (nodeCoverCut (sample (97 # 100)) (cover_c (sample (97 # 100)) 0) 0 0 1)
                  (or_introl eq_refl))).
Defined.

(** ** Checking the pool built by the constructor *)

Lemma add_cuts_xSol cs s : xSol (add_cuts cs s) = xSol s.
Proof.
  revert s. induction cs as [|c cs IH]; intros s; [reflexivity|].
  unfold add_cuts in *. cbn [fold_left]. now rewrite IH.
Qed.

Lemma existsb_filter_nonempty {A} (p : A -> bool) l :
  existsb p l = true <-> filter p l <> [].
Proof.
  induction l as [|a l IH]; simpl.
  - split; [discriminate|congruence].
  - destruct (p a); simpl; [split; [discriminate|reflexivity]|exact IH].
Qed.

(** ** The vnf lower bound cuts *)

(** X8.  The pool family of vnf lower bound cuts holds a cut for demand [k]
    exactly when the bound for the whole chain exceeds the number of
    sections times the bound for a single section; that cut asks the sum of
    all the variables [x[k,i,v]] of the demand, each with coefficient 1, to
    reach the bound for the whole chain. *)
Theorem vnf_lower_bound_cut_emitted_iff (d : Data) (k : nat) :
  (k < getNbDemands d)%nat ->
  ((exists cut, In cut (addVnfLowerBoundConstraints d [])
                /\ getName cut = VNF_LowerBound k)
   <-> (Z.of_nat (getNbVNFs d k) * getVnfLB d (getAvailability d k) 1
        < getVnfLB d (getAvailability d k) (getNbVNFs d k))%Z)
  /\ (forall cut, In cut (addVnfLowerBoundConstraints d []) ->
        getName cut = VNF_LowerBound k ->
        getLB cut = inject_Z (getVnfLB d (getAvailability d k) (getNbVNFs d k))
        /\ getUB cut = None
        /\ forall c x, In (c, x) (getExpr cut) <->
             c = 1 /\ exists i v, (i < getNbVNFs d k)%nat /\ In v (nodes d)
                                  /\ x = x_var k i v).
Proof.
  intros Hk.
  assert (Hin : forall cut, In cut (addVnfLowerBoundConstraints d []) <->
            exists k', (k' < getNbDemands d)%nat
              /\ (Z.of_nat (getNbVNFs d k') * getVnfLB d (getAvailability d k') 1
                  < getVnfLB d (getAvailability d k') (getNbVNFs d k'))%Z
              /\ cut = vnfLowerBoundCut d k').
  { intros cut. rewrite addVnfLowerBoundConstraints_eq. simpl. rewrite in_flat_map. split.
    - intros (k' & Hk' & H). apply in_seq in Hk'.
      destruct (Z.ltb _ _) eqn:E; [|destruct H]. destruct H as [<-|[]].
      apply Z.ltb_lt in E. exists k'. repeat split; auto; lia.
    - intros (k' & Hk' & Hlt & ->). exists k'. split; [apply in_seq; lia|].
      apply Z.ltb_lt in Hlt. rewrite Hlt. now left. }
  split.
  - split.
    + intros (cut & Hc & Hname). apply Hin in Hc. destruct Hc as (k' & _ & Hlt & ->).
      simpl in Hname. injection Hname as ->. exact Hlt.
    + intros Hlt. exists (vnfLowerBoundCut d k). split; [|reflexivity].
      apply Hin. exists k. auto.
  - intros cut Hc Hname. apply Hin in Hc. destruct Hc as (k' & _ & _ & ->).
    simpl in Hname. injection Hname as ->. split; [reflexivity|]. split; [reflexivity|].
    intros c x. simpl. rewrite in_flat_map. split.
    + intros (i & Hi & H). apply in_seq in Hi. apply in_map_iff in H.
      destruct H as (v & [= <- <-] & Hv). split; [reflexivity|].
      exists i, v. repeat split; auto; lia.
    + intros (-> & i & v & Hi & Hv & ->). exists i. split; [apply in_seq; lia|].
      apply in_map_iff. exists v. auto.
Qed.

Lemma vnf_lower_bound_cut_emitted_iff_witness :
  (exists cut, In cut (addVnfLowerBoundConstraints (sample (97 # 100)) [])
               /\ getName cut = VNF_LowerBound 0)
  <-> (Z.of_nat (getNbVNFs (sample (97 # 100)) 0)
       * getVnfLB (sample (97 # 100)) (getAvailability (sample (97 # 100)) 0) 1
       < getVnfLB (sample (97 # 100)) (getAvailability (sample (97 # 100)) 0)
                  (getNbVNFs (sample (97 # 100)) 0))%Z.
Proof.
  exact (proj1 (vnf_lower_bound_cut_emitted_iff (sample (97 # 100)) 0 (le_n 1))).
Defined.

(** ** Separation on a relaxation: the pool first *)



(** ** Every submitted user cut separates the relaxation point *)

Lemma Qfold_eq_ext {A} (f f' : Q -> A -> Q) (l : list A) :
  (forall a a' x, In x l -> a == a' -> f a x == f' a' x) ->
  forall a a', a == a' -> fold_left f l a == fold_left f' l a'.
Proof.
  induction l as [|x l IH]; intros H a a' Ha; simpl; [exact Ha|].
  apply IH.
  - intros b b' y Hy. apply H. now right.
  - apply H; [now left|exact Ha].
Qed.

Lemma Qfold_shift {A} (g : A -> Q) (l : list A) (a : Q) :
  fold_left (fun acc x => acc + g x) l a
  == a + fold_left (fun acc x => acc + g x) l 0.
Proof.
  revert a. induction l as [|x l IH]; intros a; simpl; [ring|].
  rewrite (IH (a + g x)), (IH (0 + g x)). ring.
Qed.

Lemma Qfold_flat_map {A B} (g : B -> Q) (f : A -> list B) (l : list A) :
  fold_left (fun acc x => acc + g x) (flat_map f l) 0
  == fold_left (fun acc a => acc + fold_left (fun acc x => acc + g x) (f a) 0) l 0.
Proof.
  induction l as [|a l IH]; simpl; [reflexivity|].
  rewrite fold_left_app.
  rewrite (Qfold_shift g (flat_map f l)), IH.
  rewrite (Qfold_shift (fun a0 => fold_left (fun acc x => acc + g x) (f a0) 0) l (0 + _)).
  ring.
Qed.

Lemma Qfold_nested {A B} (g : A -> B -> Q) (lb : list B) (l : list A) (a : Q) :
  fold_left (fun acc i => fold_left (fun acc v => acc + g i v) lb acc) l a
  == a + fold_left (fun acc i => acc + fold_left (fun acc v => acc + g i v) lb 0) l 0.
Proof.
  revert a. induction l as [|i l IH]; intros a; simpl; [ring|].
  rewrite IH.
  rewrite (Qfold_shift (fun i0 => fold_left (fun acc v => acc + g i0 v) lb 0) l (0 + _)).
  rewrite (Qfold_shift (g i) lb a). ring.
Qed.

Lemma nth_map_seq {A} (F : nat -> A) (N j : nat) (dflt : A) :
  (j < N)%nat -> nth j (map F (seq 0 N)) dflt = F j.
Proof.
  intros Hj.
  rewrite (nth_indep _ dflt (F 0%nat)) by (rewrite length_map, length_seq; lia).
  rewrite (map_nth F), seq_nth by lia. reflexivity.
Qed.

Lemma Qltb_left a b r : a == b -> Qltb a r = Qltb b r.
Proof. intros E. apply Qltb_ext. rewrite E. reflexivity. Qed.

Lemma submitted_with_refl P s : submitted_with P s s.
Proof. exists []. simpl. rewrite app_nil_r. auto. Qed.

Lemma submitted_with_trans P s1 s2 s3 :
  submitted_with P s1 s2 -> submitted_with P s2 s3 -> submitted_with P s1 s3.
Proof.
  intros (c & H1 & F1 & X1) (c' & H2 & F2 & X2). exists (c ++ c'). split; [|split].
  - rewrite H2, H1, map_app, app_assoc. reflexivity.
  - apply Forall_app. auto.
  - congruence.
Qed.

Lemma submitted_with_one (P : IloRange -> Prop) s cut :
  P cut -> submitted_with P s (incrementUsercuts (submit (addUserCut cut) s)).
Proof. intros H. exists [cut]. simpl. auto. Qed.

(** The value at the relaxation point of the terms written for the first [n]
    sections of [sorted] is the sum of their entries of [sums]. *)
Lemma prefix_value d ctx xs k (c : nat -> Q) (sums : list Q) (sorted : list nat) n :
  reads_relaxation d ctx xs -> (k < getNbDemands d)%nat ->
  (forall j, (j < getNbVNFs d k)%nat ->
     nth j sums 0 == fold_left (fun acc v => acc + c v * xs k j v) (nodes d) 0) ->
  (forall i, (i < n)%nat -> (nth i sorted 0 < getNbVNFs d k)%nat) ->
  getRelaxationValue ctx
    (flat_map (fun i => map (fun v => (c v, x_var k (nth i sorted 0%nat) v)) (nodes d))
              (seq 0 n))
  == Qsum (map (fun i => nth (nth i sorted 0%nat) sums 0) (seq 0 n)).
Proof.
  intros Hxs Hk Hsums Hsorted. unfold getRelaxationValue, Qsum.
  rewrite Qfold_flat_map, fold_left_map.
  apply Qfold_eq_ext; [|reflexivity].
  intros a a' i Hi Ha. apply in_seq in Hi. rewrite Ha. apply Qplus_inj_l.
  rewrite Hsums by (apply Hsorted; lia).
  rewrite fold_left_map. simpl.
  apply Qfold_eq_ext; [|reflexivity].
  intros b b' v Hv Hb. rewrite Hb, Hxs; auto; [reflexivity|]. apply Hsorted. lia.
Qed.

Lemma chain_sums_nth d xs k j :
  (j < getNbVNFs d k)%nat ->
  nth j (chain_sums d xs k) 0
  == fold_left (fun acc v => acc + (fun _ => 1) v * xs k j v) (nodes d) 0.
Proof.
  intros Hj. unfold chain_sums. rewrite nth_map_seq by exact Hj.
  unfold Qsum. rewrite fold_left_map.
  apply Qfold_eq_ext; [|reflexivity].
  intros a a' v _ Ha. rewrite Ha. ring.
Qed.

Lemma chain_cut_violated d ctx xs k n :
  sorted_indexes_in_range d -> reads_relaxation d ctx xs ->
  (k < getNbDemands d)%nat -> (n <= getNbVNFs d k)%nat ->
  chain_violated d xs k n = true -> violated ctx (chain_cut d xs k n) = true.
Proof.
  intros Hs Hxs Hk Hn Hv. unfold violated. apply orb_true_iff. left.
  unfold chain_violated in Hv. rewrite <- Hv.
  apply Qltb_left. unfold chain_cut. cbn [getExpr getLB].
  apply (prefix_value d ctx xs k (fun _ => 1)); auto.
  - intros j Hj. now apply chain_sums_nth.
  - intros i Hi.
    replace (getNbVNFs d k) with (length (chain_sums d xs k))
      by (unfold chain_sums; now rewrite length_map, length_seq).
    apply Hs. unfold chain_sums. rewrite length_map, length_seq. lia.
Qed.

Lemma chainCover_demand_separates d ctx k s :
  sorted_indexes_in_range d -> reads_relaxation d ctx (xSol s) ->
  (k < getNbDemands d)%nat ->
  submitted_with (fun cut => violated ctx cut = true) s (chainCover_demand d k s).
Proof.
  intros Hs Hxs Hk. unfold chainCover_demand.
  assert (Hl : Forall (fun n => (n <= getNbVNFs d k)%nat) (seq 1 (getNbVNFs d k))).
  { apply Forall_forall. intros n Hn. apply in_seq in Hn. lia. }
  revert Hl. generalize (seq 1 (getNbVNFs d k)). intros l.
  induction l as [|n l IH]; intros Hl; cbn zeta.
  - apply submitted_with_refl.
  - inversion Hl as [|? ? Hn Hl']; subst.
    destruct (Qltb _ _) eqn:E.
    + apply submitted_with_one.
      apply (chain_cut_violated d ctx (xSol s) k n Hs Hxs Hk Hn). exact E.
    + apply IH. exact Hl'.
Qed.

Lemma submitted_with_fold (P : IloRange -> Prop) (Inv : State -> Prop)
    (body : State -> nat -> State) (Q : nat -> Prop) :
  (forall s k, Inv s -> Q k -> submitted_with P s (body s k)) ->
  (forall s s', Inv s -> submitted_with P s s' -> Inv s') ->
  forall l s, Forall Q l -> Inv s -> submitted_with P s (fold_left body l s).
Proof.
  intros Hb Hinv. induction l as [|k l IH]; intros s Hl Hs; simpl.
  - apply submitted_with_refl.
  - inversion Hl; subst.
    eapply submitted_with_trans; [apply Hb; eauto|].
    apply IH; auto. eapply Hinv; eauto.
Qed.

Lemma reads_relaxation_kept d ctx P s s' :
  reads_relaxation d ctx (xSol s) -> submitted_with P s s' ->
  reads_relaxation d ctx (xSol s').
Proof. intros H (c & _ & _ & E). now rewrite E. Qed.

Lemma chainCoverSeparation_separates d ctx s :
  sorted_indexes_in_range d -> reads_relaxation d ctx (xSol s) ->
  submitted_with (fun cut => violated ctx cut = true) s (chainCoverSeparation d s).
Proof.
  intros Hs Hxs. unfold chainCoverSeparation.
  apply (submitted_with_fold _ (fun s => reads_relaxation d ctx (xSol s))
           (fun s k => chainCover_demand d k s) (fun k => (k < getNbDemands d)%nat)).
  - intros s0 k H0 Hk. now apply chainCover_demand_separates.
  - intros s0 s1. apply reads_relaxation_kept.
  - apply Forall_forall. intros k Hk. apply in_seq in Hk. lia.
  - exact Hxs.
Qed.
Lemma in_gen_combos d k limit_node n :
  In (k, limit_node, n) (gen_combos d) ->
  (k < getNbDemands d)%nat /\ (n <= getNbVNFs d k)%nat.
Proof.
  unfold gen_combos. intros H.
  apply in_flat_map in H. destruct H as (k' & Hk & H).
  apply in_flat_map in H. destruct H as (v & _ & H).
  apply in_map_iff in H. destruct H as (n' & [= <- <- <-] & Hn).
  apply in_seq in Hk. apply in_seq in Hn. lia.
Qed.

Lemma gen_sums_nth d xs k U rhs j :
  (j < getNbVNFs d k)%nat ->
  nth j (gen_sum_over_nodes d xs k U rhs) 0
  == fold_left (fun acc v => acc + (fun v => if U v then 1 else rhs) v * xs k j v)
               (nodes d) 0.
Proof.
  intros Hj. unfold gen_sum_over_nodes. rewrite nth_map_seq by exact Hj.
  apply Qfold_eq_ext; [|reflexivity].
  intros a a' v _ Ha. destruct (U v); rewrite Ha; ring.
Qed.

Lemma gen_cut_violated d ctx xs k limit_node n :
  sorted_indexes_in_range d -> reads_relaxation d ctx xs ->
  (k < getNbDemands d)%nat -> (n <= getNbVNFs d k)%nat ->
  gen_violated d xs k limit_node n = true ->
  violated ctx (gen_cut d xs k limit_node n) = true.
Proof.
  intros Hs Hxs Hk Hn Hv. unfold violated. apply orb_true_iff. left.
  unfold gen_violated in Hv. apply andb_true_iff in Hv. destruct Hv as [_ Hv].
  rewrite <- Hv. unfold gen_cut, gen_lhs. cbn [getExpr getLB].
  set (U := set_U d limit_node).
  set (rhs := getVnfLB_U d U n (getAvailability d k)).
  set (sums := gen_sum_over_nodes d xs k U rhs).
  apply Qltb_left.
  rewrite (flat_map_ext _
             (fun i => map (fun v => ((fun v => if U v then 1 else rhs) v,
                                      x_var k (nth i (getSortedIndexes_Asc d sums) 0%nat) v))
                           (nodes d))).
  - apply (prefix_value d ctx xs k (fun v => if U v then 1 else rhs)); auto.
    + intros j Hj. now apply gen_sums_nth.
    + intros i Hi.
      assert (Hlen : length sums = getNbVNFs d k)
        by (unfold sums, gen_sum_over_nodes; now rewrite length_map, length_seq).
      rewrite <- Hlen. apply Hs. lia.
  - intros i. apply map_ext. intros v. now destruct (U v).
Qed.

Lemma generalizedCoverSeparation_separates d ctx s :
  sorted_indexes_in_range d -> reads_relaxation d ctx (xSol s) ->
  submitted_with (fun cut => violated ctx cut = true) s (generalizedCoverSeparation d s).
Proof.
  intros Hs Hxs. unfold generalizedCoverSeparation.
  destruct (gen_search d (xSol s)) as [cut|] eqn:E; [|apply submitted_with_refl].
  apply submitted_with_one.
  rewrite gen_search_combos in E. apply first_return_Some in E.
  destruct E as (pre & [[k v] n] & post & Hl & _ & Hb).
  assert (Hin : In (k, v, n) (gen_combos d)) by (rewrite Hl; apply in_elt).
  apply in_gen_combos in Hin. destruct Hin as [Hk Hn].
  destruct (gen_violated_at d (xSol s) (k, v, n)) eqn:Ev; [|discriminate].
  injection Hb as <-. unfold gen_cut_at, gen_violated_at in *. simpl in *.
  now apply gen_cut_violated.
Qed.

Lemma upd2_cases {A} (m : nat -> nat -> A) a b x a' b' :
  upd2 m a b x a' b' = x \/ upd2 m a b x a' b' = m a' b'.
Proof.
  unfold upd2, upd1.
  destruct (Nat.eqb a' a) eqn:Ea; [|now right].
  destruct (Nat.eqb b' b); [now left|right].
  apply Nat.eqb_eq in Ea. now subst.
Qed.

Lemma binary_coeff_place i v h : binary_coeff h -> binary_coeff (place i v h).
Proof.
  intros H i' v'. unfold place. simpl.
  destruct (upd2_cases (coeff h) i v 0%Z i' v') as [-> | ->]; auto.
Qed.

Lemma binary_coeff_initiate_section d k xs i h h' :
  binary_coeff h -> initiate_section d k xs i h = Ok h' -> binary_coeff h'.
Proof.
  intros Hh. unfold initiate_section.
  set (h1 := fold_left _ (nodes d) h).
  assert (H1 : binary_coeff h1).
  { unfold h1. clear h1. revert h Hh. induction (nodes d) as [|v l IH]; intros h Hh; simpl; auto.
    apply IH. destruct (Qle_bool _ _); auto using binary_coeff_place. }
  destruct (sectionNodes h1 i).
  - destruct (fst _); simpl; [|discriminate].
    intros [= <-]. intros i' v'. simpl. apply (binary_coeff_place _ _ _ H1).
  - simpl. intros [= <-]. exact H1.
Qed.

Lemma binary_coeff_initiate_sections d k xs l :
  forall h h', binary_coeff h -> initiate_sections d k xs l h = Ok h' -> binary_coeff h'.
Proof.
  induction l as [|i l IH]; intros h h' Hh; simpl.
  - now intros [= <-].
  - destruct (initiate_section d k xs i h) as [h1| | |] eqn:E; simpl; try discriminate.
    apply IH. eapply binary_coeff_initiate_section; eauto.
Qed.

Lemma binary_coeff_initiateHeuristic d k xs h :
  initiateHeuristic d k xs = Ok h -> binary_coeff h.
Proof.
  unfold initiateHeuristic. apply binary_coeff_initiate_sections.
  intros i v. simpl.
  generalize (seq 0 (getNbVNFs d k)).
  assert (H0 : forall i v, (fun _ _ : nat => 0%Z) i v = 0%Z \/ (fun _ _ : nat => 0%Z) i v = 1%Z)
    by auto.
  revert H0. generalize (fun _ _ : nat => 0%Z) as c.
  intros c Hc l. revert c Hc. induction l as [|j l IH]; intros c Hc; simpl; auto.
  apply IH. clear IH. revert c Hc.
  induction (nodes d) as [|w nd IHn]; intros c Hc; simpl; auto.
  apply IHn. intros i' v'.
  destruct (upd2_cases c j w 1%Z i' v') as [-> | ->]; auto.
Qed.

Lemma binary_coeff_heur_while d k xs R fuel :
  forall ca da h h', binary_coeff h ->
    heur_while d k xs R fuel ca da h = Ok h' -> binary_coeff h'.
Proof.
  induction fuel as [|fuel IH]; intros ca da h h' Hh; simpl; [discriminate|].
  destruct (heur_next _ _ _ _ _ _) as [[i v]|].
  - apply IH. apply binary_coeff_place. exact Hh.
  - now intros [= <-].
Qed.

Lemma heur_cut_value d ctx xs k h :
  reads_relaxation d ctx xs -> (k < getNbDemands d)%nat -> binary_coeff h ->
  getRelaxationValue ctx
    (flat_map (fun i =>
       flat_map (fun v => if Z.eqb (coeff h i v) 1 then [(1, x_var k i v)] else [])
                (nodes d))
     (seq 0 (getNbVNFs d k)))
  == fold_left (fun lhs i =>
       fold_left (fun lhs v => lhs + inject_Z (coeff h i v) * xs k i v) (nodes d) lhs)
     (seq 0 (getNbVNFs d k)) 0.
Proof.
  intros Hxs Hk Hh. unfold getRelaxationValue.
  rewrite Qfold_flat_map, Qfold_nested, Qplus_0_l.
  apply Qfold_eq_ext; [|reflexivity].
  intros a a' i Hi Ha. apply in_seq in Hi. rewrite Ha. apply Qplus_inj_l.
  rewrite Qfold_flat_map.
  apply Qfold_eq_ext; [|reflexivity].
  intros b b' v Hv Hb. rewrite Hb. apply Qplus_inj_l.
  rewrite Hxs by (auto; lia).
  destruct (Hh i v) as [-> | ->]; simpl; ring.
Qed.

Lemma heurSeparation_demand_separates d ctx fuel k s s' :
  reads_relaxation d ctx (xSol s) -> (k < getNbDemands d)%nat ->
  heurSeparation_demand d fuel k s = Ok s' ->
  submitted_with (fun cut => violated ctx cut = true) s s'.
Proof.
  intros Hxs Hk. unfold heurSeparation_demand.
  destruct (initiateHeuristic d k (xSol s)) as [h| | |] eqn:E0; simpl; try discriminate.
  apply binary_coeff_initiateHeuristic in E0.
  destruct (Qltb _ _).
  - destruct (heur_while _ _ _ _ _ _ _ _) as [h'| | |] eqn:E1; simpl; try discriminate.
    apply binary_coeff_heur_while in E1; [|exact E0].
    destruct (Qltb _ (1 - EPS)) eqn:E2; intros [= <-].
    + eexists [_]. simpl. repeat split; auto.
      constructor; [|constructor].
      unfold violated. cbn [getExpr getLB]. apply orb_true_iff. left.
      rewrite <- E2. apply Qltb_left. now apply heur_cut_value.
    + apply submitted_with_refl.
  - intros [= <-]. apply submitted_with_refl.
Qed.

Lemma for_each_separates d ctx (body : nat -> State -> Result State) :
  (forall k s s', reads_relaxation d ctx (xSol s) -> (k < getNbDemands d)%nat ->
     body k s = Ok s' -> submitted_with (fun cut => violated ctx cut = true) s s') ->
  forall l s s', Forall (fun k => (k < getNbDemands d)%nat) l ->
    reads_relaxation d ctx (xSol s) ->
    for_each body l s = Ok s' ->
    submitted_with (fun cut => violated ctx cut = true) s s'.
Proof.
  intros Hb. induction l as [|k l IH]; intros s s' Hl Hxs; simpl.
  - intros [= <-]. apply submitted_with_refl.
  - inversion Hl; subst.
    destruct (body k s) as [s1| | |] eqn:E; simpl; try discriminate.
    intros H. pose proof (Hb _ _ _ Hxs H1 E) as H01.
    eapply submitted_with_trans; [exact H01|].
    apply IH; auto. eapply reads_relaxation_kept; eauto.
Qed.

Lemma add_cuts_separates (P : IloRange -> Prop) cuts s :
  Forall P cuts -> submitted_with P s (add_cuts cuts s).
Proof.
  intros H. exists cuts. rewrite add_cuts_host, add_cuts_xSol. auto.
Qed.

Lemma sample_sorted_indexes_in_range r : sorted_indexes_in_range (sample r).
Proof. intros l i Hi. simpl. rewrite seq_nth by exact Hi. exact Hi. Qed.


(** ** The node chosen by getNodeToInstall *)

Section NodeToInstall.
Variables (d : Data) (s : State) (f k : nat).

Let body := fun (acc : option nat * option Q * Q) (v : nat) =>
  let '(selectedNode, minValue, maxRemainingCapacity) := acc in
  if Qle_bool (getBandwidth d k * getConsumption d f) (remainingCapacity s v) then
    let ADDITIONAL_COST := getPlacementCost d v f * (1 - ySol s v f) in
    let select := (Some v, Some ADDITIONAL_COST, remainingCapacity s v) in
    match minValue with
    | None => select
    | Some minValue' =>
        if Qle_bool ADDITIONAL_COST (minValue' + EPSILON) then
          if Qle_bool ADDITIONAL_COST (minValue' - EPSILON) then select
          else if Qle_bool (maxRemainingCapacity + EPSILON) (remainingCapacity s v)
               then select else acc
        else acc
    end
  else acc.

Lemma getNodeToInstall_fold :
  getNodeToInstall d s f k = fst (fst (fold_left body (nodes d) (None, None, 0))).
Proof.
  unfold getNodeToInstall. fold body.
  destruct (fold_left body (nodes d) (None, None, 0)) as [[sel mv] mx]. reflexivity.
Qed.

Lemma install_inv_step visited acc v :
  install_inv d s f k visited acc -> install_inv d s f k (visited ++ [v]) (body acc v).
Proof.
  destruct acc as [[sel mv] mx]. unfold install_inv, body. simpl fst. simpl snd.
  intros H.
  assert (Hkeep : match sel with
                  | None => mv = None /\ (forall u, In u visited -> ~ fits d s f k u)
                  | Some u => In u (visited ++ [v]) /\ fits d s f k u
                              /\ mv = Some (additional_cost d s f u)
                  end).
  { destruct sel as [u|]; [|exact H]. destruct H as (H1 & H2 & H3).
    repeat split; auto. apply in_or_app. now left. }
  assert (Hsel : fits d s f k v ->
                 In v (visited ++ [v]) /\ fits d s f k v
                 /\ Some (getPlacementCost d v f * (1 - ySol s v f))
                    = Some (additional_cost d s f v)).
  { intros Hv. repeat split; auto. apply in_or_app. right. now left. }
  destruct (Qle_bool _ (remainingCapacity s v)) eqn:E.
  - apply Qle_bool_iff in E. specialize (Hsel E).
    destruct mv as [mv|]; [|exact Hsel].
    destruct sel as [u|]; [|destruct Hkeep; discriminate].
    destruct (Qle_bool _ (mv + EPSILON)); [|exact Hkeep].
    destruct (Qle_bool _ (mv - EPSILON)); [exact Hsel|].
    destruct (Qle_bool _ _); [exact Hsel|exact Hkeep].
  - destruct sel as [u|]; [exact Hkeep|]. destruct Hkeep as [Hm Hn].
    split; [exact Hm|]. intros u Hu. apply in_app_or in Hu. destruct Hu as [Hu|[<-|[]]].
    + now apply Hn.
    + unfold fits. intros Hle. apply Qle_bool_iff in Hle. congruence.
Qed.

Lemma install_inv_fold l :
  forall visited acc,
    install_inv d s f k visited acc ->
    install_inv d s f k (visited ++ l) (fold_left body l acc).
Proof.
  induction l as [|v l IH]; intros visited acc H; simpl.
  - now rewrite app_nil_r.
  - replace (visited ++ v :: l) with ((visited ++ [v]) ++ l)
      by (rewrite <- app_assoc; reflexivity).
    apply IH. now apply install_inv_step.
Qed.

Lemma install_inv_final :
  install_inv d s f k (nodes d) (fold_left body (nodes d) (None, None, 0)).
Proof.
  apply (install_inv_fold (nodes d) [] (None, None, 0)).
  split; [reflexivity|]. intros u [].
Qed.

(** Once a clear winner has been visited it stays selected. *)
Lemma winner_step w acc v :
  fits d s f k w ->
  (forall u, In u (nodes d) -> fits d s f k u -> u <> w ->
     additional_cost d s f w + EPSILON < additional_cost d s f u) ->
  In v (nodes d) ->
  (fst (fst acc) = Some w /\ snd (fst acc) = Some (additional_cost d s f w)
   \/ v = w /\ match fst (fst acc) with
               | None => snd (fst acc) = None
               | Some u => In u (nodes d) /\ fits d s f k u /\ u <> w
                           /\ snd (fst acc) = Some (additional_cost d s f u)
               end) ->
  fst (fst (body acc v)) = Some w
  /\ snd (fst (body acc v)) = Some (additional_cost d s f w).
Proof.
  intros Hw Hbest Hv. destruct acc as [[sel mv] mx]. unfold body. simpl fst. simpl snd.
  intros [[-> ->] | [-> H]].
  - destruct (Qle_bool _ (remainingCapacity s v)) eqn:E; [|auto].
    apply Qle_bool_iff in E.
    destruct (Nat.eq_dec v w) as [->|Hne].
    + destruct (Qle_bool _ (_ + EPSILON)); [|auto].
      destruct (Qle_bool _ (_ - EPSILON)); [auto|].
      destruct (Qle_bool _ _); auto.
    + pose proof (Hbest v Hv E Hne) as Hlt. unfold additional_cost in Hlt.
      destruct (Qle_bool _ (_ + EPSILON)) eqn:E1; [|auto].
      apply Qle_bool_iff in E1. unfold additional_cost in E1. lra.
  - assert (E : Qle_bool (getBandwidth d k * getConsumption d f) (remainingCapacity s w)
                = true) by (apply Qle_bool_iff; exact Hw).
    rewrite E. destruct sel as [u|].
    + destruct H as (Hin & Hu & Hne & ->). pose proof (Hbest u Hin Hu Hne) as Hlt.
      unfold additional_cost in Hlt.
      assert (E1 : Qle_bool (getPlacementCost d w f * (1 - ySol s w f))
                            (additional_cost d s f u + EPSILON) = true)
        by (apply Qle_bool_iff; unfold additional_cost, EPSILON in *; lra).
      assert (E2 : Qle_bool (getPlacementCost d w f * (1 - ySol s w f))
                            (additional_cost d s f u - EPSILON) = true)
        by (apply Qle_bool_iff; unfold additional_cost, EPSILON in *; lra).
      rewrite E1, E2. auto.
    + rewrite H. auto.
Qed.

Lemma winner_fold w l :
  fits d s f k w ->
  (forall u, In u (nodes d) -> fits d s f k u -> u <> w ->
     additional_cost d s f w + EPSILON < additional_cost d s f u) ->
  (forall v, In v l -> In v (nodes d)) ->
  forall acc,
    fst (fst acc) = Some w /\ snd (fst acc) = Some (additional_cost d s f w) ->
    fst (fst (fold_left body l acc)) = Some w.
Proof.
  intros Hw Hbest. induction l as [|v l IH]; intros Hl acc H; simpl; [tauto|].
  apply IH; [intros u Hu; apply Hl; now right|].
  apply winner_step; auto. apply Hl. now left.
Qed.

Lemma winner_selected w :
  In w (nodes d) -> fits d s f k w ->
  (forall u, In u (nodes d) -> fits d s f k u -> u <> w ->
     additional_cost d s f w + EPSILON < additional_cost d s f u) ->
  fst (fst (fold_left body (nodes d) (None, None, 0))) = Some w.
Proof.
  intros Hin Hw Hbest.
  destruct (in_split _ _ Hin) as (pre & post & Hl).
  assert (Hsub : forall v, In v (pre ++ w :: post) -> In v (nodes d))
    by (intros v Hv; now rewrite Hl).
  rewrite Hl, fold_left_app. simpl.
  pose proof (install_inv_fold pre [] (None, None, 0)) as Hinv. simpl in Hinv.
  assert (H0 : install_inv d s f k [] (None, None, 0))
    by (split; [reflexivity|intros u []]).
  specialize (Hinv H0). clear H0.
  apply winner_fold; auto.
  - intros v Hv. apply Hsub. apply in_or_app. right. now right.
  - apply winner_step; auto.
    unfold install_inv in Hinv.
    destruct (fold_left body pre (None, None, 0)) as [[sel mv] mx]. simpl in *.
    destruct sel as [u|].
    + destruct Hinv as (Hu & Hfu & Hmv).
      destruct (Nat.eq_dec u w) as [->|Hne]; [left; auto|].
      right. split; [reflexivity|]. repeat split; auto.
      apply Hsub. apply in_or_app. now left.
    + right. split; [reflexivity|]. tauto.
Qed.

End NodeToInstall.




(** ** getSolutionAvail_k *)

Lemma section_fail_sol_eq d xs k i :
  1 - section_fail_sol d xs k i == sol_section_avail d xs k i.
Proof.
  unfold section_fail_sol, sol_section_avail, section_availability, section_failure, sol_asg.
  rewrite (fold_left_failure d (fun v => Qeq_bool (xs k i v) 1)). ring.
Qed.

Section SolutionAvail.
Variables (d : Data) (xs : nat -> nat -> nat -> Q) (k : nat).

Let body := fun (acc : Q * Q * option nat) (i : nat) =>
  let '(availability, minSectionAvail, least) := acc in
  let section_avail := 1 - section_fail_sol d xs k i in
  let '(minSectionAvail, least) :=
    if Qltb section_avail minSectionAvail
    then (section_avail, Some i) else (minSectionAvail, least) in
  (availability * section_avail, minSectionAvail, least).

Let inv (n : nat) (acc : Q * Q * option nat) : Prop :=
  fst (fst acc) == prodQ (map (sol_section_avail d xs k) (seq 0 n))
  /\ match snd acc with
     | None => snd (fst acc) == 1
               /\ forall j, (j < n)%nat -> 1 <= sol_section_avail d xs k j
     | Some i => snd (fst acc) == sol_section_avail d xs k i
                 /\ least_available d xs k n i
     end.

Lemma getSolutionAvail_k_fold :
  getSolutionAvail_k d xs k
  = (fst (fst (fold_left body (seq 0 (getNbVNFs d k)) (1, 1, None))),
     snd (fold_left body (seq 0 (getNbVNFs d k)) (1, 1, None))).
Proof.
  unfold getSolutionAvail_k. fold body.
  destruct (fold_left body _ _) as [[a m] l]. reflexivity.
Qed.

Lemma solution_avail_step n acc : inv n acc -> inv (S n) (body acc n).
Proof.
  destruct acc as [[a m] l]. unfold inv, body. simpl fst. simpl snd.
  intros [Ha Hl].
  pose proof (section_fail_sol_eq d xs k n) as En.
  destruct (Qltb (1 - section_fail_sol d xs k n) m) eqn:E; simpl fst; simpl snd.
  - apply Qltb_lt in E. split.
    + rewrite seq_S, map_app, prodQ_app. simpl. rewrite Ha, En. ring.
    + split; [exact En|]. unfold least_available.
      destruct l as [i|].
      * destruct Hl as (Hm & Hi & H1 & Hmin & Hfirst).
        repeat split; [lia|lra| |].
        -- intros j Hj. destruct (Nat.eq_dec j n) as [->|Hne]; [lra|].
           assert (Hj' : (j < n)%nat) by lia. specialize (Hmin j Hj'). lra.
        -- intros j Hj. specialize (Hmin j Hj). lra.
      * destruct Hl as (Hm & Hall).
        repeat split; [lia|lra| |].
        -- intros j Hj. destruct (Nat.eq_dec j n) as [->|Hne]; [lra|].
           assert (Hj' : (j < n)%nat) by lia. specialize (Hall j Hj'). lra.
        -- intros j Hj. specialize (Hall j Hj). lra.
  - apply Qltb_ge in E. split.
    + rewrite seq_S, map_app, prodQ_app. simpl. rewrite Ha, En. ring.
    + destruct l as [i|].
      * destruct Hl as (Hm & Hi & H1 & Hmin & Hfirst). split; [exact Hm|].
        repeat split; [lia|lra| |exact Hfirst].
        intros j Hj. destruct (Nat.eq_dec j n) as [->|Hne]; [lra|].
        apply Hmin. lia.
      * destruct Hl as (Hm & Hall). split; [exact Hm|].
        intros j Hj. destruct (Nat.eq_dec j n) as [->|Hne]; [lra|].
        apply Hall. lia.
Qed.

Lemma solution_avail_fold n : inv n (fold_left body (seq 0 n) (1, 1, None)).
Proof.
  induction n as [|n IH].
  - simpl. split; simpl; [reflexivity|]. split; [reflexivity|]. intros j Hj. lia.
  - rewrite seq_S, fold_left_app. simpl. now apply solution_avail_step.
Qed.

End SolutionAvail.

(** The value and the section that getSolutionAvail_k returns. *)
Lemma getSolutionAvail_k_spec (d : Data) (xs : nat -> nat -> nat -> Q) (k : nat) :
  fst (getSolutionAvail_k d xs k) == chain_availability d k (sol_asg xs k)
  /\ match snd (getSolutionAvail_k d xs k) with
     | Some i => least_available d xs k (getNbVNFs d k) i
     | None => forall j, (j < getNbVNFs d k)%nat -> 1 <= sol_section_avail d xs k j
     end.
Proof.
  rewrite getSolutionAvail_k_fold. simpl fst. simpl snd.
  pose proof (solution_avail_fold d xs k (getNbVNFs d k)) as [Ha Hl].
  split; [exact Ha|].
  destruct (snd (fold_left _ _ _)) as [i|]; tauto.
Qed.


(** ** Phase II: success means the requirements are met *)

Lemma getSolutionAvail_k_ext d xs xs' k :
  xs' k = xs k -> getSolutionAvail_k d xs' k = getSolutionAvail_k d xs k.
Proof.
  intros H. unfold getSolutionAvail_k, section_fail_sol. now rewrite H.
Qed.

Lemma phaseII_install_other d k i v s k' :
  k' <> k -> xSol (phaseII_install d k i v s) k' = xSol s k'.
Proof.
  intros Hne. destruct (phaseII_install_effect d k i v s) as [-> _].
  unfold upd3, upd1. apply Nat.eqb_neq in Hne. now rewrite Hne.
Qed.

Lemma phaseII_while_true d k fuel :
  forall s b s', phaseII_while d k fuel s = Ok (b, s') ->
    (b = true -> getAvailability d k <= fst (getSolutionAvail_k d (xSol s') k))
    /\ (forall k', k' <> k -> xSol s' k' = xSol s k').
Proof.
  induction fuel as [|fuel IH]; intros s b s'; simpl; [discriminate|].
  destruct (getSolutionAvail_k d (xSol s) k) as [avail least] eqn:Ea.
  destruct (Qltb avail (getAvailability d k)) eqn:E.
  - destruct least as [i|]; [|discriminate].
    destruct (getNodeToInstall _ _ _ _) as [v|].
    + intros H. destruct (IH _ _ _ H) as [H1 H2]. split; [exact H1|].
      intros k' Hne. rewrite (H2 k' Hne). now apply phaseII_install_other.
    + intros [= <- <-]. split; [discriminate|reflexivity].
  - intros [= <- <-]. split; [|reflexivity].
    intros _. rewrite Ea. simpl. now apply Qltb_ge.
Qed.

Lemma phaseII_demands_true d fuel l :
  NoDup l ->
  forall s s', phaseII_demands d fuel l s = Ok (true, s') ->
    (forall k, In k l -> getAvailability d k <= fst (getSolutionAvail_k d (xSol s') k))
    /\ (forall k, ~ In k l -> xSol s' k = xSol s k).
Proof.
  induction l as [|k l IH]; intros Hnd s s'; simpl.
  - intros [= <-]. split; [intros k []|reflexivity].
  - inversion Hnd as [|? ? Hk Hnd']; subst.
    destruct (phaseII_while d k fuel s) as [[b s1]| | |] eqn:E; simpl; try discriminate.
    destruct b; [|discriminate].
    intros H. destruct (IH Hnd' _ _ H) as [H1 H2].
    destruct (phaseII_while_true _ _ _ _ _ _ E) as [H3 H4].
    split.
    + intros k' [<-|Hin]; [|now apply H1].
      rewrite (getSolutionAvail_k_ext d (xSol s1) (xSol s') k) by (now apply H2).
      now apply H3.
    + intros k' Hn. rewrite H2 by tauto. apply H4. intros ->. apply Hn. now left.
Qed.

Lemma phaseII_install_entries d k i v s :
  forall i' v', xSol (phaseII_install d k i v s) k i' v' = xSol s k i' v'
                \/ xSol (phaseII_install d k i v s) k i' v' = 1.
Proof.
  intros i' v'.
  assert (E : xSol (phaseII_install d k i v s) = upd3 (xSol s) k i v 1).
  { unfold phaseII_install. destruct (Qeq_bool _ _); reflexivity. }
  rewrite E.
  destruct (Nat.eq_dec i' i) as [->|Hi]; [|left; apply upd3_other; congruence].
  destruct (Nat.eq_dec v' v) as [->|Hv]; [|left; apply upd3_other; congruence].
  right. apply upd3_same.
Qed.

Lemma phaseII_while_entries d k fuel :
  forall s b s', phaseII_while d k fuel s = Ok (b, s') ->
    forall i v, xSol s' k i v = xSol s k i v \/ xSol s' k i v = 1.
Proof.
  induction fuel as [|fuel IH]; intros s b s'; simpl; [discriminate|].
  destruct (getSolutionAvail_k d (xSol s) k) as [avail least].
  destruct (Qltb avail (getAvailability d k)).
  - destruct least as [i|]; [|discriminate].
    destruct (getNodeToInstall _ _ _ _) as [v|].
    + intros H i' v'. destruct (IH _ _ _ H i' v') as [E|E]; [|now right].
      rewrite E. apply phaseII_install_entries.
    + intros [= <- <-]. now left.
  - intros [= <- <-]. now left.
Qed.

Lemma phaseII_demands_entries d fuel l :
  forall s b s', phaseII_demands d fuel l s = Ok (b, s') ->
    (forall k, ~ In k l -> xSol s' k = xSol s k)
    /\ (forall k i v, xSol s' k i v = xSol s k i v \/ xSol s' k i v = 1).
Proof.
  induction l as [|k l IH]; intros s b s'; simpl.
  - intros [= <- <-]. split; [reflexivity|now left].
  - destruct (phaseII_while d k fuel s) as [[b1 s1]| | |] eqn:E; simpl; try discriminate.
    destruct (phaseII_while_true _ _ _ _ _ _ E) as [_ Hother].
    pose proof (phaseII_while_entries _ _ _ _ _ _ E) as Hk.
    assert (Hstep : forall k' i v,
              xSol s1 k' i v = xSol s k' i v \/ xSol s1 k' i v = 1).
    { intros k' i v. destruct (Nat.eq_dec k' k) as [->|Hne]; [apply Hk|].
      left. now rewrite (Hother k' Hne). }
    destruct b1.
    + intros H. destruct (IH _ _ _ H) as [H1 H2]. split.
      * intros k' Hn. rewrite H1 by tauto. apply Hother. intros ->. apply Hn. now left.
      * intros k' i v. destruct (H2 k' i v) as [E2|E2]; [|now right].
        rewrite E2. apply Hstep.
    + intros [= <- <-]. split; [|exact Hstep].
      intros k' Hn. apply Hother. intros ->. apply Hn. now left.
Qed.



(** ** Phase II returns *)

Lemma prodQ_ge_one {A} (f : A -> Q) l :
  (forall a, In a l -> 1 <= f a) -> 1 <= prodQ (map f l).
Proof.
  induction l as [|a l IH]; intros H; simpl; [lra|].
  pose proof (H a (or_introl eq_refl)).
  assert (1 <= prodQ (map f l)) by (apply IH; intros b Hb; apply H; now right).
  nra.
Qed.

Lemma sumQ_nonneg {A} (f : A -> Q) l :
  (forall a, In a l -> 0 <= f a) -> 0 <= sumQ (map f l).
Proof.
  induction l as [|a l IH]; intros H; simpl; [lra|].
  pose proof (H a (or_introl eq_refl)).
  assert (0 <= sumQ (map f l)) by (apply IH; intros b Hb; apply H; now right).
  lra.
Qed.

Lemma sumQ_upd1_le (m : nat -> Q) v c l :
  0 <= c -> sumQ (map (upd1 m v (m v - c)) l) <= sumQ (map m l).
Proof.
  intros Hc. induction l as [|u l IH]; simpl; [lra|].
  unfold upd1 at 1. destruct (Nat.eqb u v) eqn:E.
  - apply Nat.eqb_eq in E. subst. lra.
  - lra.
Qed.

Lemma sumQ_upd1_lowered (m : nat -> Q) v c l :
  0 <= c -> In v l -> sumQ (map (upd1 m v (m v - c)) l) <= sumQ (map m l) - c.
Proof.
  intros Hc. induction l as [|u l IH]; simpl; [tauto|].
  intros [->|Hin].
  - rewrite upd1_same. pose proof (sumQ_upd1_le m v c l Hc). lra.
  - specialize (IH Hin). unfold upd1 at 1. destruct (Nat.eqb u v) eqn:E.
    + apply Nat.eqb_eq in E. subst. lra.
    + lra.
Qed.

Section PhaseIIReturns.
Variables (d : Data) (delta : Q).
Hypothesis delta_pos : 0 < delta.
Hypothesis req_delta :
  forall k i, (k < getNbDemands d)%nat -> delta <= req_capacity d k i.
Hypothesis req_avail : forall k, (k < getNbDemands d)%nat -> getAvailability d k <= 1.

Let nonneg (s : State) : Prop :=
  forall v, In v (nodes d) -> 0 <= remainingCapacity s v.

Lemma phaseII_install_lowers k i v s :
  (k < getNbDemands d)%nat -> nonneg s -> In v (nodes d) ->
  req_capacity d k i <= remainingCapacity s v ->
  nonneg (phaseII_install d k i v s)
  /\ total_remaining d (phaseII_install d k i v s) <= total_remaining d s - delta.
Proof.
  intros Hk Hs Hv Hfit.
  destruct (phaseII_install_effect d k i v s) as [_ Er].
  pose proof (req_delta k i Hk) as Hd.
  split.
  - intros u Hu. rewrite Er. unfold upd1. destruct (Nat.eqb u v); [lra|now apply Hs].
  - unfold total_remaining. rewrite Er.
    pose proof (sumQ_upd1_lowered (remainingCapacity s) v (req_capacity d k i) (nodes d)).
    assert (0 <= req_capacity d k i) by lra.
    specialize (H H0 Hv). lra.
Qed.

Lemma least_section_exists xs k :
  (k < getNbDemands d)%nat ->
  fst (getSolutionAvail_k d xs k) < getAvailability d k ->
  snd (getSolutionAvail_k d xs k) <> None.
Proof.
  intros Hk Hlt Hnone.
  destruct (getSolutionAvail_k_spec d xs k) as [Ha Hl].
  rewrite Hnone in Hl.
  assert (H1 : 1 <= chain_availability d k (sol_asg xs k)).
  { unfold chain_availability. apply prodQ_ge_one.
    intros j Hj. apply in_seq in Hj. apply Hl. lia. }
  pose proof (req_avail k Hk). lra.
Qed.

Lemma phaseII_while_returns k fuel :
  (k < getNbDemands d)%nat ->
  forall s, nonneg s -> total_remaining d s < inject_Z (Z.of_nat fuel) * delta ->
    exists b s', phaseII_while d k fuel s = Ok (b, s')
                 /\ nonneg s' /\ total_remaining d s' <= total_remaining d s.
Proof.
  intros Hk. induction fuel as [|fuel IH]; intros s Hs Hlt.
  - exfalso. assert (0 <= total_remaining d s) by (apply sumQ_nonneg; exact Hs).
    change (inject_Z (Z.of_nat 0)) with 0 in Hlt. lra.
  - cbn [phaseII_while].
    pose proof (least_section_exists (xSol s) k Hk) as Hleast.
    destruct (getSolutionAvail_k d (xSol s) k) as [avail least]. simpl in Hleast.
    destruct (Qltb avail (getAvailability d k)) eqn:E.
    + apply Qltb_lt in E. specialize (Hleast E).
      destruct least as [i|]; [|congruence].
      destruct (getNodeToInstall d s (getVNF_i d k i) k) as [v|] eqn:En.
      * apply getNodeToInstall_fits in En. destruct En as [Hv Hfit].
        destruct (phaseII_install_lowers k i v s Hk Hs Hv Hfit) as [Hn Ht].
        destruct (IH (phaseII_install d k i v s) Hn) as (b & s' & Hr & Hn' & Ht').
        -- rewrite Nat2Z.inj_succ, <- Z.add_1_r, inject_Z_plus in Hlt.
           change (inject_Z 1) with 1 in Hlt. lra.
        -- exists b, s'. repeat split; auto. lra.
      * exists false, s. repeat split; auto. lra.
    + exists true, s. repeat split; auto. lra.
Qed.

Lemma phaseII_demands_returns fuel l :
  (forall k, In k l -> (k < getNbDemands d)%nat) ->
  forall s, nonneg s -> total_remaining d s < inject_Z (Z.of_nat fuel) * delta ->
    exists b s', phaseII_demands d fuel l s = Ok (b, s').
Proof.
  induction l as [|k l IH]; intros Hl s Hs Hlt; simpl.
  - now exists true, s.
  - destruct (phaseII_while_returns k fuel (Hl k (or_introl eq_refl)) s Hs Hlt)
      as (b & s1 & -> & Hn & Ht).
    simpl. destruct b.
    + apply IH; [intros k0 Hk0; apply Hl; now right|exact Hn|lra].
    + now exists false, s1.
Qed.

End PhaseIIReturns.



(** ** The solution that the matheuristic posts *)

Lemma fold_left_establish {A S} (step : S -> A -> S) (Inv : S -> Prop)
    (P : A -> S -> Prop) :
  (forall a s, Inv s -> Inv (step s a) /\ P a (step s a)) ->
  (forall a b s, Inv s -> P b s -> P b (step s a)) ->
  forall l s, Inv s ->
    Inv (fold_left step l s) /\ (forall a, In a l -> P a (fold_left step l s)).
Proof.
  intros Hest Hkeep.
  assert (Hpres : forall l s b, Inv s -> P b s -> P b (fold_left step l s)).
  { induction l as [|a l IH]; intros s b Hs Hb; simpl; [exact Hb|].
    apply IH; [apply Hest; exact Hs|now apply Hkeep]. }
  induction l as [|a l IH]; intros s Hs; simpl.
  - split; [exact Hs|intros a []].
  - destruct (Hest a s Hs) as [Hi Hp]. destruct (IH _ Hi) as [IH1 IH2].
    split; [exact IH1|]. intros b [<-|Hb]; [now apply Hpres|now apply IH2].
Qed.

Lemma fold_left_preserve {A S} (step : S -> A -> S) (Inv : S -> Prop) :
  (forall a s, Inv s -> Inv (step s a)) ->
  forall l s, Inv s -> Inv (fold_left step l s).
Proof.
  intros H. induction l as [|a l IH]; intros s Hs; simpl; auto.
Qed.

Lemma in_demand_sections d k i :
  In (k, i) (demand_sections d) <-> (k < getNbDemands d)%nat /\ (i < getNbVNFs d k)%nat.
Proof.
  unfold demand_sections. rewrite in_flat_map. split.
  - intros (k' & Hk & H). apply in_map_iff in H. destruct H as (i' & [= <- <-] & Hi).
    apply in_seq in Hk. apply in_seq in Hi. lia.
  - intros [Hk Hi]. exists k. split; [apply in_seq; lia|].
    apply in_map_iff. exists i. split; [reflexivity|apply in_seq; lia].
Qed.

Lemma upd3_cases {A} (m : nat -> nat -> nat -> A) a b c x a' b' c' :
  ((a', b', c') = (a, b, c) /\ upd3 m a b c x a' b' c' = x)
  \/ upd3 m a b c x a' b' c' = m a' b' c'.
Proof.
  destruct (Nat.eq_dec a' a) as [->|Ha]; [|right; apply upd3_other; congruence].
  destruct (Nat.eq_dec b' b) as [->|Hb]; [|right; apply upd3_other; congruence].
  destruct (Nat.eq_dec c' c) as [->|Hc]; [|right; apply upd3_other; congruence].
  left. split; [reflexivity|apply upd3_same].
Qed.

Lemma phaseI_place_effect L d ctx v f s :
  xSol (phaseI_place L d ctx v f s) = xSol s
  /\ exists b : bool,
       ySol (phaseI_place L d ctx v f s) = upd2 (ySol s) v f (if b then 1 else 0).
Proof.
  unfold phaseI_place. destruct (draw_frame L s) as (Hx & Hy & _).
  destruct (draw L s) as [RND s0]. cbn [snd] in Hx, Hy.
  destruct (Qle_bool _ _); simpl; rewrite Hx, Hy; split; auto.
  - now exists true.
  - now exists false.
Qed.

Lemma phaseI_assign_linked L d ctx v k i s :
  ySol (phaseI_assign L d ctx v k i s) = ySol s
  /\ (xSol (phaseI_assign L d ctx v k i s) = upd3 (xSol s) k i v 0
      \/ (xSol (phaseI_assign L d ctx v k i s) = upd3 (xSol s) k i v 1
          /\ Qeq_bool (ySol s v (getVNF_i d k i)) 1 = true)).
Proof.
  unfold phaseI_assign.
  destruct (Qeq_bool _ _ && Qle_bool _ _) eqn:G; [|simpl; auto].
  apply andb_true_iff in G. destruct G as [G _].
  destruct (draw_frame L s) as (Hx & Hy & _).
  destruct (draw L s) as [RND s0]. cbn [snd] in Hx, Hy.
  destruct (Qle_bool RND _); simpl; rewrite Hx, Hy; auto.
Qed.

Lemma binary_eq_one (q : Q) : q = 0 \/ q = 1 -> Qeq_bool q 1 = true -> q = 1.
Proof. intros [-> | ->]; [discriminate|reflexivity]. Qed.

Lemma binary_not_zero (q : Q) : q = 0 \/ q = 1 -> Qeq_bool q 0 = false -> q = 1.
Proof. intros [-> | ->]; [discriminate|reflexivity]. Qed.

Lemma y_binary_place L d ctx v f s :
  y_binary d s -> y_binary d (phaseI_place L d ctx v f s).
Proof.
  intros H v' f' Hv Hf. destruct (phaseI_place_effect L d ctx v f s) as (_ & b & ->).
  destruct (upd2_cases (ySol s) v f (if b then 1 else 0) v' f') as [-> | ->].
  - destruct b; auto.
  - now apply H.
Qed.

Lemma place_row_binary L d ctx v l s u f :
  ySol s u f = 0 \/ ySol s u f = 1 \/ (u = v /\ In f l) ->
  let s' := fold_left (fun s f => phaseI_place L d ctx v f s) l s in
  ySol s' u f = 0 \/ ySol s' u f = 1.
Proof.
  revert s. induction l as [|g l IH]; intros s H; simpl.
  - destruct H as [H|[H|[_ []]]]; auto.
  - apply IH. destruct (phaseI_place_effect L d ctx v g s) as (_ & b & ->).
    destruct (Nat.eq_dec u v) as [->|Hu].
    + destruct (Nat.eq_dec f g) as [->|Hf].
      * rewrite upd2_same. destruct b; auto.
      * rewrite upd2_other by congruence.
        destruct H as [H|[H|[_ [H|H]]]]; auto. congruence.
    + rewrite upd2_other by congruence.
      destruct H as [H|[H|[H _]]]; auto. contradiction.
Qed.

Lemma phaseI_places_binary L d ctx l s u f :
  ySol s u f = 0 \/ ySol s u f = 1 \/ (In u l /\ (f < getNbVnfs d)%nat) ->
  let s' := fold_left (fun s v =>
              fold_left (fun s f => phaseI_place L d ctx v f s) (seq 0 (getNbVnfs d)) s)
            l s in
  ySol s' u f = 0 \/ ySol s' u f = 1.
Proof.
  revert s. induction l as [|v l IH]; intros s H; simpl.
  - destruct H as [H|[H|[[] _]]]; auto.
  - apply IH.
    assert (Hrow : ySol s u f = 0 \/ ySol s u f = 1
                   \/ (u = v /\ In f (seq 0 (getNbVnfs d)))
                   \/ (In u l /\ (f < getNbVnfs d)%nat)).
    { destruct H as [H|[H|[[->|H] Hf]]]; auto.
      right. right. left. split; [reflexivity|apply in_seq; lia]. }
    destruct Hrow as [H0|[H1|[Hv|Hl]]].
    + pose proof (place_row_binary L d ctx v (seq 0 (getNbVnfs d)) s u f (or_introl H0)).
      simpl in H1. tauto.
    + pose proof (place_row_binary L d ctx v (seq 0 (getNbVnfs d)) s u f
                    (or_intror (or_introl H1))) as H2.
      simpl in H2. tauto.
    + pose proof (place_row_binary L d ctx v (seq 0 (getNbVnfs d)) s u f
                    (or_intror (or_intror Hv))) as H2.
      simpl in H2. tauto.
    + auto.
Qed.

Lemma phaseI_assign_keeps_linked L d ctx v k i s k' i' v' :
  x_linked_at d s k' i' v' ->
  (Qeq_bool (ySol s v (getVNF_i d k i)) 1 = true -> ySol s v (getVNF_i d k i) = 1) ->
  x_linked_at d (phaseI_assign L d ctx v k i s) k' i' v'.
Proof.
  intros H Hy. unfold x_linked_at.
  destruct (phaseI_assign_linked L d ctx v k i s) as (-> & [-> | [-> Hq]]).
  - destruct (upd3_cases (xSol s) k i v 0 k' i' v') as [[E ->] | ->]; [now left|exact H].
  - destruct (upd3_cases (xSol s) k i v 1 k' i' v') as [[[= -> -> ->] ->] | ->];
      [right; auto|exact H].
Qed.

Section PostedSolution.
Variables (L : Libc) (d : Data) (ctx : Context).
Hypothesis ids : vnf_ids_in_range d.

Lemma phaseI_node_linked v s :
  In v (nodes d) -> y_binary d s ->
  let s' := phaseI_node L d ctx s v in
  ySol s' = ySol s
  /\ (forall k i u, x_linked_at d s k i u -> x_linked_at d s' k i u)
  /\ (forall k i, (k < getNbDemands d)%nat -> (i < getNbVNFs d k)%nat ->
        x_linked_at d s' k i v).
Proof.
  intros Hv Hy. cbn zeta. rewrite phaseI_node_sections.
  set (s0 := set_remainingCapacity _ s).
  set (step := fun s p => phaseI_assign L d ctx v (fst p) (snd p) s).
  set (Inv := fun s1 : State => ySol s1 = ySol s).
  assert (Hguard : forall s1 p, Inv s1 -> In p (demand_sections d) ->
            Qeq_bool (ySol s1 v (getVNF_i d (fst p) (snd p))) 1 = true ->
            ySol s1 v (getVNF_i d (fst p) (snd p)) = 1).
  { intros s1 [k i] E Hp. apply in_demand_sections in Hp. destruct Hp as [Hk Hi].
    simpl. unfold Inv in E. rewrite E. apply binary_eq_one.
    apply Hy; [exact Hv|now apply ids]. }
  assert (G : forall l s1, (forall p, In p l -> In p (demand_sections d)) -> Inv s1 ->
            Inv (fold_left step l s1)
            /\ (forall k i u, x_linked_at d s1 k i u ->
                  x_linked_at d (fold_left step l s1) k i u)
            /\ (forall p, In p l ->
                  x_linked_at d (fold_left step l s1) (fst p) (snd p) v)).
  { induction l as [|p l IH]; intros s1 Hl H1; simpl.
    - repeat split; auto. intros p [].
    - assert (Hp : In p (demand_sections d)) by (apply Hl; now left).
      assert (H2 : Inv (step s1 p)).
      { unfold Inv, step.
        destruct (phaseI_assign_linked L d ctx v (fst p) (snd p) s1) as [-> _].
        exact H1. }
      destruct (IH (step s1 p) (fun q Hq => Hl q (or_intror Hq)) H2) as (I1 & I2 & I3).
      split; [exact I1|]. split.
      + intros k i u Hx. apply I2. unfold step.
        apply phaseI_assign_keeps_linked; [exact Hx|now apply Hguard].
      + intros q [<-|Hq]; [|now apply I3].
        apply I2. unfold step, x_linked_at.
        destruct (phaseI_assign_linked L d ctx v (fst p) (snd p) s1)
          as (-> & [-> | [-> Hq]]); rewrite upd3_same; [now left|right].
        split; [reflexivity|now apply Hguard]. }
  destruct (G (demand_sections d) s0 (fun p H => H) eq_refl) as (G1 & G2 & G3).
  split; [exact G1|]. split.
  - intros k i u Hx. apply G2. exact Hx.
  - intros k i Hk Hi.
    apply (G3 (k, i)). apply in_demand_sections. auto.
Qed.

Lemma phaseI_nodes_linked l s :
  (forall v, In v l -> In v (nodes d)) -> y_binary d s ->
  let s' := fold_left (phaseI_node L d ctx) l s in
  ySol s' = ySol s
  /\ (forall k i u, x_linked_at d s k i u -> x_linked_at d s' k i u)
  /\ (forall k i v, (k < getNbDemands d)%nat -> (i < getNbVNFs d k)%nat -> In v l ->
        x_linked_at d s' k i v).
Proof.
  revert s. induction l as [|v l IH]; intros s Hl Hy; simpl.
  - repeat split; auto. intros k i v _ _ [].
  - destruct (phaseI_node_linked v s (Hl v (or_introl eq_refl)) Hy) as (N1 & N2 & N3).
    assert (Hy' : y_binary d (phaseI_node L d ctx s v)).
    { intros u f Hu Hf. rewrite N1. now apply Hy. }
    destruct (IH (phaseI_node L d ctx s v) (fun u Hu => Hl u (or_intror Hu)) Hy')
      as (I1 & I2 & I3).
    split; [congruence|]. split.
    + intros k i u Hx. apply I2, N2, Hx.
    + intros k i u Hk Hi [<-|Hu]; [apply I2, N3; auto|now apply I3].
Qed.

Lemma Phase_I_binary_linked s :
  y_binary d (runHeuristic_Phase_I L d ctx s)
  /\ x_linked d (runHeuristic_Phase_I L d ctx s).
Proof.
  unfold runHeuristic_Phase_I.
  set (s1 := fold_left _ (nodes d) (set_objSol 0 s)).
  assert (Hy : y_binary d s1).
  { intros v f Hv Hf.
    apply (phaseI_places_binary L d ctx (nodes d) (set_objSol 0 s) v f). auto. }
  destruct (phaseI_nodes_linked (nodes d) s1 (fun v H => H) Hy) as (N1 & _ & N3).
  split.
  - intros v f Hv Hf. rewrite N1. now apply Hy.
  - intros k i v Hk Hi Hv. now apply N3.
Qed.

Lemma phaseII_install_binary_linked k i v s :
  (k < getNbDemands d)%nat -> (i < getNbVNFs d k)%nat -> In v (nodes d) ->
  y_binary d s -> x_linked d s ->
  y_binary d (phaseII_install d k i v s) /\ x_linked d (phaseII_install d k i v s).
Proof.
  intros Hk Hi Hv Hy Hx.
  pose proof (Hy v (getVNF_i d k i) Hv (ids k i Hk Hi)) as Hb.
  unfold phaseII_install. cbn [ySol set_xSol set_remainingCapacity].
  destruct (Qeq_bool (ySol s v (getVNF_i d k i)) 0) eqn:E.
  - split.
    + intros u f Hu Hf. simpl.
      destruct (upd2_cases (ySol s) v (getVNF_i d k i) 1 u f) as [-> | ->]; auto.
    + intros k' i' u Hk' Hi' Hu. unfold x_linked_at. simpl.
      destruct (upd3_cases (xSol s) k i v 1 k' i' u) as [[[= -> -> ->] ->] | ->].
      * right. split; [reflexivity|apply upd2_same].
      * destruct (Hx k' i' u Hk' Hi' Hu) as [H0|[H1 H2]]; [now left|right].
        split; [exact H1|].
        destruct (upd2_cases (ySol s) v (getVNF_i d k i) 1 u (getVNF_i d k' i'))
          as [-> | ->]; auto.
  - apply binary_not_zero in E; [|exact Hb]. split.
    + exact Hy.
    + intros k' i' u Hk' Hi' Hu. unfold x_linked_at. simpl.
      destruct (upd3_cases (xSol s) k i v 1 k' i' u) as [[[= -> -> ->] ->] | ->].
      * right. auto.
      * exact (Hx k' i' u Hk' Hi' Hu).
Qed.

Lemma phaseII_while_binary_linked k fuel :
  (k < getNbDemands d)%nat ->
  forall s r, y_binary d s -> x_linked d s ->
    phaseII_while d k fuel s = Ok r -> y_binary d (snd r) /\ x_linked d (snd r).
Proof.
  intros Hk. induction fuel as [|fuel IH]; intros s r Hy Hx; simpl; [discriminate|].
  destruct (getSolutionAvail_k_spec d (xSol s) k) as [_ Hl].
  destruct (getSolutionAvail_k d (xSol s) k) as [avail least]. simpl in Hl.
  destruct (Qltb _ _).
  - destruct least as [i|]; [|discriminate].
    destruct (getNodeToInstall _ _ _ _) as [v|] eqn:E.
    + apply getNodeToInstall_fits in E. destruct E as [Hv _].
      destruct Hl as [Hi _].
      destruct (phaseII_install_binary_linked k i v s Hk Hi Hv Hy Hx) as [Hy' Hx'].
      now apply IH.
    + now intros [= <-].
  - now intros [= <-].
Qed.

Lemma phaseII_demands_binary_linked fuel l :
  (forall k, In k l -> (k < getNbDemands d)%nat) ->
  forall s r, y_binary d s -> x_linked d s ->
    phaseII_demands d fuel l s = Ok r -> y_binary d (snd r) /\ x_linked d (snd r).
Proof.
  induction l as [|k l IH]; intros Hl s r Hy Hx; simpl.
  - now intros [= <-].
  - destruct (phaseII_while d k fuel s) as [r1| | |] eqn:E; simpl; try discriminate.
    apply phaseII_while_binary_linked in E; auto; [|apply Hl; now left].
    destruct E as [Hy1 Hx1].
    destruct (fst r1).
    + apply IH; auto. intros k' Hk'. apply Hl. now right.
    + now intros [= <-].
Qed.

End PostedSolution.


Lemma sample_vnf_ids_in_range r : vnf_ids_in_range (sample r).
Proof. intros k i _ _. simpl. lia. Qed.


(** ** The objective value that is posted *)

Lemma Qfold_sumQ {A} (g : A -> Q) (l : list A) :
  fold_left (fun acc x => acc + g x) l 0 == sumQ (map g l).
Proof.
  induction l as [|x l IH]; simpl; [reflexivity|].
  rewrite Qfold_shift, IH. ring.
Qed.

Lemma NoDup_placements d : NoDup (nodes d) -> NoDup (placements d).
Proof.
  unfold placements. intros Hl.
  induction Hl as [|v l Hv Hl IH]; simpl; [constructor|].
  apply NoDup_app.
  - apply NoDup_map_NoDup_ForallPairs; [|apply seq_NoDup].
    intros a b _ _ [= ->]. reflexivity.
  - exact IH.
  - intros p Hp Hp'. apply in_map_iff in Hp. destruct Hp as (f & <- & _).
    apply in_flat_map in Hp'. destruct Hp' as (v' & Hv' & Hp').
    apply in_map_iff in Hp'. destruct Hp' as (f' & [= -> _] & _). contradiction.
Qed.

Lemma in_placements d v f :
  In (v, f) (placements d) <-> In v (nodes d) /\ (f < getNbVnfs d)%nat.
Proof.
  unfold placements. rewrite in_flat_map. split.
  - intros (v' & Hv & H). apply in_map_iff in H. destruct H as (f' & [= <- <-] & Hf).
    apply in_seq in Hf. split; [exact Hv|lia].
  - intros [Hv Hf]. exists v. split; [exact Hv|].
    apply in_map_iff. exists f. split; [reflexivity|apply in_seq; lia].
Qed.

Lemma phaseI_place_objective L d ctx v f s :
  exists b : bool,
    ySol (phaseI_place L d ctx v f s) = upd2 (ySol s) v f (if b then 1 else 0)
    /\ objSol (phaseI_place L d ctx v f s)
       == objSol s + getPlacementCost d v f * (if b then 1 else 0).
Proof.
  unfold phaseI_place. destruct (draw_frame L s) as (_ & Hy & _).
  assert (Ho : objSol (snd (draw L s)) = objSol s)
    by (unfold draw; destruct (rand L (rng s)); reflexivity).
  destruct (draw L s) as [RND s0]. cbn [snd] in Hy, Ho.
  destruct (Qle_bool _ _).
  - exists true. simpl. rewrite Hy, Ho. split; [reflexivity|ring].
  - exists false. simpl. rewrite Hy, Ho. split; [reflexivity|ring].
Qed.

Lemma phaseI_places_objective L d ctx (l : list (nat * nat)) :
  NoDup l ->
  forall s,
    let s' := fold_left (fun s p => phaseI_place L d ctx (fst p) (snd p) s) l s in
    (forall p, ~ In p l -> ySol s' (fst p) (snd p) = ySol s (fst p) (snd p))
    /\ objSol s'
       == objSol s
          + sumQ (map (fun p => getPlacementCost d (fst p) (snd p)
                                * ySol s' (fst p) (snd p)) l).
Proof.
  induction 1 as [|p l Hp Hl IH]; intros s; cbn zeta.
  - simpl. split; [reflexivity|ring].
  - cbn [fold_left map sumQ].
    destruct (phaseI_place_objective L d ctx (fst p) (snd p) s) as (b & Ey & Eo).
    set (s1 := phaseI_place L d ctx (fst p) (snd p) s) in *.
    destruct (IH s1) as [I1 I2]. cbn zeta in I1, I2.
    split.
    + intros q Hq. rewrite I1 by (intros H'; apply Hq; now right).
      rewrite Ey. apply upd2_other.
      intros E. apply Hq. left. destruct p, q. simpl in E. congruence.
    + rewrite I2, Eo, (I1 p Hp), Ey, upd2_same. ring.
Qed.

Lemma phaseI_assign_objective L d ctx v k i s :
  ySol (phaseI_assign L d ctx v k i s) = ySol s
  /\ objSol (phaseI_assign L d ctx v k i s) = objSol s.
Proof.
  unfold phaseI_assign.
  destruct (_ && _); [|simpl; auto].
  destruct (draw_frame L s) as (_ & Hy & _).
  assert (Ho : objSol (snd (draw L s)) = objSol s)
    by (unfold draw; destruct (rand L (rng s)); reflexivity).
  destruct (draw L s) as [RND s0]. cbn [snd] in Hy, Ho.
  destruct (Qle_bool RND _); simpl; auto.
Qed.

Lemma phaseI_node_objective L d ctx s v :
  ySol (phaseI_node L d ctx s v) = ySol s
  /\ objSol (phaseI_node L d ctx s v) = objSol s.
Proof.
  rewrite phaseI_node_sections.
  set (s0 := set_remainingCapacity _ s).
  change (ySol s) with (ySol s0). change (objSol s) with (objSol s0).
  generalize s0. generalize (demand_sections d). clear s0.
  induction l as [|p l IH]; intros s0; simpl; [auto|].
  destruct (IH (phaseI_assign L d ctx v (fst p) (snd p) s0)) as [-> ->].
  apply phaseI_assign_objective.
Qed.

Lemma Phase_I_objective L d ctx s :
  NoDup (nodes d) ->
  objSol (runHeuristic_Phase_I L d ctx s)
  == placement_cost d (ySol (runHeuristic_Phase_I L d ctx s)).
Proof.
  intros Hnd. unfold runHeuristic_Phase_I.
  set (s1 := fold_left _ (nodes d) (set_objSol 0 s)).
  assert (H1 : objSol s1 == placement_cost d (ySol s1)).
  { unfold s1, placement_cost.
    pose proof (phaseI_places_objective L d ctx (placements d) (NoDup_placements d Hnd)
                  (set_objSol 0 s)) as [_ H].
    cbn zeta in H. unfold placements in H at 1 2. unfold placements at 1.
    rewrite fold_left_flat_map in H.
    rewrite (fold_left_ext _
               (fun s v => fold_left (fun s f => phaseI_place L d ctx v f s)
                                     (seq 0 (getNbVnfs d)) s)) in H
      by (intros a v; now rewrite fold_left_map).
    rewrite H. change (objSol (set_objSol 0 s)) with 0. apply Qplus_0_l. }
  assert (G : forall l s0, ySol (fold_left (phaseI_node L d ctx) l s0) = ySol s0
                           /\ objSol (fold_left (phaseI_node L d ctx) l s0) = objSol s0).
  { induction l as [|v l IH]; intros s0; simpl; [auto|].
    destruct (IH (phaseI_node L d ctx s0 v)) as [-> ->].
    apply phaseI_node_objective. }
  destruct (G (nodes d) s1) as [-> ->]. exact H1.
Qed.

Lemma sumQ_upd2 (c : nat * nat -> Q) (ys : nat -> nat -> Q) v f x (l : list (nat * nat)) :
  NoDup l -> In (v, f) l ->
  sumQ (map (fun p => c p * upd2 ys v f x (fst p) (snd p)) l)
  == sumQ (map (fun p => c p * ys (fst p) (snd p)) l) + c (v, f) * (x - ys v f).
Proof.
  induction 1 as [|p l Hp Hl IH]; [intros []|].
  assert (Hout : ~ In (v, f) l ->
            sumQ (map (fun p => c p * upd2 ys v f x (fst p) (snd p)) l)
            == sumQ (map (fun p => c p * ys (fst p) (snd p)) l)).
  { clear. induction l as [|q l IH]; intros Hn; simpl; [reflexivity|].
    rewrite IH by (intros H; apply Hn; now right).
    rewrite upd2_other; [reflexivity|].
    intros E. apply Hn. left. destruct q. simpl in E. congruence. }
  intros [->|Hin]; simpl.
  - rewrite upd2_same, Hout by exact Hp. ring.
  - rewrite IH by exact Hin. rewrite upd2_other; [ring|].
    intros E. apply Hp. destruct p. simpl in E. congruence.
Qed.

Lemma phaseII_install_objective d k i v s :
  NoDup (nodes d) -> In v (nodes d) -> (getVNF_i d k i < getNbVnfs d)%nat ->
  objSol s == placement_cost d (ySol s) ->
  objSol (phaseII_install d k i v s)
  == placement_cost d (ySol (phaseII_install d k i v s)).
Proof.
  intros Hnd Hv Hf Hinv. unfold phaseII_install.
  cbn [ySol objSol set_xSol set_remainingCapacity].
  destruct (Qeq_bool (ySol s v (getVNF_i d k i)) 0) eqn:E; [|exact Hinv].
  apply Qeq_bool_iff in E. simpl. unfold placement_cost.
  rewrite (sumQ_upd2 (fun p => getPlacementCost d (fst p) (snd p)) (ySol s)
             v (getVNF_i d k i) 1 (placements d) (NoDup_placements d Hnd))
    by (apply in_placements; auto).
  simpl. rewrite Hinv, E. unfold placement_cost. ring.
Qed.

Lemma phaseII_while_objective d k fuel :
  NoDup (nodes d) -> vnf_ids_in_range d -> (k < getNbDemands d)%nat ->
  forall s r, objSol s == placement_cost d (ySol s) ->
    phaseII_while d k fuel s = Ok r ->
    objSol (snd r) == placement_cost d (ySol (snd r)).
Proof.
  intros Hnd Hids Hk. induction fuel as [|fuel IH]; intros s r Hinv; simpl; [discriminate|].
  destruct (getSolutionAvail_k_spec d (xSol s) k) as [_ Hl].
  destruct (getSolutionAvail_k d (xSol s) k) as [avail least]. simpl in Hl.
  destruct (Qltb _ _).
  - destruct least as [i|]; [|discriminate].
    destruct (getNodeToInstall _ _ _ _) as [v|] eqn:E.
    + apply getNodeToInstall_fits in E. destruct E as [Hv _]. destruct Hl as [Hi _].
      apply IH. apply phaseII_install_objective; auto.
    + now intros [= <-].
  - now intros [= <-].
Qed.

Lemma phaseII_demands_objective d fuel l :
  NoDup (nodes d) -> vnf_ids_in_range d ->
  (forall k, In k l -> (k < getNbDemands d)%nat) ->
  forall s r, objSol s == placement_cost d (ySol s) ->
    phaseII_demands d fuel l s = Ok r ->
    objSol (snd r) == placement_cost d (ySol (snd r)).
Proof.
  intros Hnd Hids. induction l as [|k l IH]; intros Hl s r Hinv; simpl.
  - now intros [= <-].
  - destruct (phaseII_while d k fuel s) as [r1| | |] eqn:E; simpl; try discriminate.
    apply phaseII_while_objective in E; auto; [|apply Hl; now left].
    destruct (fst r1).
    + apply IH; auto. intros k' Hk'. apply Hl. now right.
    + now intros [= <-].
Qed.

Lemma posted_objVal d (ys : nat -> nat -> Q) :
  (forall i, (i < getNbVnfs d)%nat -> getVnfId d i = i) ->
  fold_left (fun objVal v =>
    fold_left (fun objVal i =>
      let f := getVnfId d i in
      objVal + getPlacementCost d v f * ys v f)
    (seq 0 (getNbVnfs d)) objVal)
  (nodes d) 0
  == placement_cost d ys.
Proof.
  intros Hid. unfold placement_cost, placements.
  rewrite <- Qfold_sumQ, Qfold_flat_map.
  rewrite (Qfold_nested (fun v i => getPlacementCost d v (getVnfId d i) * ys v (getVnfId d i))).
  rewrite Qplus_0_l.
  apply Qfold_eq_ext; [|reflexivity].
  intros a a' v _ Ha. rewrite Ha. apply Qplus_inj_l.
  rewrite fold_left_map. simpl.
  apply Qfold_eq_ext; [|reflexivity].
  intros b b' i Hi Hb. apply in_seq in Hi. rewrite Hb, Hid by lia. reflexivity.
Qed.



(** ** Chain cover separation: the shortest violated prefix *)

Lemma find_seq_least (f : nat -> bool) (N a n : nat) :
  find f (seq a N) = Some n
  <-> (a <= n < a + N)%nat /\ f n = true
      /\ forall m, (a <= m < n)%nat -> f m = false.
Proof.
  revert a. induction N as [|N IH]; intros a; simpl.
  - split; [discriminate|]. intros [H _]. lia.
  - destruct (f a) eqn:E.
    + split.
      * intros [= <-]. repeat split; auto; lia.
      * intros (Hn & Hf & Hleast).
        destruct (Nat.eq_dec a n) as [->|Hne]; [reflexivity|].
        rewrite Hleast in E by lia. discriminate.
    + rewrite IH. split.
      * intros (Hn & Hf & Hleast). repeat split; auto; try lia.
        intros m Hm. destruct (Nat.eq_dec m a) as [->|Hne]; [exact E|].
        apply Hleast. lia.
      * intros (Hn & Hf & Hleast).
        assert (a <> n) by (intros ->; congruence).
        repeat split; auto; try lia. intros m Hm. apply Hleast. lia.
Qed.

Lemma chainCover_demand_find d k s :
  chainCover_demand d k s
  = match find (chain_violated d (xSol s) k) (seq 1 (getNbVNFs d k)) with
    | Some n => incrementUsercuts (submit (addUserCut (chain_cut d (xSol s) k n)) s)
    | None => s
    end.
Proof.
  unfold chainCover_demand.
  generalize (seq 1 (getNbVNFs d k)). intros l.
  induction l as [|n l IH]; cbn zeta; [reflexivity|].
  cbn [find]. unfold chain_violated at 1. unfold chain_sums at 1 2. cbn zeta.
  destruct (Qltb _ _); [reflexivity|exact IH].
Qed.

(** The cuts of chainCoverSeparation on the solution [xs]. *)
Lemma chainCoverSeparation_cuts d l :
  forall s,
    let s' := fold_left (fun s k => chainCover_demand d k s) l s in
    xSol s' = xSol s
    /\ cuts_added s s'
         (flat_map (fun k =>
            match find (chain_violated d (xSol s) k) (seq 1 (getNbVNFs d k)) with
            | Some n => [chain_cut d (xSol s) k n]
            | None => []
            end) l).
Proof.
  induction l as [|k l IH]; intros s; cbn zeta; simpl.
  - split; [reflexivity|apply cuts_added_refl].
  - destruct (IH (chainCover_demand d k s)) as [Hx Hc]. cbn zeta in Hx, Hc.
    rewrite chainCover_demand_find in Hx, Hc |- *.
    destruct (find _ _) as [n|].
    + simpl in Hx, Hc. split; [exact Hx|].
      apply (cuts_added_trans _ _ _ [_] _ (cuts_added_one s _) Hc).
    + split; [exact Hx|exact Hc].
Qed.


(** ** isIntegerAssignment *)


(** ** The node-cover cuts are valid inequalities *)

Lemma prodQ_le_member l x :
  (forall y, In y l -> 0 <= y <= 1) -> In x l -> prodQ l <= x.
Proof.
  induction l as [|y l IH]; intros Hb; [intros []|].
  pose proof (Hb y (or_introl eq_refl)) as Hy.
  assert (Hl : 0 <= prodQ l <= 1).
  { rewrite <- (map_id l). apply prodQ_map_unit. intros a Ha. apply Hb. now right. }
  intros [->|Hin]; simpl.
  - nra.
  - assert (prodQ l <= x) by (apply IH; auto; intros z Hz; apply Hb; now right).
    assert (0 <= x <= 1) by (apply Hb; now right). nra.
Qed.

Lemma chain_le_section d k asg i :
  availability_wf d -> (i < getNbVNFs d k)%nat ->
  chain_availability d k asg <= section_availability d (asg i).
Proof.
  intros Hwf Hi. unfold chain_availability. apply prodQ_le_member.
  - intros y Hy. apply in_map_iff in Hy. destruct Hy as (j & <- & _).
    now apply section_availability_unit.
  - apply in_map_iff. exists i. split; [reflexivity|apply in_seq; lia].
Qed.

Section NodeCover.
Variables (d : Data) (asg : nat -> bool).
Hypothesis wf : forall v, In v (nodes d) -> 0 <= nodeAvailability d v <= 1.

Let used (l : list nat) : nat := length (filter asg l).

(** The joint failure of the chosen nodes is at least that of as many nodes
    of the best chosen availability. *)
Lemma failure_at_least_power (l : list nat) (a : Q) :
  (forall u, In u l -> In u (nodes d)) -> 0 <= a <= 1 ->
  (forall u, In u l -> asg u = true -> nodeAvailability d u <= a) ->
  0 <= Qpow (1 - a) (used l)
  /\ Qpow (1 - a) (used l)
     <= prodQ (map (fun v => if asg v then 1 - nodeAvailability d v else 1) l).
Proof.
  intros Hl Ha. unfold Qpow, used.
  induction l as [|u l IH]; intros Hbest; simpl; [lra|].
  destruct IH as [I1 I2];
    [intros w Hw; apply Hl; now right|intros w Hw; apply Hbest; now right|].
  pose proof (wf u (Hl u (or_introl eq_refl))) as Hu.
  destruct (asg u) eqn:E; simpl.
  - pose proof (Hbest u (or_introl eq_refl) E). split; nra.
  - split; lra.
Qed.

Lemma best_used_node (l : list nat) :
  (0 < used l)%nat ->
  exists u, In u l /\ asg u = true
            /\ forall w, In w l -> asg w = true ->
                 nodeAvailability d w <= nodeAvailability d u.
Proof.
  unfold used. induction l as [|v l IH]; simpl; [lia|].
  destruct (asg v) eqn:E; simpl.
  - intros _. destruct (filter asg l) as [|x f] eqn:F.
    + exists v. repeat split; auto. intros w [<-|Hw] Hw'; [lra|].
      exfalso. assert (Hin : In w (filter asg l)) by (apply filter_In; auto).
      rewrite F in Hin. exact Hin.
    + destruct IH as (u & Hu & Hau & Hbest); [simpl; lia|].
      destruct (Qlt_le_dec (nodeAvailability d u) (nodeAvailability d v)) as [Hlt|Hle].
      * exists v. repeat split; auto. intros w [<-|Hw] Hw'; [lra|].
        specialize (Hbest w Hw Hw'). lra.
      * exists u. repeat split; auto. intros w [<-|Hw] Hw'; [exact Hle|].
        now apply Hbest.
  - intros H. destruct (IH H) as (u & Hu & Hau & Hbest).
    exists u. repeat split; auto. intros w [<-|Hw] Hw'; [congruence|].
    now apply Hbest.
Qed.

Variable coeff : nat -> Z.
Hypothesis coeff_pos : forall u, (1 <= coeff u)%Z.

Let lhs (l : list nat) : Q :=
  sumQ (map (fun u => inject_Z (coeff u) * (if asg u then 1 else 0)) l).

Lemma lhs_at_least_used (l : list nat) : inject_Z (Z.of_nat (used l)) <= lhs l.
Proof.
  unfold lhs, used. induction l as [|u l IH]; simpl; [apply Qle_refl|].
  destruct (asg u); simpl length.
  - rewrite Nat2Z.inj_succ, <- Z.add_1_r, inject_Z_plus.
    assert (inject_Z 1 <= inject_Z (coeff u)) by (rewrite <- Zle_Qle; apply coeff_pos).
    change (inject_Z 1) with 1 in *. lra.
  - lra.
Qed.

Lemma lhs_with_member (l : list nat) (u : nat) :
  NoDup l -> In u l -> asg u = true ->
  inject_Z (Z.of_nat (used l) + coeff u - 1) <= lhs l.
Proof.
  induction 1 as [|v l Hv Hl IH]; [intros []|].
  intros [->|Hin] Hu.
  - pose proof (lhs_at_least_used l) as H. unfold lhs, used in *. simpl. rewrite Hu.
    simpl length. rewrite Nat2Z.inj_succ, <- Z.add_1_r.
    replace (Z.of_nat (length (filter asg l)) + 1 + coeff u - 1)%Z
      with (Z.of_nat (length (filter asg l)) + coeff u)%Z by lia.
    rewrite inject_Z_plus. lra.
  - specialize (IH Hin Hu). unfold lhs, used in *. simpl.
    destruct (asg v); simpl length.
    + rewrite Nat2Z.inj_succ, <- Z.add_1_r.
      replace (Z.of_nat (length (filter asg l)) + 1 + coeff u - 1)%Z
        with ((Z.of_nat (length (filter asg l)) + coeff u - 1) + 1)%Z by lia.
      rewrite inject_Z_plus.
      assert (inject_Z 1 <= inject_Z (coeff v)) by (rewrite <- Zle_Qle; apply coeff_pos).
      lra.
    + lra.
Qed.

End NodeCover.

Lemma cover_coeff_pos d c v u : (1 <= cover_coeff d c v u)%Z.
Proof. unfold cover_coeff. destruct (Nat.ltb _ _); lia. Qed.

(** X20.  The node-cover cuts of the pool are valid inequalities: every 0/1
    assignment that gives each demand its required availability satisfies
    each of them.  The nodes are ranked by availability, and getMinNbNodes
    returns no more than the number of nodes of a given availability that
    are needed to reach the requirement. *)
Theorem node_cover_cuts_valid (d : Data) (S : nat -> nat -> nat -> bool)
    (cut : IloRange) :
  availability_wf d ->
  rank_wf d ->
  rank_by_availability d ->
  (forall k, (k < getNbDemands d)%nat -> 0 < getAvailability d k) ->
  (forall k, (k < getNbDemands d)%nat -> minNbNodes_sound d k) ->
  meets_requirements d S ->
  In cut (addAvailabilityCoverConstraints d []) ->
  getLB cut <= eval_expr (val_of S) (getExpr cut).
Proof.
  intros Hwf Hrank Hra Hreq Hsound Hmeets Hin.
  apply in_node_cover_pool in Hin.
  destruct Hin as (k & i & v & Hk & Hi & Hv & _ & ->).
  destruct Hwf as [Hnd Hav].
  unfold nodeCoverCut. cbn [getLB getExpr]. unfold eval_expr. rewrite map_map.
  cbn [fst snd val_of].
  set (c := cover_c d k).
  set (asg := S k i).
  set (n := length (filter asg (nodes d))).
  assert (Hsa : getAvailability d k <= section_availability d asg).
  { eapply Qle_trans; [apply (Hmeets k Hk)|].
    apply chain_le_section; [split; assumption|exact Hi]. }
  unfold section_availability, section_failure in Hsa.
  assert (Hc : forall u, In u (nodes d) -> c u = c_min d k u).
  { intros u Hu. apply cover_c_ranked. now apply rank_wf_in. }
  pose proof (lhs_at_least_used asg (cover_coeff d c v) (cover_coeff_pos d c v) (nodes d))
    as Hused. fold n in Hused.
  assert (Hpos : (0 < n)%nat).
  { destruct n as [|n'] eqn:En; [|lia]. exfalso.
    destruct (failure_at_least_power d asg Hav (nodes d) 0 (fun u H => H)) as [_ H].
    - lra.
    - intros u Hu Hau. exfalso.
      assert (Hf : In u (filter asg (nodes d))) by (apply filter_In; auto).
      unfold n in En. apply length_zero_iff_nil in En. rewrite En in Hf. exact Hf.
    - fold n in H. rewrite En in H. unfold Qpow in H. simpl in H.
      specialize (Hreq k Hk). lra. }
  destruct (best_used_node d asg (nodes d) Hpos) as (u & Hu & Hau & Hbest).
  assert (Hcu : (c u <= Z.of_nat n)%Z).
  { rewrite (Hc u Hu). unfold c_min. apply (Hsound k Hk u n Hu).
    destruct (failure_at_least_power d asg Hav (nodes d) (nodeAvailability d u)
                (fun w H => H) (Hav u Hu) Hbest) as [_ H].
    fold n in H. lra. }
  destruct (Nat.ltb (getNodeRankPosition d u) (getNodeRankPosition d v)) eqn:E.
  - pose proof (lhs_with_member asg (cover_coeff d c v) (cover_coeff_pos d c v)
                  (nodes d) u Hnd Hu Hau) as Hm. fold n in Hm.
    eapply Qle_trans; [|exact Hm]. rewrite <- Zle_Qle.
    unfold cover_coeff. rewrite E. lia.
  - apply Nat.ltb_ge in E.
    assert (Hcv : (c v <= Z.of_nat n)%Z).
    { rewrite (Hc v Hv). unfold c_min. apply (Hsound k Hk v n Hv).
      destruct (failure_at_least_power d asg Hav (nodes d) (nodeAvailability d v)
                  (fun w H => H) (Hav v Hv)) as [_ H].
      - intros w Hw Haw. eapply Qle_trans; [apply (Hbest w Hw Haw)|].
        now apply Hra.
      - fold n in H. lra. }
    eapply Qle_trans; [|exact Hused]. rewrite <- Zle_Qle. exact Hcv.
Qed.

Lemma sample_rank_by_availability r : rank_by_availability (sample r).
Proof.
  intros u w Hu Hw. simpl in Hu, Hw.
  destruct Hu as [<-|[<-|[<-|[]]]]; destruct Hw as [<-|[<-|[<-|[]]]];
    simpl; intros H; try (exfalso; lia); vm_compute; discriminate.
Qed.

Lemma sample_minNbNodes_sound : minNbNodes_sound (sample (97 # 100)) 0.
Proof.
  intros u n Hu. simpl in Hu.
  destruct Hu as [<-|[<-|[<-|[]]]]; destruct n as [|[|[|n]]]; intros H;
    try (exfalso; vm_compute in H; apply H; reflexivity);
    match goal with
    | |- (?m <= ?b)%Z =>
        let v := eval vm_compute in m in
        change (v <= b)%Z; lia
    end.
Qed.

Lemma node_cover_cuts_valid_witness :
  getLB (nodeCoverCut (sample (97 # 100)) (cover_c (sample (97 # 100)) 0) 0 0 1)
  <= eval_expr (val_of (fun _ _ _ => true))
       (getExpr (nodeCoverCut (sample (97 # 100)) (cover_c (sample (97 # 100)) 0) 0 0 1)).
Proof.
  apply (node_cover_cuts_valid (sample (97 # 100)) (fun _ _ _ => true)).
  - apply sample_availability_wf.
  - apply sample_rank_wf.
  - apply sample_rank_by_availability.
  - intros k _. reflexivity.
  - intros k Hk. simpl in Hk. replace k with 0%nat by lia. apply sample_minNbNodes_sound.
  - intros k _. vm_compute. discriminate.
  - apply in_node_cover_pool. exists 0%nat, 0%nat, 1%nat.
    repeat split; simpl; auto.
Defined.

(** ** The greedy availability separation: bookkeeping *)

Lemma fail_of_app d l l' : fail_of d (l ++ l') == fail_of d l * fail_of d l'.
Proof. unfold fail_of. rewrite map_app. apply prodQ_app. Qed.

Lemma fail_of_unit d l :
  (forall v, In v l -> 0 < nodeAvailability d v <= 1) -> 0 <= fail_of d l <= 1.
Proof.
  intros H. unfold fail_of. apply prodQ_map_unit.
  intros v Hv. specialize (H v Hv). lra.
Qed.

Lemma fail_of_below_one d l :
  l <> [] -> (forall v, In v l -> 0 < nodeAvailability d v <= 1) ->
  0 <= fail_of d l < 1.
Proof.
  destruct l as [|v l]; [congruence|]. intros _ H.
  pose proof (fail_of_unit d l (fun u Hu => H u (or_intror Hu))) as Hl.
  pose proof (H v (or_introl eq_refl)) as Hv.
  unfold fail_of in *. simpl. split; nra.
Qed.

Lemma placement_wf_place d k i v h :
  In v (nodes d) -> placement_wf d k h -> placement_wf d k (place i v h).
Proof.
  intros Hv (H1 & H2 & H3). unfold placement_wf, place. simpl. repeat split.
  - intros j u. unfold upd1. destruct (Nat.eqb j i); [|apply H1].
    intros Hu. apply in_app_or in Hu. destruct Hu as [Hu|[<-|[]]]; [now apply (H1 i)|exact Hv].
  - intros j u Hj Hu Hc.
    destruct (upd2_cases (coeff h) i v 0%Z j u) as [_|E].
    + destruct (Nat.eq_dec j i) as [->|Hji].
      * rewrite upd1_same.
        destruct (Nat.eq_dec u v) as [->|Huv]; [apply in_or_app; right; now left|].
        rewrite upd2_other in Hc by congruence.
        apply in_or_app. left. now apply H2.
      * rewrite upd1_other by exact Hji. rewrite upd2_other in Hc by congruence.
        now apply H2.
    + rewrite E in Hc. unfold upd1. destruct (Nat.eqb j i) eqn:Eji.
      * apply Nat.eqb_eq in Eji. subst. apply in_or_app. left. now apply H2.
      * now apply H2.
  - apply binary_coeff_place. exact H3.
Qed.

Lemma place_frame i v h j :
  j <> i -> sectionNodes (place i v h) j = sectionNodes h j.
Proof. intros H. unfold place. simpl. now apply upd1_other. Qed.

(** The nodes placed at the start of a section. *)
Lemma initiate_placing d k (xs : nat -> nat -> nat -> Q) i (l : list nat) h :
  (forall v, In v l -> In v (nodes d)) -> placement_wf d k h ->
  let h1 := fold_left (fun h v =>
              if Qle_bool (1 - EPS) (xs k i v) then place i v h else h) l h in
  placement_wf d k h1
  /\ sectionAvailability h1 = sectionAvailability h
  /\ forall j, j <> i -> sectionNodes h1 j = sectionNodes h j.
Proof.
  revert h. induction l as [|v l IH]; intros h Hl Hw; cbn zeta; simpl.
  - auto.
  - destruct (Qle_bool (1 - EPS) (xs k i v)).
    + destruct (IH (place i v h) (fun u Hu => Hl u (or_intror Hu))
                  (placement_wf_place d k i v h (Hl v (or_introl eq_refl)) Hw))
        as (I1 & I2 & I3).
      cbn zeta in I1, I2, I3. split; [exact I1|]. split; [exact I2|].
      intros j Hj. rewrite I3 by exact Hj. now apply place_frame.
    + apply IH; auto. intros u Hu. apply Hl. now right.
Qed.

Lemma best_ratio_in d k (xs : nat -> nat -> nat -> Q) i (l : list nat) acc :
  let best := fold_left (fun (acc : option nat * Q) v =>
                let '(selectedNode, bestValue) := acc in
                if Qltb bestValue (xs k i v / nodeAvailability d v)
                then (Some v, xs k i v / nodeAvailability d v)
                else acc) l acc in
  (forall u, fst best = Some u -> In u l \/ fst acc = Some u)
  /\ ((fst acc <> None \/ (l <> [] /\ snd acc < 0
                           /\ forall v, In v l -> 0 <= xs k i v / nodeAvailability d v)) ->
      fst best <> None).
Proof.
  revert acc. induction l as [|v l IH]; intros acc; cbn zeta; simpl.
  - split; [auto|]. intros [H|[H _]]; [exact H|congruence].
  - destruct acc as [sel bv]. simpl fst. simpl snd.
    destruct (Qltb bv (xs k i v / nodeAvailability d v)) eqn:E.
    + destruct (IH (Some v, xs k i v / nodeAvailability d v)) as [I1 I2].
      cbn zeta in I1, I2. split.
      * intros u Hu. destruct (I1 u Hu) as [H|H]; [left; now right|].
        simpl in H. injection H as <-. left. now left.
      * intros _. apply I2. left. simpl. discriminate.
    + destruct (IH (sel, bv)) as [I1 I2]. cbn zeta in I1, I2. split.
      * intros u Hu. destruct (I1 u Hu) as [H|H]; [left; now right|now right].
      * intros [H|(_ & Hbv & Hall)]; [apply I2; now left|].
        exfalso. apply Qltb_ge in E.
        pose proof (Hall v (or_introl eq_refl)). simpl in *. lra.
Qed.

Lemma fold_upd2_row {A} (F : nat -> A) (i : nat) (lv : list nat) (m : nat -> nat -> A)
    (i' v' : nat) :
  fold_left (fun m v => upd2 m i v (F v)) lv m i' v'
  = if Nat.eq_dec i' i
    then if in_dec Nat.eq_dec v' lv then F v' else m i' v'
    else m i' v'.
Proof.
  revert m. induction lv as [|v lv IH]; intros m; simpl.
  - destruct (Nat.eq_dec i' i); reflexivity.
  - rewrite IH. destruct (Nat.eq_dec i' i) as [->|Hi].
    + destruct (in_dec Nat.eq_dec v' lv) as [Hin|Hnin].
      * destruct (Nat.eq_dec v v'); reflexivity.
      * destruct (Nat.eq_dec v v') as [->|Hne]; [apply upd2_same|].
        apply upd2_other. congruence.
    + apply upd2_other. congruence.
Qed.

Lemma fold_upd2_grid {A} (F : nat -> nat -> A) (li lv : list nat) (m : nat -> nat -> A)
    (i' v' : nat) :
  In i' li -> In v' lv ->
  fold_left (fun m i => fold_left (fun m v => upd2 m i v (F i v)) lv m) li m i' v'
  = F i' v'.
Proof.
  intros Hi Hv. revert m Hi. induction li as [|i li IH]; intros m Hi; simpl; [destruct Hi|].
  destruct (in_dec Nat.eq_dec i' li) as [Hin|Hnin]; [now apply IH|].
  destruct Hi as [->|Hi]; [|contradiction].
  assert (G : forall l m0, ~ In i' l ->
            fold_left (fun m i => fold_left (fun m v => upd2 m i v (F i v)) lv m) l m0 i' v'
            = m0 i' v').
  { induction l as [|j l IHl]; intros m0 Hn; simpl; [reflexivity|].
    rewrite IHl by (intros H; apply Hn; now right).
    rewrite (fold_upd2_row (F j) j lv m0 i' v').
    destruct (Nat.eq_dec i' j) as [->|Hne]; [|reflexivity].
    exfalso. apply Hn. now left. }
  rewrite G by exact Hnin.
  rewrite (fold_upd2_row (F i') i' lv m i' v').
  destruct (Nat.eq_dec i' i'); [|congruence].
  destruct (in_dec Nat.eq_dec v' lv); [reflexivity|contradiction].
Qed.

Section Initiate.
Variables (d : Data) (k : nat) (xs : nat -> nat -> nat -> Q).
Hypothesis wf : greedy_wf d.

Lemma greedy_wf_avail v : In v (nodes d) -> 0 < nodeAvailability d v <= 1.
Proof. destruct wf as (_ & _ & H & _). apply H. Qed.

Lemma set_availability_tracked (P : nat -> Prop) i h :
  placement_wf d k h -> sectionNodes h i <> [] ->
  (forall j, P j -> j <> i ->
     sectionAvailability h j == 1 - fail_of d (sectionNodes h j)
     /\ 0 < sectionAvailability h j <= 1) ->
  tracked_on d k (fun j => P j \/ j = i)
    (set_sectionAvailability i (1 - getFailureProb d (sectionNodes h i)) h).
Proof.
  intros Hw Hne HP. split; [exact Hw|].
  intros j Hj. unfold set_sectionAvailability. simpl.
  destruct (Nat.eq_dec j i) as [->|Hji].
  - rewrite upd1_same. destruct wf as (_ & _ & _ & _ & Hfp & _).
    rewrite Hfp. fold (fail_of d (sectionNodes h i)).
    pose proof (fail_of_below_one d (sectionNodes h i) Hne) as Hb.
    destruct Hw as (H1 & _).
    destruct Hb as [Hb1 Hb2];
      [intros v Hv; apply greedy_wf_avail; now apply (H1 i)|].
    split; [reflexivity|lra].
  - rewrite upd1_other by exact Hji. destruct Hj as [Hj|Hj]; [now apply HP|contradiction].
Qed.

Lemma initiate_section_tracked (P : nat -> Prop) i h h' :
  tracked_on d k P h -> initiate_section d k xs i h = Ok h' ->
  tracked_on d k (fun j => P j \/ j = i) h'.
Proof.
  intros [Hw HP]. unfold initiate_section.
  destruct (initiate_placing d k xs i (nodes d) h (fun v H => H) Hw) as (W1 & SA1 & F1).
  cbn zeta in W1, SA1, F1.
  set (h1 := fold_left _ (nodes d) h) in *.
  assert (HP1 : forall j, P j -> j <> i ->
            sectionAvailability h1 j == 1 - fail_of d (sectionNodes h1 j)
            /\ 0 < sectionAvailability h1 j <= 1).
  { intros j Hj Hji. rewrite SA1, (F1 j Hji). now apply HP. }
  destruct (sectionNodes h1 i) as [|u l] eqn:En.
  - pose proof (best_ratio_in d k xs i (nodes d) (None, - (1))) as [B1 _].
    cbn zeta in B1.
    destruct (fst (fold_left _ (nodes d) (None, - (1)))) as [sel|]; simpl; [|discriminate].
    intros [= <-].
    assert (Hsel : In sel (nodes d))
      by (destruct (B1 sel eq_refl) as [H|H]; [exact H|discriminate]).
    apply set_availability_tracked.
    + now apply placement_wf_place.
    + unfold place. simpl. rewrite upd1_same. intros H. now apply app_eq_nil in H as [_ H].
    + intros j Hj Hji. rewrite place_frame by exact Hji.
      change (sectionAvailability (place i sel h1)) with (sectionAvailability h1).
      now apply HP1.
  - simpl. intros [= <-]. apply set_availability_tracked; auto.
    rewrite En. discriminate.
Qed.

Lemma initiate_section_returns i h :
  nodes d <> [] -> (forall v, In v (nodes d) -> 0 <= xs k i v) ->
  exists h', initiate_section d k xs i h = Ok h'.
Proof.
  intros Hne Hx. unfold initiate_section.
  set (h1 := fold_left _ (nodes d) h).
  destruct (sectionNodes h1 i) as [|u l]; [|simpl; eauto].
  pose proof (best_ratio_in d k xs i (nodes d) (None, - (1))) as [_ B2].
  cbn zeta in B2.
  destruct (fst (fold_left _ (nodes d) (None, - (1)))) as [sel|]; simpl; [eauto|].
  exfalso. apply B2; [|reflexivity]. right. split; [exact Hne|]. split; [simpl; lra|].
  intros v Hv. pose proof (greedy_wf_avail v Hv) as Ha. specialize (Hx v Hv).
  apply Qle_shift_div_l; lra.
Qed.

Lemma initiate_sections_tracked (l : list nat) :
  forall (P : nat -> Prop) h h',
    tracked_on d k P h -> initiate_sections d k xs l h = Ok h' ->
    tracked_on d k (fun j => P j \/ In j l) h'.
Proof.
  induction l as [|i l IH]; intros P h h' Ht; simpl.
  - intros [= <-]. destruct Ht as [Hw HP]. split; [exact Hw|].
    intros j [Hj|[]]. now apply HP.
  - destruct (initiate_section d k xs i h) as [h1| | |] eqn:E; simpl; try discriminate.
    intros H. apply (initiate_section_tracked P) in E; [|exact Ht].
    apply (IH _ _ _ E) in H. destruct H as [Hw HP]. split; [exact Hw|].
    intros j Hj. apply HP. destruct Hj as [Hj|[<-|Hj]]; auto.
Qed.

Lemma initiate_sections_returns (l : list nat) :
  nodes d <> [] ->
  (forall i v, In i l -> In v (nodes d) -> 0 <= xs k i v) ->
  forall h, exists h', initiate_sections d k xs l h = Ok h'.
Proof.
  intros Hne. induction l as [|i l IH]; intros Hx h; simpl; [eauto|].
  destruct (initiate_section_returns i h Hne) as [h1 ->].
  - intros v Hv. apply Hx; [now left|exact Hv].
  - simpl. apply IH. intros j v Hj Hv. apply Hx; [now right|exact Hv].
Qed.

Lemma initiateHeuristic_tracked h :
  initiateHeuristic d k xs = Ok h -> tracked d k h.
Proof.
  intros H. pose proof (binary_coeff_initiateHeuristic d k xs h H) as Hb.
  unfold initiateHeuristic in H.
  apply (initiate_sections_tracked _ (fun _ => False)) in H.
  - destruct H as [Hw HP]. split; [exact Hw|].
    intros i Hi. apply HP. right. apply in_seq. lia.
  - split; [|intros i []]. repeat split.
    + intros i v [].
    + intros i v Hi Hv. simpl.
      rewrite (fold_upd2_grid (fun _ _ => 1%Z)) by (auto; apply in_seq; lia).
      discriminate.
    + clear H Hb. intros i v. simpl.
      generalize (seq 0 (getNbVNFs d k)).
      assert (H0 : forall i v, (fun _ _ : nat => 0%Z) i v = 0%Z
                               \/ (fun _ _ : nat => 0%Z) i v = 1%Z) by auto.
      revert H0. generalize (fun _ _ : nat => 0%Z) as c.
      intros c Hc l. revert c Hc. induction l as [|j l IH]; intros c Hc; simpl; auto.
      apply IH. clear IH. revert c Hc.
      induction (nodes d) as [|w nd IHn]; intros c Hc; simpl; auto.
      apply IHn. intros i' v'.
      destruct (upd2_cases c j w 1%Z i' v') as [-> | ->]; auto.
Qed.

Lemma initiateHeuristic_returns :
  nodes d <> [] ->
  (forall i v, (i < getNbVNFs d k)%nat -> In v (nodes d) -> 0 <= xs k i v) ->
  exists h, initiateHeuristic d k xs = Ok h.
Proof.
  intros Hne Hx. unfold initiateHeuristic. apply initiate_sections_returns; auto.
  intros i v Hi Hv. apply in_seq in Hi. apply Hx; [lia|exact Hv].
Qed.

End Initiate.

(** ** The greedy availability separation: the loop *)

Lemma computeDeltaAvailability_spec d k CHAIN_AVAIL deltaAvail sectionAvail co i v :
  (i < getNbVNFs d k)%nat -> (v < getNbNodes d)%nat ->
  computeDeltaAvailability d k CHAIN_AVAIL deltaAvail sectionAvail co i v
  = if Z.eqb (co i v) 0 then 10
    else (CHAIN_AVAIL / sectionAvail i)
         * (1 - ((1 - sectionAvail i) * (1 - nodeAvailability d v)))
         - CHAIN_AVAIL.
Proof.
  intros Hi Hv. unfold computeDeltaAvailability.
  set (F := fun i v =>
         if Z.eqb (co i v) 0 then 10
         else (CHAIN_AVAIL / sectionAvail i)
              * (1 - ((1 - sectionAvail i) * (1 - nodeAvailability d v)))
              - CHAIN_AVAIL).
  rewrite (fold_left_ext _
             (fun m i => fold_left (fun m v => upd2 m i v (F i v)) (seq 0 (getNbNodes d)) m)).
  - rewrite (fold_upd2_grid F) by (apply in_seq; lia). reflexivity.
  - intros m j. apply fold_left_ext. intros m' u. unfold F.
    destruct (Z.eqb (co j u) 0); reflexivity.
Qed.

Lemma heur_next_spec d k (xs : nat -> nat -> nat -> Q) REQUIRED_AVAIL chainAvailability
    deltaAvailability i v :
  heur_next d k xs REQUIRED_AVAIL chainAvailability deltaAvailability = Some (i, v) ->
  (i < getNbVNFs d k)%nat /\ In v (nodes d)
  /\ chainAvailability + deltaAvailability i v < REQUIRED_AVAIL.
Proof.
  unfold heur_next.
  set (good := fun acc : option (nat * nat) * Q =>
         forall i v, fst acc = Some (i, v) ->
           (i < getNbVNFs d k)%nat /\ In v (nodes d)
           /\ chainAvailability + deltaAvailability i v < REQUIRED_AVAIL).
  set (inner := fun i (acc : option (nat * nat) * Q) v =>
         let '(next, bestRatio) := acc in
         if Qltb (chainAvailability + deltaAvailability i v) REQUIRED_AVAIL
            && Qltb bestRatio (xs k i v / deltaAvailability i v)
         then (Some (i, v), xs k i v / deltaAvailability i v)
         else acc).
  assert (Hin : forall j l acc, (j < getNbVNFs d k)%nat ->
            (forall u, In u l -> In u (nodes d)) ->
            good acc -> good (fold_left (inner j) l acc)).
  { intros j. induction l as [|u l IH]; intros acc Hj Hl Hacc; simpl; [exact Hacc|].
    apply IH; [exact Hj|intros w Hw; apply Hl; now right|].
    destruct acc as [next best]. unfold inner.
    destruct (Qltb (chainAvailability + deltaAvailability j u) REQUIRED_AVAIL) eqn:E;
      [|exact Hacc].
    destruct (Qltb best _); [|exact Hacc].
    intros i' v' [= <- <-]. apply Qltb_lt in E. repeat split; auto. apply Hl. now left. }
  assert (Hout : forall l acc, (forall j, In j l -> (j < getNbVNFs d k)%nat) ->
            good acc ->
            good (fold_left (fun acc j => fold_left (inner j) (nodes d) acc) l acc)).
  { induction l as [|j l IH]; intros acc Hl Hacc; simpl; [exact Hacc|].
    apply IH; [intros j' Hj'; apply Hl; now right|].
    apply Hin; auto. apply Hl. now left. }
  intros H. apply (Hout (seq 0 (getNbVNFs d k)) (None, - (1))); [| |exact H].
  - intros j Hj. apply in_seq in Hj. lia.
  - intros i' v'. discriminate.
Qed.

Lemma prodQ_upd1 (f : nat -> Q) (i : nat) (x : Q) (l : list nat) :
  NoDup l -> In i l ->
  prodQ (map (upd1 f i x) l) * f i == prodQ (map f l) * x.
Proof.
  induction 1 as [|j l Hj Hl IH]; [intros []|].
  intros [->|Hin]; simpl.
  - rewrite upd1_same.
    rewrite (map_ext_in (upd1 f i x) f l).
    + ring.
    + intros u Hu. apply upd1_other. intros ->. contradiction.
  - rewrite upd1_other by (intros ->; contradiction).
    rewrite <- Qmult_assoc, (IH Hin). ring.
Qed.

Lemma sumZ_upd1_lowered (c : nat -> Z) (v : nat) (l : list nat) :
  (forall u, (0 <= c u)%Z) -> In v l -> c v = 1%Z ->
  (sumZ (map (upd1 c v 0%Z) l) <= sumZ (map c l) - 1)%Z.
Proof.
  intros Hc.
  assert (Hle : forall l, (sumZ (map (upd1 c v 0%Z) l) <= sumZ (map c l))%Z).
  { induction l0 as [|u l0 IH]; simpl; [lia|].
    unfold upd1 at 1. destruct (Nat.eqb u v); [specialize (Hc u)|]; lia. }
  induction l as [|u l IH]; [intros []|].
  intros [->|Hin] Hv; simpl.
  - rewrite upd1_same. specialize (Hle l). lia.
  - specialize (IH Hin Hv). unfold upd1 at 1.
    destruct (Nat.eqb u v); [specialize (Hc u)|]; lia.
Qed.

Lemma open_entries_place d k i v h :
  binary_coeff h -> (i < getNbVNFs d k)%nat -> In v (nodes d) -> coeff h i v = 1%Z ->
  (open_entries d k (place i v h) <= open_entries d k h - 1)%Z.
Proof.
  intros Hb Hi Hv Hc. unfold open_entries, place. simpl.
  assert (Hrow : forall j, (0 <= sumZ (map (coeff h j) (nodes d)))%Z).
  { intros j. generalize (nodes d). intros l0.
    induction l0 as [|u l IH]; simpl; [lia|].
    destruct (Hb j u) as [-> | ->]; lia. }
  assert (G : forall l, In i l ->
            (sumZ (map (fun j => sumZ (map (upd2 (coeff h) i v 0%Z j) (nodes d))) l)
             <= sumZ (map (fun j => sumZ (map (coeff h j) (nodes d))) l) - 1)%Z).
  { assert (Hle : forall j,
              (sumZ (map (upd2 (coeff h) i v 0%Z j) (nodes d))
               <= sumZ (map (coeff h j) (nodes d)))%Z).
    { intros j. generalize (nodes d). intros l0.
      induction l0 as [|u l IH]; simpl; [lia|].
      assert (upd2 (coeff h) i v 0%Z j u <= coeff h j u)%Z.
      { destruct (upd2_cases (coeff h) i v 0%Z j u) as [-> | ->]; [|lia].
        destruct (Hb j u) as [-> | ->]; lia. }
      lia. }
    induction l as [|j l IH]; [intros []|].
    intros Hin. simpl.
    destruct (Nat.eq_dec j i) as [->|Hne].
    - assert (Hrest : (sumZ (map (fun j => sumZ (map (upd2 (coeff h) i v 0%Z j) (nodes d))) l)
                       <= sumZ (map (fun j => sumZ (map (coeff h j) (nodes d))) l))%Z).
      { clear IH Hin. induction l as [|j l IH]; simpl; [lia|]. specialize (Hle j). lia. }
      assert (Hi' : (sumZ (map (upd2 (coeff h) i v 0%Z i) (nodes d))
                     <= sumZ (map (coeff h i) (nodes d)) - 1)%Z).
      { unfold upd2. rewrite upd1_same.
        apply sumZ_upd1_lowered; auto.
        intros u. destruct (Hb i u) as [-> | ->]; lia. }
      lia.
    - destruct Hin as [->|Hin]; [congruence|]. specialize (IH Hin). specialize (Hle j). lia. }
  apply G. apply in_seq. lia.
Qed.

Lemma open_entries_nonneg d k h : binary_coeff h -> (0 <= open_entries d k h)%Z.
Proof.
  intros Hb. unfold open_entries.
  assert (Hrow : forall j, (0 <= sumZ (map (coeff h j) (nodes d)))%Z).
  { intros j. induction (nodes d) as [|u l' IH']; simpl; [lia|].
    destruct (Hb j u) as [-> | ->]; lia. }
  induction (seq 0 (getNbVNFs d k)) as [|j l IH]; simpl; [lia|].
  specialize (Hrow j). lia.
Qed.

Lemma tracked_chain_unit d k h : tracked d k h -> 0 <= tracked_chain d k h <= 1.
Proof.
  intros [_ H]. unfold tracked_chain. apply prodQ_map_unit.
  intros i Hi. apply in_seq in Hi. destruct (H i) as [_ Hb]; [lia|lra].
Qed.

Section GreedyLoop.
Variables (d : Data) (k : nat) (xs : nat -> nat -> nat -> Q).
Hypothesis wf : greedy_wf d.
Hypothesis k_in_range : (k < getNbDemands d)%nat.

Lemma greedy_step chainAvailability deltaAvailability h i v :
  tracked d k h ->
  tracked_chain d k h <= chainAvailability ->
  chainAvailability < getAvailability d k ->
  let delta' := computeDeltaAvailability d k (getAvailability d k) deltaAvailability
                  (sectionAvailability h) (coeff h) in
  heur_next d k xs (getAvailability d k) chainAvailability delta' = Some (i, v) ->
  let h' := place i v
              (set_sectionAvailability i
                 (1 - ((1 - sectionAvailability h i) * (1 - nodeAvailability d v))) h) in
  tracked d k h'
  /\ tracked_chain d k h' <= chainAvailability + delta' i v
  /\ chainAvailability + delta' i v < getAvailability d k
  /\ (open_entries d k h' <= open_entries d k h - 1)%Z.
Proof.
  intros Ht Hc Hlt delta' Hnext h'.
  destruct (heur_next_spec _ _ _ _ _ _ _ _ Hnext) as (Hi & Hv & Hsel).
  pose proof (tracked_chain_unit d k h Ht) as Hunit.
  destruct wf as (Hnd & Hids & Hav & Hreq & Hfp & Hca).
  pose proof (Hreq k k_in_range) as Hr.
  pose proof (Hav v Hv) as Ha.
  destruct Ht as [Hw Hsec].
  destruct (Hsec i Hi) as [Hexact Hsa].
  assert (Ed : delta' i v
               = if Z.eqb (coeff h i v) 0 then 10
                 else (getAvailability d k / sectionAvailability h i)
                      * (1 - ((1 - sectionAvailability h i) * (1 - nodeAvailability d v)))
                      - getAvailability d k)
    by (apply computeDeltaAvailability_spec; auto).
  destruct (Z.eqb (coeff h i v) 0) eqn:E0.
  { exfalso. rewrite Ed in Hsel. lra. }
  assert (Hone : coeff h i v = 1%Z).
  { destruct Hw as (_ & _ & Hb). destruct (Hb i v) as [H|H]; [|exact H].
    rewrite H in E0. discriminate. }
  set (sa := sectionAvailability h i) in *.
  set (a := nodeAvailability d v) in *.
  set (n := 1 - (1 - sa) * (1 - a)) in *.
  assert (Hn : sa <= n <= 1) by (unfold n; split; nra).
  assert (Hw' : placement_wf d k h').
  { unfold h'. apply placement_wf_place; [exact Hv|]. exact Hw. }
  split; [|split; [|split]].
  - split; [exact Hw'|]. intros j Hj. unfold h', place, set_sectionAvailability. simpl.
    destruct (Nat.eq_dec j i) as [->|Hji].
    + rewrite !upd1_same. split; [|lra].
      rewrite fail_of_app. unfold fail_of at 2. simpl. fold a.
      unfold n. rewrite Hexact. ring.
    + rewrite !upd1_other by exact Hji. now apply Hsec.
  - assert (Hprod : tracked_chain d k h' * sa == tracked_chain d k h * n).
    { unfold tracked_chain, h', place, set_sectionAvailability. simpl.
      apply prodQ_upd1; [apply seq_NoDup|apply in_seq; lia]. }
    rewrite Ed.
    set (q := getAvailability d k / sa).
    assert (Hq : q * sa == getAvailability d k).
    { unfold q. field. lra. }
    fold n.
    apply (Qmult_le_r _ _ sa); [lra|].
    rewrite Hprod.
    setoid_replace ((chainAvailability + (q * n - getAvailability d k)) * sa)
      with (chainAvailability * sa + (q * sa) * n - getAvailability d k * sa) by ring.
    rewrite Hq. nra.
  - exact Hsel.
  - unfold h'.
    change (open_entries d k h)
      with (open_entries d k (set_sectionAvailability i n h)).
    apply open_entries_place; auto. destruct Hw as (_ & _ & Hb). exact Hb.
Qed.

Lemma heur_while_tracked fuel :
  forall chainAvailability deltaAvailability h h',
    tracked d k h ->
    tracked_chain d k h <= chainAvailability ->
    chainAvailability < getAvailability d k ->
    heur_while d k xs (getAvailability d k) fuel chainAvailability deltaAvailability h
    = Ok h' ->
    tracked d k h' /\ tracked_chain d k h' < getAvailability d k.
Proof.
  induction fuel as [|fuel IH]; intros T delta h h' Ht Hc Hlt; simpl; [discriminate|].
  destruct (heur_next _ _ _ _ _ _) as [[i v]|] eqn:E.
  - destruct (greedy_step T delta h i v Ht Hc Hlt E) as (S1 & S2 & S3 & _).
    apply IH; assumption.
  - intros [= <-]. split; [exact Ht|lra].
Qed.

Lemma heur_while_returns fuel :
  forall chainAvailability deltaAvailability h,
    tracked d k h ->
    tracked_chain d k h <= chainAvailability ->
    chainAvailability < getAvailability d k ->
    (open_entries d k h < Z.of_nat fuel)%Z ->
    exists h',
      heur_while d k xs (getAvailability d k) fuel chainAvailability deltaAvailability h
      = Ok h'.
Proof.
  induction fuel as [|fuel IH]; intros T delta h Ht Hc Hlt Hfuel.
  - exfalso. destruct Ht as [(_ & _ & Hb) _].
    pose proof (open_entries_nonneg d k h Hb). simpl in Hfuel. lia.
  - cbn [heur_while].
    destruct (heur_next _ _ _ _ _ _) as [[i v]|] eqn:E; [|eauto].
    destruct (greedy_step T delta h i v Ht Hc Hlt E) as (S1 & S2 & S3 & S4).
    apply IH; auto. lia.
Qed.

End GreedyLoop.

(** ** The greedy availability cut is valid *)

Lemma prodQ_filter_le (g : nat -> Q) (p : nat -> bool) (l : list nat) :
  (forall v, In v l -> 0 <= g v <= 1) ->
  0 <= prodQ (map g l) /\ prodQ (map g l) <= prodQ (map g (filter p l)).
Proof.
  induction l as [|v l IH]; intros H; simpl; [lra|].
  destruct IH as [I1 I2]; [intros u Hu; apply H; now right|].
  pose proof (H v (or_introl eq_refl)) as Hv.
  assert (I3 : 0 <= prodQ (map g (filter p l)) <= 1).
  { apply prodQ_map_unit. intros u Hu. apply filter_In in Hu. apply H. now right. }
  destruct (p v); simpl; split; nra.
Qed.

Lemma prodQ_member_out (g : nat -> Q) (u : nat) (l : list nat) :
  (forall v, In v l -> 0 <= g v <= 1) -> In u l ->
  prodQ (map g l) <= g u * prodQ (map g (filter (fun v => negb (Nat.eqb v u)) l)).
Proof.
  induction l as [|w l IH]; intros H; [intros []|].
  pose proof (H w (or_introl eq_refl)) as Hw.
  assert (Hl : forall v, In v l -> 0 <= g v <= 1) by (intros v Hv; apply H; now right).
  destruct (prodQ_filter_le g (fun v => negb (Nat.eqb v u)) l Hl) as [F1 F2].
  intros Hin. simpl. destruct (Nat.eqb w u) eqn:E; simpl.
  - apply Nat.eqb_eq in E. subst. nra.
  - destruct Hin as [->|Hin]; [rewrite Nat.eqb_refl in E; discriminate|].
    specialize (IH Hl Hin).
    assert (0 <= g u <= 1) by (apply H; now right). nra.
Qed.

Lemma prodQ_cover (g : nat -> Q) (asg : nat -> bool) (ns : list nat) :
  NoDup ns ->
  forall l,
    (forall v, In v l -> In v ns) ->
    (forall v, In v ns -> asg v = true -> In v l) ->
    (forall v, In v ns -> 0 <= g v <= 1) ->
    prodQ (map g l) <= prodQ (map (fun v => if asg v then g v else 1) ns).
Proof.
  induction 1 as [|u ns Hu Hns IH]; intros l Hsub Hasg Hg.
  - destruct l as [|v l]; [simpl; lra|]. destruct (Hsub v (or_introl eq_refl)).
  - set (l' := filter (fun v => negb (Nat.eqb v u)) l).
    assert (Hgl : forall v, In v l -> 0 <= g v <= 1) by (intros v Hv; apply Hg, Hsub, Hv).
    assert (Hl' : prodQ (map g l') <= prodQ (map (fun v => if asg v then g v else 1) ns)).
    { apply IH.
      - intros v Hv. apply filter_In in Hv. destruct Hv as [Hv Hne].
        apply negb_true_iff, Nat.eqb_neq in Hne.
        destruct (Hsub v Hv) as [->|H]; [congruence|exact H].
      - intros v Hv Ha. apply filter_In. split; [apply Hasg; [now right|exact Ha]|].
        apply negb_true_iff, Nat.eqb_neq. intros ->. contradiction.
      - intros v Hv. apply Hg. now right. }
    pose proof (Hg u (or_introl eq_refl)) as Hgu.
    simpl. destruct (asg u) eqn:E.
    + pose proof (prodQ_member_out g u l Hgl (Hasg u (or_introl eq_refl) E)) as Hm.
      fold l' in Hm. nra.
    + destruct (prodQ_filter_le g (fun v => negb (Nat.eqb v u)) l Hgl) as [_ Hf].
      fold l' in Hf. lra.
Qed.

Lemma greedy_cut_valid d k h :
  greedy_wf d -> (k < getNbDemands d)%nat ->
  tracked d k h -> tracked_chain d k h < getAvailability d k ->
  valid_cut d (greedy_cut d k h).
Proof.
  intros Hwf Hk [Hw Hsec] Hlt S Hmeets.
  destruct Hwf as (Hnd & _ & Hav & _).
  assert (Hawf : availability_wf d).
  { split; [exact Hnd|]. intros v Hv. specialize (Hav v Hv). lra. }
  cbn [getLB getExpr greedy_cut].
  assert (Hunit : forall t,
            In t (flat_map (fun i =>
                    flat_map (fun v => if Z.eqb (coeff h i v) 1
                                       then [(1, x_var k i v)] else [])
                             (nodes d))
                  (seq 0 (getNbVNFs d k))) -> fst t = 1).
  { intros t Ht. apply in_flat_map in Ht. destruct Ht as (i & _ & Ht).
    apply in_flat_map in Ht. destruct Ht as (v & _ & Ht).
    destruct (Z.eqb (coeff h i v) 1); [|destruct Ht].
    destruct Ht as [<-|[]]. reflexivity. }
  destruct (eval_expr_unit_coeffs S _ Hunit) as [_ Heval].
  destruct (existsb (fun i =>
              existsb (fun v => Z.eqb (coeff h i v) 1 && S k i v) (nodes d))
            (seq 0 (getNbVNFs d k))) eqn:Ex.
  - apply existsb_exists in Ex. destruct Ex as (i & Hi & Ex).
    apply existsb_exists in Ex. destruct Ex as (v & Hv & Ex).
    apply andb_true_iff in Ex. destruct Ex as [Ec Es].
    apply (Heval (1, x_var k i v)).
    + apply in_flat_map. exists i. split; [exact Hi|].
      apply in_flat_map. exists v. split; [exact Hv|]. rewrite Ec. now left.
    + simpl. rewrite Es. reflexivity.
  - exfalso.
    assert (Hnone : forall i v, (i < getNbVNFs d k)%nat -> In v (nodes d) ->
              S k i v = true -> In v (sectionNodes h i)).
    { intros i v Hi Hv Hs. destruct Hw as (_ & H2 & Hb). apply H2; auto.
      destruct (Hb i v) as [H|H]; [exact H|]. exfalso.
      assert (Hex : existsb (fun i =>
                existsb (fun v => Z.eqb (coeff h i v) 1 && S k i v) (nodes d))
              (seq 0 (getNbVNFs d k)) = true).
      { apply existsb_exists. exists i. split; [apply in_seq; lia|].
        apply existsb_exists. exists v. split; [exact Hv|]. now rewrite H, Hs. }
      congruence. }
    assert (Hle : chain_availability d k (S k) <= tracked_chain d k h).
    { unfold chain_availability, tracked_chain. apply prodQ_map_bounds.
      intros i Hi. apply in_seq in Hi.
      destruct (Hsec i) as [Hexact Hb]; [lia|].
      split; [apply section_availability_unit; exact Hawf|].
      rewrite Hexact. unfold section_availability, section_failure, fail_of.
      assert (prodQ (map (fun v => 1 - nodeAvailability d v) (sectionNodes h i))
              <= prodQ (map (fun v => if S k i v then 1 - nodeAvailability d v else 1)
                            (nodes d))); [|lra].
      apply (prodQ_cover (fun v => 1 - nodeAvailability d v) (S k i) (nodes d) Hnd).
      - destruct Hw as (H1 & _). apply H1.
      - intros v Hv Hs. apply Hnone; auto. lia.
      - intros v Hv. specialize (Hav v Hv). lra. }
    specialize (Hmeets k Hk). lra.
Qed.

Lemma heurSeparation_demand_valid d fuel k s s' :
  greedy_wf d -> (k < getNbDemands d)%nat ->
  heurSeparation_demand d fuel k s = Ok s' ->
  submitted_with (valid_cut d) s s'.
Proof.
  intros Hwf Hk. unfold heurSeparation_demand.
  destruct (initiateHeuristic d k (xSol s)) as [h| | |] eqn:E0; simpl; try discriminate.
  apply (initiateHeuristic_tracked d k (xSol s) Hwf) in E0.
  destruct (Qltb _ (getAvailability d k)) eqn:Elt; [|intros [= <-]; apply submitted_with_refl].
  apply Qltb_lt in Elt.
  destruct (heur_while _ _ _ _ _ _ _ _) as [h'| | |] eqn:E1; simpl; try discriminate.
  apply (heur_while_tracked d k (xSol s) Hwf Hk) in E1; auto.
  - destruct E1 as [Ht Hc].
    destruct (Qltb _ (1 - EPS)); intros [= <-]; [|apply submitted_with_refl].
    exists [greedy_cut d k h']. simpl. repeat split; auto.
    constructor; [|constructor]. now apply greedy_cut_valid.
  - destruct Hwf as (_ & _ & _ & _ & _ & Hca). rewrite Hca in *.
    unfold tracked_chain. lra.
Qed.

Lemma for_each_submitted_with (P : IloRange -> Prop) (body : nat -> State -> Result State)
    (l : list nat) :
  (forall a s s', In a l -> body a s = Ok s' -> submitted_with P s s') ->
  forall s s', for_each body l s = Ok s' -> submitted_with P s s'.
Proof.
  induction l as [|a l IH]; intros Hb s s'; simpl.
  - intros [= <-]. apply submitted_with_refl.
  - destruct (body a s) as [s1| | |] eqn:E; simpl; try discriminate.
    intros H. eapply submitted_with_trans.
    + apply (Hb a s s1); [now left|exact E].
    + apply IH; [|exact H]. intros b x x' Hb'. apply Hb. now right.
Qed.


Lemma sample_greedy_wf : greedy_wf (sample (97 # 100)).
Proof.
  split; [|split; [|split; [|split; [|split]]]].
  - simpl. repeat constructor; simpl; intuition discriminate.
  - intros v Hv. simpl in Hv. unfold getNbNodes. simpl.
    destruct Hv as [<-|[<-|[<-|[]]]]; lia.
  - intros v Hv. simpl in Hv.
    destruct Hv as [<-|[<-|[<-|[]]]]; split; vm_compute; (reflexivity || discriminate).
  - intros k _. split; vm_compute; discriminate.
  - intros l. simpl.
    assert (G : forall acc,
              fold_left (fun p v => p * (1 - sample_avail v)) l acc
              == acc * prodQ (map (fun v => 1 - sample_avail v) l)).
    { induction l as [|v l IH]; intros acc; simpl; [ring|]. rewrite IH. ring. }
    rewrite G. ring.
  - intros l. simpl.
    assert (G : forall acc, fold_left Qmult l acc == acc * prodQ l).
    { induction l as [|v l IH]; intros acc; simpl; [ring|]. rewrite IH. ring. }
    rewrite G. ring.
Qed.


(** ** The greedy availability separation returns *)

Lemma open_entries_bound d k h :
  binary_coeff h ->
  (open_entries d k h <= Z.of_nat (getNbVNFs d k * length (nodes d)))%Z.
Proof.
  intros Hb. unfold open_entries.
  assert (Hrow : forall j, (sumZ (map (coeff h j) (nodes d)) <= Z.of_nat (length (nodes d)))%Z).
  { intros j. induction (nodes d) as [|u l IH]; simpl length; simpl; [lia|].
    destruct (Hb j u) as [-> | ->]; lia. }
  assert (G : forall l,
            (sumZ (map (fun i => sumZ (map (coeff h i) (nodes d))) l)
             <= Z.of_nat (length l * length (nodes d)))%Z).
  { induction l as [|j l IH]; simpl length; simpl; [lia|]. specialize (Hrow j). lia. }
  specialize (G (seq 0 (getNbVNFs d k))). now rewrite length_seq in G.
Qed.

Lemma heurSeparation_demand_returns d fuel k s :
  greedy_wf d -> (k < getNbDemands d)%nat -> nodes d <> [] ->
  (forall i v, (i < getNbVNFs d k)%nat -> In v (nodes d) -> 0 <= xSol s k i v) ->
  (getNbVNFs d k * length (nodes d) < fuel)%nat ->
  exists s', heurSeparation_demand d fuel k s = Ok s' /\ xSol s' = xSol s.
Proof.
  intros Hwf Hk Hne Hx Hfuel. unfold heurSeparation_demand.
  destruct (initiateHeuristic_returns d k (xSol s) Hwf Hne Hx) as [h E0].
  rewrite E0. simpl.
  apply (initiateHeuristic_tracked d k (xSol s) Hwf) in E0.
  destruct (Qltb _ (getAvailability d k)) eqn:Elt; [|eauto].
  apply Qltb_lt in Elt.
  destruct (heur_while_returns d k (xSol s) Hwf Hk fuel
              (getChainAvailability d (map (sectionAvailability h) (seq 0 (getNbVNFs d k))))
              (fun _ _ => 0) h E0) as [h' E1].
  - destruct Hwf as (_ & _ & _ & _ & _ & Hca). rewrite Hca. unfold tracked_chain. lra.
  - exact Elt.
  - destruct E0 as [(_ & _ & Hb) _]. pose proof (open_entries_bound d k h Hb). lia.
  - rewrite E1. simpl. destruct (Qltb _ (1 - EPS)); eauto.
Qed.

Lemma for_each_returns (Inv : State -> Prop) (body : nat -> State -> Result State)
    (l : list nat) :
  (forall a s, In a l -> Inv s -> exists s', body a s = Ok s' /\ Inv s') ->
  forall s, Inv s -> exists s', for_each body l s = Ok s' /\ Inv s'.
Proof.
  induction l as [|a l IH]; intros Hb s Hs; simpl; [eauto|].
  destruct (Hb a s (or_introl eq_refl) Hs) as (s1 & -> & H1). simpl.
  apply IH; [|exact H1]. intros b x Hb' Hx. apply Hb; [now right|exact Hx].
Qed.

(** X22.  The greedy availability separation returns.  Each round of its
    loop picks a (section, node) whose coefficient is still 1 and sets it to
    0, so that the loop of a demand makes at most (sections x nodes) rounds;
    with a non-empty graph and a non-negative solution every section gets an
    initial node, so the index -1 is never used. *)
Theorem greedy_separation_returns (d : Data) (fuel : nat) (s : State) :
  greedy_wf d ->
  nodes d <> [] ->
  (forall k i v, (k < getNbDemands d)%nat -> (i < getNbVNFs d k)%nat -> In v (nodes d) ->
     0 <= xSol s k i v) ->
  (forall k, (k < getNbDemands d)%nat -> (getNbVNFs d k * length (nodes d) < fuel)%nat) ->
  exists s',
    heuristicSeparationOfAvailibilityConstraints d fuel s = Ok s' /\ xSol s' = xSol s.
Proof.
  intros Hwf Hne Hx Hfuel. unfold heuristicSeparationOfAvailibilityConstraints.
  destruct (for_each_returns (fun s1 => xSol s1 = xSol s) (heurSeparation_demand d fuel)
              (seq 0 (getNbDemands d))) with (s := s) as (s' & E & Hs'); [|reflexivity|eauto].
  intros k s1 Hk H1. apply in_seq in Hk.
  destruct (heurSeparation_demand_returns d fuel k s1 Hwf) as (s2 & E2 & H2); auto; try lia.
  - intros i v Hi Hv. rewrite H1. apply Hx; auto. lia.
  - apply Hfuel. lia.
  - exists s2. split; [exact E2|congruence].
Qed.

Lemma greedy_separation_returns_witness :
  exists s',
    heuristicSeparationOfAvailibilityConstraints (sample (97 # 100)) 7
      (Callback sample_libc (sample (97 # 100)) 0) = Ok s'
    /\ xSol s' = xSol (Callback sample_libc (sample (97 # 100)) 0).
Proof.
  apply (greedy_separation_returns (sample (97 # 100)) 7).
  - apply sample_greedy_wf.
  - discriminate.
  - intros k i v _ _ _. simpl. lra.
  - intros k _. simpl. lia.
Defined.

(** ** The dispatcher returns *)

Lemma generalizedCoverSeparation_xSol d s :
  xSol (generalizedCoverSeparation d s) = xSol s.
Proof. unfold generalizedCoverSeparation. destruct (gen_search d (xSol s)); reflexivity. Qed.

Lemma addUserCuts_returns d fuel ctx s :
  getId ctx = Relaxation ->
  greedy_wf d -> nodes d <> [] ->
  (forall k i v, (k < getNbDemands d)%nat -> (i < getNbVNFs d k)%nat -> In v (nodes d) ->
     0 <= getRelaxationPoint ctx (x_var k i v)) ->
  (forall k, (k < getNbDemands d)%nat -> (getNbVNFs d k * length (nodes d) < fuel)%nat) ->
  exists s', addUserCuts d fuel ctx s = Ok s'.
Proof.
  intros Hid Hwf Hne Hx Hfuel. unfold addUserCuts, getFractionalSolution.
  rewrite Hid. simpl. rewrite checkCutPool_eq.
  set (s0 := set_xSol _ s).
  destruct (existsb _ _); [eauto|].
  set (sa := add_cuts _ s0).
  set (sb := if getChainCover (getInput d)
             then chainCoverSeparation d (generalizedCoverSeparation d sa) else sa).
  destruct (getAvailabilityUsercuts (getInput d)); [|eauto].
  assert (Hsb : xSol sb = xSol s0).
  { unfold sb. destruct (getChainCover (getInput d)).
    - destruct (chainCoverSeparation_cuts d (seq 0 (getNbDemands d))
                  (generalizedCoverSeparation d sa)) as [E _].
      cbn zeta in E. unfold chainCoverSeparation. rewrite E.
      rewrite generalizedCoverSeparation_xSol. apply add_cuts_xSol.
    - apply add_cuts_xSol. }
  unfold heuristicSeparationOfAvailibilityConstraints.
  destruct (for_each_returns (fun s1 => xSol s1 = xSol s0) (heurSeparation_demand d fuel)
              (seq 0 (getNbDemands d))) with (s := sb) as (s' & E & _); [|exact Hsb|eauto].
  intros k s1 Hk H1. apply in_seq in Hk.
  destruct (heurSeparation_demand_returns d fuel k s1 Hwf) as (s2 & E2 & H2); auto; try lia.
  - intros i v Hi Hv. rewrite H1. unfold s0. simpl.
    rewrite fill_x_in_range by (auto; lia). apply Hx; auto. lia.
  - apply Hfuel. lia.
  - exists s2. split; [exact E2|congruence].
Qed.

Lemma load_nonneg d xs v :
  (forall k i, (k < getNbDemands d)%nat -> 0 <= req_capacity d k i) ->
  0 <= load d xs v.
Proof.
  intros Hreq. unfold load. apply sumQ_nonneg.
  intros [k i] Hp. apply in_demand_sections in Hp. destruct Hp as [Hk _].
  unfold load_term. simpl. destruct (Qeq_bool _ _); [now apply Hreq|lra].
Qed.

Lemma sumQ_map_le {A} (f g : A -> Q) (l : list A) :
  (forall a, In a l -> f a <= g a) -> sumQ (map f l) <= sumQ (map g l).
Proof.
  induction l as [|a l IH]; intros H; simpl; [lra|].
  pose proof (H a (or_introl eq_refl)).
  assert (sumQ (map f l) <= sumQ (map g l)) by (apply IH; intros b Hb; apply H; now right).
  lra.
Qed.

Lemma runHeuristic_returns L d fuel ctx s delta :
  0 < delta ->
  (forall k i, (k < getNbDemands d)%nat -> delta <= req_capacity d k i) ->
  (forall k, (k < getNbDemands d)%nat -> getAvailability d k <= 1) ->
  (forall v, In v (nodes d) -> 0 <= getCapacity d v) ->
  sumQ (map (getCapacity d) (nodes d)) < inject_Z (Z.of_nat fuel) * delta ->
  exists s', runHeuristic L d fuel ctx s = Ok s'.
Proof.
  intros Hd Hreq Hav Hcap Hfuel. unfold runHeuristic.
  destruct (negb (getHeuristic (getInput d))); [eauto|].
  destruct (heuristicRule L d ctx s) as [go s0].
  destruct (negb go); [eauto|].
  set (s1 := runHeuristic_Phase_I L d ctx s0).
  pose proof (capacity_inv_Phase_I L d ctx s0 Hcap) as Hinv. fold s1 in Hinv.
  destruct (phaseII_demands_returns d delta Hd Hreq Hav fuel (seq 0 (getNbDemands d)))
    with (s := s1) as (b & s2 & E).
  - intros k Hk. apply in_seq in Hk. lia.
  - intros v Hv. apply (Hinv v Hv).
  - eapply Qle_lt_trans; [|exact Hfuel]. unfold total_remaining.
    apply sumQ_map_le. intros v Hv. destruct (Hinv v Hv) as [_ H2].
    assert (0 <= load d (xSol s1) v).
    { apply load_nonneg. intros k i Hk. specialize (Hreq k i Hk). lra. }
    lra.
  - unfold runHeuristic_Phase_II. rewrite E. simpl.
    destruct (b && _); eauto.
Qed.



(** ** The posted solution satisfies the formulation *)

Lemma sumQ_app l l' : sumQ (l ++ l') == sumQ l + sumQ l'.
Proof. induction l as [|x l IH]; simpl; [ring|]. rewrite IH. ring. Qed.

Lemma sumQ_map_eq {A} (f g : A -> Q) (l : list A) :
  (forall a, In a l -> f a == g a) -> sumQ (map f l) == sumQ (map g l).
Proof.
  induction l as [|a l IH]; intros H; simpl; [reflexivity|].
  rewrite (H a) by now left. rewrite IH; [reflexivity|].
  intros b Hb. apply H. now right.
Qed.

Lemma eval_expr_app val e e' :
  eval_expr val (e ++ e') == eval_expr val e + eval_expr val e'.
Proof. unfold eval_expr. rewrite map_app. apply sumQ_app. Qed.

Lemma eval_expr_flat_map {A} val (f : A -> IloExpr) (l : list A) :
  eval_expr val (flat_map f l) == sumQ (map (fun a => eval_expr val (f a)) l).
Proof.
  induction l as [|a l IH]; simpl; [reflexivity|].
  rewrite eval_expr_app, IH. reflexivity.
Qed.

Lemma eval_expr_map {A} val (g : A -> Q * Var) (l : list A) :
  eval_expr val (map g l) = sumQ (map (fun a => fst (g a) * val (snd (g a))) l).
Proof. unfold eval_expr. now rewrite map_map. Qed.

Lemma sumQ_demand_sections d (g : nat * nat -> Q) :
  sumQ (map g (demand_sections d))
  == sumQ (map (fun k => sumQ (map (fun i => g (k, i)) (seq 0 (getNbVNFs d k))))
               (seq 0 (getNbDemands d))).
Proof.
  unfold demand_sections. generalize (seq 0 (getNbDemands d)). intros l.
  induction l as [|k l IH]; simpl; [reflexivity|].
  rewrite map_app, sumQ_app, IH, map_map. reflexivity.
Qed.

Section ModelFeasibility.
Variables (d : Data) (s : State) (val : Var -> Q).
Hypothesis feasible : integer_feasible d s.
Hypothesis reads : reads_state d s val.
Hypothesis ids : vnf_ids_in_range d.
Hypothesis req_nonneg : forall k i, 0 <= req_capacity d k i.

Lemma x_binary k i v :
  (k < getNbDemands d)%nat -> (i < getNbVNFs d k)%nat -> In v (nodes d) ->
  val (x_var k i v) = 0 \/ val (x_var k i v) = 1.
Proof.
  intros Hk Hi Hv. destruct reads as [_ Hx]. rewrite Hx by assumption.
  destruct feasible as (_ & Hl & _). destruct (Hl k i v Hk Hi Hv) as [H|[H _]]; auto.
Qed.

Lemma y_binary_val v f :
  In v (nodes d) -> (f < getNbVnfs d)%nat -> val (y_var v f) = 0 \/ val (y_var v f) = 1.
Proof.
  intros Hv Hf. destruct reads as [Hy _]. rewrite Hy by assumption.
  destruct feasible as (Hb & _). now apply Hb.
Qed.

Lemma x_needs_y k i v :
  (k < getNbDemands d)%nat -> (i < getNbVNFs d k)%nat -> In v (nodes d) ->
  val (y_var v (getVNF_i d k i)) = 0 -> val (x_var k i v) = 0.
Proof.
  intros Hk Hi Hv Hy0. destruct reads as [Hy Hx].
  rewrite Hx by assumption. rewrite Hy in Hy0 by (auto using ids).
  destruct feasible as (_ & Hl & _). destruct (Hl k i v Hk Hi Hv) as [H|[_ H]]; [exact H|].
  rewrite H in Hy0. discriminate.
Qed.

(** The capacity that the sections with vnf [f] take on node [v], and the
    whole load of [v], as the expressions of the model evaluate them. *)
Lemma capacity_terms_load v :
  In v (nodes d) ->
  sumQ (map (fun p => req_capacity d (fst p) (snd p) * val (x_var (fst p) (snd p) v))
            (demand_sections d))
  == load d (xSol s) v.
Proof.
  intros Hv. unfold load. apply sumQ_map_eq.
  intros [k i] Hp. apply in_demand_sections in Hp. destruct Hp as [Hk Hi].
  unfold load_term. cbn [fst snd].
  destruct reads as [_ Hx]. rewrite Hx by assumption.
  destruct feasible as (_ & Hl & _).
  destruct (Hl k i v Hk Hi Hv) as [-> | [-> _]]; simpl; ring.
Qed.

Lemma node_capacity_satisfied c :
  In c (setNodeCapacityConstraints d) -> satisfies val c.
Proof.
  unfold setNodeCapacityConstraints. intros Hc. apply in_map_iff in Hc.
  destruct Hc as (v & <- & Hv). unfold satisfies. cbn [lower upper body].
  assert (E : eval_expr val
                (flat_map (fun k =>
                   map (fun i =>
                     (getBandwidth d k * getConsumption d (getVNF_i d k i), x_var k i v))
                   (seq 0 (getNbVNFs d k)))
                 (seq 0 (getNbDemands d)))
              == load d (xSol s) v).
  { rewrite <- (capacity_terms_load v Hv).
    rewrite eval_expr_flat_map, sumQ_demand_sections.
    apply sumQ_map_eq. intros k _. rewrite eval_expr_map. reflexivity. }
  rewrite E. split.
  - apply load_nonneg. intros k i _. apply req_nonneg.
  - destruct feasible as (_ & _ & Hcap & _). now apply Hcap.
Qed.

Lemma vnf_placement_satisfied c :
  In c (setVnfPlacementConstraints d) -> satisfies val c.
Proof.
  unfold setVnfPlacementConstraints. intros Hc.
  apply in_flat_map in Hc. destruct Hc as (k & Hk & Hc).
  apply in_flat_map in Hc. destruct Hc as (i & Hi & Hc).
  apply in_map_iff in Hc. destruct Hc as (v & <- & Hv).
  apply in_seq in Hk. apply in_seq in Hi.
  unfold satisfies. cbn [lower upper body]. split; [exact I|].
  unfold eval_expr. simpl.
  assert (Hk' : (k < getNbDemands d)%nat) by lia.
  assert (Hi' : (i < getNbVNFs d k)%nat) by lia.
  destruct (y_binary_val v (getVNF_i d k i) Hv (ids k i Hk' Hi')) as [Hy|Hy].
  - rewrite (x_needs_y k i v Hk' Hi' Hv Hy), Hy. lra.
  - rewrite Hy. destruct (x_binary k i v Hk' Hi' Hv) as [-> | ->]; lra.
Qed.

Lemma sumQ_le_length {A} (g : A -> Q) (l : list A) :
  (forall a, In a l -> g a <= 1) -> sumQ (map g l) <= inject_Z (Z.of_nat (length l)).
Proof.
  induction l as [|a l IH]; intros H; [simpl; apply Qle_refl|].
  simpl length. rewrite Nat2Z.inj_succ, <- Z.add_1_r, inject_Z_plus. simpl sumQ.
  pose proof (H a (or_introl eq_refl)).
  assert (sumQ (map g l) <= inject_Z (Z.of_nat (length l)))
    by (apply IH; intros b Hb; apply H; now right).
  change (inject_Z 1) with 1. lra.
Qed.

Lemma bigM_is_number_of_sections :
  fold_left (fun bigM k => (bigM + Z.of_nat (getNbVNFs d k))%Z) (seq 0 (getNbDemands d)) 0%Z
  = Z.of_nat (length (demand_sections d)).
Proof.
  unfold demand_sections.
  assert (G : forall l b,
            fold_left (fun bigM k => (bigM + Z.of_nat (getNbVNFs d k))%Z) l b
            = (b + Z.of_nat (length (flat_map (fun k => map (fun i => (k, i))
                                                 (seq 0 (getNbVNFs d k))) l)))%Z).
  { induction l as [|k l IH]; intros b; simpl; [lia|].
    rewrite IH, length_app, length_map, length_seq. lia. }
  rewrite G. lia.
Qed.

(** Value of the terms that a placement family writes for vnf [f] on [v]. *)
Lemma filtered_terms (coeff : nat -> nat -> Q) f v :
  eval_expr val
    (flat_map (fun k =>
       flat_map (fun i =>
         if Nat.eqb (getVNF_i d k i) f then [(coeff k i, x_var k i v)] else [])
       (seq 0 (getNbVNFs d k)))
     (seq 0 (getNbDemands d)))
  == sumQ (map (fun p =>
             if Nat.eqb (getVNF_i d (fst p) (snd p)) f
             then coeff (fst p) (snd p) * val (x_var (fst p) (snd p) v) else 0)
           (demand_sections d)).
Proof.
  rewrite eval_expr_flat_map, sumQ_demand_sections.
  apply sumQ_map_eq. intros k _. rewrite eval_expr_flat_map.
  apply sumQ_map_eq. intros i _. cbn [fst snd].
  destruct (Nat.eqb (getVNF_i d k i) f); unfold eval_expr; simpl; ring.
Qed.

Lemma filtered_terms_zero (coeff : nat -> nat -> Q) f v :
  In v (nodes d) -> val (y_var v f) = 0 ->
  sumQ (map (fun p =>
         if Nat.eqb (getVNF_i d (fst p) (snd p)) f
         then coeff (fst p) (snd p) * val (x_var (fst p) (snd p) v) else 0)
       (demand_sections d)) == 0.
Proof.
  intros Hv Hy. apply sumQ_zero.
  intros q Hq. apply in_map_iff in Hq. destruct Hq as ([k i] & <- & Hp).
  apply in_demand_sections in Hp. destruct Hp as [Hk Hi]. cbn [fst snd].
  destruct (Nat.eqb (getVNF_i d k i) f) eqn:E; [|reflexivity].
  apply Nat.eqb_eq in E. rewrite <- E in Hy.
  rewrite (x_needs_y k i v Hk Hi Hv Hy). ring.
Qed.

Lemma original_placement_satisfied c :
  In c (setOriginalVnfPlacementConstraints d) -> satisfies val c.
Proof.
  unfold setOriginalVnfPlacementConstraints. intros Hc.
  apply in_flat_map in Hc. destruct Hc as (f & Hf & Hc).
  apply in_map_iff in Hc. destruct Hc as (v & <- & Hv).
  apply in_seq in Hf.
  unfold satisfies. cbn [lower upper body]. split; [exact I|].
  rewrite eval_expr_app, (filtered_terms (fun _ _ => 1)).
  rewrite bigM_is_number_of_sections.
  unfold eval_expr at 1. simpl.
  destruct (y_binary_val v f Hv) as [Hy|Hy]; [lia| |].
  - rewrite (filtered_terms_zero (fun _ _ => 1) f v Hv Hy), Hy. lra.
  - rewrite Hy.
    assert (Hle : sumQ (map (fun p =>
                     if Nat.eqb (getVNF_i d (fst p) (snd p)) f
                     then 1 * val (x_var (fst p) (snd p) v) else 0)
                   (demand_sections d))
                  <= inject_Z (Z.of_nat (length (demand_sections d)))).
    { apply sumQ_le_length. intros [k i] Hp.
      apply in_demand_sections in Hp. destruct Hp as [Hk Hi]. cbn [fst snd].
      destruct (Nat.eqb _ _); [|lra].
      destruct (x_binary k i v Hk Hi Hv) as [-> | ->]; lra. }
    lra.
Qed.

Lemma strong_capacity_satisfied c :
  In c (setStrongNodeCapacityConstraints d) -> satisfies val c.
Proof.
  unfold setStrongNodeCapacityConstraints. intros Hc.
  apply in_flat_map in Hc. destruct Hc as (v & Hv & Hc).
  apply in_map_iff in Hc. destruct Hc as (f & <- & Hf).
  apply in_seq in Hf.
  unfold satisfies. cbn [lower upper body]. split; [exact I|].
  rewrite eval_expr_app.
  rewrite (filtered_terms
             (fun k i => getBandwidth d k * getConsumption d (getVNF_i d k i))).
  unfold eval_expr at 1. simpl.
  destruct (y_binary_val v f Hv) as [Hy|Hy]; [lia| |].
  - pose proof (filtered_terms_zero
                    (fun k i => getBandwidth d k * getConsumption d (getVNF_i d k i))
                    f v Hv Hy) as Hz.
    cbv beta in Hz. rewrite Hz, Hy. lra.
  - rewrite Hy.
    assert (Hle : sumQ (map (fun p =>
                     if Nat.eqb (getVNF_i d (fst p) (snd p)) f
                     then getBandwidth d (fst p)
                          * getConsumption d (getVNF_i d (fst p) (snd p))
                          * val (x_var (fst p) (snd p) v)
                     else 0)
                   (demand_sections d))
                  <= load d (xSol s) v).
    { rewrite <- (capacity_terms_load v Hv). apply sumQ_map_le.
      intros [k i] Hp. apply in_demand_sections in Hp. destruct Hp as [Hk Hi].
      cbn [fst snd]. pose proof (req_nonneg k i) as Hr. unfold req_capacity in *.
      destruct (Nat.eqb _ _); [lra|].
      destruct (x_binary k i v Hk Hi Hv) as [-> | ->]; lra. }
    destruct feasible as (_ & _ & Hcap & _). specialize (Hcap v Hv). lra.
Qed.

Lemma assignment_fold (F : Formulation) (l : list (nat * nat)) :
  forall acc cs,
    fold_left (fun acc p =>
      match acc with
      | None => None
      | Some constraints =>
          let '(k, i) := p in
          let exp := map (fun v => (1, x_var k i v)) (nodes d) in
          let rhs := getMinNbNodes1 F (getAvailability d k) in
          if Z.leb 1 rhs
          then Some (constraints ++ [{| lower := Some (inject_Z rhs); body := exp;
                                        upper := None; label := VNF_Assignment k i |}])
          else None
      end) l (Some acc) = Some cs ->
    cs = acc ++ map (fun p =>
                  {| lower := Some (inject_Z (getMinNbNodes1 F (getAvailability d (fst p))));
                     body := map (fun v => (1, x_var (fst p) (snd p) v)) (nodes d);
                     upper := None;
                     label := VNF_Assignment (fst p) (snd p) |}) l.
Proof.
  induction l as [|[k i] l IH]; intros acc cs; simpl.
  - intros [= <-]. now rewrite app_nil_r.
  - destruct (Z.leb 1 (getMinNbNodes1 F (getAvailability d k))).
    + intros H. apply IH in H. rewrite H, <- app_assoc. reflexivity.
    + assert (G : forall l',
                fold_left (fun acc p =>
                  match acc with
                  | None => None
                  | Some constraints =>
                      let '(k, i) := p in
                      let exp := map (fun v => (1, x_var k i v)) (nodes d) in
                      let rhs := getMinNbNodes1 F (getAvailability d k) in
                      if Z.leb 1 rhs
                      then Some (constraints
                                 ++ [{| lower := Some (inject_Z rhs); body := exp;
                                        upper := None; label := VNF_Assignment k i |}])
                      else None
                  end) l' None = None)
        by (induction l' as [|p l' IHl]; simpl; auto).
      rewrite G. discriminate.
Qed.

Lemma assignment_satisfied (F : Formulation) cs c :
  availability_wf d -> minNbNodes1_sound d F ->
  setVnfAssignmentConstraints d F = Some cs -> In c cs -> satisfies val c.
Proof.
  intros Hwf Hsound Hcs Hc. unfold setVnfAssignmentConstraints in Hcs.
  apply assignment_fold in Hcs. subst cs. simpl in Hc.
  apply in_map_iff in Hc. destruct Hc as ([k i] & <- & Hp).
  change (flat_map (fun k => map (fun i => (k, i)) (seq 0 (getNbVNFs d k)))
                   (seq 0 (getNbDemands d))) with (demand_sections d) in Hp.
  apply in_demand_sections in Hp. destruct Hp as [Hk Hi].
  unfold satisfies. cbn [lower upper body fst snd]. split; [|exact I].
  rewrite eval_expr_map. cbn [fst snd].
  eapply Qle_trans; [apply (Hsound k (sol_asg (xSol s) k i) Hk)|].
  - eapply Qle_trans; [|apply (chain_le_section d k (sol_asg (xSol s) k) i Hwf Hi)].
    destruct feasible as (_ & _ & _ & Hav). now apply Hav.
  - apply sumQ_map_le. intros v Hv. unfold sol_asg.
    destruct reads as [_ Hx]. rewrite Hx by assumption.
    destruct feasible as (_ & Hl & _).
    destruct (Hl k i v Hk Hi Hv) as [-> | [-> _]]; simpl; lra.
Qed.

Lemma constraints_satisfied (F : Formulation) cs :
  availability_wf d -> minNbNodes1_sound d F ->
  getRoutingActivation F = false ->
  getApproximationType (getInput d) = APPROXIMATION_TYPE_NONE ->
  setConstraints d F = Some cs -> Forall (satisfies val) cs.
Proof.
  intros Hwf Hsound Hrouting Happrox. unfold setConstraints.
  destruct (setVnfAssignmentConstraints d F) as [ca|] eqn:Ea; [|discriminate].
  destruct (getDisaggregatedVnfPlacement F) as [dis|]; [|discriminate].
  rewrite Hrouting, Happrox. intros [= <-].
  assert (H1 : Forall (satisfies val) ca)
    by (apply Forall_forall; intros c Hc; now apply (assignment_satisfied F ca)).
  assert (H2 : Forall (satisfies val) (setNodeCapacityConstraints d))
    by (apply Forall_forall; apply node_capacity_satisfied).
  assert (H3 : Forall (satisfies val)
                 (if dis then setVnfPlacementConstraints d
                  else setOriginalVnfPlacementConstraints d)).
  { apply Forall_forall. destruct dis;
      [apply vnf_placement_satisfied|apply original_placement_satisfied]. }
  assert (H4 : Forall (satisfies val) (setStrongNodeCapacityConstraints d))
    by (apply Forall_forall; apply strong_capacity_satisfied).
  destruct (getStrongNodeCapacity F).
  - apply Forall_app. split; [|exact H4].
    apply Forall_app. split; [|exact H3]. apply Forall_app. now split.
  - apply Forall_app. split; [|exact H3]. apply Forall_app. now split.
Qed.

End ModelFeasibility.

Lemma Var_eqb_eq a b : Var_eqb a b = true <-> a = b.
Proof.
  destruct a as [k i v|v f], b as [k' i' v'|v' f']; simpl;
    try (split; [discriminate|discriminate]).
  - rewrite !andb_true_iff, !Nat.eqb_eq. split; [intros [[-> ->] ->]|intros [= -> -> ->]]; auto.
  - rewrite andb_true_iff, !Nat.eqb_eq. split; [intros [-> ->]|intros [= -> ->]]; auto.
Qed.

Lemma point_of_maps {A} (g : A -> Var) (h : A -> Q) (l : list A) vars2 vals2 x :
  point_of (map g l ++ vars2) (map h l ++ vals2) x
  = match find (fun p => Var_eqb x (g p)) l with
    | Some p => h p
    | None => point_of vars2 vals2 x
    end.
Proof.
  induction l as [|p l IH]; simpl; [reflexivity|].
  destruct (Var_eqb x (g p)); [reflexivity|exact IH].
Qed.

Lemma find_none_iff {A} (f : A -> bool) (l : list A) :
  (forall a, In a l -> f a = false) -> find f l = None.
Proof.
  induction l as [|a l IH]; intros H; simpl; [reflexivity|].
  rewrite (H a) by now left. apply IH. intros b Hb. apply H. now right.
Qed.

Lemma point_of_found {A} (g : A -> Var) (h : A -> Q) (l : list A) vars2 vals2 (p : A) :
  In p l -> (forall q, g q = g p -> h q = h p) ->
  point_of (map g l ++ vars2) (map h l ++ vals2) (g p) = h p.
Proof.
  intros Hp Hinj. rewrite point_of_maps.
  destruct (find (fun q => Var_eqb (g p) (g q)) l) as [q|] eqn:E.
  - apply find_some in E. destruct E as [_ E]. apply Var_eqb_eq in E.
    apply Hinj. now symmetry.
  - exfalso. apply (find_none _ _ E) in Hp.
    assert (Var_eqb (g p) (g p) = true) by (now apply Var_eqb_eq). congruence.
Qed.

(** The point posted by insertHeuristicSolution is the solution of the state. *)
Lemma posted_point_reads_state d s vars vals objVal :
  host (insertHeuristicSolution d s) = host s ++ [postHeuristicSolution vars vals objVal] ->
  reads_state d s (point_of vars vals).
Proof.
  unfold insertHeuristicSolution. cbn [host submit]. intros H.
  apply app_inv_head in H. injection H as <- <- _.
  split.
  - intros v f Hv Hf.
    apply (point_of_found (fun p => y_var (fst p) (snd p))
             (fun p => ySol s (fst p) (snd p)) _ _ _ (v, f)).
    + apply in_flat_map. exists v. split; [exact Hv|].
      apply in_map_iff. exists f. split; [reflexivity|apply in_seq; lia].
    + intros [v' f'] [= -> ->]. reflexivity.
  - intros k i v Hk Hi Hv.
    rewrite point_of_maps, find_none_iff by (intros p _; reflexivity).
    set (triples := flat_map _ (seq 0 (getNbDemands d))).
    rewrite <- (app_nil_r (map (fun t => x_var (fst (fst t)) (snd (fst t)) (snd t)) triples)).
    rewrite <- (app_nil_r (map (fun t => xSol s (fst (fst t)) (snd (fst t)) (snd t)) triples)).
    apply (point_of_found (fun t => x_var (fst (fst t)) (snd (fst t)) (snd t))
             (fun t => xSol s (fst (fst t)) (snd (fst t)) (snd t)) _ _ _ (k, i, v)).
    + unfold triples. apply in_flat_map. exists k. split; [apply in_seq; lia|].
      apply in_flat_map. exists i. split; [apply in_seq; lia|].
      apply in_map_iff. exists v. split; [reflexivity|exact Hv].
    + intros [[k' i'] v'] [= -> -> ->]. reflexivity.
Qed.

Lemma objective_value d s val :
  reads_state d s val ->
  (forall i, (i < getNbVnfs d)%nat -> getVnfId d i = i) ->
  eval_expr val (setObjective d) == placement_cost d (ySol s).
Proof.
  intros [Hy _] Hid. unfold setObjective, placement_cost, placements.
  rewrite eval_expr_flat_map.
  rewrite (sumQ_map_eq _ (fun v => sumQ (map (fun f => getPlacementCost d v f * ySol s v f)
                                            (seq 0 (getNbVnfs d))))).
  - generalize (nodes d). intros l. induction l as [|v l IH]; simpl; [reflexivity|].
    rewrite map_app, sumQ_app, IH, map_map. reflexivity.
  - intros v Hv. rewrite eval_expr_map. cbn [fst snd].
    apply sumQ_map_eq. intros i Hi. apply in_seq in Hi.
    rewrite Hid, Hy by (auto; lia). reflexivity.
Qed.

(** What runHeuristic ends with when it posts. *)
Lemma runHeuristic_outcome L d fuel ctx s s' :
  vnf_ids_in_range d ->
  (forall v, In v (nodes d) -> 0 <= getCapacity d v) ->
  (forall k i, 0 <= req_capacity d k i) ->
  runHeuristic L d fuel ctx s = Ok s' ->
  host s' = host s
  \/ exists s2,
       s' = insertHeuristicSolution d s2
       /\ host s2 = host s
       /\ integer_feasible d s2
       /\ getApproximationType (getInput d) = APPROXIMATION_TYPE_NONE
       /\ (NoDup (nodes d) -> objSol s2 == placement_cost d (ySol s2)).
Proof.
  intros Hids Hcap Hreq. unfold runHeuristic.
  destruct (negb (getHeuristic (getInput d))); [intros [= <-]; now left|].
  pose proof (accounted_heuristicRule (fun _ => false) L d ctx s) as Hrule.
  assert (Happrox : fst (heuristicRule L d ctx s) = true ->
                    getApproximationType (getInput d) = APPROXIMATION_TYPE_NONE).
  { unfold heuristicRule. destruct (getApproximationType (getInput d)); auto; discriminate. }
  destruct (heuristicRule L d ctx s) as [go s0]. cbn [fst snd] in Hrule, Happrox.
  assert (Hhost : forall a b, accounted (fun _ => false) a b -> host b = host a).
  { intros a b (added & _ & Hh & Hall & _). rewrite Hh.
    destruct added as [|x added]; [apply app_nil_r|].
    inversion Hall; discriminate. }
  assert (H0 : host s0 = host s) by (now apply Hhost).
  destruct go; [|intros [= <-]; now left]. simpl negb. cbv iota.
  set (s1 := runHeuristic_Phase_I L d ctx s0).
  destruct (runHeuristic_Phase_II d fuel s1) as [[b s2]| | |] eqn:E; simpl; try discriminate.
  assert (H01 : host s1 = host s0) by (apply Hhost, accounted_Phase_I).
  assert (H12 : host s2 = host s1)
    by (apply (Hhost s1 (snd (b, s2))), (accounted_phaseII_demands _ _ _ _ _ _ E)).
  destruct (b && Qltb (objSol s2) (getIncumbentObjective ctx)) eqn:G; intros [= <-];
    [|left; congruence].
  right. exists s2. apply andb_true_iff in G. destruct G as [-> _].
  split; [reflexivity|]. split; [congruence|].
  destruct (Phase_I_binary_linked L d ctx Hids s0) as [Hy1 Hx1].
  unfold runHeuristic_Phase_II in E.
  assert (Hin : forall k, In k (seq 0 (getNbDemands d)) -> (k < getNbDemands d)%nat)
    by (intros k Hk; apply in_seq in Hk; lia).
  destruct (phaseII_demands_binary_linked d Hids fuel (seq 0 (getNbDemands d))
              Hin s1 _ Hy1 Hx1 E) as [Hy2 Hx2].
  split; [|split; [now apply Happrox|]].
  - split; [exact Hy2|]. split; [exact Hx2|]. split.
    + intros v Hv.
      pose proof (phaseII_demands_inv d fuel _ s1 _ Hreq
                    (capacity_inv_Phase_I L d ctx s0 Hcap) E v Hv) as [Hc1 Hc2].
      simpl in Hc1, Hc2. lra.
    + intros k Hk.
      pose proof (phaseII_demands_true d fuel _ (seq_NoDup _ _) s1 s2 E) as [Ht _].
      destruct (getSolutionAvail_k_spec d (xSol s2) k) as [<- _].
      apply Ht. apply in_seq. lia.
  - intros Hnd.
    apply (phaseII_demands_objective d fuel (seq 0 (getNbDemands d)) Hnd Hids Hin)
      with (s := s1) (r := (true, s2)); [apply Phase_I_objective; exact Hnd|exact E].
Qed.


Lemma sample_minNbNodes1_sound : minNbNodes1_sound (sample (97 # 100)) sample_formulation.
Proof.
  intros k asg _ H. unfold section_availability, section_failure in H.
  simpl nodes in *. cbn [map prodQ sumQ] in *.
  destruct (asg 0%nat), (asg 1%nat), (asg 2%nat);
    try (vm_compute; discriminate).
  exfalso. vm_compute in H. apply H. reflexivity.
Qed.


(** ** getParameterValue *)

Lemma string_length_append s1 s2 :
  String.length (String.append s1 s2) = (String.length s1 + String.length s2)%nat.
Proof. induction s1 as [|a s1 IH]; simpl; [reflexivity|]. now rewrite IH. Qed.

Lemma substring_whole s : String.substring 0 (String.length s) s = s.
Proof. induction s as [|a s IH]; simpl; [reflexivity|]. now rewrite IH. Qed.

Lemma substr_append s1 s2 : substr (String.append s1 s2) (String.length s1) = s2.
Proof.
  unfold substr. rewrite string_length_append.
  replace (String.length s1 + String.length s2 - String.length s1)%nat
    with (String.length s2) by lia.
  induction s1 as [|a s1 IH]; simpl; [apply substring_whole|exact IH].
Qed.

Lemma prefix_append s1 s2 : String.prefix s1 (String.append s1 s2) = true.
Proof.
  induction s1 as [|a s1 IH]; simpl; [now destruct s2|].
  destruct (Ascii.ascii_dec a a); [exact IH|congruence].
Qed.

Lemma index_append s1 s2 : String.index 0 s1 (String.append s1 s2) = Some 0%nat.
Proof.
  pose proof (prefix_append s1 s2) as H.
  destruct (String.append s1 s2) as [|b s] eqn:E; simpl.
  - destruct s1; [reflexivity|discriminate].
  - simpl in H. rewrite H. reflexivity.
Qed.

(** X25.  getParameterValue returns what follows the pattern on the first
    line of the parameters file that contains it: if no earlier line contains
    the pattern, a line made of the pattern and a value yields that value;
    when no line contains the pattern the result is the empty string, and
    the program exits when the file cannot be opened. *)
Theorem getParameterValue_first_line (pre post : list String.string)
    (pattern value : String.string) :
  (forall line, In line pre -> String.index 0 pattern line = None) ->
  getParameterValue (Some (pre ++ String.append pattern value :: post)) pattern
  = Some value
  /\ getParameterValue (Some pre) pattern = Some String.EmptyString
  /\ getParameterValue None pattern = None.
Proof.
  intros Hpre. unfold getParameterValue.
  assert (Hnone : first_return (fun line =>
                    match String.index 0 pattern line with
                    | Some pos => Some (substr line (pos + String.length pattern))
                    | None => None
                    end) pre = None).
  { induction pre as [|l pre IH]; simpl; [reflexivity|].
    rewrite (Hpre l) by now left. apply IH. intros l' Hl'. apply Hpre. now right. }
  split; [|split; [now rewrite Hnone|reflexivity]].
  rewrite first_return_app, Hnone. simpl.
  rewrite index_append. simpl. now rewrite substr_append.
Qed.

Lemma getParameterValue_first_line_witness :
  getParameterValue (Some sample_parameters) "lazy="%string = Some "1"%string.
Proof.
  apply (getParameterValue_first_line ["nodeFile=nodes.csv"%string] ["heuristic=0"%string]
           "lazy="%string "1"%string).
  intros line [<-|[]]. reflexivity.
Defined.

(** ** The availability reported for the final solution *)

Lemma nb_violation_fold (viol : nat -> bool) l (acc : Z) :
  fold_left (fun nb k => if viol k then (nb + 1)%Z else nb) l acc
  = (acc + Z.of_nat (length (filter viol l)))%Z.
Proof.
  revert acc. induction l as [|k l IH]; intros acc; simpl; [lia|].
  rewrite IH. destruct (viol k); simpl length; lia.
Qed.

Lemma max_violation_fold (gap : nat -> Q) l (m : Q) :
  let m' := fold_left (fun m k => if Qltb (m + report_tolerance) (gap k) then gap k else m)
                      l m in
  m <= m'
  /\ (forall k, In k l -> gap k <= m' + report_tolerance)
  /\ (m' = m \/ exists k, In k l /\ m' = gap k /\ m + report_tolerance < gap k).
Proof.
  revert m. induction l as [|k l IH]; intros m; cbn zeta; cbn [fold_left].
  - split; [apply Qle_refl|]. split; [intros k []|now left].
  - destruct (Qltb (m + report_tolerance) (gap k)) eqn:E.
    + apply Qltb_lt in E.
      destruct (IH (gap k)) as (I1 & I2 & I3). cbn zeta in I1, I2, I3.
      assert (Ht : 0 < report_tolerance) by reflexivity.
      split; [lra|]. split.
      * intros j [<-|Hj]; [lra|now apply I2].
      * right. destruct I3 as [I3|(j & Hj & I3 & I4)].
        -- exists k. split; [now left|]. split; [exact I3|exact E].
        -- exists j. split; [now right|]. split; [exact I3|lra].
    + apply Qltb_ge in E.
      destruct (IH m) as (I1 & I2 & I3). cbn zeta in I1, I2, I3.
      split; [exact I1|]. split.
      * intros j [<-|Hj]; [lra|now apply I2].
      * destruct I3 as [I3|(j & Hj & I3 & I4)]; [now left|].
        right. exists j. split; [now right|]. split; assumption.
Qed.

Lemma filter_nil_iff {A} (p : A -> bool) l :
  filter p l = [] <-> forall a, In a l -> p a = false.
Proof.
  induction l as [|a l IH]; simpl.
  - split; [intros _ a []|reflexivity].
  - destruct (p a) eqn:E.
    + split; [discriminate|]. intros H. specialize (H a (or_introl eq_refl)). congruence.
    + rewrite IH. split.
      * intros H b [<-|Hb]; [exact E|now apply H].
      * intros H b Hb. apply H. now right.
Qed.

Lemma no_violation_iff d value :
  getNbAvailViolation d value = 0%Z
  <-> forall k, (k < getNbDemands d)%nat -> availability_gap d value k <= report_tolerance.
Proof.
  unfold getNbAvailViolation.
  rewrite (nb_violation_fold
             (fun k => Qltb (getServiceAvail d value k + (1 # 1000000000000))
                            (getAvailability d k))).
  rewrite Z.add_0_l. split.
  - intros H k Hk.
    assert (Hnil : filter (fun k => Qltb (getServiceAvail d value k + (1 # 1000000000000))
                                         (getAvailability d k))
                          (seq 0 (getNbDemands d)) = []).
    { destruct (filter _ _); [reflexivity|simpl in H; lia]. }
    pose proof (proj1 (filter_nil_iff _ _) Hnil k) as Hf. cbv beta in Hf.
    apply Qltb_ge in Hf; [|apply in_seq; lia].
    unfold availability_gap, report_tolerance. lra.
  - intros H.
    replace (filter _ _) with (@nil nat); [reflexivity|].
    symmetry. apply filter_nil_iff. intros k Hk. apply in_seq in Hk.
    apply Qltb_ge. specialize (H k ltac:(lia)).
    unfold availability_gap, report_tolerance in H. lra.
Qed.

Lemma max_violation_facts d value :
  0 <= getMaxAvailViolation d value
  /\ (forall k, (k < getNbDemands d)%nat ->
        availability_gap d value k <= getMaxAvailViolation d value + report_tolerance)
  /\ (getMaxAvailViolation d value = 0
      \/ exists k, (k < getNbDemands d)%nat
           /\ getMaxAvailViolation d value = availability_gap d value k
           /\ report_tolerance < availability_gap d value k).
Proof.
  destruct (max_violation_fold (availability_gap d value) (seq 0 (getNbDemands d)) 0)
    as (H1 & H2 & H3).
  change (fold_left _ _ 0) with (getMaxAvailViolation d value) in H1, H2, H3.
  split; [exact H1|]. split.
  - intros k Hk. apply H2. apply in_seq. lia.
  - destruct H3 as [H3|(k & Hk & H3 & H4)]; [now left|].
    right. exists k. apply in_seq in Hk. split; [lia|]. split; [exact H3|].
    rewrite Qplus_0_l in H4. exact H4.
Qed.

Lemma Qfold_prodQ {A} (g : A -> Q) (l : list A) (a : Q) :
  fold_left (fun acc x => acc * g x) l a == a * prodQ (map g l).
Proof.
  revert a. induction l as [|x l IH]; intros a; simpl; [ring|].
  rewrite IH. ring.
Qed.

Lemma getServiceAvail_chain d value xs k :
  (forall i v, (i < getNbVNFs d k)%nat -> In v (nodes d) ->
     Qltb (1 - EPS) (value (x_var k i v)) = assigned (xs k i v)) ->
  getServiceAvail d value k == chain_availability d k (row_asg (xs k)).
Proof.
  intros H. unfold getServiceAvail, chain_availability. cbn zeta.
  rewrite (Qfold_prodQ (fun i =>
    1 - fold_left (fun unavail v =>
          if Qltb (1 - EPS) (value (x_var k i v))
          then unavail * (1 - nodeAvailability d v) else unavail) (nodes d) 1)).
  rewrite Qmult_1_l. apply prodQ_map_eq. intros i Hi. apply in_seq in Hi.
  unfold section_availability, section_failure.
  rewrite (fold_left_failure d (fun v => Qltb (1 - EPS) (value (x_var k i v)))).
  rewrite Qmult_1_l.
  assert (E : prodQ (map (fun v => if Qltb (1 - EPS) (value (x_var k i v))
                                   then 1 - nodeAvailability d v else 1) (nodes d))
              == prodQ (map (fun v => if row_asg (xs k) i v
                                      then 1 - nodeAvailability d v else 1) (nodes d))).
  { apply prodQ_map_eq. intros v Hv. unfold row_asg.
    rewrite (H i v) by (assumption || lia). reflexivity. }
  rewrite E. reflexivity.
Qed.

Lemma binary_above x : x == 0 \/ x == 1 -> Qltb (1 - EPS) x = assigned x.
Proof.
  intros Hx. unfold assigned.
  destruct (Qltb (1 - EPS) x) eqn:E1; destruct (Qle_bool (1 - EPS) x) eqn:E2;
    try reflexivity.
  - apply Qltb_lt in E1. assert (Hle : 1 - EPS <= x) by lra.
    apply Qle_bool_iff in Hle. congruence.
  - apply Qltb_ge in E1. apply Qle_bool_iff in E2. unfold EPS in E1, E2.
    destruct Hx as [Hx|Hx]; rewrite Hx in *; lra.
Qed.



(** ** The reports on the final solution in double arithmetic *)

Lemma exponent_below_two a : 0 < a -> a < 2 -> (exponent a <= 0)%Z.
Proof.
  intros Hpos Hlt. unfold exponent.
  assert (Hn : (Qnum a < 2 * Zpos (Qden a))%Z).
  { unfold Qlt in Hlt. simpl in Hlt. lia. }
  assert (Hnum : (0 < Qnum a)%Z) by (unfold Qlt in Hpos; simpl in Hpos; lia).
  assert (Hlog : (Z.log2 (Qnum a) <= Z.log2 (Zpos (Qden a)) + 1)%Z).
  { replace (Z.log2 (Zpos (Qden a)) + 1)%Z with (Z.log2 (2 * Zpos (Qden a)))
      by (rewrite Z.log2_double; lia).
    apply Z.log2_le_mono. lia. }
  destruct (Qle_bool _ _) eqn:E; [|lia].
  apply Qle_bool_iff in E.
  destruct (Z.eq_dec (Z.log2 (Qnum a) - Z.log2 (Zpos (Qden a))) 1) as [E1|Hne]; [|lia].
  rewrite E1 in E. change (2 ^ 1) with 2 in E. lra.
Qed.

Lemma binary64_rounding_wide : rounding_wide binary64.
Proof.
  intros x [Hlo Hhi]. unfold binary64.
  destruct (Qeq_bool x 0) eqn:Ez.
  { apply Qeq_bool_iff in Ez. rewrite Ez. unfold unit_roundoff.
    split; [split; discriminate|intros _; discriminate]. }
  assert (Hne : ~ x == 0) by (intros E; apply Qeq_bool_iff in E; congruence).
  assert (Ha : 0 < Qabs x).
  { destruct (Qlt_le_dec 0 x) as [Hp|Hn].
    - rewrite Qabs_pos; [exact Hp|lra].
    - rewrite Qabs_neg by exact Hn. apply Qle_lteq in Hn.
      destruct Hn as [Hn|Hn]; [lra|contradiction]. }
  assert (Ha2 : Qabs x < 2) by (apply Qabs_Qlt_condition; split; assumption).
  pose proof (exponent_below_two (Qabs x) Ha Ha2) as He.
  set (q := (Z.max (exponent (Qabs x)) (-1022) - 52)%Z).
  assert (Hq : (q <= -52)%Z) by (unfold q; lia).
  set (p := 2 ^ q).
  assert (Hp : 0 < p) by (apply Qpower_0_lt; reflexivity).
  assert (Hp52 : p <= 1 # 4503599627370496).
  { change (1 # 4503599627370496) with (2 ^ (-52)).
    apply Qpower_le_compat_l; [exact Hq|discriminate]. }
  set (y := Qabs x / p).
  assert (Hy : y * p == Qabs x).
  { unfold y. field. intros E. rewrite E in Hp. discriminate Hp. }
  pose proof (half_even_close y) as Hc.
  assert (Hm0 : (0 <= half_even y)%Z).
  { apply half_even_nonneg. unfold y. apply Qle_shift_div_l; [exact Hp|]. lra. }
  set (m := inject_Z (half_even y)) in *.
  assert (Hm0' : 0 <= m).
  { unfold m. change 0 with (inject_Z 0). rewrite <- Zle_Qle. exact Hm0. }
  assert (Herr : - unit_roundoff <= m * p - Qabs x <= unit_roundoff).
  { unfold unit_roundoff.
    assert (Hu : (1 # 9007199254740992) == (1 # 2) * (1 # 4503599627370496)) by reflexivity.
    rewrite Hu. split; nra. }
  rewrite Qred_correct.
  destruct (Qle_bool 0 x) eqn:Es.
  - apply Qle_bool_iff in Es. rewrite (Qabs_pos x Es) in Herr.
    split; [|intros _; nra]. lra.
  - assert (Hneg : x <= 0).
    { apply Qnot_lt_le. intros Hpos. apply Qlt_le_weak in Hpos.
      apply Qle_bool_iff in Hpos. congruence. }
    rewrite (Qabs_neg x Hneg) in Herr.
    split; [lra|]. intros Hpos. exfalso. apply Hne. lra.
Qed.

Lemma count_positive (viol : nat -> bool) l k :
  In k l -> viol k = true ->
  (0 < fold_left (fun nb k => if viol k then (nb + 1)%Z else nb) l 0%Z)%Z.
Proof.
  intros Hin Hv. rewrite nb_violation_fold.
  assert (Hf : In k (filter viol l)) by (apply filter_In; auto).
  destruct (filter viol l); [destruct Hf|]. simpl length. lia.
Qed.

Lemma count_zero (viol : nat -> bool) l :
  fold_left (fun nb k => if viol k then (nb + 1)%Z else nb) l 0%Z = 0%Z
  <-> forall k, In k l -> viol k = false.
Proof.
  rewrite nb_violation_fold, <- filter_nil_iff.
  destruct (filter viol l); simpl length; split; try reflexivity; try discriminate; lia.
Qed.

Section Reports.
Variable rnd : Q -> Q.
Hypothesis Hrnd : rounding_wf rnd.
Hypothesis Hwide : rounding_wide rnd.
Variable d : Data.
Hypothesis Hwf : availability_wf d.
Hypothesis Hreq : requirements_wf d.
Variable value : Var -> Q.

Let avail := Double.getServiceAvail rnd d value.
Let counted := fun k => Qltb (Double.add rnd (avail k) (rnd report_tolerance)) (getAvailability d k).
Let rounded_gap := fun k => Double.sub rnd (getAvailability d k) (avail k).
Let step := fun (m : Q) (k : nat) =>
  if Qltb (Double.add rnd m (rnd report_tolerance)) (rounded_gap k) then rounded_gap k else m.

Lemma double_service_avail_unit k : 0 <= avail k <= 1.
Proof.
  unfold avail, Double.getServiceAvail.
  generalize (seq 0 (getNbVNFs d k)). intros l.
  assert (G : forall r, 0 <= r <= 1 ->
            0 <= fold_left (fun result i =>
                   Double.mul rnd result
                     (Double.sub rnd 1
                        (fold_left (fun unavail v =>
                           if Qltb (Double.one_minus_EPS rnd) (value (x_var k i v))
                           then Double.mul rnd unavail
                                  (Double.sub rnd 1 (nodeAvailability d v))
                           else unavail) (nodes d) 1))) l r <= 1).
  { induction l as [|i l IH]; intros r Hr; [exact Hr|].
    cbn [fold_left]. apply IH.
    destruct (double_fold_failure rnd Hrnd d
                (fun v => Qltb (Double.one_minus_EPS rnd) (value (x_var k i v)))
                (nodes d) (proj2 Hwf) 1 1 0) as [F1 _]; try lra.
    cbn zeta in F1.
    set (F := fold_left _ (nodes d) 1) in *.
    assert (S1 : 0 <= Double.sub rnd 1 F <= 1).
    { unfold Double.sub. apply Hrnd. lra. }
    unfold Double.mul. apply Hrnd. split; nra. }
  apply G. lra.
Qed.

Lemma tol_rounded :
  0 <= rnd report_tolerance
  /\ - unit_roundoff <= rnd report_tolerance - report_tolerance <= unit_roundoff.
Proof.
  destruct (Hwide report_tolerance) as [H1 H2]; [unfold report_tolerance; split; reflexivity|].
  split; [apply H2; discriminate|exact H1].
Qed.

Lemma rounded_gap_close k :
  (k < getNbDemands d)%nat ->
  - unit_roundoff <= rounded_gap k - double_gap rnd d value k <= unit_roundoff.
Proof.
  intros Hk. unfold rounded_gap, double_gap, Double.sub. fold avail.
  pose proof (double_service_avail_unit k) as Ha. pose proof (Hreq k Hk) as Hr.
  apply Hwide. split; lra.
Qed.

Lemma sum_rounded m :
  0 <= m <= 1 + unit_roundoff ->
  0 <= Double.add rnd m (rnd report_tolerance)
  /\ - unit_roundoff <= Double.add rnd m (rnd report_tolerance) - (m + rnd report_tolerance) <= unit_roundoff.
Proof.
  intros Hm. destruct tol_rounded as [T1 T2]. unfold Double.add.
  assert (Hu : unit_roundoff <= 1 # 1000000) by discriminate.
  assert (Ht : report_tolerance <= 1 # 1000000) by discriminate.
  destruct (Hwide (m + rnd report_tolerance)) as [H1 H2]; [split; lra|].
  split; [apply H2; lra|exact H1].
Qed.

Lemma counted_above k :
  (k < getNbDemands d)%nat ->
  report_tolerance + roundoffs 2 < double_gap rnd d value k -> counted k = true.
Proof.
  intros Hk Hgap. unfold counted. apply Qltb_lt.
  pose proof (double_service_avail_unit k) as Ha.
  destruct (sum_rounded (avail k)) as [_ S]; [pose proof unit_roundoff_pos; lra|].
  destruct tol_rounded as [_ T].
  assert (E2 : roundoffs 2 == unit_roundoff + unit_roundoff)
    by (unfold roundoffs; simpl; ring).
  unfold double_gap in Hgap. fold avail in Hgap. lra.
Qed.

Lemma counted_below k :
  (k < getNbDemands d)%nat ->
  double_gap rnd d value k <= report_tolerance - roundoffs 2 -> counted k = false.
Proof.
  intros Hk Hgap. unfold counted. apply Qltb_ge.
  pose proof (double_service_avail_unit k) as Ha.
  destruct (sum_rounded (avail k)) as [_ S]; [pose proof unit_roundoff_pos; lra|].
  destruct tol_rounded as [_ T].
  assert (E2 : roundoffs 2 == unit_roundoff + unit_roundoff)
    by (unfold roundoffs; simpl; ring).
  unfold double_gap in Hgap. fold avail in Hgap. lra.
Qed.

Lemma not_counted_gap k :
  (k < getNbDemands d)%nat -> counted k = false ->
  double_gap rnd d value k <= report_tolerance + roundoffs 2.
Proof.
  intros Hk Hc. unfold counted in Hc. apply Qltb_ge in Hc.
  pose proof (double_service_avail_unit k) as Ha.
  destruct (sum_rounded (avail k)) as [_ S]; [pose proof unit_roundoff_pos; lra|].
  destruct tol_rounded as [_ T].
  assert (E2 : roundoffs 2 == unit_roundoff + unit_roundoff)
    by (unfold roundoffs; simpl; ring).
  unfold double_gap. fold avail. lra.
Qed.

Lemma rounded_gap_bound k :
  (k < getNbDemands d)%nat -> rounded_gap k <= 1 + unit_roundoff.
Proof.
  intros Hk. pose proof (rounded_gap_close k Hk) as Hc.
  pose proof (double_service_avail_unit k) as Ha. pose proof (Hreq k Hk) as Hr.
  unfold double_gap in Hc. fold avail in Hc. lra.
Qed.

Lemma step_cases m k :
  (Double.add rnd m (rnd report_tolerance) < rounded_gap k /\ step m k = rounded_gap k)
  \/ (rounded_gap k <= Double.add rnd m (rnd report_tolerance) /\ step m k = m).
Proof.
  unfold step. destruct (Qltb (Double.add rnd m (rnd report_tolerance)) (rounded_gap k)) eqn:E.
  - left. split; [now apply Qltb_lt|reflexivity].
  - right. split; [now apply Qltb_ge|reflexivity].
Qed.

(** The loop of getMaxAvailViolation from a positive maximum. *)
Lemma max_fold_positive l :
  (forall k, In k l -> (k < getNbDemands d)%nat) ->
  forall m, 0 < m <= 1 + unit_roundoff ->
    0 < fold_left step l m <= 1 + unit_roundoff
    /\ (fold_left step l m = m
        \/ exists k, In k l /\ fold_left step l m = rounded_gap k
                     /\ rnd report_tolerance - unit_roundoff < rounded_gap k).
Proof.
  induction l as [|k l IH]; intros Hl m Hm; cbn [fold_left].
  - split; [exact Hm|now left].
  - assert (Hl' : forall j, In j l -> (j < getNbDemands d)%nat)
      by (intros j Hj; apply Hl; now right).
    destruct (step_cases m k) as [[E Es]|[E Es]]; rewrite Es.
    + destruct (sum_rounded m) as [S0 S1]; [lra|].
      assert (Hv : 0 < rounded_gap k <= 1 + unit_roundoff).
      { split; [lra|]. apply rounded_gap_bound, Hl. now left. }
      assert (Hk : rnd report_tolerance - unit_roundoff < rounded_gap k) by lra.
      destruct (IH Hl' _ Hv) as [I1 I2]. split; [exact I1|].
      right. destruct I2 as [I2|(j & Hj & I2 & I3)].
      * exists k. split; [now left|]. split; [exact I2|exact Hk].
      * exists j. split; [now right|]. split; [exact I2|exact I3].
    + destruct (IH Hl' _ Hm) as [I1 I2]. split; [exact I1|].
      destruct I2 as [I2|(j & Hj & I2 & I3)]; [now left|].
      right. exists j. split; [now right|]. split; [exact I2|exact I3].
Qed.

(** The loop from the initial maximum 0: either no demand replaces it, or
    the result is the positive rounded gap of some demand. *)
Lemma max_fold_zero l :
  (forall k, In k l -> (k < getNbDemands d)%nat) ->
  (fold_left step l 0 = 0
   /\ forall k, In k l -> rounded_gap k <= Double.add rnd 0 (rnd report_tolerance))
  \/ (0 < fold_left step l 0 <= 1 + unit_roundoff
      /\ exists k, In k l /\ fold_left step l 0 = rounded_gap k
                   /\ rnd report_tolerance - unit_roundoff < rounded_gap k).
Proof.
  induction l as [|k l IH]; intros Hl; cbn [fold_left].
  - left. split; [reflexivity|intros k []].
  - assert (Hl' : forall j, In j l -> (j < getNbDemands d)%nat)
      by (intros j Hj; apply Hl; now right).
    destruct (step_cases 0 k) as [[E Es]|[E Es]]; rewrite Es.
    + right.
      destruct (sum_rounded 0) as [S0 S1]; [pose proof unit_roundoff_pos; lra|].
      assert (Hv : 0 < rounded_gap k <= 1 + unit_roundoff).
      { split; [lra|]. apply rounded_gap_bound, Hl. now left. }
      assert (Hk : rnd report_tolerance - unit_roundoff < rounded_gap k) by lra.
      destruct (max_fold_positive l Hl' _ Hv) as [I1 I2]. split; [exact I1|].
      destruct I2 as [I2|(j & Hj & I2 & I3)].
      * exists k. split; [now left|]. split; [exact I2|exact Hk].
      * exists j. split; [now right|]. split; [exact I2|exact I3].
    + destruct (IH Hl') as [[I1 I2]|(I1 & j & Hj & I2 & I3)].
      * left. split; [exact I1|]. intros j [<-|Hj]; [exact E|now apply I2].
      * right. split; [exact I1|]. exists j. split; [now right|].
        split; [exact I2|exact I3].
Qed.

(** X26.  The two reports on the final solution, in double arithmetic,
    agree outside a band of three unit roundoffs around the tolerance 1e-12.
    The gap of a demand is its required availability minus the availability
    that getServiceAvail returns.  If every gap is at most the tolerance less
    three roundoffs, getNbAvailViolation and getMaxAvailViolation are both 0;
    if some gap exceeds the tolerance by more than three roundoffs, both are
    positive.  When no violation is counted the reported maximum is at most
    the tolerance plus three roundoffs, and when the reported maximum is 0
    no gap exceeds that either.  The maximum is never negative, and when it
    is not 0 it is the rounded gap of some demand. *)
Theorem reported_violations_agree :
  let gap := double_gap rnd d value in
  let count := Double.getNbAvailViolation rnd d value in
  let M := Double.getMaxAvailViolation rnd d value in
  ((forall k, (k < getNbDemands d)%nat -> gap k <= report_tolerance - roundoffs 3) ->
   count = 0%Z /\ M = 0)
  /\ ((exists k, (k < getNbDemands d)%nat /\ report_tolerance + roundoffs 3 < gap k) ->
      (0 < count)%Z /\ 0 < M)
  /\ (count = 0%Z -> M <= report_tolerance + roundoffs 3)
  /\ (M == 0 -> forall k, (k < getNbDemands d)%nat ->
                   gap k <= report_tolerance + roundoffs 3)
  /\ 0 <= M
  /\ (M = 0
      \/ exists k, (k < getNbDemands d)%nat /\ 0 < M
           /\ M = Double.sub rnd (getAvailability d k)
                             (Double.getServiceAvail rnd d value k)).
Proof.
  intros gap count M.
  assert (Hl : forall k, In k (seq 0 (getNbDemands d)) -> (k < getNbDemands d)%nat)
    by (intros k Hk; apply in_seq in Hk; lia).
  assert (EM : M = fold_left step (seq 0 (getNbDemands d)) 0) by reflexivity.
  assert (EC : count = fold_left (fun nb k => if counted k then (nb + 1)%Z else nb)
                                 (seq 0 (getNbDemands d)) 0%Z) by reflexivity.
  assert (E2 : roundoffs 2 == unit_roundoff + unit_roundoff)
    by (unfold roundoffs; simpl; ring).
  assert (E3 : roundoffs 3 == unit_roundoff + unit_roundoff + unit_roundoff)
    by (unfold roundoffs; simpl; ring).
  pose proof unit_roundoff_pos as Hu.
  destruct tol_rounded as [T0 T1].
  destruct (sum_rounded 0) as [S0 S1]; [lra|].
  assert (Hclose : forall k, (k < getNbDemands d)%nat ->
            - unit_roundoff <= rounded_gap k - gap k <= unit_roundoff)
    by (intros k Hk; apply rounded_gap_close; exact Hk).
  pose proof (max_fold_zero _ Hl) as Hmax. rewrite <- EM in Hmax.
  split; [|split; [|split; [|split; [|split]]]].
  - intros Hall. split.
    + rewrite EC. apply count_zero. intros k Hk. apply counted_below; [now apply Hl|].
      specialize (Hall k (Hl k Hk)). unfold gap in Hall. lra.
    + destruct Hmax as [[Hz _]|(_ & k & Hk & _ & Hlow)]; [exact Hz|].
      exfalso. specialize (Hall k (Hl k Hk)). specialize (Hclose k (Hl k Hk)). lra.
  - intros (k & Hk & Hgap). split.
    + rewrite EC. apply (count_positive counted _ k); [apply in_seq; lia|].
      apply counted_above; [exact Hk|]. unfold gap in Hgap. lra.
    + destruct Hmax as [[_ Hz]|(Hpos & _)]; [|apply Hpos].
      exfalso. specialize (Hz k ltac:(apply in_seq; lia)). specialize (Hclose k Hk). lra.
  - intros Hc. rewrite EC in Hc.
    destruct Hmax as [[Hz _]|(_ & k & Hk & Hv & _)]; [rewrite Hz; lra|].
    pose proof (proj1 (count_zero counted _) Hc k Hk) as Hnc.
    pose proof (not_counted_gap k (Hl k Hk) Hnc) as Hg.
    specialize (Hclose k (Hl k Hk)). rewrite Hv. unfold gap in Hclose. lra.
  - intros Hz k Hk.
    destruct Hmax as [[_ Hall]|(Hpos & _)]; [|exfalso; lra].
    specialize (Hall k ltac:(apply in_seq; lia)). specialize (Hclose k Hk). lra.
  - destruct Hmax as [[Hz _]|(Hpos & _)]; [rewrite Hz; lra|lra].
  - destruct Hmax as [[Hz _]|(Hpos & k & Hk & Hv & _)]; [now left|].
    right. exists k. split; [now apply Hl|]. split; [apply Hpos|exact Hv].
Qed.
End Reports.

Lemma reported_violations_agree_witness :
  Double.getNbAvailViolation binary64 eighth_instance (getCandidatePoint full_candidate)
  = 0%Z
  /\ 0 < Double.getMaxAvailViolation binary64 eighth_instance
            (getCandidatePoint full_candidate)
  /\ Double.getMaxAvailViolation binary64 eighth_instance
       (getCandidatePoint full_candidate)
     <= report_tolerance + roundoffs 3.
Proof.
  split; [vm_compute; reflexivity|]. split; [vm_compute; reflexivity|].
  refine (proj1 (proj2 (proj2
            (reported_violations_agree binary64 binary64_rounding_wf
               binary64_rounding_wide eighth_instance
               (chain_instance_wf _ _ _ _ _) _ (getCandidatePoint full_candidate)))) _).
  - intros v. split; discriminate.
  - intros k _. apply binary64_rounding_wf. split; discriminate.
  - vm_compute. reflexivity.
Defined.
